(** * Pipeline-parallel pass utilities of [paddle.distributed.passes.pass_utils]

    A shallow embedding of [python/paddle/distributed/passes/pass_utils.py]:
    the graph slicer ([prune_program], [split_program]), the no-need-buffer
    analysis ([OpInOutInfo]), the skip-GC computation ([set_skip_gc_vars]),
    the sub-program re-materializer ([_create_var], [_create_program]) and
    the stream passes ([_overlap_send_recv], [_insert_sync_for_fthenb_1f1b],
    [_program_for_fthenb_and_1f1b]) and the event dependencies
    ([_add_event_dependency]).

    Python lists are Rocq lists, Python [set]s of names are [gset string],
    dictionaries keyed by name are [gmap string _], an [OrderedDict] used as
    an insertion-ordered set is a duplicate-free list, Python integers are
    [Z], and a raised exception is the [Raise] branch of [result]. *)

From Stdlib Require Import ZArith List String Lia Sorted.
From stdpp Require Import base option list gmap sets strings pretty sorting.

Open Scope string_scope.
Open Scope Z_scope.
Open Scope list_scope.

(** ** Python exceptions and the exception monad *)

Inductive exn : Type :=
| AssertionError (msg : string)
| ValueError (msg : string)
| KeyError (key : string)
| IndexError
| TypeError
| AttributeNotFound (name : string).

Inductive result (A : Type) : Type :=
| Ok (a : A)
| Raise (e : exn).
Arguments Ok {A} a.
Arguments Raise {A} e.

#[global] Instance result_ret : MRet result := @Ok.
#[global] Instance result_bind : MBind result :=
  λ A B f m, match m with Ok a => f a | Raise e => Raise e end.

(** [assert cond, msg] *)
Definition py_assert (cond : bool) (msg : string) : result unit :=
  if cond then Ok () else Raise (AssertionError msg).

(** A loop whose body may raise: [for x in l: acc = body(acc, x)]. *)
Fixpoint for_each {A S : Type} (body : S → A → result S) (l : list A) (s : S)
  : result S :=
  match l with
  | [] => Ok s
  | x :: l' => s' ← body s x; for_each body l' s'
  end.

(** [[f(x) for x in l]] where [f] may raise. *)
Fixpoint for_list {A B : Type} (f : A → result B) (l : list A) : result (list B) :=
  match l with
  | [] => Ok []
  | x :: l' => y ← f x; ys ← for_list f l'; Ok (y :: ys)
  end.

(** A loop over objects that are updated in place: when the body raises,
    the state reached so far is what the caller is left with. *)
Fixpoint for_each_st {A S : Type} (body : S → A → S * option exn)
    (l : list A) (s : S) : S * option exn :=
  match l with
  | [] => (s, None)
  | x :: l' =>
      match body s x with
      | (s', None) => for_each_st body l' s'
      | (s', Some e) => (s', Some e)
      end
  end.

(** [range(hi, lo, -1)]: [hi, hi-1, ..., lo+1]. *)
Definition range_down (hi lo : Z) : list Z :=
  map (λ k : nat, hi - Z.of_nat k) (seq 0 (Z.to_nat (hi - lo))).

(** [range(lo, hi)] on naturals. *)
Definition range (lo hi : nat) : list nat := seq lo (hi - lo).

(** [str(z)] for a Python integer: its decimal representation. *)
Definition str_int (z : Z) : string := @pretty Z _ z.

(** An [OrderedDict] whose values are all [True]: the list of its keys in
    insertion order.  [d[x] = True] appends [x] when it is a new key. *)
Definition odict_set (d : list string) (x : string) : list string :=
  if decide (x ∈ d) then d else d ++ [x].

(** ** The program model consumed by the passes

    Modelled from the spec: the classes [Variable] (here [Var]), [Parameter], [Operator],
    [Block] and [Program] of [paddle.base.framework] are imported by
    [pass_utils.py]; the records below follow section 3 of the design
    (blocks are ordered operator lists plus name-keyed declarations, a
    program is an ordered list of blocks with block 0 the global block). *)

Inductive VarType : Type :=
| LOD_TENSOR | SELECTED_ROWS | READER | STEP_SCOPES
| LOD_TENSOR_ARRAY | FEED_MINIBATCH | FETCH_LIST | RAW.

#[global] Instance VarType_eq_dec : EqDecision VarType.
Proof. solve_decision. Defined.

Definition __not_shape_var_type__ : list VarType :=
  [READER; STEP_SCOPES; LOD_TENSOR_ARRAY; FEED_MINIBATCH; FETCH_LIST].

(** Training metadata carried by a [Parameter]. *)
Record ParamAttrs : Type := {
  trainable : bool;
  optimize_attr : string;
  regularizer : option string;
  do_model_average : option bool;
  need_clip : bool
}.

Record Var : Type := {
  var_type : VarType;
  var_name : string;
  shape : option (list Z);
  dtype : option string;
  lod_level : option Z;
  persistable : bool;
  error_clip : option string;
  stop_gradient : bool;
  is_data : bool;
  belong_to_optimizer : bool;
  (** [Some _] exactly when [isinstance(var, Parameter)] *)
  param_attrs : option ParamAttrs
}.

(** Operator attributes: a closed variant of the attribute kinds used here. *)
Inductive AttrValue : Type :=
| AInt (z : Z)
| ABool (b : bool)
| AStr (s : string)
| AInts (l : list Z).

Record DistAttr : Type := {
  execution_stream : string;
  stream_priority : Z;
  force_record_event : bool;
  event_to_record : string;
  events_to_wait : list string
}.

Record Operator : Type := {
  op_type : string;
  (** input slots, each with its ordered argument names *)
  inputs : list (string * list string);
  outputs : list (string * list string);
  attrs : gmap string AttrValue;
  dist_attr : DistAttr
}.

Definition input_names (op : Operator) : list string := (inputs op).*1.
Definition output_names (op : Operator) : list string := (outputs op).*1.

Definition slot_args (slots : list (string * list string)) (slot : string)
  : list string :=
  match list_find (λ p, p.1 = slot) slots with
  | Some (_, p) => p.2
  | None => []
  end.

(** [op.input(slot)], [op.output(slot)] *)
Definition input (op : Operator) (slot : string) : list string :=
  slot_args (inputs op) slot.
Definition output (op : Operator) (slot : string) : list string :=
  slot_args (outputs op) slot.

(** [op.input_arg_names], [op.output_arg_names]: the arguments of all slots,
    slot after slot. *)
Definition input_arg_names (op : Operator) : list string :=
  concat ((inputs op).*2).
Definition output_arg_names (op : Operator) : list string :=
  concat ((outputs op).*2).

Definition has_attr (op : Operator) (name : string) : bool :=
  bool_decide (is_Some (attrs op !! name)).
(** [op.attr(name)] raises when the attribute is absent. *)
Definition attr (op : Operator) (name : string) : result AttrValue :=
  match attrs op !! name with
  | Some v => Ok v
  | None => Raise (AttributeNotFound name)
  end.
Definition _set_attr (op : Operator) (name : string) (v : AttrValue) : Operator :=
  {| op_type := op_type op; inputs := inputs op; outputs := outputs op;
     attrs := <[name := v]> (attrs op); dist_attr := dist_attr op |}.

Record Block : Type := {
  parent_idx : Z;
  forward_block_idx : Z;
  ops : list Operator;
  vars : gmap string Var
}.

(** A program always has its global block (block 0). *)
Record Program : Type := {
  global : Block;
  sub_blocks : list Block
}.

Definition blocks (p : Program) : list Block := global p :: sub_blocks p.
Definition global_block (p : Program) : Block := global p.

Definition set_ops (b : Block) (l : list Operator) : Block :=
  {| parent_idx := parent_idx b; forward_block_idx := forward_block_idx b;
     ops := l; vars := vars b |}.
Definition set_vars (b : Block) (m : gmap string Var) : Block :=
  {| parent_idx := parent_idx b; forward_block_idx := forward_block_idx b;
     ops := ops b; vars := m |}.
Definition set_global (p : Program) (b : Block) : Program :=
  {| global := b; sub_blocks := sub_blocks p |}.

(** [block._remove_op(idx, sync=False)]: [del self.ops[idx]]. *)
Definition _remove_op (b : Block) (idx : Z) : result Block :=
  if decide (0 ≤ idx < Z.of_nat (length (ops b))) then
    Ok (set_ops b (delete (Z.to_nat idx) (ops b)))
  else Raise IndexError.

(** [block._remove_var(name, sync=False)] *)
Definition _remove_var (b : Block) (name : string) : Block :=
  set_vars b (delete name (vars b)).

(** [block.has_var(name)] *)
Definition has_var (b : Block) (name : string) : bool :=
  bool_decide (is_Some (vars b !! name)).

(** ** Inputs and outputs of a program *)

Definition list_to_ordered_dict (list_obj : list string)
    (ordered_dict : list string) : list string :=
  foldl odict_set ordered_dict list_obj.

(** State of the scan in [get_inputs_of_program]. *)
Definition inputs_step (st : gset string * list string) (op : Operator)
  : gset string * list string :=
  let st1 :=
    foldl (λ (st : gset string * list string) (in_var_name : string),
             if decide (in_var_name ∈ st.1) then st
             else ({[in_var_name]} ∪ st.1, st.2 ++ [in_var_name]))
          st (input_arg_names op) in
  (foldl (λ (visited : gset string) (out_var_name : string),
            {[out_var_name]} ∪ visited)
         st1.1 (output_arg_names op), st1.2).

Definition get_inputs_of_program (program : Program) : list string :=
  (foldl inputs_step (∅, []) (ops (global_block program))).2.

Definition get_outputs_of_program (program : Program) : list string :=
  foldl (λ output_vars op, list_to_ordered_dict (output_arg_names op) output_vars)
        [] (ops (global_block program)).

(** ** [prune_program] *)

Definition resolve_index (idx op_num : Z) : Z :=
  if decide (idx < 0) then idx + op_num else idx.

Definition remove_ops (b : Block) (idxs : list Z) : result Block :=
  for_each _remove_op idxs b.

Definition op_names (l : list Operator) : gset string :=
  foldl (λ (valid_vars : gset string) op,
           let s := foldl (λ (s : gset string) (x : string), {[x]} ∪ s)
                          valid_vars (input_arg_names op) in
           foldl (λ (s : gset string) (x : string), {[x]} ∪ s) s
                 (output_arg_names op))
        ∅ l.

Definition prune_program (program : Program) (start_op_idx end_op_idx : Z)
  : result Program :=
  let op_num := Z.of_nat (length (ops (global_block program))) in
  let start_op_idx := resolve_index start_op_idx op_num in
  _ ← py_assert (bool_decide (start_op_idx >= 0 ∧ start_op_idx < op_num)) "";
  let end_op_idx := resolve_index end_op_idx op_num in
  _ ← py_assert (bool_decide (end_op_idx >= 0 ∧ end_op_idx ≤ op_num))
                (str_int end_op_idx);
  _ ← py_assert (bool_decide (start_op_idx < end_op_idx)) "";
  b ← remove_ops (global_block program) (range_down (op_num - 1) (end_op_idx - 1));
  b ← remove_ops b (range_down (start_op_idx - 1) (-1));
  let valid_vars := op_names (ops b) in
  let vars_to_remove :=
    filter (λ var, var ∉ valid_vars) (map_to_list (vars b)).*1 in
  let b := foldl _remove_var b vars_to_remove in
  Ok (set_global program b).

(** ** [split_program] *)

(** [[(l[idx], l[idx+1]) for idx in range(len(l) - 1)]] *)
Fixpoint adjacent_pairs (l : list Z) : list (Z * Z) :=
  match l with
  | a :: (b :: _) as tl => (a, b) :: adjacent_pairs tl
  | _ => []
  end.

Definition normalize_indices (op_num : Z) (op_indices : list Z) : list Z :=
  let op_indices :=
    map (λ idx, if decide (idx >= 0) then idx else idx + op_num) op_indices in
  let op_indices :=
    if decide (head op_indices = Some 0) then op_indices else 0 :: op_indices in
  if decide (last op_indices = Some op_num) then op_indices
  else op_indices ++ [op_num].

(** The largest [j < i] whose raw outputs contain [x]:
    [for j in reversed(range(i)): if x in output_vars[j]: ...; break]. *)
Fixpoint nearest_writer (output_vars : list (list string)) (i : nat)
    (x : string) : option nat :=
  match i with
  | O => None
  | S j => if decide (x ∈ default [] (output_vars !! j)) then Some j
           else nearest_writer output_vars j x
  end.

Definition mark_valid (output_vars : list (list string)) (i : nat)
    (valid_output_vars : list (list string)) (in_var_name : string)
  : list (list string) :=
  match nearest_writer output_vars i in_var_name with
  | Some j => alter (λ d, odict_set d in_var_name) j valid_output_vars
  | None => valid_output_vars
  end.

(** The second pass of [split_program].  [valid_output_vars[-1]] is the very
    dictionary [output_vars[-1]]; the loop only writes to positions [j < i],
    below the last one, so that dictionary is never written to. *)
Definition valid_outputs (input_vars output_vars : list (list string))
  : list (list string) :=
  let num_split := length output_vars in
  let valid_output_vars := replicate num_split [] in
  let valid_output_vars :=
    <[(num_split - 1)%nat := default [] (last output_vars)]> valid_output_vars in
  foldl (λ valid i,
           foldl (mark_valid output_vars i) valid (default [] (input_vars !! i)))
        valid_output_vars (range 1 num_split).

Definition split_program (program : Program) (op_indices : list Z)
  : result (list Program * list (list string) * list (list string)) :=
  _ ← py_assert (bool_decide (op_indices ≠ [])) "op_indices cannot be empty";
  let op_num := Z.of_nat (length (ops (global_block program))) in
  _ ← py_assert (bool_decide (op_num > 0)) "program cannot be empty";
  let op_indices := normalize_indices op_num op_indices in
  _ ← for_each (λ _ '(a, b),
         py_assert (bool_decide (a < b)) "op_indices must be strictly sorted")
       (adjacent_pairs op_indices) ();
  splitted_programs ←
    for_list (λ '(a, b), prune_program program a b) (adjacent_pairs op_indices);
  let input_vars := map get_inputs_of_program splitted_programs in
  let output_vars :=
    map (λ p, list_to_ordered_dict (get_outputs_of_program p) [])
        splitted_programs in
  Ok (splitted_programs, input_vars, valid_outputs input_vars output_vars).

(** ** Blocks of a program, by index *)

Definition block (p : Program) (idx : nat) : option Block := blocks p !! idx.

Definition set_block (p : Program) (idx : nat) (b : Block) : Program :=
  match idx with
  | O => set_global p b
  | S k => {| global := global p; sub_blocks := <[k := b]> (sub_blocks p) |}
  end.

(** Modelled from the spec: [Block._find_var_recursive] of
    [paddle.base.framework] is not part of [pass_utils.py]; following the
    design, the lookup tries the block itself and then walks the chain of
    parent blocks ([parent_idx], [-1] at the root), returning [None] when no
    block on the chain declares the name. *)
Fixpoint find_var_from (blks : list Block) (fuel : nat) (b : Block)
    (name : string) : option Var :=
  match vars b !! name with
  | Some v => Some v
  | None =>
      match fuel with
      | O => None
      | S fuel' =>
          if decide (parent_idx b < 0) then None
          else match blks !! Z.to_nat (parent_idx b) with
               | Some pb => find_var_from blks fuel' pb name
               | None => None
               end
      end
  end.

Definition _find_var_recursive (p : Program) (b : Block) (name : string)
  : option Var :=
  find_var_from (blocks p) (length (blocks p)) b name.

(** [block.var(name)] and [block._var_recursive(name)] raise [ValueError]
    when the name is not found. *)
Definition var (b : Block) (name : string) : result Var :=
  match vars b !! name with
  | Some v => Ok v
  | None => Raise (ValueError ("var " +:+ name +:+ " not in this block"))
  end.

Definition _var_recursive (p : Program) (b : Block) (name : string)
  : result Var :=
  match _find_var_recursive p b name with
  | Some v => Ok v
  | None => Raise (ValueError ("Var " +:+ name +:+ " is not found recursively"))
  end.

(** Modelled from the spec: [Block.create_var] and the [Parameter]
    constructor register a declaration under its name in the block.
    Declarations are keyed by name and, following the design of the
    re-materializer, a declaration is created only for a name the block
    does not declare yet: a name that is already declared keeps the
    declaration it has. *)
Definition declare (b : Block) (v : Var) : Block :=
  if has_var b (var_name v) then b
  else set_vars b (<[var_name v := v]> (vars b)).

(** Modelled from the spec: [block.desc.append_op()] followed by
    [copy_from], and [Block._insert_op_without_sync(index, ...)], which
    inserts like [list.insert]. *)
Definition append_op (b : Block) (op : Operator) : Block :=
  set_ops b (ops b ++ [op]).

Definition list_insert_at {A : Type} (i : nat) (x : A) (l : list A) : list A :=
  take i l ++ x :: drop i l.

Definition default_dist_attr : DistAttr :=
  {| execution_stream := ""; stream_priority := 0;
     force_record_event := false; event_to_record := "";
     events_to_wait := [] |}.

(** [Operator(block, desc, type=..., inputs=..., outputs=..., attrs=...)] *)
Definition new_op (type : string) (inputs outputs : list (string * list string))
    (attrs : list (string * AttrValue)) : Operator :=
  {| op_type := type; inputs := inputs; outputs := outputs;
     attrs := foldl (λ m kv, <[kv.1 := kv.2]> m) ∅ attrs;
     dist_attr := default_dist_attr |}.

Definition set_dist_attr (op : Operator) (d : DistAttr) : Operator :=
  {| op_type := op_type op; inputs := inputs op; outputs := outputs op;
     attrs := attrs op; dist_attr := d |}.

(** [str(v)] for an attribute value. *)
Definition py_str (v : AttrValue) : string :=
  match v with
  | AInt z => str_int z
  | ABool true => "True"
  | ABool false => "False"
  | AStr s => s
  | AInts l => "[" +:+ String.concat ", " (map str_int l) +:+ "]"
  end.

(** [int(v)] for an attribute value holding an integer or a boolean; the
    other kinds are not integers (parsing of strings is not needed here:
    [op_role] is an integer attribute). *)
Definition py_int (v : AttrValue) : result Z :=
  match v with
  | AInt z => Ok z
  | ABool b => Ok (if b then 1 else 0)
  | AStr _ => Raise (ValueError "invalid literal for int()")
  | AInts _ => Raise TypeError
  end.

(** [l[0]] *)
Definition first_arg (l : list string) : result string :=
  match l with
  | x :: _ => Ok x
  | [] => Raise IndexError
  end.

(** [dict(zip(keys, values))]: a later pair overrides an earlier one. *)
Definition py_dict {V : Type} (l : list (string * V)) : gmap string V :=
  foldl (λ m kv, <[kv.1 := kv.2]> m) ∅ l.

(** [sorted(s)] for a set of names: lexicographic order on the bytes. *)
Definition str_le (a b : string) : Prop := String.leb a b = true.
#[global] Instance str_le_dec : RelDecision str_le.
Proof. intros a b. unfold str_le. apply _. Defined.

Definition sorted_names (s : gset string) : list string :=
  merge_sort str_le (elements s).

(** ** [OpInOutInfo] *)

Record OpInOutInfo : Type := {
  _is_build : bool;
  _no_need_buffer_slots : gset string;
  _other_arg_names_set : gset string
}.

(** [OpInOutInfo()] *)
Definition OpInOutInfo_init : OpInOutInfo :=
  {| _is_build := false; _no_need_buffer_slots := ∅;
     _other_arg_names_set := ∅ |}.

Definition _get_op_attrs (op : Operator)
  : list (string * list string) * list (string * list string)
    * gmap string AttrValue :=
  (map (λ input_name, (input_name, input op input_name)) (input_names op),
   map (λ output_name, (output_name, output op output_name)) (output_names op),
   attrs op).

Definition var_can_be_deleted (p : Program) (var_name : string) (b : Block)
  : bool :=
  match _find_var_recursive p b var_name with
  | Some v => negb (persistable v)
  | None => false
  end.

(** A scheduled job: its type, its micro-batch and the skip-GC set that
    [set_skip_gc_vars] records in it. *)
Record Job : Type := {
  job_type : string;
  micro_batch_id : Z;
  skip_gc_vars : gset string
}.

Definition job_set_skip_gc_vars (job : Job) (s : gset string) : Job :=
  {| job_type := job_type job; micro_batch_id := micro_batch_id job;
     skip_gc_vars := s |}.

Definition new_job (type : string) (micro_batch : Z) : Job :=
  {| job_type := type; micro_batch_id := micro_batch; skip_gc_vars := ∅ |}.

(** The position [l[i]] refers to, when [i] is a valid Python index. *)
Definition py_slot (n : nat) (i : Z) : option nat :=
  let k := if decide (i < 0) then i + Z.of_nat n else i in
  if decide (0 ≤ k < Z.of_nat n) then Some (Z.to_nat k) else None.

Section PassUtils.

(** The collaborators of the module: the no-need-buffer registry of [core],
    the role classifiers of [auto_parallel.static.utils], the [OpRole]
    constants, the executor switches, and Python's rendering of a set in
    an assertion message. *)
Context (infer_no_need_buffer_slots :
           string → list (string * list string) → list (string * list string)
           → gmap string AttrValue → gset string).
Context (is_forward_op is_backward_op is_optimize_op : Operator → bool).
Context (OpRole_Forward OpRole_Backward OpRole_Optimize : Z).
Context (use_new_executor : bool).
Context (FLAGS_enable_pir_in_executor : bool).
Context (repr_set : gset string → string).

Definition build_info (self : OpInOutInfo) (op : Operator) : OpInOutInfo :=
  let '(inputs, outputs, attrs) := _get_op_attrs op in
  let no_need := infer_no_need_buffer_slots (op_type op) inputs outputs attrs in
  if bool_decide (size no_need = 0%nat) then
    {| _is_build := _is_build self; _no_need_buffer_slots := no_need;
       _other_arg_names_set := _other_arg_names_set self |}
  else
    let other :=
      foldl (λ (other : gset string) slot_name,
               if decide (slot_name ∈ no_need) then other
               else foldl (λ (other : gset string) (in_name : string),
                             {[in_name]} ∪ other) other (input op slot_name))
            (_other_arg_names_set self) (input_names op) in
    let other :=
      foldl (λ (other : gset string) slot_name,
               if decide (slot_name ∈ no_need) then other
               else foldl (λ (other : gset string) (out_name : string),
                             {[out_name]} ∪ other) other (output op slot_name))
            other (output_names op) in
    {| _is_build := true; _no_need_buffer_slots := no_need;
       _other_arg_names_set := other |}.

Definition is_needed (self : OpInOutInfo) (arg_name : string) : bool :=
  bool_decide (size (_no_need_buffer_slots self) = 0%nat)
  || bool_decide (arg_name ∈ _other_arg_names_set self).

(** ** [prepare_ir_program]

    The two programs are objects of the store [progs], addressed by their
    position, so that a program passed as both arguments is updated once. *)

Definition deletable_outputs (p : Program) : gset string :=
  foldl (λ (s : gset string) op,
           foldl (λ (s : gset string) (arg_name : string),
                    if var_can_be_deleted p arg_name (global_block p)
                    then {[arg_name]} ∪ s else s) s (output_arg_names op))
        ∅ (ops (global_block p)).

Definition deletable_inputs (p : Program) : gset string :=
  foldl (λ (s : gset string) op,
           foldl (λ (s : gset string) (arg_name : string),
                    if var_can_be_deleted p arg_name (global_block p)
                    then {[arg_name]} ∪ s else s) s (input_arg_names op))
        ∅ (ops (global_block p)).

Definition shadow_op (var_name : string) : Operator :=
  new_op "shadow_output" [("x", [var_name])] [("out", ["@EMPTY@"])]
         [("name", AStr var_name)].

Definition data_op (var_name : string) : Operator :=
  new_op "data" [] [("out", [var_name])]
         [("shape", AInts []); ("dtype", AInt 0); ("place", AInt 2);
          ("name", AStr var_name)].

Definition prepare_ir_program (progs : list Program) (cur next : nat)
  : list Program :=
  match progs !! cur, progs !! next with
  | Some cur_prog, Some next_prog =>
      let set_output_names := deletable_outputs cur_prog in
      let set_input_names := deletable_inputs next_prog in
      let shadow_var_names := sorted_names (set_output_names ∩ set_input_names) in
      foldl (λ progs var_name,
               let progs :=
                 alter (λ p, set_global p
                               (append_op (global_block p) (shadow_op var_name)))
                       cur progs in
               alter (λ p, set_global p
                             (set_ops (global_block p)
                                (data_op var_name :: ops (global_block p))))
                     next progs)
            progs shadow_var_names
  | _, _ => progs
  end.

(** ** [set_skip_gc_vars] *)

Definition skipped_op_types : list string :=
  ["c_sync_comm_stream"; "conditional_block"; "nop"; "while"].

(** step 1, for one sub-program *)
Definition required_vars (program : Program) : gset string :=
  foldl (λ (acc : gset string) blk,
    foldl (λ (acc : gset string) op,
      if decide (op_type op ∈ skipped_op_types) then acc
      else
        let op_info := build_info OpInOutInfo_init op in
        foldl (λ (acc : gset string) (arg_name : string),
                 if var_can_be_deleted program arg_name blk
                    && is_needed op_info arg_name
                 then {[arg_name]} ∪ acc else acc)
              acc (input_arg_names op ++ output_arg_names op))
      acc (ops blk))
    ∅ (blocks program).

Definition backward_message (skip : gset string) : string :=
  "When enabling pipeline parallelism stategy, the skip_gc_vars for backward subprogram must be empty, but it is "
  +:+ repr_set skip +:+ ".".

(** step 2, for the job at position [job_id]: the state is the list of job
    objects and the accumulator sets; an exception leaves the state as it
    is at that point. *)
Definition skip_gc_step (type_to_required_vars : gmap string (gset string))
    (st : list Job * list (gset string)) (job_id : nat)
  : (list Job * list (gset string)) * option exn :=
  let '(jobs, suffixed_required_vars) := st in
  match jobs !! job_id with
  | None => (st, Some IndexError)
  | Some job =>
      match type_to_required_vars !! job_type job with
      | None => (st, Some (KeyError (job_type job)))
      | Some required_vars =>
          match py_slot (length suffixed_required_vars) (micro_batch_id job) with
          | None => (st, Some IndexError)
          | Some m =>
              let skip_gc_vars :=
                required_vars ∩ default ∅ (suffixed_required_vars !! m) in
              if bool_decide (job_type job = "backward")
                 && negb (bool_decide (size skip_gc_vars = 0%nat))
              then (st, Some (AssertionError (backward_message skip_gc_vars)))
              else
                ((<[job_id := job_set_skip_gc_vars job skip_gc_vars]> jobs,
                  alter (λ s, s ∪ required_vars) m suffixed_required_vars),
                 None)
          end
      end
  end.

Definition skip_gc_loop (type_to_required_vars : gmap string (gset string))
    (job_ids : list nat) (st : list Job * list (gset string))
  : (list Job * list (gset string)) * option exn :=
  for_each_st (skip_gc_step type_to_required_vars) job_ids st.

(** [dict(zip(job_types, sub_programs))], each program by its position *)
Definition type_to_program_of (job_types : list string)
    (sub_programs : list Program) : gmap string nat :=
  py_dict (zip job_types (seq 0 (length sub_programs))).

Definition type_to_required_vars_of (job_types : list string)
    (sub_programs : list Program) : gmap string (gset string) :=
  (λ i, default ∅ (required_vars <$> sub_programs !! i))
  <$> type_to_program_of job_types sub_programs.

Definition prepare_step (type_to_program : gmap string nat)
    (progs : list Program) (e : string * string)
  : list Program * option exn :=
  let '(type, next_type) := e in
  match type_to_program !! type with
  | None => (progs, Some (KeyError type))
  | Some cur =>
      match type_to_program !! next_type with
      | None => (progs, Some (KeyError next_type))
      | Some next => (prepare_ir_program progs cur next, None)
      end
  end.

(** The outcome of [set_skip_gc_vars]: the job objects and the sub-program
    store as the call leaves them, and either the returned
    [type_to_program] (job type to position in the store) or the raised
    exception. *)
Record SkipGcOutcome : Type := {
  out_jobs : list Job;
  out_programs : list Program;
  out_result : result (gmap string nat)
}.

Definition set_skip_gc_vars (num_micro_batches : Z) (job_types : list string)
    (sub_programs : list Program) (jobs : list Job) : SkipGcOutcome :=
  if negb (bool_decide (num_micro_batches >= 1)) then
    {| out_jobs := jobs; out_programs := sub_programs;
       out_result := Raise (AssertionError "num_micro_batches needs to be >= 1") |}
  else
    let type_to_program := type_to_program_of job_types sub_programs in
    let type_to_required_vars :=
      type_to_required_vars_of job_types sub_programs in
    let suffixed_required_vars :=
      replicate (Z.to_nat num_micro_batches) (∅ : gset string) in
    let num_jobs := length jobs in
    match skip_gc_loop type_to_required_vars (rev (range 0 num_jobs))
                       (jobs, suffixed_required_vars) with
    | ((jobs, _), Some e) =>
        {| out_jobs := jobs; out_programs := sub_programs; out_result := Raise e |}
    | ((jobs, _), None) =>
        if FLAGS_enable_pir_in_executor then
          match for_each_st (prepare_step type_to_program)
                            (zip job_types (tail job_types)) sub_programs with
          | (progs, None) =>
              {| out_jobs := jobs; out_programs := progs;
                 out_result := Ok type_to_program |}
          | (progs, Some e) =>
              {| out_jobs := jobs; out_programs := progs;
                 out_result := Raise e |}
          end
        else
          {| out_jobs := jobs; out_programs := sub_programs;
             out_result := Ok type_to_program |}
    end.

(** ** The sub-program re-materializer *)

Definition _create_param (dst_block : Block) (src_var : Var) (pa : ParamAttrs)
  : Block :=
  declare dst_block
    {| var_type := var_type src_var; var_name := var_name src_var;
       shape := shape src_var; dtype := dtype src_var;
       lod_level := lod_level src_var;
       (* a Parameter is persistable *)
       persistable := true;
       error_clip := error_clip src_var;
       stop_gradient := stop_gradient src_var; is_data := is_data src_var;
       belong_to_optimizer := belong_to_optimizer src_var;
       param_attrs :=
         Some {| trainable := trainable pa; optimize_attr := optimize_attr pa;
                 regularizer := regularizer pa;
                 do_model_average := do_model_average pa;
                 need_clip := need_clip pa |} |}.

Definition _create_inter (dst_block : Block) (src_var : Var) : Block :=
  declare dst_block
    {| var_type := var_type src_var; var_name := var_name src_var;
       shape := shape src_var; dtype := dtype src_var;
       lod_level := lod_level src_var; persistable := persistable src_var;
       error_clip := error_clip src_var;
       stop_gradient := stop_gradient src_var; is_data := is_data src_var;
       belong_to_optimizer := belong_to_optimizer src_var;
       param_attrs := None |}.

Definition _create_var (src_prog : Program) (src_block dst_block : Block)
    (src_varname : string) (force_create : bool) : result Block :=
  src_var ← (if negb force_create then var src_block src_varname
             else _var_recursive src_prog src_block src_varname);
  if decide (var_type src_var ∈ __not_shape_var_type__) then
    let persist := persistable src_var in
    Ok (declare dst_block
          {| var_type := var_type src_var; var_name := var_name src_var;
             shape := None; dtype := None; lod_level := None;
             persistable := persist; error_clip := error_clip src_var;
             stop_gradient := stop_gradient src_var;
             is_data := is_data src_var;
             belong_to_optimizer := belong_to_optimizer src_var;
             param_attrs := None |})
  else
    match param_attrs src_var with
    | Some pa => Ok (_create_param dst_block src_var pa)
    | None => Ok (_create_inter dst_block src_var)
    end.

Definition create_if_declared (src_prog : Program) (src_block : Block)
    (force_create : bool) (dst_block : Block) (varname : string)
  : result Block :=
  if has_var src_block varname
     || (force_create
         && bool_decide (is_Some (_find_var_recursive src_prog src_block varname)))
  then _create_var src_prog src_block dst_block varname force_create
  else Ok dst_block.

Definition _create_program (src_prog : Program) (src_block dst_block : Block)
    (src_op : Operator) (force_create : bool) : result Block :=
  let dst_block := append_op dst_block src_op in
  dst_block ← for_each (create_if_declared src_prog src_block force_create)
                       (input_arg_names src_op) dst_block;
  for_each (create_if_declared src_prog src_block force_create)
           (output_arg_names src_op) dst_block.

(** ** Stream passes *)

(** Apply a block rewriting to every block of the program, in order. *)
Definition for_blocks (f : Block → result Block) (program : Program)
  : result Program :=
  g ← f (global program);
  subs ← for_list f (sub_blocks program);
  Ok {| global := g; sub_blocks := subs |}.

Definition set_stream (op : Operator) (stream : string) : Operator :=
  set_dist_attr op
    {| execution_stream := stream; stream_priority := 0;
       force_record_event := force_record_event (dist_attr op);
       event_to_record := event_to_record (dist_attr op);
       events_to_wait := events_to_wait (dist_attr op) |}.

Definition overlap_op (op : Operator) : result Operator :=
  if decide (op_type op = "send_v2") then
    let op := _set_attr op "dynamic_shape" (ABool false) in
    let op := _set_attr op "use_calc_stream" (ABool true) in
    ring_id ← attr op "ring_id";
    Ok (set_stream op ("send_stream_" +:+ py_str ring_id))
  else if decide (op_type op = "recv_v2") then
    let op := _set_attr op "dynamic_shape" (ABool false) in
    let op := _set_attr op "use_calc_stream" (ABool true) in
    Ok (set_stream op "recv_stream")
  else Ok op.

Definition _overlap_send_recv (program : Program) : result Program :=
  for_blocks (λ b, l ← for_list overlap_op (ops b); Ok (set_ops b l)) program.

(** The index of the first operator satisfying [f]. *)
Definition first_index (f : Operator → bool) (l : list Operator) : option nat :=
  fst <$> list_find (λ op, Is_true (f op)) l.

(** [enumerate(l)] *)
Definition enumerate {A : Type} (l : list A) : list (nat * A) :=
  imap (λ i x, (i, x)) l.

(** During the insertion loop the block holds the operators of the snapshot
    [list(block.ops)], tagged with their snapshot index, and the inserted
    operators, untagged; an attribute set on a snapshot operator is seen at
    the place the block currently holds it. *)
Definition update_tagged (index : nat) (op : Operator)
    (cur : list (option nat * Operator)) : list (option nat * Operator) :=
  map (λ e, if decide (e.1 = Some index) then (e.1, op) else e) cur.

Definition sync_op (type var_name : string) (attrs : list (string * AttrValue))
  : Operator :=
  new_op type [("X", [var_name])] [("Out", [var_name])] attrs.

Definition insert_sync_step (b : Block) (first_optimize_index : option nat)
    (st : list (option nat * Operator) * nat) (e : nat * Operator)
  : result (list (option nat * Operator) * nat) :=
  let '(cur, offset) := st in
  let '(index, op) := e in
  let op := if bool_decide (op_type op ∈ ["send_v2"; "recv_v2"])
            then _set_attr op "dynamic_shape" (ABool false) else op in
  if decide (op_type op = "send_v2") then
    let op := _set_attr op "use_calc_stream" (ABool false) in
    let cur := update_tagged index op cur in
    op_role ← attr op "op_role";
    ring_id ← attr op "ring_id";
    var_name ← first_arg (input_arg_names op);
    _ ← var b var_name;
    let cur :=
      list_insert_at (index + offset)
        (None, sync_op "c_sync_calc_stream" var_name [("op_role", op_role)])
        cur in
    let offset := S offset in
    role ← py_int op_role;
    '(index, new_op_role) ←
      (if decide (role = OpRole_Backward) then
         match first_optimize_index with
         | Some i => Ok ((i + offset)%nat, OpRole_Optimize)
         | None => Raise TypeError
         end
       else Ok ((index + offset + 1)%nat, OpRole_Backward));
    let sync_comm_op :=
      sync_op "c_sync_comm_stream" var_name
              [("op_role", AInt new_op_role); ("ring_id", ring_id)] in
    if decide (role = OpRole_Forward) then
      Ok (list_insert_at index
            (None, _set_attr sync_comm_op "pipeline_flag" (AStr "")) cur,
          S offset)
    else Ok (list_insert_at index (None, sync_comm_op) cur, offset)
  else Ok (update_tagged index op cur, offset).

Definition replace_sync_step (backward_recv_index : nat) (st : Block * Z)
    (e : nat * Operator) : result (Block * Z) :=
  let '(b, offset) := st in
  let '(index, op) := e in
  if bool_decide (op_type op = "c_sync_comm_stream") && has_attr op "pipeline_flag"
  then
    var_name ← first_arg (output_arg_names op);
    _ ← var b var_name;
    b ← _remove_op b (Z.of_nat index + offset);
    let offset := offset - 1 in
    if negb use_new_executor then
      Ok (set_ops b
            (list_insert_at backward_recv_index
               (sync_op "nop" var_name [("op_role", AInt OpRole_Backward)])
               (ops b)),
          offset)
    else Ok (b, offset)
  else Ok (b, offset).

Definition insert_sync_block (b : Block) : result Block :=
  let snapshot := ops b in
  let first_optimize_index := first_index is_optimize_op snapshot in
  '(cur, _) ← for_each (insert_sync_step b first_optimize_index)
                       (enumerate snapshot)
                       (imap (λ i op, (Some i, op)) snapshot, 0%nat);
  let b := set_ops b cur.*2 in
  match first_index (λ op, bool_decide (op_type op = "recv_v2")
                           && is_backward_op op) (ops b) with
  | None => Ok b
  | Some backward_recv_index =>
      '(b, _) ← for_each (replace_sync_step backward_recv_index)
                         (take backward_recv_index (enumerate (ops b)))
                         (b, 0);
      Ok b
  end.

Definition _insert_sync_for_fthenb_1f1b (program : Program) : result Program :=
  for_blocks insert_sync_block program.

(** ** [_program_for_fthenb_and_1f1b] *)

Definition _is_fetch_op (op : Operator) : bool :=
  bool_decide (op_type op ∈ ["fetch"; "fetch_v2"]).

Definition role_error (role : AttrValue) : exn :=
  ValueError ("The op role: " +:+ py_str role
              +:+ " isn't one of Forward, Backward or Optimizer.").

Definition split_ops_step
    (acc : list Operator * list Operator * list Operator) (op : Operator)
  : result (list Operator * list Operator * list Operator) :=
  let '(fwd_ops, bwd_ops, opt_ops) := acc in
  if _is_fetch_op op then Ok (fwd_ops, bwd_ops, opt_ops)
  else if is_forward_op op then Ok (fwd_ops ++ [op], bwd_ops, opt_ops)
  else if is_backward_op op then Ok (fwd_ops, bwd_ops ++ [op], opt_ops)
  else if is_optimize_op op then Ok (fwd_ops, bwd_ops, opt_ops ++ [op])
  else role ← attr op "op_role"; Raise (role_error role).

Definition _split_ops (src_block : Block)
  : result (list Operator * list Operator * list Operator) :=
  for_each split_ops_step (ops src_block) ([], [], []).

(** Modelled from the spec: [Program()] has an empty global block.
    [Program._create_block(parent_idx)] looks the parent up among the
    blocks the program has ([self.block(parent_idx)], an index into the
    list of blocks: a negative index counts from the end, an index out of
    range raises [IndexError]), appends an empty block below that parent
    and returns it; [_set_forward_block_idx] then records the forward
    block.  [_roll_to_global_block] and [_sync_with_cpp] do not change the
    blocks. *)
Definition empty_block (parent : Z) : Block :=
  {| parent_idx := parent; forward_block_idx := -1; ops := []; vars := ∅ |}.

Definition new_program : Program :=
  {| global := empty_block (-1); sub_blocks := [] |}.

Definition _create_block (p : Program) (parent fwd_idx : Z)
  : result (Program * nat) :=
  match py_slot (length (blocks p)) parent with
  | Some parent =>
      Ok ({| global := global p;
             sub_blocks := sub_blocks p
               ++ [{| parent_idx := Z.of_nat parent;
                      forward_block_idx := fwd_idx;
                      ops := []; vars := ∅ |}] |},
          length (blocks p))
  | None => Raise IndexError
  end.

Definition _add_ops_into_block (src_prog : Program) (src_block : Block)
    (dst_prog : Program) (dst_idx : nat) (l : list Operator) : result Program :=
  match block dst_prog dst_idx with
  | Some dst_block =>
      dst_block ← for_each (λ dst op, _create_program src_prog src_block dst op false)
                           l dst_block;
      Ok (set_block dst_prog dst_idx dst_block)
  | None => Raise IndexError
  end.

(** A destination: one of the three programs being built, with the index
    of the block that currently receives the operators of its role. *)
Definition Dest : Type := Program * nat.

Definition add_role_ops (src_prog : Program) (idx : nat) (src_block : Block)
    (d : Dest) (l : list Operator) : result Dest :=
  if decide (idx = 0%nat) then
    p ← _add_ops_into_block src_prog src_block d.1 0 l; Ok (p, 0%nat)
  else if decide (l = []) then Ok d
  else
    '(p, k) ← _create_block d.1 (parent_idx src_block)
                            (forward_block_idx src_block);
    p ← _add_ops_into_block src_prog src_block p k l; Ok (p, k).

Definition dest_has_var (d : Dest) (name : string) : bool :=
  match block d.1 d.2 with
  | Some b => bool_decide (is_Some (_find_var_recursive d.1 b name))
  | None => false
  end.

Definition add_fetch_op (src_prog : Program) (src_block : Block)
    (st : Dest * Dest * Dest) (fetch_op : Operator) : result (Dest * Dest * Dest) :=
  let '(fwd, bwd, opt) := st in
  if _is_fetch_op fetch_op then
    in_name ← first_arg (input_arg_names fetch_op);
    if dest_has_var fwd in_name then
      p ← _add_ops_into_block src_prog src_block fwd.1 fwd.2 [fetch_op];
      Ok ((p, fwd.2), bwd, opt)
    else if dest_has_var bwd in_name then
      p ← _add_ops_into_block src_prog src_block bwd.1 bwd.2 [fetch_op];
      Ok (fwd, (p, bwd.2), opt)
    else if dest_has_var opt in_name then
      p ← _add_ops_into_block src_prog src_block opt.1 opt.2 [fetch_op];
      Ok (fwd, bwd, (p, opt.2))
    else Ok st
  else Ok st.

Definition split_block (src_prog : Program) (st : Dest * Dest * Dest)
    (e : nat * Block) : result (Dest * Dest * Dest) :=
  let '(fwd, bwd, opt) := st in
  let '(idx, src_block) := e in
  '(fwd_ops, bwd_ops, opt_ops) ← _split_ops src_block;
  fwd ← add_role_ops src_prog idx src_block fwd fwd_ops;
  bwd ← add_role_ops src_prog idx src_block bwd bwd_ops;
  opt ← add_role_ops src_prog idx src_block opt opt_ops;
  for_each (add_fetch_op src_prog src_block) (ops src_block) (fwd, bwd, opt).

(** The stream pass selected by [enable_send_recv_overlap]. *)
Definition stream_pass (program : Program) (enable_send_recv_overlap : bool)
  : result Program :=
  if enable_send_recv_overlap then _overlap_send_recv program
  else _insert_sync_for_fthenb_1f1b program.

Definition _program_for_fthenb_and_1f1b (program : Program)
    (enable_send_recv_overlap : bool) : result (list Program) :=
  program ← stream_pass program enable_send_recv_overlap;
  '(fwd, bwd, opt) ←
    for_each (split_block program) (enumerate (blocks program))
             ((new_program, 0%nat), (new_program, 0%nat), (new_program, 0%nat));
  Ok [fwd.1; bwd.1; opt.1].

End PassUtils.

(** ** [_add_event_dependency]

    The two operators are objects of the store [store], addressed by their
    position, so that an operator passed as both arguments is updated
    once. *)

Definition set_force_record_event (op : Operator) (b : bool) : Operator :=
  set_dist_attr op
    {| execution_stream := execution_stream (dist_attr op);
       stream_priority := stream_priority (dist_attr op);
       force_record_event := b;
       event_to_record := event_to_record (dist_attr op);
       events_to_wait := events_to_wait (dist_attr op) |}.

Definition set_events_to_wait (op : Operator) (l : list string) : Operator :=
  set_dist_attr op
    {| execution_stream := execution_stream (dist_attr op);
       stream_priority := stream_priority (dist_attr op);
       force_record_event := force_record_event (dist_attr op);
       event_to_record := event_to_record (dist_attr op);
       events_to_wait := l |}.

Definition _add_event_dependency (store : list Operator)
    (recorder_op waiter_op : nat) : list Operator :=
  match store !! recorder_op with
  | Some recorder =>
      let store :=
        if negb (force_record_event (dist_attr recorder))
        then <[recorder_op := set_force_record_event recorder true]> store
        else store in
      match store !! waiter_op with
      | Some waiter =>
          let waiter_wait_list := events_to_wait (dist_attr waiter) in
          if bool_decide (event_to_record (dist_attr recorder)
                          ∉ waiter_wait_list)
          then
            <[waiter_op :=
                set_events_to_wait waiter
                  (waiter_wait_list ++ [event_to_record (dist_attr recorder)])]>
              store
          else store
      | None => store
      end
  | None => store
  end.

(** ** Example programs *)

Definition ex_var (name : string) : Var :=
  {| var_type := LOD_TENSOR; var_name := name; shape := Some [2; 2];
     dtype := Some "float32"; lod_level := Some 0; persistable := false;
     error_clip := None; stop_gradient := false; is_data := false;
     belong_to_optimizer := false; param_attrs := None |}.

(** An operator with one input slot [X], one output slot [Out] and the
    given [op_role]. *)
Definition ex_op (type : string) (ins outs : list string) (role : Z)
  : Operator :=
  new_op type [("X", ins)] [("Out", outs)] [("op_role", AInt role)].

Definition ex_block (l : list Operator) (names : list string) : Block :=
  {| parent_idx := -1; forward_block_idx := -1; ops := l;
     vars := py_dict (map (λ name, (name, ex_var name)) names) |}.

Definition ex_program (l : list Operator) (names : list string) : Program :=
  {| global := ex_block l names; sub_blocks := [] |}.

(** Ten operators: the first four write [x], [y] and [f]; the next three
    read and rewrite [y]; the last three read [y], then write [x] and read
    it back. *)
Definition program_10 : Program :=
  ex_program
    [ex_op "fill" [] ["x"] 0; ex_op "fill" [] ["y"] 0;
     ex_op "fill" [] ["f"] 0; ex_op "fill" [] ["f"] 0;
     ex_op "scale" ["y"] ["y"] 0; ex_op "relu" ["y"] ["g"] 0;
     ex_op "relu" ["y"] ["g"] 0;
     ex_op "relu" ["y"] ["h"] 0; ex_op "fill" [] ["x"] 0;
     ex_op "relu" ["x"] ["h"] 0]
    ["x"; "y"; "f"; "g"; "h"].

(** The forward and backward sub-programs of the two-micro-batch schedule:
    both touch the non-persistable variable [a]. *)
Definition fwd_program : Program :=
  ex_program [ex_op "matmul" ["w"] ["a"] 0] ["a"].
Definition bwd_program : Program :=
  ex_program [ex_op "matmul_grad" ["a"] ["w@GRAD"] 1] ["a"].

(** A registry with no no-need-buffer slot for any operator. *)
Definition no_buffer_info
  : string → list (string * list string) → list (string * list string)
    → gmap string AttrValue → gset string :=
  λ _ _ _ _, ∅.

(** A registry that reports the input slot [X] of [matmul_grad]. *)
Definition grad_buffer_info
  : string → list (string * list string) → list (string * list string)
    → gmap string AttrValue → gset string :=
  λ type _ _ _, if decide (type = "matmul_grad") then {["X"]} else ∅.

(** Modelled from the spec: the role classifiers and the [OpRole] constants
    are outside [pass_utils.py]; these instances read the [op_role]
    attribute (Forward 0, Backward 1, Optimize 2, Loss 256). *)
Definition role_of (op : Operator) : Z :=
  match attrs op !! "op_role" with
  | Some (AInt z) => z
  | _ => -1
  end.
Definition ex_is_forward_op (op : Operator) : bool :=
  bool_decide (role_of op = 0 ∨ role_of op = 256).
Definition ex_is_backward_op (op : Operator) : bool :=
  bool_decide (0 ≤ role_of op ∧ Z.land (role_of op) 1 ≠ 0).
Definition ex_is_optimize_op (op : Operator) : bool :=
  bool_decide (0 ≤ role_of op ∧ Z.land (role_of op) 2 ≠ 0).

(** A pipeline stage: receive, compute, send on ring 3, then an operator
    whose role (RPC, 4) is none of the three. *)
Definition stage_program : Program :=
  ex_program
    [new_op "recv_v2" [] [("Out", ["h"])]
            [("op_role", AInt 0); ("ring_id", AInt 3)];
     ex_op "relu" ["h"] ["y"] 0;
     new_op "send_v2" [("X", ["y"])] []
            [("op_role", AInt 0); ("ring_id", AInt 3)];
     ex_op "listen" ["y"] ["z"] 4]
    ["h"; "y"; "z"].

(** A block that computes [y], sends it on ring 3 with the given role, and
    then runs the operators [tail]. *)
Definition send_program (role : Z) (tail : list Operator) : Program :=
  ex_program
    ([ex_op "relu" ["h"] ["y"] role;
      new_op "send_v2" [("X", ["y"])] []
             [("op_role", AInt role); ("ring_id", AInt 3)]] ++ tail)
    ["h"; "y"; "w"].

(** One operator of each role; no communication, no fetch. *)
Definition role_program : Program :=
  ex_program
    [ex_op "relu" ["h"] ["y"] 0; ex_op "relu_grad" ["y"] ["g"] 1;
     ex_op "sgd" ["w"] ["w"] 2]
    ["h"; "y"; "g"; "w"].

(** A stage that sends [y] forward and then receives the gradient [g]. *)
Definition send_recv_program : Program :=
  ex_program
    [ex_op "relu" ["h"] ["y"] 0;
     new_op "send_v2" [("X", ["y"])] []
            [("op_role", AInt 0); ("ring_id", AInt 3)];
     new_op "recv_v2" [] [("Out", ["g"])]
            [("op_role", AInt 1); ("ring_id", AInt 3)];
     ex_op "relu_grad" ["g"] ["d"] 1]
    ["h"; "y"; "g"; "d"].

(** A program whose global block holds the [shadow_output] operator of
    [x], its output [@EMPTY@] being declared nowhere, and whose second
    block declares [z]. *)
Definition nested_program : Program :=
  {| global := ex_block [ex_op "fill" [] ["x"] 0; shadow_op "x";
                         ex_op "relu" ["x"] ["y"] 0] ["x"; "y"];
     sub_blocks :=
       [{| parent_idx := 0; forward_block_idx := -1;
           ops := [ex_op "relu" ["x"] ["z"] 0];
           vars := py_dict [("z", ex_var "z")] |}] |}.

(** [role_program] with two nested blocks: the first, below the global
    block, has a forward and a backward operator; the second, below the
    first, a forward operator only. *)
Definition nested_role_program : Program :=
  {| global := global role_program;
     sub_blocks :=
       [{| parent_idx := 0; forward_block_idx := -1;
           ops := [ex_op "relu" ["h"] ["y"] 0;
                   ex_op "relu_grad" ["y"] ["g"] 1];
           vars := py_dict [("y", ex_var "y")] |};
        {| parent_idx := 1; forward_block_idx := -1;
           ops := [ex_op "scale" ["y"] ["y"] 0]; vars := ∅ |}] |}.

(** [role_program] followed by a fetch of [y]. *)
Definition fetch_program : Program :=
  ex_program
    ([ex_op "relu" ["h"] ["y"] 0; ex_op "relu_grad" ["y"] ["g"] 1;
      ex_op "sgd" ["w"] ["w"] 2] ++ [ex_op "fetch" ["y"] ["o"] 0])
    ["h"; "y"; "g"; "w"].

(** * Vocabulary of the properties *)

(** A name is used by an operator when it is one of its input or output
    arguments. *)
Definition uses (op : Operator) (x : string) : Prop :=
  x ∈ input_arg_names op ∨ x ∈ output_arg_names op.

(** The block that [prune_program] leaves for the resolved range [s, e). *)
Definition retained_ops (b : Block) (s e : nat) : list Operator :=
  drop s (take e (ops b)).

Definition sorted_check (l : list Z) : result unit :=
  for_each (λ _ '(a, b),
     py_assert (bool_decide (a < b)) "op_indices must be strictly sorted")
   (adjacent_pairs l) ().

(** The normal form the boundaries are brought to: negative indices resolved
    against [op_num], [0] in front and [op_num] at the end when absent. *)
Definition resolved_boundaries (op_num : Z) (op_indices : list Z) : list Z :=
  map (λ idx, if decide (idx < 0) then idx + op_num else idx) op_indices.

Definition normal_form (op_num : Z) (op_indices : list Z) : list Z :=
  let r := resolved_boundaries op_num op_indices in
  (if decide (head r = Some 0) then [] else [0])
  ++ r ++ (if decide (last r = Some op_num) then [] else [op_num]).

(** [x] is written by some operator of [l]. *)
Definition written_by (l : list Operator) (x : string) : Prop :=
  ∃ op, op ∈ l ∧ x ∈ output_arg_names op.

(** The first operator of [l] that touches [x] reads it: some operator
    reads [x] and no operator before it writes [x]. *)
Definition read_before_written (l : list Operator) (x : string) : Prop :=
  ∃ k op, l !! k = Some op ∧ x ∈ input_arg_names op
          ∧ ∀ k' op', (k' < k)%nat → l !! k' = Some op' →
              x ∉ output_arg_names op'.

Definition mark_all (ins outs : list (list string)) (valid : list (list string))
    (l : list nat) : list (list string) :=
  foldl (λ valid i,
           foldl (mark_valid outs i) valid (default [] (ins !! i))) valid l.

Definition raw_outputs (progs : list Program) : list (list string) :=
  map (λ p, list_to_ordered_dict (get_outputs_of_program p) []) progs.

(** Sub-program [i] of [progs] has an operator that writes [x]. *)
Definition sub_writes (progs : list Program) (i : nat) (x : string) : Prop :=
  ∃ p, progs !! i = Some p ∧ written_by (ops (global_block p)) x.

(** [i] is the nearest sub-program before [j] that writes [x]. *)
Definition nearest_earlier_writer (progs : list Program) (i j : nat)
    (x : string) : Prop :=
  (i < j)%nat ∧ sub_writes progs i x
  ∧ ∀ k, (i < k < j)%nat → ¬ sub_writes progs k x.

(** The no-need-buffer slots the registry reports for an operator. *)
Definition no_need_slots
    (infer_no_need_buffer_slots :
       string → list (string * list string) → list (string * list string)
       → gmap string AttrValue → gset string) (op : Operator) : gset string :=
  let '(inputs, outputs, attrs) := _get_op_attrs op in
  infer_no_need_buffer_slots (op_type op) inputs outputs attrs.

(** [name] is an argument of an input or output slot of [op] that is not in
    [no_need]. *)
Definition in_needed_slot (no_need : gset string) (op : Operator)
    (name : string) : Prop :=
  ∃ slot, (slot ∉ no_need)
          ∧ ((slot ∈ input_names op ∧ name ∈ input op slot)
             ∨ (slot ∈ output_names op ∧ name ∈ output op slot)).

(** The accumulated suffix set of slot [m]: the union of the required
    variables of the jobs of [js] scheduled on micro-batch slot [m]. *)
Definition suffix_required (req : gmap string (gset string)) (n : nat)
    (js : list Job) (m : nat) : gset string :=
  foldr (λ job acc,
           if decide (py_slot n (micro_batch_id job) = Some m)
           then default ∅ (req !! job_type job) ∪ acc else acc) ∅ js.

(** The skip-GC set of the job at position [i]: its required variables
    intersected with the suffix set of its slot over the later jobs. *)
Definition expected_skip_gc (req : gmap string (gset string)) (n : nat)
    (jobs : list Job) (i : nat) (job : Job) : gset string :=
  default ∅ (req !! job_type job)
  ∩ suffix_required req n (drop (S i) jobs)
      (default 0%nat (py_slot n (micro_batch_id job))).

(** The job at position [i] is processed without an exception. *)
Definition job_ok (req : gmap string (gset string)) (n : nat)
    (jobs : list Job) (i : nat) (job : Job) : Prop :=
  is_Some (req !! job_type job)
  ∧ is_Some (py_slot n (micro_batch_id job))
  ∧ (job_type job = "backward" → expected_skip_gc req n jobs i job = ∅).

(** The job objects once the positions from [k] on have been processed. *)
Definition annotate (req : gmap string (gset string)) (n : nat)
    (jobs : list Job) (k : nat) : list Job :=
  imap (λ i job, if decide (k ≤ i)%nat
                 then job_set_skip_gc_vars job (expected_skip_gc req n jobs i job)
                 else job) jobs.

Definition suffix_sets (req : gmap string (gset string)) (n : nat)
    (js : list Job) : list (gset string) :=
  map (suffix_required req n js) (seq 0 n).

Section SkipGcVocabulary.

Context (repr_set : gset string → string).
Context (req : gmap string (gset string)) (n : nat) (jobs : list Job).

(** The exception raised for a job that is not processed. *)
Definition job_failure (i : nat) (job : Job) : exn :=
  match req !! job_type job with
  | None => KeyError (job_type job)
  | Some _ =>
      match py_slot n (micro_batch_id job) with
      | None => IndexError
      | Some _ =>
          AssertionError
            (backward_message repr_set (expected_skip_gc req n jobs i job))
      end
  end.

End SkipGcVocabulary.

(** The schedule [fwd(0), fwd(1), bwd(1), bwd(0)]. *)
Definition schedule_2 : list Job :=
  [new_job "forward" 0; new_job "forward" 1;
   new_job "backward" 1; new_job "backward" 0].

(** The declaration [_create_var] makes in the destination for a source
    declaration. *)
Definition copied_decl (v : Var) : Var :=
  if decide (var_type v ∈ __not_shape_var_type__) then
    {| var_type := var_type v; var_name := var_name v;
       shape := None; dtype := None; lod_level := None;
       persistable := persistable v; error_clip := error_clip v;
       stop_gradient := stop_gradient v; is_data := is_data v;
       belong_to_optimizer := belong_to_optimizer v; param_attrs := None |}
  else
    match param_attrs v with
    | Some pa =>
        {| var_type := var_type v; var_name := var_name v;
           shape := shape v; dtype := dtype v; lod_level := lod_level v;
           persistable := true; error_clip := error_clip v;
           stop_gradient := stop_gradient v; is_data := is_data v;
           belong_to_optimizer := belong_to_optimizer v;
           param_attrs :=
             Some {| trainable := trainable pa;
                     optimize_attr := optimize_attr pa;
                     regularizer := regularizer pa;
                     do_model_average := do_model_average pa;
                     need_clip := need_clip pa |} |}
    | None =>
        {| var_type := var_type v; var_name := var_name v;
           shape := shape v; dtype := dtype v; lod_level := lod_level v;
           persistable := persistable v; error_clip := error_clip v;
           stop_gradient := stop_gradient v; is_data := is_data v;
           belong_to_optimizer := belong_to_optimizer v;
           param_attrs := None |}
    end.

(** The source declaration a referenced name resolves to, if any. *)
Definition source_var (src_prog : Program) (src_block : Block)
    (force_create : bool) (name : string) : option Var :=
  if force_create then _find_var_recursive src_prog src_block name
  else vars src_block !! name.

(** The declarations made for a list of referenced names, in order. *)
Definition decls_for (src_prog : Program) (src_block : Block)
    (force_create : bool) (names : list string) : list (string * Var) :=
  omap (λ name, (λ v, (var_name v, copied_decl v))
                <$> source_var src_prog src_block force_create name) names.

(** The destination once the declarations [l] have been made in it, in
    order: a name keeps the declaration the destination has for it, and
    otherwise gets the first one [l] has for it. *)
Definition declare_all (dst : Block) (l : list (string * Var)) : Block :=
  set_vars dst (vars dst ∪ list_to_map l).

(** What [_overlap_send_recv] does to one operator: type and arguments are
    kept; a [send_v2] runs on the stream named after its ring, a [recv_v2]
    on the shared receive stream, both on that stream directly
    ([use_calc_stream] true) and with [dynamic_shape] false; any other
    operator is left as it is. *)
Definition overlap_tagged (op op' : Operator) : Prop :=
  op_type op' = op_type op
  ∧ inputs op' = inputs op
  ∧ outputs op' = outputs op
  ∧ (∀ name, name ≠ "dynamic_shape" → name ≠ "use_calc_stream" →
       attrs op' !! name = attrs op !! name)
  ∧ (op_type op = "send_v2" →
     ∃ ring_id,
       attrs op !! "ring_id" = Some ring_id
       ∧ execution_stream (dist_attr op') = "send_stream_" +:+ py_str ring_id
       ∧ attrs op' !! "use_calc_stream" = Some (ABool true)
       ∧ attrs op' !! "dynamic_shape" = Some (ABool false))
  ∧ (op_type op = "recv_v2" →
     execution_stream (dist_attr op') = "recv_stream"
     ∧ attrs op' !! "use_calc_stream" = Some (ABool true)
     ∧ attrs op' !! "dynamic_shape" = Some (ABool false))
  ∧ (op_type op ≠ "send_v2" → op_type op ≠ "recv_v2" → op' = op).

Definition overlap_block (b b' : Block) : Prop :=
  parent_idx b' = parent_idx b
  ∧ forward_block_idx b' = forward_block_idx b
  ∧ vars b' = vars b
  ∧ Forall2 overlap_tagged (ops b) (ops b').

(** Every [send_v2] operator carries its [ring_id]. *)
Definition sends_have_ring (l : list Operator) : Prop :=
  Forall (λ op, op_type op = "send_v2" → is_Some (attrs op !! "ring_id")) l.

Section RoleVocabulary.

Context (is_forward_op is_backward_op is_optimize_op : Operator → bool).

(** The operator has one of the three roles. *)
Definition classified (op : Operator) : Prop :=
  is_forward_op op = true ∨ is_backward_op op = true
  ∨ is_optimize_op op = true.

(** [_split_ops] accepts the operator: it is skipped as a fetch operator
    or put in one of the three lists. *)
Definition splittable (op : Operator) : Prop :=
  _is_fetch_op op = true ∨ classified op.

(** The operator is accepted and, when it is a fetch operator, has the
    input the fetch handling reads. *)
Definition placeable (op : Operator) : Prop :=
  splittable op ∧ (_is_fetch_op op = true → input_arg_names op ≠ []).

Definition split_step :=
  split_ops_step is_forward_op is_backward_op is_optimize_op.

(** The classifiers read the type of the operator and its [op_role]
    attribute only. *)
Definition role_classifiers : Prop :=
  ∀ op op', op_type op' = op_type op →
            attrs op' !! "op_role" = attrs op !! "op_role" →
            is_forward_op op' = is_forward_op op
            ∧ is_backward_op op' = is_backward_op op
            ∧ is_optimize_op op' = is_optimize_op op.

Definition valid_dest (d : Dest) : Prop := is_Some (block d.1 d.2).

End RoleVocabulary.

(** The valid outputs with [x] taken out of the list of sub-program [i]. *)
Definition remove_output (outs : list (list string)) (i : nat) (x : string)
  : list (list string) :=
  alter (filter (λ y, y ≠ x)) i outs.

(** Some earlier sub-program still lists [y] among its valid outputs. *)
Definition provided_earlier (outs : list (list string)) (j : nat) (y : string)
  : Prop :=
  ∃ k, (k < j)%nat ∧ y ∈ default [] (outs !! k).

(** Removing [x] from the valid outputs of sub-program [i] leaves an input
    of a later sub-program that no earlier sub-program provides. *)
Definition removal_starves (ins outs : list (list string)) (i : nat)
    (x : string) : Prop :=
  ∃ j y, (i < j)%nat ∧ y ∈ default [] (ins !! j)
         ∧ ¬ provided_earlier (remove_output outs i x) j y.

(** The names [prepare_ir_program] hands over from [cur_prog] to
    [next_prog], in the order of its loop. *)
Definition shadow_var_names (cur_prog next_prog : Program) : list string :=
  sorted_names (deletable_outputs cur_prog ∩ deletable_inputs next_prog).

(** The program with [pre] put in front of the operators of its global
    block and [post] at their end. *)
Definition extend_global (p : Program) (pre post : list Operator) : Program :=
  set_global p
    (set_ops (global_block p) (pre ++ ops (global_block p) ++ post)).

Section RoleLists.

Context (is_forward_op is_backward_op is_optimize_op : Operator → bool).

(** The operators [_split_ops] puts in each of its three lists: fetch
    operators are in none, and an operator goes to the first list whose
    classifier accepts it. *)
Definition forward_ops (l : list Operator) : list Operator :=
  filter (λ op, negb (_is_fetch_op op) && is_forward_op op) l.

Definition backward_ops (l : list Operator) : list Operator :=
  filter (λ op, negb (_is_fetch_op op) && negb (is_forward_op op)
                && is_backward_op op) l.

Definition optimize_ops (l : list Operator) : list Operator :=
  filter (λ op, negb (_is_fetch_op op) && negb (is_forward_op op)
                && negb (is_backward_op op) && is_optimize_op op) l.

End RoleLists.

(** The parents of the blocks created for one role.  [n] is the number of
    blocks the sub-program of the role has when the pass reaches the source
    blocks [subs]; each of them that has an operator of the role ([sel]
    selects them) gets a block of its own there, created below the block at
    its [parent_idx], which the sub-program has to hold by then. *)
Fixpoint role_parents (sel : list Operator → list Operator) (n : nat)
    (subs : list Block) : Prop :=
  match subs with
  | [] => True
  | b :: subs =>
      if decide (sel (ops b) = []) then role_parents sel n subs
      else 0 ≤ parent_idx b < Z.of_nat n ∧ role_parents sel (S n) subs
  end.

Section RoleParents.

Context (is_forward_op is_backward_op is_optimize_op : Operator → bool).

(** Every block created from the sub-blocks [subs] of a program finds its
    parent in the sub-program it is created in, each of the three
    sub-programs starting with its global block. *)
Definition parents_available (subs : list Block) : Prop :=
  role_parents (forward_ops is_forward_op) 1 subs
  ∧ role_parents (backward_ops is_forward_op is_backward_op) 1 subs
  ∧ role_parents (optimize_ops is_forward_op is_backward_op is_optimize_op)
                 1 subs.

(** The blocks [pre], the first blocks of a program, are split and placed
    without an error: their operators are accepted, their fetch operators
    have an input, and the blocks created for them find their parents. *)
Definition blocks_placed (pre : list Block) : Prop :=
  Forall (λ b, Forall (placeable is_forward_op is_backward_op is_optimize_op)
                      (ops b)) pre
  ∧ parents_available (tail pre).

End RoleParents.

(** Some block of the program declares the name. *)
Definition declares (p : Program) (name : string) : Prop :=
  ∃ b, b ∈ blocks p ∧ is_Some (vars b !! name).

(** The code of an operator: everything but its distributed attribute. *)
Definition same_code (op op' : Operator) : Prop :=
  op_type op' = op_type op ∧ inputs op' = inputs op
  ∧ outputs op' = outputs op ∧ attrs op' = attrs op.

(** No operator of the list is a [send_v2] or a [recv_v2]. *)
Definition no_send_recv (l : list Operator) : Prop :=
  Forall (λ op, op_type op ≠ "send_v2" ∧ op_type op ≠ "recv_v2") l.

(** What [_insert_sync_for_fthenb_1f1b] makes of a [send_v2]: the send
    itself, moved to the communication stream, the calc-stream sync put
    before it and the comm-stream sync put after a forward send. *)
Definition comm_send (op : Operator) : Operator :=
  _set_attr (_set_attr op "dynamic_shape" (ABool false))
            "use_calc_stream" (ABool false).

Definition calc_sync (var_name : string) (op_role : AttrValue) : Operator :=
  sync_op "c_sync_calc_stream" var_name [("op_role", op_role)].

Definition comm_sync (new_op_role : Z) (var_name : string)
    (ring_id : AttrValue) : Operator :=
  sync_op "c_sync_comm_stream" var_name
          [("op_role", AInt new_op_role); ("ring_id", ring_id)].

Definition pipeline_comm_sync (new_op_role : Z) (var_name : string)
    (ring_id : AttrValue) : Operator :=
  _set_attr (comm_sync new_op_role var_name ring_id) "pipeline_flag" (AStr "").

(** A block in which a comm-stream sync that carries the pipeline flag and
    the role RPC (4), none of the three, comes before a backward
    receive. *)
Definition flagged_program : Program :=
  ex_program
    [pipeline_comm_sync 4 "y" (AInt 3);
     new_op "recv_v2" [] [("Out", ["g"])]
            [("op_role", AInt 1); ("ring_id", AInt 3)]]
    ["y"; "g"].

(** The indices and the operators of a block. *)
Definition block_shape (b : Block) : Z * Z * list Operator :=
  (parent_idx b, forward_block_idx b, ops b).

(** The block [_program_for_fthenb_and_1f1b] creates for one role from a
    source block other than the global one, [sel] selecting the operators
    of that role: none when the source block has no operator of the role,
    otherwise a block with the indices of the source block. *)
Definition role_block (sel : list Operator → list Operator) (b : Block)
  : option (Z * Z * list Operator) :=
  if decide (sel (ops b) = []) then None
  else Some (parent_idx b, forward_block_idx b, sel (ops b)).

(** The blocks of the sub-program built for one role. *)
Definition role_blocks (sel : list Operator → list Operator)
    (program : Program) : list (Z * Z * list Operator) :=
  (-1, -1, sel (ops (global_block program)))
  :: omap (role_block sel) (sub_blocks program).

(** The blocks of a destination program once the operators [l] of the
    source block at position [idx] have been added. *)
Definition add_role_shape (idx : nat) (src_block : Block) (l : list Operator)
    (p : Program) : list (Z * Z * list Operator) :=
  if decide (idx = 0%nat) then
    (parent_idx (global p), forward_block_idx (global p), ops (global p) ++ l)
    :: (block_shape <$> sub_blocks p)
  else
    (block_shape <$> blocks p)
    ++ (if decide (l = []) then []
        else [(parent_idx src_block, forward_block_idx src_block, l)]).

(** The [nop] operator that takes the place of a pipeline comm-stream
    sync, and a communication operator with its dynamic shape switched
    off. *)
Definition nop_sync (op_role : Z) (var_name : string) : Operator :=
  sync_op "nop" var_name [("op_role", AInt op_role)].

Definition static_shape (op : Operator) : Operator :=
  _set_attr op "dynamic_shape" (ABool false).

(** The source block declares [name] and an operator of [l] has it as an
    argument: the sub-program built from [l] gets a declaration of it. *)
Definition role_uses (src_block : Block) (l : list Operator) (name : string)
  : Prop :=
  is_Some (vars src_block !! name) ∧ ∃ op, op ∈ l ∧ uses op name.

(** Every declaration of the block is registered under its own name. *)
Definition named_vars (b : Block) : Prop :=
  ∀ k v, vars b !! k = Some v → var_name v = k.

(** * Properties *)

(** ** The exception monad *)

Lemma bind_Ok {A B : Type} (m : result A) (f : A → result B) (b : B) :
  m ≫= f = Ok b ↔ ∃ a, m = Ok a ∧ f a = Ok b.
Proof.
  destruct m as [a|e]; simpl; split.
  - intros H. by exists a.
  - by intros (a' & [= ->] & H).
  - done.
  - by intros (a' & ? & _).
Qed.

Lemma py_assert_true (c : bool) (msg : string) :
  c = true → py_assert c msg = Ok ().
Proof. by intros ->. Qed.

Lemma py_assert_Ok (c : bool) (msg : string) (u : unit) :
  py_assert c msg = Ok u → c = true.
Proof. by destruct c. Qed.

Lemma for_list_length {A B : Type} (f : A → result B) (l : list A) (r : list B) :
  for_list f l = Ok r → length r = length l.
Proof.
  revert r. induction l as [|x l IH]; intros r; simpl.
  - by intros [= <-].
  - destruct (f x) as [y|]; simpl; [|done].
    destruct (for_list f l) as [ys|]; simpl; [|done].
    intros [= <-]. simpl. f_equal. by apply IH.
Qed.

Lemma for_list_lookup {A B : Type} (f : A → result B) (l : list A) (r : list B)
    (i : nat) (x : A) :
  for_list f l = Ok r → l !! i = Some x → ∃ y, r !! i = Some y ∧ f x = Ok y.
Proof.
  revert r i. induction l as [|x0 l IH]; intros r i; simpl; [done|].
  destruct (f x0) as [y|] eqn:Hy; simpl; [|done].
  destruct (for_list f l) as [ys|]; simpl; [|done].
  intros [= <-]. destruct i as [|i]; simpl.
  - intros [= ->]. eauto.
  - by apply IH.
Qed.

(** ** Index ranges and operator removal *)

Lemma range_down_nil (hi lo : Z) : hi ≤ lo → range_down hi lo = [].
Proof.
  intros H. unfold range_down.
  replace (Z.to_nat (hi - lo)) with 0%nat by lia. done.
Qed.

Lemma range_down_cons (hi lo : Z) :
  lo < hi → range_down hi lo = hi :: range_down (hi - 1) lo.
Proof.
  intros H. unfold range_down.
  replace (Z.to_nat (hi - lo)) with (S (Z.to_nat (hi - 1 - lo))) by lia.
  simpl. f_equal; [lia|].
  rewrite <- seq_shift, map_map. apply map_ext. intros k. lia.
Qed.

Lemma _remove_op_in_range (b : Block) (idx : Z) :
  0 ≤ idx < Z.of_nat (length (ops b)) →
  _remove_op b idx = Ok (set_ops b (delete (Z.to_nat idx) (ops b))).
Proof. intros H. unfold _remove_op. by rewrite decide_True. Qed.

Lemma remove_ops_tail (b : Block) (e : nat) :
  (e ≤ length (ops b))%nat →
  remove_ops b (range_down (Z.of_nat (length (ops b)) - 1) (Z.of_nat e - 1))
  = Ok (set_ops b (take e (ops b))).
Proof.
  remember (length (ops b) - e)%nat as k eqn:Hk.
  revert b Hk. induction k as [|k IH]; intros b Hk Hle.
  - rewrite range_down_nil by lia. simpl.
    rewrite take_ge by lia. by destruct b.
  - rewrite range_down_cons by lia. unfold remove_ops. simpl.
    rewrite _remove_op_in_range by lia. simpl.
    set (b' := set_ops b _).
    assert (Hops : ops b' = take (length (ops b) - 1) (ops b)).
    { unfold b'. simpl. rewrite delete_take_drop.
      replace (Z.to_nat (Z.of_nat (length (ops b)) - 1))
        with (length (ops b) - 1)%nat by lia.
      replace (S (length (ops b) - 1)) with (length (ops b)) by lia.
      rewrite drop_all. by rewrite app_nil_r. }
    assert (Hlen : length (ops b') = (length (ops b) - 1)%nat).
    { rewrite Hops, length_take. lia. }
    specialize (IH b'). unfold remove_ops in IH.
    replace (Z.of_nat (length (ops b)) - 1 - 1)
      with (Z.of_nat (length (ops b')) - 1) by lia.
    rewrite IH by lia. f_equal. rewrite Hops, take_take.
    unfold set_ops. simpl. do 2 f_equal. lia.
Qed.

Lemma remove_ops_head (b : Block) (s : nat) :
  (s ≤ length (ops b))%nat →
  remove_ops b (range_down (Z.of_nat s - 1) (-1))
  = Ok (set_ops b (drop s (ops b))).
Proof.
  revert b. induction s as [|s IH]; intros b Hle.
  - rewrite range_down_nil by lia. simpl. by destruct b.
  - rewrite range_down_cons by lia. unfold remove_ops. simpl.
    rewrite _remove_op_in_range by lia. simpl.
    set (b' := set_ops b _).
    assert (Hops : ops b' = take s (ops b) ++ drop (S s) (ops b)).
    { unfold b'. simpl. rewrite delete_take_drop.
      by replace (Z.to_nat (Z.of_nat (S s) - 1)) with s by lia. }
    assert (Hlen : length (ops b') = (length (ops b) - 1)%nat).
    { rewrite Hops, length_app, length_take, length_drop. lia. }
    specialize (IH b'). unfold remove_ops in IH.
    replace (Z.of_nat (S s) - 1 - 1) with (Z.of_nat s - 1) by lia.
    rewrite IH by lia. f_equal. rewrite Hops.
    rewrite drop_app_length' by (rewrite length_take; lia).
    done.
Qed.

(** ** Names used by a list of operators *)

Lemma elem_of_foldl_add (l : list string) (s : gset string) (x : string) :
  x ∈ foldl (λ (s : gset string) (y : string), {[y]} ∪ s) s l ↔ x ∈ l ∨ x ∈ s.
Proof.
  revert s. induction l as [|y l IH]; intros s; simpl.
  - rewrite elem_of_nil. tauto.
  - rewrite IH, elem_of_cons, elem_of_union, elem_of_singleton. tauto.
Qed.

Lemma elem_of_op_names_acc (l : list Operator) (s0 : gset string) (x : string) :
  x ∈ foldl (λ (valid_vars : gset string) op,
               let s := foldl (λ (s : gset string) (x : string), {[x]} ∪ s)
                              valid_vars (input_arg_names op) in
               foldl (λ (s : gset string) (x : string), {[x]} ∪ s) s
                     (output_arg_names op)) s0 l
  ↔ x ∈ s0 ∨ ∃ op, op ∈ l ∧ uses op x.
Proof.
  revert s0. induction l as [|op l IH]; intros s0; simpl.
  - split; [by left|]. intros [?|(op & Hop & _)]; [done|].
    by apply elem_of_nil in Hop.
  - rewrite IH, !elem_of_foldl_add. unfold uses. split.
    + intros [[?|[?|?]]|(op' & Hop' & Hu)].
      * right. exists op. split; [left|]; tauto.
      * right. exists op. split; [left|]; tauto.
      * by left.
      * right. exists op'. split; [by right|done].
    + intros [?|(op' & Hop' & Hu)]; [tauto|].
      apply elem_of_cons in Hop' as [->|Hop']; [tauto|].
      right. by exists op'.
Qed.

Lemma elem_of_op_names (l : list Operator) (x : string) :
  x ∈ op_names l ↔ ∃ op, op ∈ l ∧ uses op x.
Proof.
  unfold op_names. rewrite elem_of_op_names_acc.
  split; [|by right]. intros [H|H]; [|done]. by apply elem_of_empty in H.
Qed.

(** ** Declarations removed by [prune_program] *)

Lemma foldl_remove_var_ops (b : Block) (l : list string) :
  ops (foldl _remove_var b l) = ops b
  ∧ parent_idx (foldl _remove_var b l) = parent_idx b
  ∧ forward_block_idx (foldl _remove_var b l) = forward_block_idx b.
Proof.
  revert b. induction l as [|x l IH]; intros b; simpl; [done|].
  destruct (IH (_remove_var b x)) as (-> & -> & ->). done.
Qed.

Lemma foldl_remove_var_lookup (b : Block) (l : list string) (k : string) :
  vars (foldl _remove_var b l) !! k
  = if decide (k ∈ l) then None else vars b !! k.
Proof.
  revert b. induction l as [|x l IH]; intros b; cbn [foldl].
  - rewrite decide_False; [done|]. apply not_elem_of_nil.
  - rewrite IH. cbn [_remove_var set_vars vars].
    destruct (decide (k ∈ l)) as [Hin|Hnin].
    + rewrite decide_True; [done|]. by right.
    + destruct (decide (k = x)) as [->|Hne].
      * rewrite decide_True by left. apply lookup_delete_eq.
      * rewrite decide_False.
        -- by apply lookup_delete_ne.
        -- intros [?|?]%elem_of_cons; done.
Qed.

Lemma prune_program_resolved (program : Program) (s e : nat) :
  (s < e)%nat → (e ≤ length (ops (global_block program)))%nat →
  ∃ pruned,
    prune_program program (Z.of_nat s) (Z.of_nat e) = Ok pruned
    ∧ ops (global_block pruned) = retained_ops (global_block program) s e
    ∧ sub_blocks pruned = sub_blocks program
    ∧ parent_idx (global_block pruned) = parent_idx (global_block program)
    ∧ forward_block_idx (global_block pruned)
      = forward_block_idx (global_block program)
    ∧ ∀ k, vars (global_block pruned) !! k
           = if decide (k ∈ op_names (retained_ops (global_block program) s e))
             then vars (global_block program) !! k else None.
Proof.
  intros Hse Hle. unfold prune_program.
  set (b := global_block program) in *.
  set (n := Z.of_nat (length (ops b))).
  assert (Hs : resolve_index (Z.of_nat s) n = Z.of_nat s).
  { unfold resolve_index. rewrite decide_False; lia. }
  assert (He : resolve_index (Z.of_nat e) n = Z.of_nat e).
  { unfold resolve_index. rewrite decide_False; lia. }
  rewrite Hs, He.
  rewrite !(py_assert_true (bool_decide _)) by (apply bool_decide_eq_true; lia).
  cbn [mbind result_bind]. unfold n.
  rewrite remove_ops_tail by lia. cbn [mbind result_bind].
  set (b1 := set_ops b (take e (ops b))).
  assert (Hb1 : ops b1 = take e (ops b)) by done.
  rewrite (remove_ops_head b1 s) by (rewrite Hb1, length_take; lia).
  cbn [mbind result_bind].
  set (b2 := set_ops b1 _).
  assert (Hb2 : ops b2 = retained_ops b s e) by done.
  set (rem := filter _ _).
  eexists. split; [done|].
  destruct (foldl_remove_var_ops b2 rem) as (Hops & Hpar & Hfwd).
  unfold global_block, set_global. cbn [global sub_blocks].
  rewrite Hops, Hpar, Hfwd. repeat split; try done.
  intros k. rewrite foldl_remove_var_lookup. unfold rem. rewrite Hb2.
  change (vars b2) with (vars b). fold b.
  destruct (decide (k ∈ op_names (retained_ops b s e))) as [Hin|Hnin].
  - rewrite decide_False; [done|].
    rewrite list_elem_of_filter. tauto.
  - destruct (vars b !! k) as [v|] eqn:Hk.
    + rewrite decide_True; [done|].
      rewrite list_elem_of_filter. split; [done|].
      apply list_elem_of_fmap. exists (k, v). split; [done|].
      by apply elem_of_map_to_list.
    + by destruct (decide _).
Qed.

Lemma resolve_index_nonneg (idx n : Z) :
  0 ≤ idx → resolve_index idx n = idx.
Proof. intros H. unfold resolve_index. rewrite decide_False; lia. Qed.

Lemma prune_program_resolve (program : Program) (a b : Z) :
  let n := Z.of_nat (length (ops (global_block program))) in
  0 ≤ resolve_index a n → 0 ≤ resolve_index b n →
  prune_program program a b
  = prune_program program (resolve_index a n) (resolve_index b n).
Proof.
  intros n Ha Hb. unfold prune_program. fold n.
  by rewrite !(resolve_index_nonneg (resolve_index _ n)).
Qed.

Lemma retained_ops_app (b : Block) (i j k : nat) :
  (i ≤ j)%nat → (j ≤ k)%nat →
  retained_ops b i j ++ retained_ops b j k = retained_ops b i k.
Proof.
  intros Hij Hjk. unfold retained_ops.
  replace (take j (ops b)) with (take j (take k (ops b)))
    by (rewrite take_take; f_equal; lia).
  by apply drop_take_drop.
Qed.

Lemma retained_ops_all (b : Block) :
  retained_ops b 0 (length (ops b)) = ops b.
Proof. unfold retained_ops. by rewrite take_ge, drop_0. Qed.

(** ** Strictly increasing boundaries *)

Lemma adjacent_pairs_cons (a b : Z) (l : list Z) :
  adjacent_pairs (a :: b :: l) = (a, b) :: adjacent_pairs (b :: l).
Proof. done. Qed.

Lemma StronglySorted_cons2 (a b : Z) (l : list Z) :
  StronglySorted Z.lt (a :: b :: l) ↔ a < b ∧ StronglySorted Z.lt (b :: l).
Proof.
  split.
  - intros H. apply StronglySorted_inv in H as [Hs Hall].
    split; [|done]. by apply Forall_inv in Hall.
  - intros [Hab Hs]. constructor; [done|].
    constructor; [done|].
    apply StronglySorted_inv in Hs as [_ Hall].
    eapply Forall_impl; [exact Hall|]. intros c Hc. simpl in Hc. lia.
Qed.

Lemma sorted_check_Ok (l : list Z) :
  StronglySorted Z.lt l → sorted_check l = Ok ().
Proof.
  unfold sorted_check. induction l as [|a [|b l] IH]; intros Hs; [done..|].
  apply StronglySorted_cons2 in Hs as [Hab Hs].
  rewrite adjacent_pairs_cons. cbn [for_each].
  rewrite py_assert_true by (by apply bool_decide_eq_true).
  by apply IH.
Qed.

Lemma sorted_check_Raise (l : list Z) :
  ¬ StronglySorted Z.lt l →
  sorted_check l = Raise (AssertionError "op_indices must be strictly sorted").
Proof.
  unfold sorted_check. induction l as [|a [|b l] IH]; intros Hs.
  - destruct Hs. constructor.
  - destruct Hs. constructor; constructor.
  - rewrite adjacent_pairs_cons. cbn [for_each].
    destruct (decide (a < b)) as [Hab|Hab].
    + rewrite py_assert_true by (by apply bool_decide_eq_true).
      apply IH. intros Hs'. apply Hs. by apply StronglySorted_cons2.
    + unfold py_assert. by rewrite bool_decide_eq_false_2.
Qed.

Lemma StronglySorted_bounds (l : list Z) (lo hi : Z) :
  StronglySorted Z.lt l → head l = Some lo → last l = Some hi →
  Forall (λ x, lo ≤ x ≤ hi) l.
Proof.
  intros Hs Hh Hl. apply Forall_forall. intros x Hx.
  apply list_elem_of_lookup in Hx as [i Hi].
  assert (Hmono : ∀ i j a b, (i < j)%nat → l !! i = Some a → l !! j = Some b → a < b).
  { clear -Hs. induction Hs as [|a l Hs IH Hall]; intros i j x y Hij Hi Hj; [done|].
    destruct j as [|j]; [lia|]. destruct i as [|i]; simpl in *.
    - injection Hi as ->. rewrite Forall_forall in Hall.
      apply Hall. by eapply list_elem_of_lookup_2.
    - eapply IH; [|done..]. lia. }
  assert (H0 : l !! 0%nat = Some lo) by (by destruct l).
  assert (Hn : l !! (length l - 1)%nat = Some hi).
  { rewrite <- Hl. by rewrite last_lookup, Nat.sub_1_r. }
  pose proof (lookup_lt_Some _ _ _ Hi) as Hlt.
  split.
  - destruct i as [|i]; [by simplify_eq|].
    pose proof (Hmono 0%nat (S i) lo x (Nat.lt_0_succ i) H0 Hi). lia.
  - destruct (decide (i = length l - 1)%nat) as [->|Hne]; [by simplify_eq|].
    assert (Hlt' : (i < length l - 1)%nat) by lia.
    pose proof (Hmono i (length l - 1)%nat x hi Hlt' Hi Hn). lia.
Qed.

(** ** Pruning along a boundary list *)

Lemma prune_pairs (program : Program) (l : list Z) :
  let b := global_block program in
  StronglySorted Z.lt l →
  Forall (λ x, 0 ≤ x ≤ Z.of_nat (length (ops b))) l →
  ∃ progs,
    for_list (λ '(a, b), prune_program program a b) (adjacent_pairs l) = Ok progs
    ∧ concat (map (λ p, ops (global_block p)) progs)
      = retained_ops b (Z.to_nat (default 0 (head l)))
                       (Z.to_nat (default 0 (last l))).
Proof.
  intros b. induction l as [|x [|y l] IH]; intros Hs Hall.
  - exists []. split; [done|]. unfold retained_ops. by rewrite drop_0, take_0.
  - exists []. split; [done|]. unfold retained_ops. simpl.
    rewrite drop_ge; [done|]. rewrite length_take. lia.
  - apply StronglySorted_cons2 in Hs as [Hxy Hs].
    pose proof (Forall_inv Hall) as Hx. apply Forall_inv_tail in Hall.
    pose proof (Forall_inv Hall) as Hy. simpl in Hx, Hy.
    destruct (IH Hs Hall) as (progs & Hprogs & Hcat).
    destruct (prune_program_resolved program (Z.to_nat x) (Z.to_nat y))
      as (p & Hp & Hops & _); [lia|fold b; lia|].
    rewrite !Z2Nat.id in Hp by lia.
    exists (p :: progs). split.
    + rewrite adjacent_pairs_cons. cbn [for_list].
      rewrite Hp. cbn [mbind result_bind]. rewrite Hprogs. done.
    + cbn [map concat]. rewrite Hcat, Hops. fold b.
      change (default 0 (head (x :: y :: l))) with x.
      change (default 0 (head (y :: l))) with y.
      rewrite (last_cons_cons x y l).
      assert (Hlast : y ≤ default 0 (last (y :: l))).
      { destruct (last (y :: l)) as [z|] eqn:Hz; [|by apply last_None in Hz].
        pose proof (StronglySorted_bounds (y :: l) y z Hs eq_refl Hz) as Hb.
        apply Forall_inv in Hb. simpl. lia. }
      apply retained_ops_app; lia.
Qed.

(** ** Normalisation of the boundary list *)

Lemma normalize_indices_normal_form (op_num : Z) (op_indices : list Z) :
  op_indices ≠ [] →
  normalize_indices op_num op_indices = normal_form op_num op_indices.
Proof.
  intros Hne. unfold normalize_indices, normal_form, resolved_boundaries.
  assert (Hmap :
    map (λ idx, if decide (idx >= 0) then idx else idx + op_num) op_indices
    = map (λ idx, if decide (idx < 0) then idx + op_num else idx) op_indices).
  { apply map_ext. intros idx.
    destruct (decide (idx >= 0)), (decide (idx < 0)); lia. }
  rewrite Hmap. set (r := map _ op_indices).
  assert (Hr : r ≠ []) by (unfold r; by destruct op_indices).
  destruct (decide (head r = Some 0)) as [H0|H0]; simpl.
  - destruct (decide (last r = Some op_num)); by rewrite ?app_nil_r.
  - assert (Hlast : last (0 :: r) = last r).
    { destruct r as [|x r']; [done|]. apply last_cons_cons. }
    rewrite Hlast. destruct (decide (last r = Some op_num)); simpl;
      by rewrite ?app_nil_r.
Qed.

Lemma normalize_indices_id (op_num : Z) (l : list Z) :
  head l = Some 0 → last l = Some op_num → StronglySorted Z.lt l →
  normalize_indices op_num l = l.
Proof.
  intros Hh Hl Hs.
  pose proof (StronglySorted_bounds l 0 op_num Hs Hh Hl) as Hb.
  unfold normalize_indices.
  assert (Hmap :
    map (λ idx, if decide (idx >= 0) then idx else idx + op_num) l = l).
  { clear -Hb. induction Hb as [|x l Hx Hb IH]; [done|]. simpl.
    rewrite decide_True by lia. by rewrite IH. }
  rewrite Hmap. rewrite (decide_True _ _ Hh). by rewrite (decide_True _ _ Hl).
Qed.

Lemma normalize_indices_head_last (op_num : Z) (l : list Z) :
  head (normalize_indices op_num l) = Some 0
  ∧ last (normalize_indices op_num l) = Some op_num.
Proof.
  unfold normalize_indices.
  set (r := map _ l).
  destruct (decide (head r = Some 0)) as [H0|H0].
  - destruct (decide (last r = Some op_num)) as [Hn|Hn]; [done|].
    split; [|apply last_snoc]. destruct r; [done|]. done.
  - destruct (decide (last (0 :: r) = Some op_num)) as [Hn|Hn]; [done|].
    split; [done|]. apply (last_snoc op_num (0 :: r)).
Qed.

(** ** [split_program] along a strictly increasing normal form *)

Lemma split_program_unfold (program : Program) (op_indices : list Z) :
  op_indices ≠ [] → ops (global_block program) ≠ [] →
  let op_num := Z.of_nat (length (ops (global_block program))) in
  let idxs := normalize_indices op_num op_indices in
  split_program program op_indices
  = (_ ← sorted_check idxs;
     splitted_programs ←
       for_list (λ '(a, b), prune_program program a b) (adjacent_pairs idxs);
     let input_vars := map get_inputs_of_program splitted_programs in
     let output_vars :=
       map (λ p, list_to_ordered_dict (get_outputs_of_program p) [])
           splitted_programs in
     Ok (splitted_programs, input_vars, valid_outputs input_vars output_vars)).
Proof.
  intros Hne Hops op_num idxs. unfold split_program.
  rewrite (py_assert_true (bool_decide (op_indices ≠ [])))
    by (by apply bool_decide_eq_true_2).
  cbn [mbind result_bind].
  rewrite py_assert_true; [done|].
  apply bool_decide_eq_true_2. destruct (ops (global_block program)); [done|].
  simpl. lia.
Qed.

Lemma split_program_Ok_inv (program : Program) (op_indices : list Z) r :
  split_program program op_indices = Ok r →
  op_indices ≠ [] ∧ ops (global_block program) ≠ [].
Proof.
  unfold split_program. intros H.
  apply bind_Ok in H as ([] & H1 & H).
  apply bind_Ok in H as ([] & H2 & H).
  apply py_assert_Ok, bool_decide_eq_true in H1.
  apply py_assert_Ok, bool_decide_eq_true in H2.
  split; [done|]. intros Hnil. rewrite Hnil in H2. simpl in H2. lia.
Qed.

Lemma adjacent_pairs_length (l : list Z) :
  length (adjacent_pairs l) = (length l - 1)%nat.
Proof.
  induction l as [|a [|b l] IH]; [done..|].
  rewrite adjacent_pairs_cons. cbn [length] in *. lia.
Qed.

Lemma adjacent_pairs_lookup (l : list Z) (i : nat) (a b : Z) :
  l !! i = Some a → l !! S i = Some b → adjacent_pairs l !! i = Some (a, b).
Proof.
  revert i. induction l as [|x [|y l] IH]; intros i Ha Hb; [done| |].
  - by destruct i.
  - rewrite adjacent_pairs_cons. destruct i as [|i].
    + simpl in *. by simplify_eq.
    + apply (IH i); done.
Qed.

Lemma split_program_sorted (program : Program) (op_indices : list Z) :
  op_indices ≠ [] → ops (global_block program) ≠ [] →
  let op_num := Z.of_nat (length (ops (global_block program))) in
  let idxs := normalize_indices op_num op_indices in
  StronglySorted Z.lt idxs →
  ∃ progs,
    for_list (λ '(a, b), prune_program program a b) (adjacent_pairs idxs)
      = Ok progs
    ∧ split_program program op_indices
      = Ok (progs, map get_inputs_of_program progs,
            valid_outputs (map get_inputs_of_program progs)
              (map (λ p, list_to_ordered_dict (get_outputs_of_program p) [])
                   progs))
    ∧ concat (map (λ p, ops (global_block p)) progs)
      = ops (global_block program).
Proof.
  intros Hne Hops op_num idxs Hs.
  destruct (normalize_indices_head_last op_num op_indices) as [Hh Hl].
  fold idxs in Hh, Hl.
  pose proof (StronglySorted_bounds idxs 0 op_num Hs Hh Hl) as Hb.
  destruct (prune_pairs program idxs Hs Hb) as (progs & Hprogs & Hcat).
  exists progs. split; [done|]. split.
  - rewrite split_program_unfold by done. fold op_num idxs.
    rewrite sorted_check_Ok by done. cbn [mbind result_bind].
    rewrite Hprogs. done.
  - rewrite Hcat, Hh, Hl. simpl. unfold op_num. rewrite Nat2Z.id.
    apply retained_ops_all.
Qed.

Lemma prune_program_whole (program : Program) :
  ops (global_block program) ≠ [] →
  ∃ pr,
    prune_program program 0 (Z.of_nat (length (ops (global_block program))))
      = Ok pr
    ∧ ops (global_block pr) = ops (global_block program).
Proof.
  intros Hops.
  destruct (prune_program_resolved program 0
              (length (ops (global_block program))))
    as (pr & Hpr & Hretained & _).
  - destruct (ops (global_block program)); [done|]. simpl. lia.
  - done.
  - exists pr. split; [done|]. rewrite Hretained. apply retained_ops_all.
Qed.

(** C3: for a boundary list that is already normalized (starts with [0],
    ends with the operator count) and strictly increasing, hence within
    range, [split_program] returns sub-programs whose operator lists,
    concatenated in order, are the operator list of
    [prune_program P 0 op_count]; the call returns whenever the program has
    an operator. *)
Theorem split_program_round_trip (program : Program) (op_indices : list Z) :
  let op_num := Z.of_nat (length (ops (global_block program))) in
  head op_indices = Some 0 → last op_indices = Some op_num →
  StronglySorted Z.lt op_indices →
  (ops (global_block program) ≠ [] →
   ∃ progs ins outs pr,
     split_program program op_indices = Ok (progs, ins, outs)
     ∧ prune_program program 0 op_num = Ok pr
     ∧ concat (map (λ p, ops (global_block p)) progs) = ops (global_block pr))
  ∧ (∀ progs ins outs,
       split_program program op_indices = Ok (progs, ins, outs) →
       ∃ pr, prune_program program 0 op_num = Ok pr
             ∧ concat (map (λ p, ops (global_block p)) progs)
               = ops (global_block pr)).
Proof.
  intros op_num Hh Hl Hs.
  assert (Hne : op_indices ≠ []) by (by destruct op_indices).
  assert (Hfirst : ops (global_block program) ≠ [] →
   ∃ progs ins outs pr,
     split_program program op_indices = Ok (progs, ins, outs)
     ∧ prune_program program 0 op_num = Ok pr
     ∧ concat (map (λ p, ops (global_block p)) progs) = ops (global_block pr)).
  { intros Hops.
    destruct (split_program_sorted program op_indices Hne Hops)
      as (progs & _ & Hsplit & Hcat).
    { fold op_num. by rewrite normalize_indices_id. }
    destruct (prune_program_whole program Hops) as (pr & Hpr & Hprops).
    do 3 eexists. exists pr. split; [exact Hsplit|]. split; [exact Hpr|].
    by rewrite Hcat, Hprops. }
  split; [exact Hfirst|].
  intros progs ins outs Hsplit.
  destruct (split_program_Ok_inv _ _ _ Hsplit) as [_ Hops].
  destruct (Hfirst Hops) as (progs' & ins' & outs' & pr & Hsplit' & Hpr & Hcat).
  rewrite Hsplit in Hsplit'. injection Hsplit' as <- <- <-.
  by exists pr.
Qed.

Lemma retained_ops_subseteq (b : Block) (s e : nat) (op : Operator) :
  op ∈ retained_ops b s e → op ∈ ops b.
Proof.
  unfold retained_ops. intros H.
  apply list_elem_of_lookup in H as [i Hi].
  rewrite lookup_drop in Hi. apply lookup_take_Some in Hi as [Hi _].
  by eapply list_elem_of_lookup_2.
Qed.

(** C5 (amended): for a valid index pair (after negative-index
    resolution, [0 <= start < op_count], [0 <= end <= op_count],
    [start < end]), [prune_program] returns a program whose global block
    keeps the operators of the range in their source order and keeps
    exactly the source declarations of the global block whose name is an
    input or output argument of a retained operator, every other
    declaration of the global block being dropped; the other blocks of the
    program are kept as they are, with their declarations.  So the names
    declared in the global block are always among the names the retained
    operators use, and they are exactly those names when every name a
    retained operator uses is declared in the global block of the
    source. *)
Theorem prune_program_retained (program : Program) (start_op_idx end_op_idx : Z) :
  let b := global_block program in
  let op_num := Z.of_nat (length (ops b)) in
  let s := resolve_index start_op_idx op_num in
  let e := resolve_index end_op_idx op_num in
  0 ≤ s < op_num → 0 ≤ e ≤ op_num → s < e →
  ∃ pruned,
    prune_program program start_op_idx end_op_idx = Ok pruned
    ∧ ops (global_block pruned) = drop (Z.to_nat s) (take (Z.to_nat e) (ops b))
    ∧ sub_blocks pruned = sub_blocks program
    ∧ (∀ name v,
         vars (global_block pruned) !! name = Some v ↔
         vars b !! name = Some v
         ∧ ∃ op, op ∈ ops (global_block pruned) ∧ uses op name)
    ∧ (∀ name,
         is_Some (vars (global_block pruned) !! name) →
         ∃ op, op ∈ ops (global_block pruned) ∧ uses op name)
    ∧ ((∀ op name, op ∈ ops (global_block pruned) → uses op name →
                   is_Some (vars b !! name)) →
       ∀ name,
         is_Some (vars (global_block pruned) !! name) ↔
         ∃ op, op ∈ ops (global_block pruned) ∧ uses op name).
Proof.
  intros b op_num s e Hs He Hse.
  rewrite prune_program_resolve by (fold b op_num s e; lia).
  fold b op_num s e.
  destruct (prune_program_resolved program (Z.to_nat s) (Z.to_nat e))
    as (pruned & Hpr & Hops & Hsubs & _ & _ & Hvars); [lia|fold b; lia|].
  rewrite !Z2Nat.id in Hpr by lia. fold b in Hops, Hvars.
  exists pruned. split; [done|]. split; [done|]. split; [done|].
  assert (Hlookup : ∀ name v,
    vars (global_block pruned) !! name = Some v ↔
    vars b !! name = Some v
    ∧ ∃ op, op ∈ ops (global_block pruned) ∧ uses op name).
  { intros name v. rewrite Hvars, Hops, <- elem_of_op_names.
    destruct (decide _) as [Hin|Hnin]; [tauto|]. split; [done|tauto]. }
  split; [exact Hlookup|].
  assert (Hused : ∀ name,
    is_Some (vars (global_block pruned) !! name) →
    ∃ op, op ∈ ops (global_block pruned) ∧ uses op name).
  { intros name [v Hv]. by apply Hlookup in Hv as [_ Hv]. }
  split; [exact Hused|].
  intros Hwf name. split; [apply Hused|].
  intros (op & Hop & Hu).
  destruct (Hwf op name Hop Hu) as [v Hv].
  exists v. apply Hlookup. split; [done|]. by exists op.
Qed.

(** C6: for a non-empty program and a non-empty boundary list,
    [split_program] works on the list obtained by resolving negative
    indices against the operator count, putting [0] in front when the first
    resolved boundary is not [0] and the operator count at the end when the
    last one is not the operator count; it fails with the assertion error
    "op_indices must be strictly sorted" whenever that list is not strictly
    increasing, and otherwise returns one pruned sub-program per pair of
    adjacent boundaries. *)
Theorem split_program_boundaries (program : Program) (op_indices : list Z) :
  let op_num := Z.of_nat (length (ops (global_block program))) in
  let normalized := normal_form op_num op_indices in
  op_indices ≠ [] → ops (global_block program) ≠ [] →
  normalize_indices op_num op_indices = normalized
  ∧ (¬ StronglySorted Z.lt normalized →
     split_program program op_indices
     = Raise (AssertionError "op_indices must be strictly sorted"))
  ∧ (StronglySorted Z.lt normalized →
     ∃ progs ins outs,
       split_program program op_indices = Ok (progs, ins, outs)
       ∧ length progs = (length normalized - 1)%nat
       ∧ ∀ i a b, normalized !! i = Some a → normalized !! S i = Some b →
           ∃ p, progs !! i = Some p ∧ prune_program program a b = Ok p).
Proof.
  intros op_num normalized Hne Hops.
  pose proof (normalize_indices_normal_form op_num op_indices Hne) as Hnorm.
  fold normalized in Hnorm. split; [done|]. split.
  - intros Hns. rewrite split_program_unfold by done. fold op_num.
    rewrite Hnorm, sorted_check_Raise by done. done.
  - intros Hs.
    destruct (split_program_sorted program op_indices Hne Hops)
      as (progs & Hprogs & Hsplit & _).
    { fold op_num. by rewrite Hnorm. }
    fold op_num in Hprogs. rewrite Hnorm in Hprogs.
    do 3 eexists. split; [exact Hsplit|]. split.
    + rewrite (for_list_length _ _ _ Hprogs). apply adjacent_pairs_length.
    + intros i a b Ha Hb.
      pose proof (adjacent_pairs_lookup _ _ _ _ Ha Hb) as Hpair.
      destruct (for_list_lookup _ _ _ _ _ Hprogs Hpair) as (p & Hp & Hpp).
      by exists p.
Qed.

(** ** Inputs and outputs of a program *)

Lemma elem_of_odict_set (d : list string) (x y : string) :
  y ∈ odict_set d x ↔ y ∈ d ∨ y = x.
Proof.
  unfold odict_set. destruct (decide (x ∈ d)) as [Hin|Hnin].
  - split; [by left|]. intros [?| ->]; done.
  - rewrite elem_of_app, list_elem_of_singleton. done.
Qed.

Lemma elem_of_list_to_ordered_dict (l d : list string) (x : string) :
  x ∈ list_to_ordered_dict l d ↔ x ∈ d ∨ x ∈ l.
Proof.
  unfold list_to_ordered_dict. revert d.
  induction l as [|y l IH]; intros d; simpl.
  - rewrite elem_of_nil. tauto.
  - rewrite IH, elem_of_odict_set, elem_of_cons. tauto.
Qed.

Lemma elem_of_outputs_acc (l : list Operator) (d : list string) (x : string) :
  x ∈ foldl (λ output_vars op,
               list_to_ordered_dict (output_arg_names op) output_vars) d l
  ↔ x ∈ d ∨ written_by l x.
Proof.
  unfold written_by. revert d. induction l as [|op l IH]; intros d; simpl.
  - split; [by left|]. intros [?|(op & Hop & _)]; [done|].
    by apply elem_of_nil in Hop.
  - rewrite IH, elem_of_list_to_ordered_dict. split.
    + intros [[?|?]|(op' & Hop' & Hx)].
      * by left.
      * right. exists op. split; [left|done].
      * right. exists op'. split; [by right|done].
    + intros [?|(op' & Hop' & Hx)]; [tauto|].
      apply elem_of_cons in Hop' as [->|Hop']; [tauto|].
      right. by exists op'.
Qed.

Lemma elem_of_get_outputs_of_program (p : Program) (x : string) :
  x ∈ get_outputs_of_program p ↔ written_by (ops (global_block p)) x.
Proof.
  unfold get_outputs_of_program. rewrite elem_of_outputs_acc.
  split; [|by right]. intros [H|H]; [|done]. by apply elem_of_nil in H.
Qed.

Lemma inputs_scan (l : list string) (st : gset string * list string) :
  let st1 :=
    foldl (λ (st : gset string * list string) (in_var_name : string),
             if decide (in_var_name ∈ st.1) then st
             else ({[in_var_name]} ∪ st.1, st.2 ++ [in_var_name])) st l in
  (∀ x, x ∈ st1.1 ↔ x ∈ st.1 ∨ x ∈ l)
  ∧ (∀ x, x ∈ st1.2 ↔ x ∈ st.2 ∨ (x ∈ l ∧ x ∉ st.1)).
Proof.
  revert st. induction l as [|y l IH]; intros st; cbn [foldl].
  - split; intros x; rewrite elem_of_nil; tauto.
  - destruct (decide (y ∈ st.1)) as [Hin|Hnin].
    + destruct (IH st) as [H1 H2]. split; intros x.
      * rewrite H1, elem_of_cons. split; [tauto|].
        intros [?|[->|?]]; tauto.
      * rewrite H2, elem_of_cons. split; [tauto|].
        intros [?|[[->|?] ?]]; tauto.
    + destruct (IH ({[y]} ∪ st.1, st.2 ++ [y])) as [H1 H2].
      cbn [fst snd] in H1, H2. split; intros x.
      * rewrite H1, elem_of_cons, elem_of_union, elem_of_singleton. tauto.
      * rewrite H2, elem_of_cons, elem_of_app, list_elem_of_singleton,
          elem_of_union, elem_of_singleton.
        destruct (decide (x = y)) as [->|Hne]; tauto.
Qed.

Lemma inputs_step_spec (st : gset string * list string) (op : Operator) :
  (∀ x, x ∈ (inputs_step st op).1 ↔ x ∈ st.1 ∨ uses op x)
  ∧ (∀ x, x ∈ (inputs_step st op).2 ↔
          x ∈ st.2 ∨ (x ∈ input_arg_names op ∧ x ∉ st.1)).
Proof.
  unfold inputs_step. cbn [fst snd].
  destruct (inputs_scan (input_arg_names op) st) as [H1 H2].
  split; intros x.
  - rewrite elem_of_foldl_add, H1. unfold uses. tauto.
  - apply H2.
Qed.

Lemma elem_of_inputs_acc (l : list Operator) (st : gset string * list string)
    (x : string) :
  x ∈ (foldl inputs_step st l).2
  ↔ x ∈ st.2 ∨ ((x ∉ st.1) ∧ read_before_written l x).
Proof.
  unfold read_before_written. revert st.
  induction l as [|op l IH]; intros st; cbn [foldl].
  - split; [by left|]. intros [?|(_ & k & op & Hk & _)]; done.
  - destruct (inputs_step_spec st op) as [H1 H2].
    rewrite IH, H2, H1. split.
    + intros [[?|[Hin Hv]]|(Hv & k & op' & Hk & Hin & Hbefore)].
      * by left.
      * right. split; [done|]. exists 0%nat, op. split; [done|].
        split; [done|]. intros k' op' Hlt. lia.
      * right. split; [tauto|]. exists (S k), op'. split; [done|].
        split; [done|]. intros [|k'] op'' Hlt Hk'.
        -- injection Hk' as <-. unfold uses in Hv. tauto.
        -- apply (Hbefore k' op''); [lia|done].
    + intros [?|(Hv & k & op' & Hk & Hin & Hbefore)]; [tauto|].
      destruct (decide (x ∈ input_arg_names op)) as [Hop|Hop]; [tauto|].
      destruct k as [|k].
      { injection Hk as <-. done. }
      right. split.
      * intros [?|[?|Hout]]; [done..|].
        by apply (Hbefore 0%nat op (Nat.lt_0_succ k) eq_refl).
      * exists k, op'. split; [done|]. split; [done|].
        intros k' op'' Hlt Hk'. apply (Hbefore (S k') op''); [lia|done].
Qed.

Lemma elem_of_get_inputs_of_program (p : Program) (x : string) :
  x ∈ get_inputs_of_program p ↔ read_before_written (ops (global_block p)) x.
Proof.
  unfold get_inputs_of_program. rewrite elem_of_inputs_acc. cbn [fst snd].
  split.
  - intros [H|[_ H]]; [by apply elem_of_nil in H|done].
  - intros H. right. split; [apply not_elem_of_empty|done].
Qed.

(** ** Valid outputs *)

Lemma nearest_writer_Some (outs : list (list string)) (i : nat) (x : string)
    (j : nat) :
  nearest_writer outs i x = Some j ↔
  (j < i)%nat ∧ x ∈ default [] (outs !! j)
  ∧ ∀ k, (j < k < i)%nat → x ∉ default [] (outs !! k).
Proof.
  induction i as [|i IH]; cbn [nearest_writer].
  - split; [done|]. intros [? _]. lia.
  - destruct (decide (x ∈ default [] (outs !! i))) as [Hin|Hnin].
    + split.
      * intros [= <-]. split; [lia|]. split; [done|]. intros k. lia.
      * intros (Hlt & Hj & Hbetween).
        destruct (decide (j = i)) as [->|Hne]; [done|].
        exfalso. apply (Hbetween i); [lia|done].
    + rewrite IH. split.
      * intros (Hlt & Hj & Hbetween). split; [lia|]. split; [done|].
        intros k Hk. destruct (decide (k = i)) as [->|Hne]; [done|].
        apply Hbetween. lia.
      * intros (Hlt & Hj & Hbetween).
        assert (j ≠ i) by (by intros ->).
        split; [lia|]. split; [done|]. intros k Hk. apply Hbetween. lia.
Qed.

Lemma mark_valid_length (outs : list (list string)) (i : nat)
    (valid : list (list string)) (x : string) :
  length (mark_valid outs i valid x) = length valid.
Proof.
  unfold mark_valid. destruct (nearest_writer outs i x); [|done].
  apply length_alter.
Qed.

Lemma mark_valid_elem_of (outs : list (list string)) (i : nat)
    (valid : list (list string)) (x : string) (j : nat) (y : string) :
  y ∈ default [] (mark_valid outs i valid x !! j) ↔
  y ∈ default [] (valid !! j)
  ∨ (y = x ∧ nearest_writer outs i x = Some j ∧ (j < length valid)%nat).
Proof.
  unfold mark_valid. destruct (nearest_writer outs i x) as [j'|] eqn:Hn.
  - destruct (decide (j' = j)) as [->|Hne].
    + rewrite list_lookup_alter_eq.
      destruct (valid !! j) as [d|] eqn:Hd; simpl.
      * rewrite elem_of_odict_set.
        pose proof (lookup_lt_Some _ _ _ Hd). tauto.
      * apply lookup_ge_None in Hd. rewrite elem_of_nil.
        split; [tauto|]. intros [?|(_ & _ & ?)]; [done|lia].
    + rewrite list_lookup_alter_ne by done.
      split; [by left|]. intros [?|(_ & [= ?] & _)]; done.
  - split; [by left|]. intros [?|(_ & ? & _)]; done.
Qed.

Lemma mark_valid_lookup_ge (outs : list (list string)) (i : nat)
    (valid : list (list string)) (x : string) (j : nat) :
  (i ≤ j)%nat → mark_valid outs i valid x !! j = valid !! j.
Proof.
  intros Hle. unfold mark_valid.
  destruct (nearest_writer outs i x) as [j'|] eqn:Hn; [|done].
  apply nearest_writer_Some in Hn as [Hlt _].
  apply list_lookup_alter_ne. lia.
Qed.

Lemma mark_inputs_length (outs : list (list string)) (i : nat)
    (xs : list string) (valid : list (list string)) :
  length (foldl (mark_valid outs i) valid xs) = length valid.
Proof.
  revert valid. induction xs as [|x xs IH]; intros valid; cbn [foldl]; [done|].
  by rewrite IH, mark_valid_length.
Qed.

Lemma mark_inputs_elem_of (outs : list (list string)) (i : nat)
    (xs : list string) (valid : list (list string)) (j : nat) (y : string) :
  y ∈ default [] (foldl (mark_valid outs i) valid xs !! j) ↔
  y ∈ default [] (valid !! j)
  ∨ (y ∈ xs ∧ nearest_writer outs i y = Some j ∧ (j < length valid)%nat).
Proof.
  revert valid. induction xs as [|x xs IH]; intros valid; cbn [foldl].
  - rewrite elem_of_nil. tauto.
  - rewrite IH, mark_valid_elem_of, mark_valid_length, elem_of_cons.
    split.
    + intros [[?|(-> & ? & ?)]|(? & ? & ?)]; tauto.
    + intros [?|([->|?] & ? & ?)]; tauto.
Qed.

Lemma mark_inputs_lookup_ge (outs : list (list string)) (i : nat)
    (xs : list string) (valid : list (list string)) (j : nat) :
  (i ≤ j)%nat → foldl (mark_valid outs i) valid xs !! j = valid !! j.
Proof.
  intros Hle. revert valid.
  induction xs as [|x xs IH]; intros valid; cbn [foldl]; [done|].
  by rewrite IH, mark_valid_lookup_ge.
Qed.

Lemma mark_all_length (ins outs valid : list (list string)) (l : list nat) :
  length (mark_all ins outs valid l) = length valid.
Proof.
  unfold mark_all. revert valid.
  induction l as [|i l IH]; intros valid; cbn [foldl]; [done|].
  by rewrite IH, mark_inputs_length.
Qed.

Lemma mark_all_elem_of (ins outs valid : list (list string)) (l : list nat)
    (j : nat) (y : string) :
  y ∈ default [] (mark_all ins outs valid l !! j) ↔
  y ∈ default [] (valid !! j)
  ∨ ∃ i, i ∈ l ∧ y ∈ default [] (ins !! i)
         ∧ nearest_writer outs i y = Some j ∧ (j < length valid)%nat.
Proof.
  unfold mark_all. revert valid.
  induction l as [|i l IH]; intros valid; cbn [foldl].
  - split; [by left|]. intros [?|(i & Hi & _)]; [done|].
    by apply elem_of_nil in Hi.
  - rewrite IH, mark_inputs_elem_of, mark_inputs_length. split.
    + intros [[?|(? & ? & ?)]|(i' & ? & ? & ? & ?)].
      * by left.
      * right. exists i. split; [left|done].
      * right. exists i'. split; [by right|done].
    + intros [?|(i' & Hi' & ? & ? & ?)]; [tauto|].
      apply elem_of_cons in Hi' as [->|Hi']; [tauto|].
      right. by exists i'.
Qed.

Lemma mark_all_lookup_ge (ins outs valid : list (list string)) (l : list nat)
    (j : nat) :
  (∀ i, i ∈ l → (i ≤ j)%nat) →
  mark_all ins outs valid l !! j = valid !! j.
Proof.
  unfold mark_all. revert valid.
  induction l as [|i l IH]; intros valid Hle; cbn [foldl]; [done|].
  rewrite IH.
  - apply mark_inputs_lookup_ge, Hle. left.
  - intros i' Hi'. apply Hle. by right.
Qed.

Lemma valid_outputs_unfold (ins outs : list (list string)) :
  valid_outputs ins outs
  = mark_all ins outs
      (<[(length outs - 1)%nat := default [] (last outs)]>
         (replicate (length outs) []))
      (range 1 (length outs)).
Proof. done. Qed.

Lemma valid_outputs_length (ins outs : list (list string)) :
  length (valid_outputs ins outs) = length outs.
Proof.
  rewrite valid_outputs_unfold.
  by rewrite mark_all_length, length_insert, length_replicate.
Qed.

(** Before the last sub-program, a name is a valid output of sub-program [j]
    exactly when it is an input of a later sub-program [i] whose nearest
    earlier writer is [j]. *)
Lemma valid_outputs_elem_of (ins outs : list (list string)) (j : nat)
    (y : string) :
  (S j < length outs)%nat →
  y ∈ default [] (valid_outputs ins outs !! j) ↔
  ∃ i, (j < i < length outs)%nat ∧ y ∈ default [] (ins !! i)
       ∧ nearest_writer outs i y = Some j.
Proof.
  intros Hj. rewrite valid_outputs_unfold.
  rewrite mark_all_elem_of, length_insert, length_replicate.
  rewrite list_lookup_insert_ne by lia.
  rewrite lookup_replicate_2 by lia. cbn [default].
  split.
  - intros [H|(i & Hi & Hin & Hn & _)]; [by apply elem_of_nil in H|].
    exists i. apply elem_of_seq in Hi.
    pose proof (proj1 (nearest_writer_Some _ _ _ _) Hn) as [Hlt _].
    split; [lia|done].
  - intros (i & Hi & Hin & Hn). right. exists i.
    split; [apply elem_of_seq; lia|]. split; [done|]. split; [done|lia].
Qed.

(** The last sub-program keeps its raw outputs. *)
Lemma valid_outputs_last (ins outs : list (list string)) :
  outs ≠ [] →
  valid_outputs ins outs !! (length outs - 1)%nat = last outs.
Proof.
  intros Hne. rewrite valid_outputs_unfold.
  rewrite mark_all_lookup_ge.
  - rewrite list_lookup_insert_eq
      by (rewrite length_replicate; destruct outs; [done|simpl; lia]).
    destruct (last outs) as [d|] eqn:Hd; [done|].
    by apply last_None in Hd.
  - intros i Hi. apply elem_of_seq in Hi. lia.
Qed.

(** ** Valid outputs of [split_program] *)

Lemma elem_of_raw_outputs (progs : list Program) (k : nat) (x : string) :
  x ∈ default [] (raw_outputs progs !! k) ↔ sub_writes progs k x.
Proof.
  unfold raw_outputs, sub_writes. rewrite list_lookup_fmap.
  destruct (progs !! k) as [p|]; simpl.
  - rewrite elem_of_list_to_ordered_dict, elem_of_get_outputs_of_program.
    split.
    + intros [H|H]; [by apply elem_of_nil in H|]. by exists p.
    + intros (p' & [= <-] & H). by right.
  - rewrite elem_of_nil. split; [done|]. by intros (p' & ? & _).
Qed.

Lemma nearest_writer_raw (progs : list Program) (i j : nat) (x : string) :
  nearest_writer (raw_outputs progs) j x = Some i
  ↔ nearest_earlier_writer progs i j x.
Proof.
  rewrite nearest_writer_Some. unfold nearest_earlier_writer.
  rewrite elem_of_raw_outputs.
  split; intros (Hlt & Hw & Hb); (split; [done|]); (split; [done|]);
    intros k Hk; specialize (Hb k Hk); by rewrite elem_of_raw_outputs in *.
Qed.

Lemma split_program_Ok_shape (program : Program) (op_indices : list Z)
    (progs : list Program) (ins outs : list (list string)) :
  split_program program op_indices = Ok (progs, ins, outs) →
  for_list (λ '(a, b), prune_program program a b)
    (adjacent_pairs
       (normalize_indices (Z.of_nat (length (ops (global_block program))))
          op_indices)) = Ok progs
  ∧ ins = map get_inputs_of_program progs
  ∧ outs = valid_outputs ins (raw_outputs progs).
Proof.
  intros H. destruct (split_program_Ok_inv _ _ _ H) as [Hne Hops].
  rewrite split_program_unfold in H by done.
  apply bind_Ok in H as ([] & _ & H).
  apply bind_Ok in H as (progs' & Hprogs & H).
  cbv zeta in H. injection H as -> <- <-. done.
Qed.

Lemma elem_of_split_inputs (progs : list Program) (j : nat) (x : string) :
  x ∈ default [] (map get_inputs_of_program progs !! j)
  ↔ ∃ p, progs !! j = Some p ∧ read_before_written (ops (global_block p)) x.
Proof.
  rewrite list_lookup_fmap. destruct (progs !! j) as [p|]; simpl.
  - rewrite elem_of_get_inputs_of_program. split; [by exists p|].
    by intros (p' & [= <-] & H).
  - rewrite elem_of_nil. split; [done|]. by intros (p' & ? & _).
Qed.

(** Boundaries [[4; 7]] on a 10-operator program give sub-programs of 4, 3
    and 3 operators. *)
Lemma split_program_4_7 (program : Program) :
  length (ops (global_block program)) = 10%nat →
  ∃ p0 p1 p2 ins outs,
    split_program program [4; 7] = Ok ([p0; p1; p2], ins, outs)
    ∧ ops (global_block p0) = take 4 (ops (global_block program))
    ∧ ops (global_block p1) = take 3 (drop 4 (ops (global_block program)))
    ∧ ops (global_block p2) = drop 7 (ops (global_block program)).
Proof.
  intros Hlen.
  assert (Hops : ops (global_block program) ≠ []).
  { intros Hnil. by rewrite Hnil in Hlen. }
  destruct (split_program_sorted program [4; 7] ltac:(done) Hops)
    as (progs & Hprogs & Hsplit & _).
  { rewrite Hlen. repeat constructor; lia. }
  rewrite Hlen in Hprogs.
  change (normalize_indices (Z.of_nat 10) [4; 7]) with [0; 4; 7; 10] in Hprogs.
  cbn [adjacent_pairs for_list] in Hprogs.
  destruct (prune_program_resolved program 0 4) as (p0 & Hp0 & Ho0 & _);
    [lia..|].
  destruct (prune_program_resolved program 4 7) as (p1 & Hp1 & Ho1 & _);
    [lia..|].
  destruct (prune_program_resolved program 7 10) as (p2 & Hp2 & Ho2 & _);
    [lia..|].
  change (Z.of_nat 0) with 0 in *. change (Z.of_nat 4) with 4 in *.
  change (Z.of_nat 7) with 7 in *. change (Z.of_nat 10) with 10 in *.
  rewrite Hp0, Hp1, Hp2 in Hprogs. cbn [mbind result_bind] in Hprogs.
  injection Hprogs as <-.
  exists p0, p1, p2. do 2 eexists. split; [exact Hsplit|].
  unfold retained_ops in *.
  rewrite Ho0, Ho1, Ho2. split; [by rewrite drop_0|]. split.
  - by rewrite take_drop_commute.
  - rewrite take_ge; [done|]. lia.
Qed.

Lemma split_program_valid_iff (program : Program) (op_indices : list Z)
    (progs : list Program) (ins outs : list (list string)) (i : nat)
    (x : string) :
  split_program program op_indices = Ok (progs, ins, outs) →
  (S i < length progs)%nat →
  x ∈ default [] (outs !! i) ↔
  ∃ j, (j < length progs)%nat ∧ x ∈ default [] (ins !! j)
       ∧ nearest_earlier_writer progs i j x.
Proof.
  intros Hsplit Hi.
  destruct (split_program_Ok_shape _ _ _ _ _ Hsplit) as (_ & Hins & ->).
  assert (Hlen : length (raw_outputs progs) = length progs).
  { unfold raw_outputs. apply length_map. }
  rewrite valid_outputs_elem_of by lia. rewrite Hlen.
  split.
  - intros (j & Hj & Hin & Hn). exists j. split; [lia|]. split; [done|].
    by apply nearest_writer_raw.
  - intros (j & Hj & Hin & Hn). exists j.
    pose proof Hn as [Hlt _]. split; [lia|]. split; [done|].
    by apply nearest_writer_raw.
Qed.

(** C4 (amended): before the last sub-program, a name is a valid output of
    sub-program [i] exactly when it is an input of some later sub-program
    [j] for which [i] is the nearest earlier sub-program that writes it, so
    every valid output is needed by a later input and removing it leaves
    that input without the output of its nearest earlier writer; and for a
    10-operator program split at [[4; 7]] into sub-programs of 4, 3 and 3
    operators, a name written by sub-program 0, read by sub-program 2
    before any of its operators writes it, and neither read nor written by
    sub-program 1 is a valid output of sub-program 0 and an input of
    sub-program 2, and is in neither the inputs nor the valid outputs of
    sub-program 1. *)
Theorem split_program_valid_outputs (program : Program) :
  (∀ op_indices progs ins outs i x,
     split_program program op_indices = Ok (progs, ins, outs) →
     (S i < length progs)%nat →
     x ∈ default [] (outs !! i) ↔
     ∃ j, (j < length progs)%nat ∧ x ∈ default [] (ins !! j)
          ∧ nearest_earlier_writer progs i j x)
  ∧ (length (ops (global_block program)) = 10%nat →
     ∃ p0 p1 p2 ins outs,
       split_program program [4; 7] = Ok ([p0; p1; p2], ins, outs)
       ∧ length (ops (global_block p0)) = 4%nat
       ∧ length (ops (global_block p1)) = 3%nat
       ∧ length (ops (global_block p2)) = 3%nat
       ∧ ∀ x,
           written_by (ops (global_block p0)) x →
           read_before_written (ops (global_block p2)) x →
           (∀ op, op ∈ ops (global_block p1) → ¬ uses op x) →
           x ∈ default [] (outs !! 0%nat)
           ∧ x ∈ default [] (ins !! 2%nat)
           ∧ (x ∉ default [] (ins !! 1%nat))
           ∧ (x ∉ default [] (outs !! 1%nat))).
Proof.
  split.
  { intros op_indices progs ins outs i x. apply split_program_valid_iff. }
  intros Hlen.
  destruct (split_program_4_7 program Hlen)
    as (p0 & p1 & p2 & ins & outs & Hsplit & Ho0 & Ho1 & Ho2).
  exists p0, p1, p2, ins, outs. split; [done|].
  split; [rewrite Ho0, length_take; lia|].
  split; [rewrite Ho1, length_take, length_drop; lia|].
  split; [rewrite Ho2, length_drop; lia|].
  intros x Hw0 Hr2 Hno1.
  pose proof (split_program_Ok_shape _ _ _ _ _ Hsplit) as (_ & Hins & _).
  assert (Hnw1 : ¬ sub_writes [p0; p1; p2] 1 x).
  { intros (p & [= <-] & op & Hop & Hx). apply (Hno1 op Hop). by right. }
  assert (Hin2 : x ∈ default [] (ins !! 2%nat)).
  { rewrite Hins. apply elem_of_split_inputs. by exists p2. }
  split; [|split; [done|split]].
  - apply (split_program_valid_iff _ _ _ _ _ 0 x Hsplit); [simpl; lia|].
    exists 2%nat. split; [simpl; lia|]. split; [done|].
    split; [lia|]. split; [by exists p0|].
    intros k Hk. by replace k with 1%nat by lia.
  - rewrite Hins. intros (p & [= <-] & k & op & Hk & Hx & _)%elem_of_split_inputs.
    apply (Hno1 op); [by eapply list_elem_of_lookup_2|by left].
  - intros (j & _ & _ & _ & Hw & _)%(split_program_valid_iff _ _ _ _ _ 1 x Hsplit);
      [done|simpl; lia].
Qed.

(** ** [OpInOutInfo] *)

Lemma elem_of_other_names (no_need : gset string) (f : string → list string)
    (slots : list string) (s0 : gset string) (x : string) :
  x ∈ foldl (λ (other : gset string) slot_name,
               if decide (slot_name ∈ no_need) then other
               else foldl (λ (other : gset string) (y : string), {[y]} ∪ other)
                          other (f slot_name)) s0 slots
  ↔ x ∈ s0 ∨ ∃ slot, slot ∈ slots ∧ (slot ∉ no_need) ∧ x ∈ f slot.
Proof.
  revert s0. induction slots as [|slot slots IH]; intros s0; cbn [foldl].
  - split; [by left|]. intros [?|(slot & Hs & _)]; [done|].
    by apply elem_of_nil in Hs.
  - rewrite IH. destruct (decide (slot ∈ no_need)) as [Hin|Hnin].
    + split.
      * intros [?|(slot' & ? & ? & ?)]; [by left|].
        right. exists slot'. split; [by right|done].
      * intros [?|(slot' & Hs & Hn & Hx)]; [by left|].
        apply elem_of_cons in Hs as [->|Hs]; [done|].
        right. by exists slot'.
    + rewrite elem_of_foldl_add. split.
      * intros [[?|?]|(slot' & ? & ? & ?)].
        -- right. exists slot. split; [left|done].
        -- by left.
        -- right. exists slot'. split; [by right|done].
      * intros [?|(slot' & Hs & Hn & Hx)]; [tauto|].
        apply elem_of_cons in Hs as [->|Hs]; [tauto|].
        right. by exists slot'.
Qed.

Section OpInOutInfoProperties.

Context (infer_no_need_buffer_slots :
           string → list (string * list string) → list (string * list string)
           → gmap string AttrValue → gset string).

(** C8: after [build_info] has been run on a fresh [OpInOutInfo] for an
    operator, [is_needed name] is true exactly when the registry reports no
    no-need-buffer slot for the operator, or [name] is an argument of one of
    its input or output slots that is not a no-need-buffer slot. *)
Theorem is_needed_after_build_info (op : Operator) (name : string) :
  let no_need := no_need_slots infer_no_need_buffer_slots op in
  let info := build_info infer_no_need_buffer_slots OpInOutInfo_init op in
  _no_need_buffer_slots info = no_need
  ∧ (is_needed info name = true ↔ no_need = ∅ ∨ in_needed_slot no_need op name).
Proof.
  intros no_need info. unfold info, build_info, no_need_slots in *.
  cbn [_get_op_attrs] in *. fold no_need.
  destruct (decide (size no_need = 0%nat)) as [Hz|Hnz].
  - rewrite bool_decide_eq_true_2 by done. cbn [_no_need_buffer_slots].
    split; [done|]. unfold is_needed. cbn [_no_need_buffer_slots].
    rewrite bool_decide_eq_true_2 by done. cbn [orb].
    split; [|done]. intros _. left. by apply size_empty_iff, leibniz_equiv in Hz.
  - rewrite bool_decide_eq_false_2 by done. cbn [_no_need_buffer_slots].
    split; [done|]. unfold is_needed.
    cbn [_no_need_buffer_slots _other_arg_names_set OpInOutInfo_init].
    rewrite bool_decide_eq_false_2 by done. cbn [orb].
    rewrite bool_decide_eq_true, !elem_of_other_names.
    unfold in_needed_slot. split.
    + intros [[H|(slot & Hs & Hn & Hx)]|(slot & Hs & Hn & Hx)].
      * by apply elem_of_empty in H.
      * right. exists slot. split; [done|]. by left.
      * right. exists slot. split; [done|]. by right.
    + intros [Hempty|(slot & Hn & [[Hs Hx]|[Hs Hx]])].
      * exfalso. apply Hnz. rewrite Hempty. apply size_empty.
      * left. right. by exists slot.
      * right. by exists slot.
Qed.

End OpInOutInfoProperties.

(** ** The skip-GC sweep *)

Lemma for_each_st_app {A S : Type} (body : S → A → S * option exn)
    (l1 l2 : list A) (s : S) :
  for_each_st body (l1 ++ l2) s
  = match for_each_st body l1 s with
    | (s', None) => for_each_st body l2 s'
    | (s', Some e) => (s', Some e)
    end.
Proof.
  revert s. induction l1 as [|x l1 IH]; intros s; cbn [app for_each_st].
  - done.
  - destruct (body s x) as [s' [e|]]; [done|]. apply IH.
Qed.

Lemma rev_range_S (k d : nat) :
  rev (range k (k + S d)) = rev (range (S k) (k + S d)) ++ [k].
Proof.
  unfold range. replace (k + S d - k)%nat with (S d) by lia.
  replace (k + S d - S k)%nat with d by lia. done.
Qed.

Lemma py_slot_lt (n : nat) (i : Z) (m : nat) :
  py_slot n i = Some m → (m < n)%nat.
Proof.
  unfold py_slot. destruct (decide (i < 0)); case_decide; intros [= <-]; lia.
Qed.

Lemma annotate_length req n jobs k : length (annotate req n jobs k) = length jobs.
Proof. unfold annotate. apply length_imap. Qed.

Lemma annotate_lookup req n jobs k i job :
  jobs !! i = Some job →
  annotate req n jobs k !! i
  = Some (if decide (k ≤ i)%nat
          then job_set_skip_gc_vars job (expected_skip_gc req n jobs i job)
          else job).
Proof. intros H. unfold annotate. by rewrite list_lookup_imap, H. Qed.

Lemma annotate_all req n jobs : annotate req n jobs (length jobs) = jobs.
Proof.
  apply list_eq. intros i. destruct (jobs !! i) as [job|] eqn:Hi.
  - rewrite (annotate_lookup _ _ _ _ _ _ Hi).
    pose proof (lookup_lt_Some _ _ _ Hi). rewrite decide_False by lia. done.
  - apply lookup_ge_None. rewrite annotate_length.
    by apply lookup_ge_None.
Qed.

Lemma annotate_step req n jobs k job :
  jobs !! k = Some job →
  <[k := job_set_skip_gc_vars job (expected_skip_gc req n jobs k job)]>
    (annotate req n jobs (S k))
  = annotate req n jobs k.
Proof.
  intros Hk. apply list_eq. intros i.
  destruct (decide (i = k)) as [->|Hne].
  - rewrite list_lookup_insert_eq
      by (rewrite annotate_length; by eapply lookup_lt_Some).
    rewrite (annotate_lookup _ _ _ _ _ _ Hk). by rewrite decide_True.
  - rewrite list_lookup_insert_ne by done.
    destruct (jobs !! i) as [job'|] eqn:Hi.
    + rewrite !(annotate_lookup _ _ _ _ _ _ Hi).
      destruct (decide (S k ≤ i)%nat), (decide (k ≤ i)%nat); try done; lia.
    + transitivity (@None Job); [|symmetry];
        apply lookup_ge_None; rewrite annotate_length;
        by apply lookup_ge_None.
Qed.

Lemma suffix_sets_nil req n : suffix_sets req n [] = replicate n ∅.
Proof.
  unfold suffix_sets. cbn [suffix_required foldr].
  generalize 0%nat. induction n as [|n IH]; intros a; [done|].
  cbn [seq map replicate]. by rewrite IH.
Qed.

Lemma suffix_sets_lookup req n js m :
  (m < n)%nat → suffix_sets req n js !! m = Some (suffix_required req n js m).
Proof.
  intros Hm. unfold suffix_sets. rewrite list_lookup_fmap.
  rewrite lookup_seq_lt by done. done.
Qed.

Lemma suffix_sets_step req n job js m required :
  py_slot n (micro_batch_id job) = Some m →
  req !! job_type job = Some required →
  alter (λ s, s ∪ required) m (suffix_sets req n js)
  = suffix_sets req n (job :: js).
Proof.
  intros Hm Hreq. pose proof (py_slot_lt _ _ _ Hm) as Hlt.
  apply list_eq. intros m'.
  destruct (decide (m' < n)%nat) as [Hm'|Hm'].
  - rewrite (suffix_sets_lookup _ _ (job :: js)) by done.
    cbn [suffix_required foldr]. rewrite Hm, Hreq. cbn [default].
    fold (suffix_required req n js m').
    destruct (decide (m' = m)) as [->|Hne].
    + rewrite list_lookup_alter_eq, suffix_sets_lookup by done.
      rewrite decide_True by done. cbn [fmap option_fmap option_map].
      f_equal. apply union_comm_L.
    + rewrite list_lookup_alter_ne by done.
      rewrite suffix_sets_lookup by done.
      rewrite decide_False by congruence. done.
  - transitivity (@None (gset string)); [|symmetry]; apply lookup_ge_None.
    + rewrite length_alter. unfold suffix_sets. rewrite length_map, length_seq. lia.
    + unfold suffix_sets. rewrite length_map, length_seq. lia.
Qed.

Section SkipGcSweep.

Context (repr_set : gset string → string).
Context (req : gmap string (gset string)) (n : nat) (jobs : list Job).

Lemma suffix_sets_length (js : list Job) : length (suffix_sets req n js) = n.
Proof. unfold suffix_sets. by rewrite length_map, length_seq. Qed.

Lemma skip_gc_step_at (k : nat) (job : Job) :
  jobs !! k = Some job →
  let st := (annotate req n jobs (S k), suffix_sets req n (drop (S k) jobs)) in
  (job_ok req n jobs k job
   ∧ skip_gc_step repr_set req st k
     = ((annotate req n jobs k, suffix_sets req n (drop k jobs)), None))
  ∨ (¬ job_ok req n jobs k job
     ∧ skip_gc_step repr_set req st k = (st, Some (job_failure repr_set req n jobs k job))).
Proof.
  intros Hk st. unfold skip_gc_step, st, job_failure, job_ok.
  rewrite (annotate_lookup _ _ _ _ _ _ Hk).
  rewrite decide_False by lia. rewrite suffix_sets_length.
  destruct (req !! job_type job) as [required|] eqn:Hreq.
  2:{ right. split; [|done]. intros [[? [=]] _]. }
  destruct (py_slot n (micro_batch_id job)) as [m|] eqn:Hm.
  2:{ right. split; [|done]. intros (_ & [? [=]] & _). }
  pose proof (py_slot_lt _ _ _ Hm) as Hlt.
  rewrite suffix_sets_lookup by done. cbn [default from_option id].
  assert (Hskip : required ∩ suffix_required req n (drop (S k) jobs) m
                  = expected_skip_gc req n jobs k job).
  { unfold expected_skip_gc. by rewrite Hreq, Hm. }
  rewrite Hskip.
  destruct (decide (job_type job = "backward")) as [Hb|Hb].
  - rewrite (bool_decide_eq_true_2 _ Hb). cbn [andb].
    destruct (decide (size (expected_skip_gc req n jobs k job) = 0%nat))
      as [Hz|Hnz].
    + rewrite (bool_decide_eq_true_2 _ Hz). cbn [negb].
      left. split.
      * split; [by eexists|]. split; [by eexists|]. intros _.
        by apply size_empty_iff, leibniz_equiv in Hz.
      * rewrite annotate_step by done.
        rewrite (suffix_sets_step _ _ job) by done.
        by rewrite <- (drop_S _ _ _ Hk).
    + rewrite (bool_decide_eq_false_2 _ Hnz). cbn [negb].
      right. split; [|done]. intros (_ & _ & Hempty).
      apply Hnz. rewrite (Hempty Hb). apply size_empty.
  - rewrite (bool_decide_eq_false_2 _ Hb). cbn [andb].
    left. split.
    + split; [by eexists|]. split; [by eexists|done].
    + rewrite annotate_step by done.
      rewrite (suffix_sets_step _ _ job) by done.
      by rewrite <- (drop_S _ _ _ Hk).
Qed.

(** The reverse sweep from the last job down to position [k]: either every
    job from [k] on is processed, or the sweep stops at the last position
    that cannot be processed, with the jobs after it already annotated. *)
Lemma skip_gc_sweep (d k : nat) :
  (k + d)%nat = length jobs →
  let r := skip_gc_loop repr_set req (rev (range k (length jobs)))
                        (jobs, replicate n ∅) in
  ((∀ i job, (k ≤ i)%nat → jobs !! i = Some job → job_ok req n jobs i job)
   ∧ r = ((annotate req n jobs k, suffix_sets req n (drop k jobs)), None))
  ∨ (∃ i job,
       (k ≤ i)%nat ∧ jobs !! i = Some job
       ∧ (∀ i' job', (i < i')%nat → jobs !! i' = Some job' →
            job_ok req n jobs i' job')
       ∧ ¬ job_ok req n jobs i job
       ∧ r = ((annotate req n jobs (S i), suffix_sets req n (drop (S i) jobs)),
              Some (job_failure repr_set req n jobs i job))).
Proof.
  revert k. induction d as [|d IH]; intros k Hkd r.
  - left. split.
    + intros i job Hi Hjob. apply lookup_lt_Some in Hjob. lia.
    + unfold r, range. replace (length jobs - k)%nat with 0%nat by lia.
      cbn [seq rev skip_gc_loop for_each_st].
      replace k with (length jobs) by lia.
      by rewrite annotate_all, drop_all, suffix_sets_nil.
  - unfold r. rewrite <- Hkd. rewrite rev_range_S. rewrite Hkd.
    unfold skip_gc_loop. rewrite for_each_st_app.
    destruct (IH (S k) ltac:(lia)) as [[Hall Hr]|(i & job & Hi & Hjob & Hafter & Hnok & Hr)];
      unfold skip_gc_loop in Hr; rewrite Hr.
    + cbn [for_each_st].
      assert (Hk : is_Some (jobs !! k)) by (apply lookup_lt_is_Some; lia).
      destruct Hk as [job Hk].
      destruct (skip_gc_step_at k job Hk) as [[Hok Hstep]|[Hnok Hstep]];
        rewrite Hstep.
      * left. split; [|done]. intros i job' Hi Hjob'.
        destruct (decide (i = k)) as [->|Hne].
        -- by simplify_eq.
        -- apply Hall; [lia|done].
      * right. exists k, job. split; [done|]. split; [done|].
        split; [|done]. intros i' job' Hi' Hjob'. apply Hall; [lia|done].
    + right. exists i, job. split; [lia|]. done.
Qed.

Lemma skip_gc_sweep_ok :
  (∀ i job, jobs !! i = Some job → job_ok req n jobs i job) →
  skip_gc_loop repr_set req (rev (range 0 (length jobs))) (jobs, replicate n ∅)
  = ((annotate req n jobs 0, suffix_sets req n jobs), None).
Proof.
  intros Hall.
  destruct (skip_gc_sweep (length jobs) 0 eq_refl)
    as [[_ Hr]|(i & job & _ & Hjob & _ & Hnok & _)].
  - by rewrite drop_0 in Hr.
  - destruct Hnok. by apply Hall.
Qed.

Lemma skip_gc_sweep_None (st : list Job * list (gset string)) :
  skip_gc_loop repr_set req (rev (range 0 (length jobs))) (jobs, replicate n ∅)
  = (st, None) →
  (∀ i job, jobs !! i = Some job → job_ok req n jobs i job)
  ∧ st.1 = annotate req n jobs 0.
Proof.
  intros Hloop.
  destruct (skip_gc_sweep (length jobs) 0 eq_refl)
    as [[Hall Hr]|(i & job & _ & _ & _ & _ & Hr)];
    rewrite Hloop in Hr; [|done].
  injection Hr as ->. split; [|done].
  intros i job Hjob. apply Hall; [lia|done].
Qed.

Lemma skip_gc_sweep_fail (i : nat) (job : Job) :
  jobs !! i = Some job →
  (∀ i' job', (i < i')%nat → jobs !! i' = Some job' → job_ok req n jobs i' job') →
  ¬ job_ok req n jobs i job →
  skip_gc_loop repr_set req (rev (range 0 (length jobs))) (jobs, replicate n ∅)
  = ((annotate req n jobs (S i), suffix_sets req n (drop (S i) jobs)),
     Some (job_failure repr_set req n jobs i job)).
Proof.
  intros Hjob Hafter Hnok.
  destruct (skip_gc_sweep (length jobs) 0 eq_refl)
    as [[Hall _]|(i0 & job0 & _ & Hjob0 & Hafter0 & Hnok0 & Hr)].
  - destruct Hnok. apply Hall; [lia|done].
  - destruct (lt_eq_lt_dec i i0) as [[Hlt| ->]|Hgt].
    + destruct Hnok0. by apply Hafter.
    + by simplify_eq.
    + destruct Hnok. by apply Hafter0.
Qed.

End SkipGcSweep.

(** ** [set_skip_gc_vars] *)

Lemma schedule_2_sweep (req : gmap string (gset string)) :
  req !! "forward" = Some {["a"]} → req !! "backward" = Some {["a"]} →
  (∀ i job, schedule_2 !! i = Some job → job_ok req 2 schedule_2 i job)
  ∧ skip_gc_vars <$> annotate req 2 schedule_2 0 = [{["a"]}; {["a"]}; ∅; ∅].
Proof.
  intros Hf Hb.
  assert (H3 : expected_skip_gc req 2 schedule_2 3 (new_job "backward" 0) = ∅).
  { unfold expected_skip_gc. cbn. apply intersection_empty_r_L. }
  assert (H2 : expected_skip_gc req 2 schedule_2 2 (new_job "backward" 1) = ∅).
  { unfold expected_skip_gc. cbn. apply intersection_empty_r_L. }
  assert (H1 : expected_skip_gc req 2 schedule_2 1 (new_job "forward" 1) = {["a"]}).
  { unfold expected_skip_gc. cbn. rewrite Hf, Hb. cbn. set_solver. }
  assert (H0 : expected_skip_gc req 2 schedule_2 0 (new_job "forward" 0) = {["a"]}).
  { unfold expected_skip_gc. cbn. rewrite Hf, Hb. cbn. set_solver. }
  split.
  - intros i job Hi. unfold job_ok.
    destruct i as [|[|[|[|i]]]]; [injection Hi as <-..|done]; cbn;
      rewrite ?Hf, ?Hb; (split; [by eexists|]); (split; [by eexists|]);
      done.
  - unfold annotate. cbn. by rewrite H0, H1, H2, H3.
Qed.

Section SetSkipGcVars.

Context (infer_no_need_buffer_slots :
           string → list (string * list string) → list (string * list string)
           → gmap string AttrValue → gset string).
Context (FLAGS_enable_pir_in_executor : bool).
Context (repr_set : gset string → string).

Lemma set_skip_gc_vars_Ok_inv (num_micro_batches : Z) (job_types : list string)
    (sub_programs : list Program) (jobs : list Job) (tp : gmap string nat) :
  let out := set_skip_gc_vars infer_no_need_buffer_slots
               FLAGS_enable_pir_in_executor repr_set num_micro_batches
               job_types sub_programs jobs in
  let req := type_to_required_vars_of infer_no_need_buffer_slots job_types
               sub_programs in
  let n := Z.to_nat num_micro_batches in
  out_result out = Ok tp →
  (∀ i job, jobs !! i = Some job → job_ok req n jobs i job)
  ∧ out_jobs out = annotate req n jobs 0.
Proof.
  intros out req n. unfold out, set_skip_gc_vars.
  destruct (bool_decide (num_micro_batches >= 1)); cbn [negb]; [|done].
  fold req n.
  destruct (skip_gc_loop repr_set req (rev (range 0 (length jobs)))
              (jobs, replicate n ∅)) as [[jobs' suffixed] [e|]] eqn:Hloop;
    [done|].
  apply skip_gc_sweep_None in Hloop as [Hall Hjobs]. cbn [fst] in Hjobs.
  intros _. split; [done|].
  destruct FLAGS_enable_pir_in_executor; [|done].
  by destruct (for_each_st _ _ _) as [progs [e|]].
Qed.

Lemma set_skip_gc_vars_fail (num_micro_batches : Z) (job_types : list string)
    (sub_programs : list Program) (jobs : list Job) (i : nat) (job : Job) :
  let out := set_skip_gc_vars infer_no_need_buffer_slots
               FLAGS_enable_pir_in_executor repr_set num_micro_batches
               job_types sub_programs jobs in
  let req := type_to_required_vars_of infer_no_need_buffer_slots job_types
               sub_programs in
  let n := Z.to_nat num_micro_batches in
  num_micro_batches >= 1 →
  jobs !! i = Some job →
  (∀ i' job', (i < i')%nat → jobs !! i' = Some job' → job_ok req n jobs i' job') →
  ¬ job_ok req n jobs i job →
  out_result out = Raise (job_failure repr_set req n jobs i job)
  ∧ out_jobs out = annotate req n jobs (S i).
Proof.
  intros out req n Hge Hjob Hafter Hnok. unfold out, set_skip_gc_vars.
  rewrite bool_decide_eq_true_2 by done. cbn [negb]. fold req n.
  by rewrite (skip_gc_sweep_fail repr_set req n jobs i job Hjob Hafter Hnok).
Qed.

(** C1: whenever [set_skip_gc_vars] returns, every job [(type, m)] of the
    sequence holds the skip-GC set
    [type_to_required_vars[type] ∩ suffix_required[m]], where the suffix set
    of a micro-batch is the union of the required variables of the jobs
    that come later in the sequence on that micro-batch (the accumulator of
    the reverse scan, to which each processed job adds its required
    variables), and the scan completes whenever every job has a known
    type, a micro-batch in range and, if it is a backward job, an empty
    set; in particular, with two micro-batches, the sequence
    [fwd(0), fwd(1), bwd(1), bwd(0)] and [{"a"}] required by both types, the
    call returns and the sets are [{"a"}], [{"a"}], empty, empty. *)
Theorem set_skip_gc_vars_suffix (num_micro_batches : Z)
    (job_types : list string) (sub_programs : list Program) (jobs : list Job) :
  let out := set_skip_gc_vars infer_no_need_buffer_slots
               FLAGS_enable_pir_in_executor repr_set num_micro_batches
               job_types sub_programs jobs in
  let req := type_to_required_vars_of infer_no_need_buffer_slots job_types
               sub_programs in
  let n := Z.to_nat num_micro_batches in
  (∀ type_to_program,
     out_result out = Ok type_to_program →
     length (out_jobs out) = length jobs
     ∧ ∀ i job, jobs !! i = Some job →
         ∃ required m,
           req !! job_type job = Some required
           ∧ py_slot n (micro_batch_id job) = Some m
           ∧ out_jobs out !! i
             = Some (job_set_skip_gc_vars job
                       (required ∩ suffix_required req n (drop (S i) jobs) m)))
  ∧ (num_micro_batches >= 1 →
     (∀ i job, jobs !! i = Some job → job_ok req n jobs i job) →
     out_jobs out = annotate req n jobs 0
     ∧ (FLAGS_enable_pir_in_executor = false →
        ∃ type_to_program, out_result out = Ok type_to_program))
  ∧ (∀ job js m,
       suffix_required req n (job :: js) m
       = if decide (py_slot n (micro_batch_id job) = Some m)
         then default ∅ (req !! job_type job) ∪ suffix_required req n js m
         else suffix_required req n js m)
  ∧ (∀ fwd bwd,
       num_micro_batches = 2 → job_types = ["forward"; "backward"] →
       sub_programs = [fwd; bwd] → jobs = schedule_2 →
       required_vars infer_no_need_buffer_slots fwd = {["a"]} →
       required_vars infer_no_need_buffer_slots bwd = {["a"]} →
       (∃ type_to_program, out_result out = Ok type_to_program)
       ∧ skip_gc_vars <$> out_jobs out = [{["a"]}; {["a"]}; ∅; ∅]).
Proof.
  intros out req n. split; [|split; [|split]].
  - intros tp Hok.
    destruct (set_skip_gc_vars_Ok_inv _ _ _ _ _ Hok) as [Hall Hjobs].
    fold out req n in Hall, Hjobs. rewrite Hjobs.
    split; [apply annotate_length|].
    intros i job Hjob. destruct (Hall i job Hjob) as ([required Hr] & [m Hm] & _).
    exists required, m. split; [done|]. split; [done|].
    rewrite (annotate_lookup _ _ _ _ _ _ Hjob). rewrite decide_True by lia.
    unfold expected_skip_gc. by rewrite Hr, Hm.
  - intros Hge Hall.
    assert (Hloop := skip_gc_sweep_ok repr_set req n jobs Hall).
    unfold out, set_skip_gc_vars.
    rewrite bool_decide_eq_true_2 by done. cbn [negb]. fold req n.
    rewrite Hloop. split.
    + destruct FLAGS_enable_pir_in_executor; [|done].
      by destruct (for_each_st _ _ _) as [progs [e|]].
    + intros ->. by eexists.
  - done.
  - intros fwd bwd Hn Htypes Hprogs Hjobs Hfwd Hbwd.
    assert (Hf : req !! "forward" = Some {["a"]}).
    { unfold req, type_to_required_vars_of. rewrite Htypes, Hprogs.
      rewrite lookup_fmap.
      change (type_to_program_of ["forward"; "backward"] [fwd; bwd] !! "forward")
        with (Some 0%nat).
      change (Some (required_vars infer_no_need_buffer_slots fwd)
              = Some {["a"]}).
      by rewrite Hfwd. }
    assert (Hb : req !! "backward" = Some {["a"]}).
    { unfold req, type_to_required_vars_of. rewrite Htypes, Hprogs.
      rewrite lookup_fmap.
      change (type_to_program_of ["forward"; "backward"] [fwd; bwd] !! "backward")
        with (Some 1%nat).
      change (Some (required_vars infer_no_need_buffer_slots bwd)
              = Some {["a"]}).
      by rewrite Hbwd. }
    destruct (schedule_2_sweep req Hf Hb) as [Hall Hsets].
    assert (Hloop := skip_gc_sweep_ok repr_set req 2 schedule_2 Hall).
    unfold out, set_skip_gc_vars. rewrite Hn, Hjobs.
    cbn [bool_decide negb]. rewrite bool_decide_eq_true_2 by lia. cbn [negb].
    fold req. change (Z.to_nat 2) with 2%nat. rewrite Hloop.
    destruct FLAGS_enable_pir_in_executor.
    + rewrite Htypes, Hprogs. cbn [tail zip zip_with for_each_st prepare_step].
      change (type_to_program_of ["forward"; "backward"] [fwd; bwd] !! "forward")
        with (Some 0%nat).
      change (type_to_program_of ["forward"; "backward"] [fwd; bwd] !! "backward")
        with (Some 1%nat).
      cbn [out_result out_jobs]. split; [by eexists|done].
    + cbn [out_result out_jobs]. split; [by eexists|done].
Qed.

(** C2: whenever [set_skip_gc_vars] returns, every job of type "backward"
    holds an empty skip-GC set; and when the reverse scan reaches a
    "backward" job whose required variables meet the accumulated suffix set
    of its micro-batch, the call fails with the assertion error on the
    backward skip-GC set, and that job is left without the non-empty set. *)
Theorem set_skip_gc_vars_backward (num_micro_batches : Z)
    (job_types : list string) (sub_programs : list Program) (jobs : list Job) :
  let out := set_skip_gc_vars infer_no_need_buffer_slots
               FLAGS_enable_pir_in_executor repr_set num_micro_batches
               job_types sub_programs jobs in
  let req := type_to_required_vars_of infer_no_need_buffer_slots job_types
               sub_programs in
  let n := Z.to_nat num_micro_batches in
  (∀ type_to_program i job,
     out_result out = Ok type_to_program →
     out_jobs out !! i = Some job → job_type job = "backward" →
     skip_gc_vars job = ∅)
  ∧ (∀ i job required m,
       num_micro_batches >= 1 →
       jobs !! i = Some job → job_type job = "backward" →
       (∀ i' job', (i < i')%nat → jobs !! i' = Some job' →
          job_ok req n jobs i' job') →
       req !! "backward" = Some required →
       py_slot n (micro_batch_id job) = Some m →
       required ∩ suffix_required req n (drop (S i) jobs) m ≠ ∅ →
       out_result out
       = Raise (AssertionError
                  (backward_message repr_set
                     (required ∩ suffix_required req n (drop (S i) jobs) m)))
       ∧ out_jobs out !! i = Some job).
Proof.
  intros out req n. split.
  - intros tp i job Hok Hjob Hback.
    destruct (set_skip_gc_vars_Ok_inv _ _ _ _ _ Hok) as [Hall Hjobs].
    fold out req n in Hall, Hjobs. rewrite Hjobs in Hjob.
    destruct (jobs !! i) as [job0|] eqn:Hjob0.
    + rewrite (annotate_lookup _ _ _ _ _ _ Hjob0) in Hjob.
      rewrite decide_True in Hjob by lia. injection Hjob as <-.
      cbn [skip_gc_vars job_set_skip_gc_vars job_type] in *.
      by destruct (Hall i job0 Hjob0) as (_ & _ & Hempty); apply Hempty.
    + apply lookup_lt_Some in Hjob. rewrite annotate_length in Hjob.
      apply lookup_ge_None in Hjob0. lia.
  - intros i job required m Hge Hjob Hback Hafter Hreq Hm Hne.
    assert (Hskip : expected_skip_gc req n jobs i job
                    = required ∩ suffix_required req n (drop (S i) jobs) m).
    { unfold expected_skip_gc. by rewrite Hback, Hreq, Hm. }
    assert (Hnok : ¬ job_ok req n jobs i job).
    { intros (_ & _ & Hempty). apply Hne. rewrite <- Hskip. by apply Hempty. }
    destruct (set_skip_gc_vars_fail num_micro_batches job_types sub_programs
                jobs i job Hge Hjob Hafter Hnok) as [Hres Hjobs].
    fold out req n in Hres, Hjobs. split.
    + rewrite Hres. unfold job_failure. by rewrite Hback, Hreq, Hm, Hskip.
    + rewrite Hjobs, (annotate_lookup _ _ _ _ _ _ Hjob).
      by rewrite decide_False by lia.
Qed.

End SetSkipGcVars.

(** ** The sub-program re-materializer *)

Lemma copied_decl_name (v : Var) : var_name (copied_decl v) = var_name v.
Proof.
  unfold copied_decl. destruct (decide _); [done|].
  by destruct (param_attrs v).
Qed.

Lemma find_var_from_local (blks : list Block) (fuel : nat) (b : Block)
    (name : string) (v : Var) :
  vars b !! name = Some v → find_var_from blks fuel b name = Some v.
Proof. intros H. destruct fuel; simpl; by rewrite H. Qed.

Lemma _create_var_declared (src_prog : Program) (src_block dst : Block)
    (name : string) (force_create : bool) (v : Var) :
  source_var src_prog src_block force_create name = Some v →
  _create_var src_prog src_block dst name force_create
  = Ok (declare dst (copied_decl v)).
Proof.
  unfold source_var, _create_var, var, _var_recursive.
  intros Hv. destruct force_create; cbn [negb]; rewrite Hv;
    cbn [mbind result_bind]; unfold copied_decl;
    (destruct (decide (var_type v ∈ __not_shape_var_type__)); [done|]);
    by destruct (param_attrs v).
Qed.

Lemma create_if_declared_spec (src_prog : Program) (src_block dst : Block)
    (force_create : bool) (name : string) :
  create_if_declared src_prog src_block force_create dst name
  = Ok (match source_var src_prog src_block force_create name with
        | Some v => declare dst (copied_decl v)
        | None => dst
        end).
Proof.
  unfold create_if_declared, has_var.
  destruct (source_var src_prog src_block force_create name) as [v|] eqn:Hv.
  - rewrite (_create_var_declared _ _ _ _ _ _ Hv).
    unfold source_var in Hv. destruct force_create.
    + rewrite (bool_decide_eq_true_2 (is_Some (_find_var_recursive _ _ _)))
        by (by eexists).
      by rewrite orb_true_r.
    + rewrite bool_decide_eq_true_2 by (by eexists). done.
  - unfold source_var in Hv. destruct force_create.
    + assert (Hlocal : vars src_block !! name = None).
      { destruct (vars src_block !! name) as [v|] eqn:Hl; [|done].
        unfold _find_var_recursive in Hv.
        by rewrite (find_var_from_local _ _ _ _ _ Hl) in Hv. }
      rewrite Hlocal, Hv.
      rewrite !bool_decide_eq_false_2 by (by intros [? ?]). done.
    + rewrite Hv. rewrite bool_decide_eq_false_2 by (by intros [? ?]). done.
Qed.

Lemma declare_union (b : Block) (v : Var) :
  declare b v = set_vars b (vars b ∪ {[var_name v := v]}).
Proof.
  unfold declare, has_var.
  destruct (decide (is_Some (vars b !! var_name v))) as [[d Hd]|Hn].
  - rewrite bool_decide_eq_true_2 by (by eexists).
    assert (Hsame : vars b ∪ {[var_name v := v]} = vars b).
    { apply map_eq. intros i. rewrite lookup_union.
      destruct (decide (i = var_name v)) as [->|Hne].
      - by rewrite Hd, lookup_singleton_eq.
      - rewrite lookup_singleton_ne by done. by destruct (vars b !! i). }
    rewrite Hsame. by destruct b.
  - rewrite bool_decide_eq_false_2 by done. f_equal.
    apply insert_union_singleton_r. by apply eq_None_not_Some.
Qed.

Lemma declare_all_app (dst : Block) (l1 l2 : list (string * Var)) :
  declare_all dst (l1 ++ l2) = declare_all (declare_all dst l1) l2.
Proof.
  unfold declare_all, set_vars. cbn.
  by rewrite list_to_map_app, (assoc_L (∪)).
Qed.

Lemma create_all_declared (src_prog : Program) (src_block : Block)
    (force_create : bool) (names : list string) (dst : Block) :
  for_each (create_if_declared src_prog src_block force_create) names dst
  = Ok (declare_all dst (decls_for src_prog src_block force_create names)).
Proof.
  revert dst. induction names as [|name names IH]; intros dst.
  - cbn. unfold declare_all. cbn. rewrite (right_id_L ∅ (∪)). by destruct dst.
  - cbn [for_each]. rewrite create_if_declared_spec. cbn [mbind result_bind].
    rewrite IH. f_equal. unfold decls_for. cbn [omap list_omap].
    destruct (source_var src_prog src_block force_create name) as [v|];
      cbn [fmap option_fmap option_map]; [|done].
    fold (decls_for src_prog src_block force_create names).
    rewrite declare_union. unfold declare_all, set_vars. cbn.
    rewrite copied_decl_name, insert_union_singleton_l.
    by rewrite (assoc_L (∪)).
Qed.

Lemma _create_program_spec (src_prog : Program) (src_block dst : Block)
    (op : Operator) (force_create : bool) :
  _create_program src_prog src_block dst op force_create
  = Ok (declare_all (append_op dst op)
          (decls_for src_prog src_block force_create
             (input_arg_names op ++ output_arg_names op))).
Proof.
  unfold _create_program. rewrite create_all_declared.
  cbn [mbind result_bind]. rewrite create_all_declared.
  unfold decls_for. by rewrite omap_app, declare_all_app.
Qed.

Lemma list_to_map_is_Some {V : Type} (l : list (string * V)) (k : string) :
  is_Some ((list_to_map l : gmap string V) !! k) ↔ k ∈ l.*1.
Proof.
  split.
  - intros Hk. destruct (decide (k ∈ l.*1)) as [|Hn]; [done|].
    apply not_elem_of_list_to_map_1 in Hn. rewrite Hn in Hk. by destruct Hk.
  - intros Hk. apply not_eq_None_Some. intros Hn.
    by apply not_elem_of_list_to_map_2 in Hn.
Qed.

Lemma declared_again {V : Type} (m : gmap string V) (l : list (string * V)) :
  (m ∪ list_to_map l) ∪ list_to_map l = m ∪ list_to_map l.
Proof. rewrite <- (assoc_L (∪)). f_equal. apply (idemp (∪)). Qed.

(** C7 (amended): invoking [_create_program] twice with the same operator
    on a destination block returns both times; the destination then holds
    two copies of the operator at its end (one appended by each call), and
    the second call leaves the declarations of the first unchanged: every
    referenced name that resolves in the source is declared, under a single
    entry for its name. *)
Theorem create_program_twice (src_prog : Program) (src_block dst : Block)
    (op : Operator) (force_create : bool) :
  ∃ dst1 dst2,
    _create_program src_prog src_block dst op force_create = Ok dst1
    ∧ _create_program src_prog src_block dst1 op force_create = Ok dst2
    ∧ ops dst1 = ops dst ++ [op]
    ∧ ops dst2 = ops dst ++ [op; op]
    ∧ vars dst2 = vars dst1
    ∧ ∀ name v,
        name ∈ input_arg_names op ++ output_arg_names op →
        source_var src_prog src_block force_create name = Some v →
        is_Some (vars dst2 !! var_name v).
Proof.
  do 2 eexists. split; [apply _create_program_spec|].
  split; [apply _create_program_spec|].
  set (l := decls_for src_prog src_block force_create
              (input_arg_names op ++ output_arg_names op)).
  split; [done|]. split.
  { cbn. by rewrite <- (assoc_L app). }
  cbn [declare_all append_op set_vars set_ops vars ops].
  split; [apply declared_again|].
  intros name v Hname Hv. rewrite declared_again.
  apply lookup_union_is_Some. right. apply list_to_map_is_Some.
  apply list_elem_of_fmap. exists (var_name v, copied_decl v). split; [done|].
  unfold l, decls_for. apply list_elem_of_omap. exists name. split; [done|].
  by rewrite Hv.
Qed.

(** ** The overlap strategy *)

Lemma overlap_op_tagged (op : Operator) :
  (op_type op = "send_v2" → is_Some (attrs op !! "ring_id")) →
  ∃ op', overlap_op op = Ok op' ∧ overlap_tagged op op'.
Proof.
  intros Hring. unfold overlap_op.
  destruct (decide (op_type op = "send_v2")) as [Hs|Hs].
  - destruct (Hring Hs) as [ring_id Hr]. unfold attr.
    cbn [_set_attr attrs]. rewrite !lookup_insert_ne by done. rewrite Hr.
    cbn [mbind result_bind]. eexists. split; [done|].
    unfold overlap_tagged. split_and!; [done|done|done| | | |].
    + intros name Hd Hu. cbn [set_stream set_dist_attr _set_attr attrs].
      by rewrite !lookup_insert_ne.
    + intros _. exists ring_id. split; [done|]. split; [done|].
      cbn [set_stream set_dist_attr _set_attr attrs].
      rewrite lookup_insert_eq. split; [done|].
      rewrite lookup_insert_ne by done. by rewrite lookup_insert_eq.
    + intros Hrecv. rewrite Hs in Hrecv. done.
    + done.
  - destruct (decide (op_type op = "recv_v2")) as [Hr|Hr].
    + eexists. split; [done|].
      unfold overlap_tagged. split_and!; [done|done|done| |done| |done].
      * intros name Hd Hu. cbn [set_stream set_dist_attr _set_attr attrs].
        by rewrite !lookup_insert_ne.
      * intros _. split; [done|].
        cbn [set_stream set_dist_attr _set_attr attrs].
        rewrite lookup_insert_eq. split; [done|].
        rewrite lookup_insert_ne by done. by rewrite lookup_insert_eq.
    + exists op. split; [done|]. unfold overlap_tagged. by split_and!.
Qed.

Lemma overlap_ops_tagged (l : list Operator) :
  sends_have_ring l →
  ∃ l', for_list overlap_op l = Ok l' ∧ Forall2 overlap_tagged l l'.
Proof.
  induction 1 as [|op l Hop Hl (l' & Hl' & Hall)].
  - exists []. split; [done|]. constructor.
  - destruct (overlap_op_tagged op Hop) as (op' & Hop' & Htag).
    exists (op' :: l'). split.
    + cbn [for_list]. rewrite Hop'. cbn [mbind result_bind].
      by rewrite Hl'.
    + by constructor.
Qed.

Lemma overlap_blocks (l : list Block) :
  Forall (λ b, sends_have_ring (ops b)) l →
  ∃ l', for_list (λ b, l ← for_list overlap_op (ops b); Ok (set_ops b l)) l
        = Ok l'
        ∧ Forall2 overlap_block l l'.
Proof.
  induction 1 as [|b l Hb Hl (l' & Hl' & Hall)].
  - exists []. split; [done|]. constructor.
  - destruct (overlap_ops_tagged (ops b) Hb) as (o' & Ho' & Htag).
    exists (set_ops b o' :: l'). split.
    + cbn [for_list]. rewrite Ho'. cbn [mbind result_bind].
      by rewrite Hl'.
    + constructor; [|done]. by split_and!.
Qed.

Lemma overlap_ops_Ok_inv (l l' : list Operator) :
  for_list overlap_op l = Ok l' → sends_have_ring l.
Proof.
  revert l'. induction l as [|op l IH]; intros l' H; [constructor|].
  cbn [for_list] in H.
  apply bind_Ok in H as (op' & Hop & H).
  apply bind_Ok in H as (l0 & Hl & _).
  constructor; [|by eapply IH].
  intros Hs. unfold overlap_op in Hop. rewrite decide_True in Hop by done.
  unfold attr in Hop. cbn [_set_attr attrs] in Hop.
  rewrite !lookup_insert_ne in Hop by done.
  destruct (attrs op !! "ring_id"); [by eexists|done].
Qed.

Lemma send_stream_inj (r1 r2 : Z) :
  "send_stream_" +:+ py_str (AInt r1) = "send_stream_" +:+ py_str (AInt r2) →
  r1 = r2.
Proof.
  intros H. apply (inj (String.append "send_stream_")) in H.
  unfold py_str, str_int in H. by apply (inj pretty) in H.
Qed.

(** C9: on a program whose [send_v2] operators carry their [ring_id], the
    overlap strategy returns a program with the same blocks and, in every
    block, the same operator sequence (same types and arguments, nothing
    inserted or removed); every [send_v2] gets the execution stream
    "send_stream_" followed by its ring id (different rings give different
    stream names), every [recv_v2] gets the stream "recv_stream", both with
    [use_calc_stream] true and [dynamic_shape] false, and all other
    operators are unchanged. *)
Theorem overlap_send_recv_tags (program : Program) :
  Forall (λ b, sends_have_ring (ops b)) (blocks program) →
  ∃ program',
    _overlap_send_recv program = Ok program'
    ∧ Forall2 overlap_block (blocks program) (blocks program')
    ∧ (∀ b b', (b, b') ∈ zip (blocks program) (blocks program') →
         op_type <$> ops b' = op_type <$> ops b)
    ∧ ∀ r1 r2 : Z,
        "send_stream_" +:+ py_str (AInt r1) = "send_stream_" +:+ py_str (AInt r2)
        → r1 = r2.
Proof.
  intros Hall. unfold blocks in Hall.
  apply Forall_cons in Hall as [Hg Hsubs].
  destruct (overlap_ops_tagged _ Hg) as (g' & Hg' & Hgtag).
  destruct (overlap_blocks _ Hsubs) as (subs' & Hsubs' & Hsubtag).
  eexists. split.
  { unfold _overlap_send_recv, for_blocks. rewrite Hg'.
    cbn [mbind result_bind]. rewrite Hsubs'. done. }
  assert (Hblocks : Forall2 overlap_block (blocks program)
            (blocks {| global := set_ops (global program) g';
                       sub_blocks := subs' |})).
  { unfold blocks. cbn [global sub_blocks].
    constructor; [by split_and!|done]. }
  split; [done|]. split; [|apply send_stream_inj].
  intros b b' Hin.
  apply list_elem_of_lookup in Hin as [i Hi].
  apply lookup_zip_with_Some in Hi as (x & y & [= <- <-] & Hx & Hy).
  pose proof (Forall2_lookup_lr _ _ _ _ _ _ Hblocks Hx Hy) as (_ & _ & _ & Hops).
  clear -Hops. induction Hops as [|op op' l l' (Ht & _) _ IH]; [done|].
  cbn. by rewrite Ht, IH.
Qed.

(** ** Splitting by role *)

Lemma for_each_app {A S : Type} (body : S → A → result S) (l1 l2 : list A)
    (s : S) :
  for_each body (l1 ++ l2) s = for_each body l1 s ≫= for_each body l2.
Proof.
  revert s. induction l1 as [|x l1 IH]; intros s; cbn [app for_each]; [done|].
  destruct (body s x) as [s'|e]; cbn [mbind result_bind]; [apply IH|done].
Qed.

Lemma for_each_Ok_inv {A S : Type} (body : S → A → result S) (l : list A)
    (s s' : S) (x : A) :
  for_each body l s = Ok s' → x ∈ l → ∃ s1 s2, body s1 x = Ok s2.
Proof.
  revert s. induction l as [|y l IH]; intros s H Hx;
    [by apply elem_of_nil in Hx|].
  cbn [for_each] in H. apply bind_Ok in H as (s1 & Hy & H).
  apply elem_of_cons in Hx as [->|Hx]; [by exists s, s1|by eapply IH].
Qed.

Lemma enumerate_app {A : Type} (l1 l2 : list A) :
  enumerate (l1 ++ l2)
  = enumerate l1 ++ imap (λ i x, (length l1 + i, x)%nat) l2.
Proof. unfold enumerate. by rewrite imap_app. Qed.

Lemma elem_of_enumerate {A : Type} (l : list A) (x : A) :
  x ∈ l → ∃ i, (i, x) ∈ enumerate l.
Proof.
  intros [i Hi]%list_elem_of_lookup. exists i.
  apply list_elem_of_lookup. exists i. unfold enumerate.
  by rewrite list_lookup_imap, Hi.
Qed.

Lemma enumerate_from_snd {A : Type} (k : nat) (l : list A) :
  (imap (λ i x, ((k + i)%nat, x)) l).*2 = l.
Proof.
  revert k. induction l as [|y l IH]; intros k; [done|].
  rewrite imap_cons. cbn [fmap list_fmap snd]. f_equal.
  rewrite <- (IH (S k)) at 2. f_equal. apply imap_ext.
  intros i x _. cbn. f_equal. lia.
Qed.

Lemma _create_block_Ok (p : Program) (parent fwd_idx : Z) :
  0 ≤ parent < Z.of_nat (length (blocks p)) →
  _create_block p parent fwd_idx
  = Ok ({| global := global p;
           sub_blocks := sub_blocks p
             ++ [{| parent_idx := parent; forward_block_idx := fwd_idx;
                    ops := []; vars := ∅ |}] |},
        length (blocks p)).
Proof.
  intros H. unfold _create_block, py_slot.
  destruct (decide (parent < 0)); [lia|].
  rewrite decide_True by lia. by rewrite Z2Nat.id by lia.
Qed.

Section RoleSplit.

Context (is_forward_op is_backward_op is_optimize_op : Operator → bool).
Context (OpRole_Forward OpRole_Backward OpRole_Optimize : Z).
Context (use_new_executor : bool).

Lemma split_steps_lists (l : list Operator)
    (f b o f' b' o' : list Operator) :
  for_each (split_ops_step is_forward_op is_backward_op is_optimize_op)
           l (f, b, o) = Ok (f', b', o') →
  f' = f ++ forward_ops is_forward_op l
  ∧ b' = b ++ backward_ops is_forward_op is_backward_op l
  ∧ o' = o ++ optimize_ops is_forward_op is_backward_op is_optimize_op l.
Proof.
  unfold forward_ops, backward_ops, optimize_ops.
  revert f b o. induction l as [|op l IH]; intros f b o H.
  - injection H as <- <- <-. by rewrite !filter_nil, !app_nil_r.
  - cbn [for_each] in H. apply bind_Ok in H as ([[f1 b1] o1] & Hstep & H).
    apply IH in H as (-> & -> & ->). clear IH.
    unfold split_ops_step in Hstep. rewrite !filter_cons.
    destruct (_is_fetch_op op); cbn [negb andb].
    { injection Hstep as <- <- <-. by simpl. }
    destruct (is_forward_op op); cbn [negb andb].
    { injection Hstep as <- <- <-. simpl. by rewrite <- (assoc_L app). }
    destruct (is_backward_op op); cbn [negb andb].
    { injection Hstep as <- <- <-. simpl. by rewrite <- (assoc_L app). }
    destruct (is_optimize_op op); cbn [negb andb].
    { injection Hstep as <- <- <-. simpl. by rewrite <- (assoc_L app). }
    by destruct (attr op "op_role").
Qed.


Lemma _split_ops_unfold (b : Block) :
  _split_ops is_forward_op is_backward_op is_optimize_op b
  = for_each (split_step is_forward_op is_backward_op is_optimize_op) (ops b) ([], [], []).
Proof. reflexivity. Qed.

Lemma split_step_splittable acc (op : Operator) :
  (splittable is_forward_op is_backward_op is_optimize_op) op ↔ ∃ acc', (split_step is_forward_op is_backward_op is_optimize_op) acc op = Ok acc'.
Proof.
  destruct acc as [[f b] o].
  unfold splittable, classified, split_step, split_ops_step.
  destruct (_is_fetch_op op); [split; [by eexists|by left]|].
  destruct (is_forward_op op); [split; [by eexists|by right; left]|].
  destruct (is_backward_op op); [split; [by eexists|by right; right; left]|].
  destruct (is_optimize_op op); [split; [by eexists|by right; right; right]|].
  split.
  - intros [?|[?|[?|?]]]; done.
  - intros [acc' H]. by destruct (attr op "op_role").
Qed.

Lemma split_step_unclassified acc (op : Operator) (role : AttrValue) :
  _is_fetch_op op = false → ¬ (classified is_forward_op is_backward_op is_optimize_op) op →
  attrs op !! "op_role" = Some role →
  (split_step is_forward_op is_backward_op is_optimize_op) acc op = Raise (role_error role).
Proof.
  intros Hf Hc Hr. destruct acc as [[f b] o].
  unfold split_step, split_ops_step, attr.
  rewrite Hf, Hr. unfold classified in Hc.
  destruct (is_forward_op op); [destruct Hc; by left|].
  destruct (is_backward_op op); [destruct Hc; by right; left|].
  destruct (is_optimize_op op); [destruct Hc; by right; right|].
  done.
Qed.

Lemma split_steps_Ok (l : list Operator) acc :
  Forall (splittable is_forward_op is_backward_op is_optimize_op) l → ∃ acc', for_each (split_step is_forward_op is_backward_op is_optimize_op) l acc = Ok acc'.
Proof.
  intros Hall. revert acc. induction Hall as [|op l Hop _ IH]; intros acc.
  - by exists acc.
  - destruct (proj1 (split_step_splittable acc op) Hop) as [acc1 H1].
    cbn [for_each]. rewrite H1. apply IH.
Qed.

Lemma split_steps_Ok_inv (l : list Operator) acc acc' :
  for_each (split_step is_forward_op is_backward_op is_optimize_op) l acc = Ok acc' → Forall (splittable is_forward_op is_backward_op is_optimize_op) l.
Proof.
  revert acc. induction l as [|op l IH]; intros acc H; [constructor|].
  cbn [for_each] in H. apply bind_Ok in H as (acc1 & H1 & H).
  constructor; [|by eapply IH].
  apply (split_step_splittable acc). by exists acc1.
Qed.

Lemma _split_ops_Raise (b : Block) (ops1 ops2 : list Operator)
    (op : Operator) (role : AttrValue) :
  ops b = ops1 ++ op :: ops2 → Forall (splittable is_forward_op is_backward_op is_optimize_op) ops1 →
  _is_fetch_op op = false → ¬ (classified is_forward_op is_backward_op is_optimize_op) op →
  attrs op !! "op_role" = Some role →
  _split_ops is_forward_op is_backward_op is_optimize_op b
  = Raise (role_error role).
Proof.
  intros Hops H1 Hf Hc Hr. rewrite _split_ops_unfold, Hops, for_each_app.
  destruct (split_steps_Ok ops1 ([], [], []) H1) as [acc1 Hacc].
  rewrite Hacc. cbn [mbind result_bind for_each].
  by rewrite (split_step_unclassified acc1 op role).
Qed.

(** *** The destinations stay well-formed *)

Lemma create_programs_Ok (src_prog : Program) (src_block : Block)
    (l : list Operator) (dst : Block) :
  ∃ dst', for_each (λ dst op, _create_program src_prog src_block dst op false)
                   l dst = Ok dst'.
Proof.
  revert dst. induction l as [|op l IH]; intros dst; [by exists dst|].
  cbn [for_each]. rewrite _create_program_spec. apply IH.
Qed.

Lemma set_block_length (p : Program) (idx : nat) (b : Block) :
  length (blocks (set_block p idx b)) = length (blocks p).
Proof.
  unfold blocks. destruct idx as [|k]; cbn; [done|].
  by rewrite length_insert.
Qed.

Lemma _add_ops_into_block_Ok (src_prog : Program) (src_block : Block)
    (dst_prog : Program) (dst_idx : nat) (l : list Operator) :
  is_Some (block dst_prog dst_idx) →
  ∃ p, _add_ops_into_block src_prog src_block dst_prog dst_idx l = Ok p
       ∧ length (blocks p) = length (blocks dst_prog).
Proof.
  intros [b Hb]. unfold _add_ops_into_block. rewrite Hb.
  destruct (create_programs_Ok src_prog src_block l b) as [b' Hb'].
  rewrite Hb'. cbn [mbind result_bind]. eexists. split; [done|].
  apply set_block_length.
Qed.

Lemma valid_dest_length (p p' : Program) (k : nat) :
  length (blocks p') = length (blocks p) →
  valid_dest (p, k) → valid_dest (p', k).
Proof.
  unfold valid_dest, block. cbn [fst snd]. intros Hlen H.
  apply lookup_lt_is_Some. rewrite Hlen. by apply lookup_lt_is_Some.
Qed.

Lemma add_role_ops_Ok (src_prog : Program) (idx : nat) (src_block : Block)
    (d : Dest) (l : list Operator) :
  valid_dest d →
  (idx ≠ 0%nat → l ≠ [] →
   0 ≤ parent_idx src_block < Z.of_nat (length (blocks d.1))) →
  ∃ d', add_role_ops src_prog idx src_block d l = Ok d' ∧ valid_dest d'
        ∧ length (blocks d'.1)
          = if decide (idx = 0%nat) then length (blocks d.1)
            else if decide (l = []) then length (blocks d.1)
            else S (length (blocks d.1)).
Proof.
  intros Hd Hparent. unfold add_role_ops.
  destruct (decide (idx = 0%nat)) as [Hidx|Hidx].
  - destruct (_add_ops_into_block_Ok src_prog src_block d.1 0 l)
      as (p & Hp & Hlen); [by eexists|].
    rewrite Hp. cbn [mbind result_bind]. eexists. split; [done|].
    split; [by eexists|done].
  - destruct (decide (l = [])) as [Hl|Hl]; [by exists d|].
    rewrite _create_block_Ok by auto. cbn [mbind result_bind].
    set (p0 := {| global := global d.1; sub_blocks := _ |}).
    assert (Hlen0 : length (blocks p0) = S (length (blocks d.1))).
    { unfold p0, blocks. cbn. rewrite length_app. cbn. lia. }
    assert (Hk : is_Some (block p0 (length (blocks d.1)))).
    { apply lookup_lt_is_Some. lia. }
    destruct (_add_ops_into_block_Ok src_prog src_block p0
                (length (blocks d.1)) l Hk) as (p & Hp & Hlen).
    rewrite Hp. cbn [mbind result_bind]. eexists. split; [done|].
    cbn [fst snd]. split; [|lia].
    unfold valid_dest, block. cbn [fst snd]. apply lookup_lt_is_Some. lia.
Qed.

Lemma add_role_ops_parents (src_prog : Program) (idx : nat) (b : Block)
    (d : Dest) (sel : list Operator → list Operator) (rest : list Block) :
  idx ≠ 0%nat → valid_dest d →
  role_parents sel (length (blocks d.1)) (b :: rest) →
  ∃ d', add_role_ops src_prog idx b d (sel (ops b)) = Ok d' ∧ valid_dest d'
        ∧ role_parents sel (length (blocks d'.1)) rest.
Proof.
  intros Hidx Hd Hpar. cbn [role_parents] in Hpar.
  destruct (add_role_ops_Ok src_prog idx b d (sel (ops b)) Hd)
    as (d' & Hd' & Hv & Hlen).
  { intros _ Hl. rewrite decide_False in Hpar by done. by destruct Hpar. }
  exists d'. split; [done|]. split; [done|]. rewrite Hlen.
  rewrite decide_False by done.
  destruct (decide (sel (ops b) = [])); [done|by destruct Hpar].
Qed.

Lemma add_fetch_op_Ok (src_prog : Program) (src_block : Block)
    (st : Dest * Dest * Dest) (op : Operator) :
  (_is_fetch_op op = true → input_arg_names op ≠ []) →
  valid_dest st.1.1 → valid_dest st.1.2 → valid_dest st.2 →
  ∃ st', add_fetch_op src_prog src_block st op = Ok st'
         ∧ valid_dest st'.1.1 ∧ valid_dest st'.1.2 ∧ valid_dest st'.2
         ∧ length (blocks st'.1.1.1) = length (blocks st.1.1.1)
         ∧ length (blocks st'.1.2.1) = length (blocks st.1.2.1)
         ∧ length (blocks st'.2.1) = length (blocks st.2.1).
Proof.
  destruct st as [[fwd bwd] opt]. cbn [fst snd]. intros Hin Hf Hb Ho.
  unfold add_fetch_op.
  destruct (_is_fetch_op op); [|by eexists].
  destruct (input_arg_names op) as [|in_name rest]; [by destruct Hin|].
  cbn [first_arg mbind result_bind].
  destruct (dest_has_var fwd in_name).
  { destruct (_add_ops_into_block_Ok src_prog src_block fwd.1 fwd.2 [op] Hf)
      as (p & Hp & Hlen).
    rewrite Hp. cbn [mbind result_bind]. eexists. split; [done|].
    cbn [fst snd]. split_and!; [|done..].
    apply (valid_dest_length fwd.1); [done|by destruct fwd]. }
  destruct (dest_has_var bwd in_name).
  { destruct (_add_ops_into_block_Ok src_prog src_block bwd.1 bwd.2 [op] Hb)
      as (p & Hp & Hlen).
    rewrite Hp. cbn [mbind result_bind]. eexists. split; [done|].
    cbn [fst snd]. split_and!; [done| |done..].
    apply (valid_dest_length bwd.1); [done|by destruct bwd]. }
  destruct (dest_has_var opt in_name); [|by eexists].
  destruct (_add_ops_into_block_Ok src_prog src_block opt.1 opt.2 [op] Ho)
    as (p & Hp & Hlen).
  rewrite Hp. cbn [mbind result_bind]. eexists. split; [done|].
  cbn [fst snd]. split_and!; [done|done| |done..].
  apply (valid_dest_length opt.1); [done|by destruct opt].
Qed.

Lemma add_fetch_ops_Ok (src_prog : Program) (src_block : Block)
    (l : list Operator) (st : Dest * Dest * Dest) :
  Forall (λ op, _is_fetch_op op = true → input_arg_names op ≠ []) l →
  valid_dest st.1.1 → valid_dest st.1.2 → valid_dest st.2 →
  ∃ st', for_each (add_fetch_op src_prog src_block) l st = Ok st'
         ∧ valid_dest st'.1.1 ∧ valid_dest st'.1.2 ∧ valid_dest st'.2
         ∧ length (blocks st'.1.1.1) = length (blocks st.1.1.1)
         ∧ length (blocks st'.1.2.1) = length (blocks st.1.2.1)
         ∧ length (blocks st'.2.1) = length (blocks st.2.1).
Proof.
  intros Hall. revert st.
  induction Hall as [|op l Hop _ IH]; intros st Hf Hb Ho; [by exists st|].
  destruct (add_fetch_op_Ok src_prog src_block st op Hop Hf Hb Ho)
    as (st1 & H1 & Hf1 & Hb1 & Ho1 & Hlf & Hlb & Hlo).
  cbn [for_each]. rewrite H1. cbn [mbind result_bind].
  destruct (IH st1 Hf1 Hb1 Ho1) as (st' & Hst' & ? & ? & ? & ? & ? & ?).
  exists st'. split; [done|]. split_and!; [done..|congruence|congruence|congruence].
Qed.

Lemma split_block_Ok (src_prog : Program) (st : Dest * Dest * Dest)
    (b : Block) :
  Forall (placeable is_forward_op is_backward_op is_optimize_op) (ops b) →
  valid_dest st.1.1 → valid_dest st.1.2 → valid_dest st.2 →
  ∃ st', split_block is_forward_op is_backward_op is_optimize_op src_prog st
           (0%nat, b) = Ok st'
         ∧ valid_dest st'.1.1 ∧ valid_dest st'.1.2 ∧ valid_dest st'.2
         ∧ length (blocks st'.1.1.1) = length (blocks st.1.1.1)
         ∧ length (blocks st'.1.2.1) = length (blocks st.1.2.1)
         ∧ length (blocks st'.2.1) = length (blocks st.2.1).
Proof.
  destruct st as [[fwd bwd] opt]. cbn [fst snd]. intros Hall Hf Hb Ho.
  unfold split_block.
  destruct (split_steps_Ok (ops b) ([], [], [])) as [[[fo bo] oo] Hsplit].
  { eapply Forall_impl; [exact Hall|]. by intros op [? _]. }
  rewrite _split_ops_unfold, Hsplit. cbn [mbind result_bind].
  destruct (add_role_ops_Ok src_prog 0 b fwd fo Hf)
    as (fwd' & -> & Hf' & Hlf); [done|].
  cbn [mbind result_bind].
  destruct (add_role_ops_Ok src_prog 0 b bwd bo Hb)
    as (bwd' & -> & Hb' & Hlb); [done|].
  cbn [mbind result_bind].
  destruct (add_role_ops_Ok src_prog 0 b opt oo Ho)
    as (opt' & -> & Ho' & Hlo); [done|].
  cbn [mbind result_bind].
  destruct (add_fetch_ops_Ok src_prog b (ops b) (fwd', bwd', opt'))
    as (st' & Hst' & ? & ? & ? & Hlf' & Hlb' & Hlo'); [|done..|].
  { eapply Forall_impl; [exact Hall|]. by intros op [_ ?]. }
  exists st'. split; [done|]. cbn [fst snd] in *.
  rewrite decide_True in Hlf, Hlb, Hlo by done.
  split_and!; [done..|congruence|congruence|congruence].
Qed.

Lemma split_block_Ok_sub (src_prog : Program) (st : Dest * Dest * Dest)
    (idx : nat) (b : Block) (rest : list Block) :
  idx ≠ 0%nat →
  Forall (placeable is_forward_op is_backward_op is_optimize_op) (ops b) →
  valid_dest st.1.1 → valid_dest st.1.2 → valid_dest st.2 →
  role_parents (forward_ops is_forward_op)
               (length (blocks st.1.1.1)) (b :: rest) →
  role_parents (backward_ops is_forward_op is_backward_op)
               (length (blocks st.1.2.1)) (b :: rest) →
  role_parents (optimize_ops is_forward_op is_backward_op is_optimize_op)
               (length (blocks st.2.1)) (b :: rest) →
  ∃ st', split_block is_forward_op is_backward_op is_optimize_op src_prog st
           (idx, b) = Ok st'
         ∧ valid_dest st'.1.1 ∧ valid_dest st'.1.2 ∧ valid_dest st'.2
         ∧ role_parents (forward_ops is_forward_op)
                        (length (blocks st'.1.1.1)) rest
         ∧ role_parents (backward_ops is_forward_op is_backward_op)
                        (length (blocks st'.1.2.1)) rest
         ∧ role_parents (optimize_ops is_forward_op is_backward_op
                           is_optimize_op)
                        (length (blocks st'.2.1)) rest.
Proof.
  destruct st as [[fwd bwd] opt]. cbn [fst snd].
  intros Hidx Hall Hf Hb Ho Hpf Hpb Hpo.
  unfold split_block.
  destruct (split_steps_Ok (ops b) ([], [], [])) as [[[fo bo] oo] Hsplit].
  { eapply Forall_impl; [exact Hall|]. by intros op [? _]. }
  rewrite _split_ops_unfold. unfold split_step in *. rewrite Hsplit.
  cbn [mbind result_bind].
  apply split_steps_lists in Hsplit as (-> & -> & ->). cbn [app].
  destruct (add_role_ops_parents src_prog idx b fwd _ rest Hidx Hf Hpf)
    as (fwd' & -> & Hf' & Hpf').
  cbn [mbind result_bind].
  destruct (add_role_ops_parents src_prog idx b bwd _ rest Hidx Hb Hpb)
    as (bwd' & -> & Hb' & Hpb').
  cbn [mbind result_bind].
  destruct (add_role_ops_parents src_prog idx b opt _ rest Hidx Ho Hpo)
    as (opt' & -> & Ho' & Hpo').
  cbn [mbind result_bind].
  destruct (add_fetch_ops_Ok src_prog b (ops b) (fwd', bwd', opt'))
    as (st' & Hst' & ? & ? & ? & Hlf & Hlb & Hlo); [|done..|].
  { eapply Forall_impl; [exact Hall|]. by intros op [_ ?]. }
  exists st'. split; [done|]. cbn [fst snd] in *.
  rewrite Hlf, Hlb, Hlo. by split_and!.
Qed.

Lemma split_block_Raise (src_prog : Program) (st : Dest * Dest * Dest)
    (idx : nat) (b : Block) (e : exn) :
  _split_ops is_forward_op is_backward_op is_optimize_op b = Raise e →
  split_block is_forward_op is_backward_op is_optimize_op src_prog st (idx, b)
  = Raise e.
Proof.
  intros H. destruct st as [[f bw] o]. unfold split_block. by rewrite H.
Qed.

Lemma split_blocks_Ok (src_prog : Program) (l : list (nat * Block))
    (st : Dest * Dest * Dest) :
  Forall (λ e, e.1 ≠ 0%nat
               ∧ Forall (placeable is_forward_op is_backward_op
                           is_optimize_op) (ops e.2)) l →
  valid_dest st.1.1 → valid_dest st.1.2 → valid_dest st.2 →
  role_parents (forward_ops is_forward_op) (length (blocks st.1.1.1)) l.*2 →
  role_parents (backward_ops is_forward_op is_backward_op)
               (length (blocks st.1.2.1)) l.*2 →
  role_parents (optimize_ops is_forward_op is_backward_op is_optimize_op)
               (length (blocks st.2.1)) l.*2 →
  ∃ st', for_each (split_block is_forward_op is_backward_op is_optimize_op
                     src_prog) l st = Ok st'.
Proof.
  intros Hall. revert st.
  induction Hall as [|[idx b] l [Hidx Hb] _ IH];
    intros st Hf Hbw Ho Hpf Hpb Hpo; [by exists st|].
  cbn [fst snd] in Hidx, Hb.
  change (((idx, b) :: l).*2) with (b :: l.*2) in Hpf, Hpb, Hpo.
  destruct (split_block_Ok_sub src_prog st idx b l.*2 Hidx Hb Hf Hbw Ho
              Hpf Hpb Hpo)
    as (st1 & H1 & Hf1 & Hb1 & Ho1 & Hpf1 & Hpb1 & Hpo1).
  cbn [for_each]. rewrite H1. cbn [mbind result_bind]. by apply IH.
Qed.

Lemma split_prefix_Ok (src_prog : Program) (pre : list Block) :
  blocks_placed is_forward_op is_backward_op is_optimize_op pre →
  ∃ st, for_each (split_block is_forward_op is_backward_op is_optimize_op
                    src_prog) (enumerate pre)
          ((new_program, 0%nat), (new_program, 0%nat), (new_program, 0%nat))
        = Ok st.
Proof.
  intros [Hall (Hpf & Hpb & Hpo)].
  destruct pre as [|g subs]; [by eexists|].
  apply Forall_cons in Hall as [Hg Hsubs]. cbn [tail] in Hpf, Hpb, Hpo.
  unfold enumerate. rewrite imap_cons. cbn [for_each].
  set (st0 := ((new_program, 0%nat), (new_program, 0%nat),
               (new_program, 0%nat))).
  destruct (split_block_Ok src_prog st0 g Hg)
    as (st1 & H1 & Hf1 & Hb1 & Ho1 & Hlf & Hlb & Hlo); [by eexists..|].
  rewrite H1. cbn [mbind result_bind].
  assert (Hsnd : (imap ((λ i x, (i, x)) ∘ S) subs).*2 = subs)
    by exact (enumerate_from_snd 1 subs).
  apply split_blocks_Ok; [|done..| | |].
  - apply Forall_forall. intros [i b] Hin.
    apply elem_of_lookup_imap in Hin as (k & y & [= -> ->] & Hy).
    split; [done|]. cbn [snd]. rewrite Forall_forall in Hsubs.
    apply Hsubs. by eapply list_elem_of_lookup_2.
  - rewrite Hsnd, Hlf. exact Hpf.
  - rewrite Hsnd, Hlb. exact Hpb.
  - rewrite Hsnd, Hlo. exact Hpo.
Qed.

Lemma pass_role_error (program program' : Program)
    (enable_send_recv_overlap : bool) (pre post : list Block) (b : Block)
    (ops1 ops2 : list Operator) (op : Operator) (role : AttrValue) :
  stream_pass is_backward_op is_optimize_op OpRole_Forward OpRole_Backward
    OpRole_Optimize use_new_executor program enable_send_recv_overlap
  = Ok program' →
  blocks program' = pre ++ b :: post →
  blocks_placed is_forward_op is_backward_op is_optimize_op pre →
  ops b = ops1 ++ op :: ops2 →
  Forall (splittable is_forward_op is_backward_op is_optimize_op) ops1 →
  _is_fetch_op op = false →
  ¬ classified is_forward_op is_backward_op is_optimize_op op →
  attrs op !! "op_role" = Some role →
  _program_for_fthenb_and_1f1b is_forward_op is_backward_op is_optimize_op
    OpRole_Forward OpRole_Backward OpRole_Optimize use_new_executor
    program enable_send_recv_overlap
  = Raise (role_error role).
Proof.
  intros Hstream Hblocks Hpre Hops H1 Hfetch Hnc Hrole.
  unfold _program_for_fthenb_and_1f1b.
  rewrite Hstream. cbn [mbind result_bind].
  rewrite Hblocks, enumerate_app, for_each_app.
  destruct (split_prefix_Ok program' pre Hpre) as ([[f bw] o] & ->).
  cbn [mbind result_bind imap for_each].
  rewrite (split_block_Raise program' _ _ b (role_error role)); [done|].
  by apply (_split_ops_Raise b ops1 ops2 op role).
Qed.

(** *** The overlap strategy keeps the roles *)

Lemma overlap_tagged_role (op op' : Operator) :
  role_classifiers is_forward_op is_backward_op is_optimize_op →
  overlap_tagged op op' →
  _is_fetch_op op' = _is_fetch_op op
  ∧ input_arg_names op' = input_arg_names op
  ∧ attrs op' !! "op_role" = attrs op !! "op_role"
  ∧ (classified is_forward_op is_backward_op is_optimize_op op'
     ↔ classified is_forward_op is_backward_op is_optimize_op op).
Proof.
  intros Hrole (Ht & Hi & _ & Hattrs & _).
  assert (Hr : attrs op' !! "op_role" = attrs op !! "op_role")
    by (by apply Hattrs).
  destruct (Hrole op op' Ht Hr) as (Hf & Hb & Ho).
  split; [unfold _is_fetch_op; by rewrite Ht|].
  split; [unfold input_arg_names; by rewrite Hi|].
  split; [done|]. unfold classified. by rewrite Hf, Hb, Ho.
Qed.

Lemma overlap_tagged_splittable (l l' : list Operator) :
  role_classifiers is_forward_op is_backward_op is_optimize_op →
  Forall2 overlap_tagged l l' →
  Forall (splittable is_forward_op is_backward_op is_optimize_op) l →
  Forall (splittable is_forward_op is_backward_op is_optimize_op) l'.
Proof.
  intros Hrole Hall. induction Hall as [|op op' l l' Hop _ IH]; [done|].
  intros [Hs Hl]%Forall_cons. constructor; [|by apply IH].
  destruct (overlap_tagged_role op op' Hrole Hop) as (Hf & _ & _ & Hc).
  unfold splittable in *. rewrite Hf, Hc. done.
Qed.

Lemma overlap_tagged_placeable (l l' : list Operator) :
  role_classifiers is_forward_op is_backward_op is_optimize_op →
  Forall2 overlap_tagged l l' →
  Forall (placeable is_forward_op is_backward_op is_optimize_op) l →
  Forall (placeable is_forward_op is_backward_op is_optimize_op) l'.
Proof.
  intros Hrole Hall. induction Hall as [|op op' l l' Hop _ IH]; [done|].
  intros [Hs Hl]%Forall_cons. constructor; [|by apply IH].
  destruct (overlap_tagged_role op op' Hrole Hop) as (Hf & Hi & _ & Hc).
  unfold placeable, splittable in *. rewrite Hf, Hi, Hc. done.
Qed.

Lemma overlap_tagged_classifiers (op op' : Operator) :
  role_classifiers is_forward_op is_backward_op is_optimize_op →
  overlap_tagged op op' →
  _is_fetch_op op' = _is_fetch_op op
  ∧ is_forward_op op' = is_forward_op op
  ∧ is_backward_op op' = is_backward_op op
  ∧ is_optimize_op op' = is_optimize_op op.
Proof.
  intros Hrole (Ht & _ & _ & Hattrs & _).
  assert (Hr : attrs op' !! "op_role" = attrs op !! "op_role")
    by (by apply Hattrs).
  destruct (Hrole op op' Ht Hr) as (Hf & Hb & Ho).
  split; [unfold _is_fetch_op; by rewrite Ht|done].
Qed.

Lemma overlap_filter_nil (P : Operator → bool) (l l' : list Operator) :
  (∀ op op', overlap_tagged op op' → P op' = P op) →
  Forall2 overlap_tagged l l' →
  filter (λ op, Is_true (P op)) l' = [] ↔ filter (λ op, Is_true (P op)) l = [].
Proof.
  intros HP Hall. induction Hall as [|op op' l l' Hop _ IH]; [done|].
  rewrite !filter_cons, (HP op op' Hop).
  destruct (decide (Is_true (P op))); [done|exact IH].
Qed.

Lemma overlap_role_lists (b b' : Block) :
  role_classifiers is_forward_op is_backward_op is_optimize_op →
  overlap_block b b' →
  (forward_ops is_forward_op (ops b') = []
   ↔ forward_ops is_forward_op (ops b) = [])
  ∧ (backward_ops is_forward_op is_backward_op (ops b') = []
     ↔ backward_ops is_forward_op is_backward_op (ops b) = [])
  ∧ (optimize_ops is_forward_op is_backward_op is_optimize_op (ops b') = []
     ↔ optimize_ops is_forward_op is_backward_op is_optimize_op (ops b) = []).
Proof.
  intros Hrole (_ & _ & _ & Hops).
  unfold forward_ops, backward_ops, optimize_ops.
  split_and!; apply overlap_filter_nil; try done; intros op op' Hop;
    destruct (overlap_tagged_classifiers op op' Hrole Hop)
      as (Hft & Hfw & Hbw & Hopt); by rewrite ?Hft, ?Hfw, ?Hbw, ?Hopt.
Qed.

Lemma role_parents_overlap (sel : list Operator → list Operator) (n : nat)
    (subs subs' : list Block) :
  Forall2 (λ b b', parent_idx b' = parent_idx b
                   ∧ (sel (ops b') = [] ↔ sel (ops b) = [])) subs subs' →
  role_parents sel n subs → role_parents sel n subs'.
Proof.
  intros Hall. revert n.
  induction Hall as [|b b' l l' [Hp Hiff] _ IH]; intros n; [done|].
  cbn [role_parents].
  destruct (decide (sel (ops b) = [])) as [He|He],
           (decide (sel (ops b') = [])) as [He'|He']; try tauto.
  - apply IH.
  - rewrite Hp. intros [? ?]. split; [done|]. by apply IH.
Qed.

Lemma blocks_placed_overlap (pre pre' : list Block) :
  role_classifiers is_forward_op is_backward_op is_optimize_op →
  Forall2 overlap_block pre pre' →
  blocks_placed is_forward_op is_backward_op is_optimize_op pre →
  blocks_placed is_forward_op is_backward_op is_optimize_op pre'.
Proof.
  intros Hrole Hall [Hplace (Hpf & Hpb & Hpo)]. split.
  - clear Hpf Hpb Hpo.
    induction Hall as [|x y l l' (_ & _ & _ & Hxy) _ IH]; [done|].
    apply Forall_cons in Hplace as [Hx Hl]. constructor; [|by apply IH].
    by eapply overlap_tagged_placeable.
  - assert (Htail : Forall2 overlap_block (tail pre) (tail pre'))
      by (destruct Hall; [constructor|done]).
    unfold parents_available.
    split_and!; (eapply role_parents_overlap; [|eassumption]);
      (eapply Forall2_impl; [exact Htail|]); intros b b' Hb;
      (split; [by destruct Hb|]);
      destruct (overlap_role_lists b b' Hrole Hb) as (? & ? & ?); done.
Qed.

Lemma overlap_send_recv_blocks (program program' : Program) :
  _overlap_send_recv program = Ok program' →
  Forall2 overlap_block (blocks program) (blocks program').
Proof.
  intros Hrun.
  assert (Hring : Forall (λ b, sends_have_ring (ops b)) (blocks program)).
  { unfold _overlap_send_recv, for_blocks in Hrun.
    apply bind_Ok in Hrun as (g & Hg & Hrun).
    apply bind_Ok in Hrun as (subs & Hsubs & _).
    unfold blocks. constructor.
    - apply bind_Ok in Hg as (l & Hl & _). by eapply overlap_ops_Ok_inv.
    - apply Forall_forall. intros b Hb.
      apply list_elem_of_lookup in Hb as [i Hi].
      destruct (for_list_lookup _ _ _ _ _ Hsubs Hi) as (b' & _ & Hb').
      apply bind_Ok in Hb' as (l & Hl & _). by eapply overlap_ops_Ok_inv. }
  unfold blocks in Hring. apply Forall_cons in Hring as [Hg Hsubs].
  destruct (overlap_ops_tagged _ Hg) as (g' & Hg' & Hgtag).
  destruct (overlap_blocks _ Hsubs) as (subs' & Hsubs' & Hsubtag).
  unfold _overlap_send_recv, for_blocks in Hrun. rewrite Hg' in Hrun.
  cbn [mbind result_bind] in Hrun. rewrite Hsubs' in Hrun.
  cbn [mbind result_bind] in Hrun. injection Hrun as <-.
  unfold blocks. cbn [global sub_blocks].
  constructor; [by split_and!|done].
Qed.

Lemma overlap_role_error (program : Program) (pre post : list Block)
    (b : Block) (ops1 ops2 : list Operator) (op : Operator)
    (role : AttrValue) :
  role_classifiers is_forward_op is_backward_op is_optimize_op →
  Forall (λ b, sends_have_ring (ops b)) (blocks program) →
  blocks program = pre ++ b :: post →
  blocks_placed is_forward_op is_backward_op is_optimize_op pre →
  ops b = ops1 ++ op :: ops2 →
  Forall (splittable is_forward_op is_backward_op is_optimize_op) ops1 →
  _is_fetch_op op = false →
  ¬ classified is_forward_op is_backward_op is_optimize_op op →
  attrs op !! "op_role" = Some role →
  _program_for_fthenb_and_1f1b is_forward_op is_backward_op is_optimize_op
    OpRole_Forward OpRole_Backward OpRole_Optimize use_new_executor
    program true
  = Raise (role_error role).
Proof.
  intros Hrole Hring Hblocks Hpre Hops H1 Hfetch Hnc Hattr.
  assert (Hstream : ∃ program', _overlap_send_recv program = Ok program').
  { unfold blocks in Hring. apply Forall_cons in Hring as [Hg Hsubs].
    destruct (overlap_ops_tagged _ Hg) as (g' & Hg' & _).
    destruct (overlap_blocks _ Hsubs) as (subs' & Hsubs' & _).
    eexists. unfold _overlap_send_recv, for_blocks. rewrite Hg'.
    cbn [mbind result_bind]. rewrite Hsubs'. done. }
  destruct Hstream as (program' & Hrun).
  pose proof (overlap_send_recv_blocks program program' Hrun) as Htag.
  rewrite Hblocks in Htag.
  apply Forall2_app_inv_l in Htag as (pre' & rest & Hpre' & Hrest & Hblocks').
  apply Forall2_cons_inv_l in Hrest as (b' & post' & Hb' & _ & ->).
  destruct Hb' as (_ & _ & _ & Hopsb). rewrite Hops in Hopsb.
  apply Forall2_app_inv_l in Hopsb as (ops1' & rest & H1' & Hrest & Hopsb').
  apply Forall2_cons_inv_l in Hrest as (op' & ops2' & Hop' & _ & ->).
  destruct (overlap_tagged_role op op' Hrole Hop') as (Hf & _ & Hr & Hc).
  apply (pass_role_error program program' true pre' post' b' ops1' ops2' op').
  - done.
  - done.
  - by eapply blocks_placed_overlap.
  - done.
  - by eapply overlap_tagged_splittable.
  - by rewrite Hf.
  - by rewrite Hc.
  - by rewrite Hr.
Qed.

Lemma pass_Ok_classified (program : Program) (enable_send_recv_overlap : bool)
    (progs : list Program) :
  _program_for_fthenb_and_1f1b is_forward_op is_backward_op is_optimize_op
    OpRole_Forward OpRole_Backward OpRole_Optimize use_new_executor
    program enable_send_recv_overlap = Ok progs →
  ∃ program',
    stream_pass is_backward_op is_optimize_op OpRole_Forward OpRole_Backward
      OpRole_Optimize use_new_executor program enable_send_recv_overlap
    = Ok program'
    ∧ ∀ b op, b ∈ blocks program' → op ∈ ops b →
        _is_fetch_op op = false →
        classified is_forward_op is_backward_op is_optimize_op op.
Proof.
  intros Hpass. unfold _program_for_fthenb_and_1f1b in Hpass.
  apply bind_Ok in Hpass as (program' & Hstream & Hpass).
  exists program'. split; [exact Hstream|].
  apply bind_Ok in Hpass as (st' & Hloop & _).
  intros b op Hb Hop Hfetch.
  destruct (elem_of_enumerate _ _ Hb) as [idx Hidx].
  destruct (for_each_Ok_inv _ _ _ _ _ Hloop Hidx) as ([[f bw] o] & s2 & Hbody).
  unfold split_block in Hbody.
  apply bind_Ok in Hbody as (acc & Hsplit & _).
  rewrite _split_ops_unfold in Hsplit.
  apply split_steps_Ok_inv in Hsplit.
  rewrite Forall_forall in Hsplit.
  destruct (Hsplit op Hop) as [Hf|Hc]; [congruence|done].
Qed.

(** C10 (amended): the pass first runs the selected stream pass and then
    splits every block of the resulting program by role.  Whichever stream
    pass is selected, it returns sub-programs only when every non-fetch
    operator of the program the stream pass leaves has one of the three
    roles, and it raises the [ValueError] naming the op role of the first
    other operator of the first block that holds one, the blocks before it
    being placed without an error.  With the overlap strategy, whose
    rewriting keeps the type and the [op_role] of every operator, this
    holds for the source program itself: the pass never returns
    sub-programs when a block of the source holds a non-fetch operator
    that is none of Forward, Backward or Optimize, and it raises the
    [ValueError] for the first one when every [send_v2] carries its
    [ring_id]. *)
Theorem program_for_fthenb_and_1f1b_unclassified (program : Program)
    (enable_send_recv_overlap : bool) :
  let pass :=
    _program_for_fthenb_and_1f1b is_forward_op is_backward_op is_optimize_op
      OpRole_Forward OpRole_Backward OpRole_Optimize use_new_executor in
  let streamed :=
    stream_pass is_backward_op is_optimize_op OpRole_Forward OpRole_Backward
      OpRole_Optimize use_new_executor program enable_send_recv_overlap in
  let role_message role :=
    ValueError ("The op role: " +:+ py_str role
                +:+ " isn't one of Forward, Backward or Optimizer.") in
  let placed := blocks_placed is_forward_op is_backward_op is_optimize_op in
  (∀ progs, pass program enable_send_recv_overlap = Ok progs →
     ∃ program', streamed = Ok program'
       ∧ ∀ b op, b ∈ blocks program' → op ∈ ops b →
           _is_fetch_op op = false →
           classified is_forward_op is_backward_op is_optimize_op op)
  ∧ (∀ program' pre b post ops1 op ops2 role,
       streamed = Ok program' →
       blocks program' = pre ++ b :: post → placed pre →
       ops b = ops1 ++ op :: ops2 →
       Forall (splittable is_forward_op is_backward_op is_optimize_op) ops1 →
       _is_fetch_op op = false →
       ¬ classified is_forward_op is_backward_op is_optimize_op op →
       attrs op !! "op_role" = Some role →
       pass program enable_send_recv_overlap = Raise (role_message role))
  ∧ (role_classifiers is_forward_op is_backward_op is_optimize_op →
     (∀ b op progs,
        b ∈ blocks program → op ∈ ops b → _is_fetch_op op = false →
        ¬ classified is_forward_op is_backward_op is_optimize_op op →
        pass program true ≠ Ok progs)
     ∧ (∀ pre b post ops1 op ops2 role,
          Forall (λ b, sends_have_ring (ops b)) (blocks program) →
          blocks program = pre ++ b :: post → placed pre →
          ops b = ops1 ++ op :: ops2 →
          Forall (splittable is_forward_op is_backward_op is_optimize_op)
                 ops1 →
          _is_fetch_op op = false →
          ¬ classified is_forward_op is_backward_op is_optimize_op op →
          attrs op !! "op_role" = Some role →
          pass program true = Raise (role_message role))).
Proof.
  intros pass streamed role_message placed. split; [|split].
  - intros progs Hpass. by apply (pass_Ok_classified _ _ progs).
  - intros program' pre b post ops1 op ops2 role Hstream. unfold pass.
    by apply pass_role_error.
  - intros Hrole. split.
    + intros b op progs Hb Hop Hfetch Hnc Hpass.
      apply pass_Ok_classified in Hpass as (program' & Hstream & Hall).
      cbn [stream_pass] in Hstream.
      pose proof (overlap_send_recv_blocks program program' Hstream) as Htag.
      apply list_elem_of_lookup in Hb as [i Hi].
      destruct (Forall2_lookup_l _ _ _ _ _ Htag Hi)
        as (b' & Hi' & (_ & _ & _ & Hops)).
      apply list_elem_of_lookup in Hop as [j Hj].
      destruct (Forall2_lookup_l _ _ _ _ _ Hops Hj) as (op' & Hj' & Hop').
      destruct (overlap_tagged_role op op' Hrole Hop') as (Hf & _ & _ & Hc).
      apply Hnc, Hc. apply (Hall b' op').
      * by eapply list_elem_of_lookup_2.
      * by eapply list_elem_of_lookup_2.
      * by rewrite Hf.
    + intros pre b post ops1 op ops2 role. unfold pass.
      by apply overlap_role_error.
Qed.

End RoleSplit.

(** * Concrete instances *)

(** ** The graph slicer on [program_10] *)

Example split_program_10 :
  ∃ progs,
    split_program program_10 [4; 7]
    = Ok (progs, [[]; ["y"]; ["y"]], [["y"]; ["y"]; ["h"; "x"]])
    ∧ (λ p, op_type <$> ops (global_block p)) <$> progs
      = [["fill"; "fill"; "fill"; "fill"]; ["scale"; "relu"; "relu"];
         ["relu"; "fill"; "relu"]].
Proof. eexists. split; vm_compute; reflexivity. Qed.

(** C4, as stated, fails on [program_10] split at [[4; 7]]: [y] is a valid
    output of sub-program 1, yet after its removal the only later input,
    [y] of sub-program 2, is still among the valid outputs of sub-program
    0; and [x], written by sub-program 0, read by sub-program 2 and
    untouched by sub-program 1, is neither a valid output of sub-program 0
    nor an input of sub-program 2, because sub-program 2 writes [x] before
    it reads it. *)
Lemma split_program_10_not_minimal :
  ∃ p0 p1 p2 ins outs,
    split_program program_10 [4; 7] = Ok ([p0; p1; p2], ins, outs)
    ∧ ("y" ∈ default [] (outs !! 1%nat) ∧ ¬ removal_starves ins outs 1 "y")
    ∧ (written_by (ops (global_block p0)) "x"
       ∧ (∃ op, op ∈ ops (global_block p2) ∧ "x" ∈ input_arg_names op)
       ∧ (∀ op, op ∈ ops (global_block p1) → ¬ uses op "x")
       ∧ ("x" ∉ default [] (outs !! 0%nat))
       ∧ ("x" ∉ default [] (ins !! 2%nat))).
Proof.
  do 5 eexists. split; [vm_compute; reflexivity|]. split; [split|].
  - cbn. apply list_elem_of_singleton. reflexivity.
  - intros (j & y & Hj & Hin & Hno). apply Hno.
    destruct j as [|[|[|j]]]; [lia|lia| |by apply elem_of_nil in Hin].
    cbn in Hin. apply list_elem_of_singleton in Hin as ->.
    exists 0%nat. split; [lia|]. cbn. apply list_elem_of_singleton. reflexivity.
  - split_and!.
    + eexists. split; [left|]. cbn. apply list_elem_of_singleton. reflexivity.
    + eexists. split; [right; right; left|]. cbn.
      apply list_elem_of_singleton. reflexivity.
    + intros op Hop [Hu|Hu];
        repeat (apply elem_of_cons in Hop as [->|Hop]);
        try (by apply elem_of_nil in Hop);
        cbn in Hu; apply list_elem_of_singleton in Hu; discriminate.
    + cbn. intros Hx. apply list_elem_of_singleton in Hx. discriminate.
    + cbn. intros Hx. apply list_elem_of_singleton in Hx. discriminate.
Qed.

Lemma boundaries_10_sorted : StronglySorted Z.lt [0; 4; 7; 10].
Proof. repeat constructor; lia. Qed.

(** The round trip on [program_10] with boundaries [[0; 4; 7; 10]]. *)
Lemma split_program_round_trip_witness :
  head [0; 4; 7; 10] = Some 0
  ∧ last [0; 4; 7; 10] = Some 10
  ∧ StronglySorted Z.lt [0; 4; 7; 10]
  ∧ ∃ progs ins outs pr,
      split_program program_10 [0; 4; 7; 10] = Ok (progs, ins, outs)
      ∧ prune_program program_10 0 10 = Ok pr
      ∧ concat (map (λ p, ops (global_block p)) progs) = ops (global_block pr).
Proof.
  split; [reflexivity|]. split; [reflexivity|].
  split; [exact boundaries_10_sorted|].
  apply (split_program_round_trip program_10 [0; 4; 7; 10] eq_refl eq_refl
           boundaries_10_sorted).
  discriminate.
Defined.

(** C5, as stated, fails on [nested_program] pruned to its first two
    operators: the returned program still declares [z], in its second
    block, though no retained operator uses [z]; and the retained
    [shadow_output] operator uses [@EMPTY@], which the returned program
    declares nowhere. *)
Lemma prune_program_other_declarations :
  ∃ pruned,
    prune_program nested_program 0 2 = Ok pruned
    ∧ ops (global_block pruned) = [ex_op "fill" [] ["x"] 0; shadow_op "x"]
    ∧ declares pruned "z"
    ∧ (∀ op, op ∈ ops (global_block pruned) → ¬ uses op "z")
    ∧ uses (shadow_op "x") "@EMPTY@"
    ∧ ¬ declares pruned "@EMPTY@".
Proof.
  eexists. split; [vm_compute; reflexivity|]. split; [reflexivity|].
  split; [|split; [|split]].
  - eexists. split; [right; left|]. eexists. vm_compute. reflexivity.
  - intros op Hop [Hu|Hu];
      repeat (apply elem_of_cons in Hop as [->|Hop]);
      try (by apply elem_of_nil in Hop);
      unfold input_arg_names, output_arg_names in Hu;
      cbn [inputs outputs fmap list_fmap snd concat app] in Hu;
      repeat (apply elem_of_cons in Hu as [Hu|Hu]; [discriminate Hu|]);
      by apply elem_of_nil in Hu.
  - right. unfold output_arg_names.
    cbn [shadow_op new_op outputs fmap list_fmap snd concat app]. left.
  - intros (b & Hb & Hs).
    repeat (apply elem_of_cons in Hb as [->|Hb]);
      try (by apply elem_of_nil in Hb);
      vm_compute in Hs; destruct Hs as [v Hs]; discriminate Hs.
Qed.

(** Pruning [program_10] to the range given by the negative indices
    [-6] and [-3], that is [4, 7). *)
Lemma prune_program_retained_witness :
  0 ≤ resolve_index (-6) 10 < 10
  ∧ 0 ≤ resolve_index (-3) 10 ≤ 10
  ∧ resolve_index (-6) 10 < resolve_index (-3) 10
  ∧ ∃ pruned,
      prune_program program_10 (-6) (-3) = Ok pruned
      ∧ ops (global_block pruned)
        = [ex_op "scale" ["y"] ["y"] 0; ex_op "relu" ["y"] ["g"] 0;
           ex_op "relu" ["y"] ["g"] 0]
      ∧ (∀ name, is_Some (vars (global_block pruned) !! name) ↔
                 ∃ op, op ∈ ops (global_block pruned) ∧ uses op name).
Proof.
  assert (H1 : 0 ≤ resolve_index (-6) 10 < 10)
    by (change (resolve_index (-6) 10) with 4; lia).
  assert (H2 : 0 ≤ resolve_index (-3) 10 ≤ 10)
    by (change (resolve_index (-3) 10) with 7; lia).
  assert (H3 : resolve_index (-6) 10 < resolve_index (-3) 10) by reflexivity.
  split; [exact H1|]. split; [exact H2|]. split; [exact H3|].
  destruct (prune_program_retained program_10 (-6) (-3) H1 H2 H3)
    as (pruned & Hpruned & Hops & _ & _ & _ & Hwf).
  exists pruned. split; [exact Hpruned|]. split; [exact Hops|].
  apply Hwf. intros op name Hop Hu. rewrite Hops in Hop.
  change (op ∈ [ex_op "scale" ["y"] ["y"] 0; ex_op "relu" ["y"] ["g"] 0;
                ex_op "relu" ["y"] ["g"] 0]) in Hop.
  repeat (apply elem_of_cons in Hop as [->|Hop]);
    try (by apply elem_of_nil in Hop);
    destruct Hu as [Hu|Hu]; cbn in Hu;
    repeat (apply elem_of_cons in Hu as [->|Hu]);
    try (by apply elem_of_nil in Hu);
    vm_compute; eexists; reflexivity.
Defined.

Lemma boundaries_7_4_unsorted : ¬ StronglySorted Z.lt (normal_form 10 [7; 4]).
Proof.
  intros H. change (normal_form 10 [7; 4]) with [0; 7; 4; 10] in H.
  apply StronglySorted_cons2 in H as [_ H].
  apply StronglySorted_cons2 in H as [H _]. lia.
Qed.

(** Boundaries [[7; 4]] are rejected on [program_10]. *)
Lemma split_program_boundaries_witness :
  [7; 4] ≠ [] ∧ ops (global_block program_10) ≠ []
  ∧ normalize_indices 10 [7; 4] = [0; 7; 4; 10]
  ∧ split_program program_10 [7; 4]
    = Raise (AssertionError "op_indices must be strictly sorted").
Proof.
  assert (H1 : [7; 4] ≠ ([] : list Z)) by discriminate.
  assert (H2 : ops (global_block program_10) ≠ []) by discriminate.
  split; [exact H1|]. split; [exact H2|].
  destruct (split_program_boundaries program_10 [7; 4] H1 H2)
    as (Hnorm & Hraise & _).
  split; [exact Hnorm|]. exact (Hraise boundaries_7_4_unsorted).
Defined.

Example split_program_negative_boundary :
  normalize_indices 10 [4; -3] = [0; 4; 7; 10]
  ∧ ∃ progs ins outs,
      split_program program_10 [4; -3] = Ok (progs, ins, outs)
      ∧ length progs = 3%nat.
Proof. split; [reflexivity|]. do 3 eexists. split; vm_compute; reflexivity. Qed.

(** ** The re-materializer *)

(** C7, as stated, fails: copying the same operator twice into an empty
    destination leaves two copies of it. *)
Lemma create_program_twice_two_copies :
  let src := global_block program_10 in
  let op := ex_op "relu" ["y"] ["g"] 0 in
  ∃ dst1 dst2,
    _create_program program_10 src (empty_block (-1)) op false = Ok dst1
    ∧ _create_program program_10 src dst1 op false = Ok dst2
    ∧ ops dst2 = [op; op]
    ∧ length (ops dst2) ≠ 1%nat
    ∧ dom (vars dst2) = {["y"; "g"]}.
Proof.
  do 2 eexists. split; [vm_compute; reflexivity|].
  split; [vm_compute; reflexivity|].
  split; [reflexivity|]. split; [discriminate|].
  vm_compute. reflexivity.
Qed.

(** ** The stream passes on [stage_program] *)

Lemma stage_sends_have_ring :
  Forall (λ b, sends_have_ring (ops b)) (blocks stage_program).
Proof.
  repeat constructor; intros H; try discriminate H.
  vm_compute. eexists. reflexivity.
Qed.

(** The overlap strategy on [stage_program]. *)
Lemma overlap_send_recv_tags_witness :
  Forall (λ b, sends_have_ring (ops b)) (blocks stage_program)
  ∧ ∃ program',
      _overlap_send_recv stage_program = Ok program'
      ∧ Forall2 overlap_block (blocks stage_program) (blocks program')
      ∧ (λ op, execution_stream (dist_attr op)) <$> ops (global_block program')
        = ["recv_stream"; ""; "send_stream_3"; ""].
Proof.
  split; [exact stage_sends_have_ring|].
  destruct (overlap_send_recv_tags stage_program stage_sends_have_ring)
    as (program' & Hrun & Hblocks & _).
  exists program'. split; [exact Hrun|]. split; [exact Hblocks|].
  vm_compute in Hrun. injection Hrun as <-. reflexivity.
Defined.

(** C10, as stated, fails with the default stream pass.  In
    [flagged_program] the comm-stream sync has the role 4, none of the
    three, and is no fetch operator; the sync insertion removes it, as it
    carries the pipeline flag and comes before the backward receive, and
    the pass returns the three sub-programs, none of which holds it.  And
    for a backward send in a block without optimizer operator the sync
    insertion raises [TypeError] before the operator of role 4 behind it
    is looked at. *)
Lemma program_for_fthenb_and_1f1b_sync_dropped :
  let sync := pipeline_comm_sync 4 "y" (AInt 3) in
  let listen := ex_op "listen" ["y"] ["z"] 4 in
  let pass :=
    _program_for_fthenb_and_1f1b ex_is_forward_op ex_is_backward_op
      ex_is_optimize_op 0 1 2 in
  (sync ∈ ops (global_block flagged_program)
   ∧ _is_fetch_op sync = false
   ∧ ¬ classified ex_is_forward_op ex_is_backward_op ex_is_optimize_op sync)
  ∧ (∃ fwd bwd opt,
       pass true flagged_program false = Ok [fwd; bwd; opt]
       ∧ ops (global_block fwd) = []
       ∧ op_type <$> ops (global_block bwd) = ["recv_v2"]
       ∧ ops (global_block opt) = [])
  ∧ (∃ fwd bwd opt,
       pass false flagged_program false = Ok [fwd; bwd; opt]
       ∧ ops (global_block fwd) = []
       ∧ op_type <$> ops (global_block bwd) = ["recv_v2"; "nop"]
       ∧ ops (global_block opt) = [])
  ∧ (listen ∈ ops (global_block (send_program 1 [listen]))
     ∧ _is_fetch_op listen = false
     ∧ ¬ classified ex_is_forward_op ex_is_backward_op ex_is_optimize_op
           listen
     ∧ pass true (send_program 1 [listen]) false = Raise TypeError).
Proof.
  intros sync listen pass. subst pass. split; [|split; [|split]].
  - split; [left|]. split; [reflexivity|].
    unfold classified. vm_compute. intros [H|[H|H]]; discriminate H.
  - do 3 eexists. split; [vm_compute; reflexivity|].
    split_and!; reflexivity.
  - do 3 eexists. split; [vm_compute; reflexivity|].
    split_and!; reflexivity.
  - split; [right; right; left|]. split; [reflexivity|]. split.
    + unfold classified. vm_compute. intros [H|[H|H]]; discriminate H.
    + vm_compute. reflexivity.
Qed.

Example stage_program_role_error :
  _program_for_fthenb_and_1f1b ex_is_forward_op ex_is_backward_op
    ex_is_optimize_op 0 1 2 true stage_program true
  = Raise (ValueError "The op role: 4 isn't one of Forward, Backward or Optimizer.")
  ∧ _program_for_fthenb_and_1f1b ex_is_forward_op ex_is_backward_op
      ex_is_optimize_op 0 1 2 true stage_program false
    = Raise (ValueError "The op role: 4 isn't one of Forward, Backward or Optimizer.").
Proof. split; vm_compute; reflexivity. Qed.

Example ex_role_classifiers :
  role_classifiers ex_is_forward_op ex_is_backward_op ex_is_optimize_op.
Proof.
  intros op op' _ Hrole.
  unfold ex_is_forward_op, ex_is_backward_op, ex_is_optimize_op, role_of.
  by rewrite Hrole.
Qed.

(** ** The skip-GC sweep on the two-micro-batch schedule *)

Example required_vars_fwd_bwd :
  required_vars no_buffer_info fwd_program = {["a"]}
  ∧ required_vars no_buffer_info bwd_program = {["a"]}
  ∧ required_vars grad_buffer_info bwd_program = ∅.
Proof. split_and!; vm_compute; reflexivity. Qed.

Example set_skip_gc_vars_schedule_2 :
  let out := set_skip_gc_vars no_buffer_info false (λ _, "{'a'}") 2
               ["forward"; "backward"] [fwd_program; bwd_program] schedule_2 in
  skip_gc_vars <$> out_jobs out = [{["a"]}; {["a"]}; ∅; ∅]
  ∧ out_result out = Ok (py_dict [("forward", 0%nat); ("backward", 1%nat)]).
Proof. split; vm_compute; reflexivity. Qed.

(** A backward job scheduled before a forward job of the same micro-batch:
    the sweep stops at it and its skip-GC set stays as it was. *)
Example set_skip_gc_vars_backward_first :
  let jobs := [new_job "backward" 0; new_job "forward" 0] in
  let out := set_skip_gc_vars no_buffer_info false (λ _, "{'a'}") 1
               ["forward"; "backward"] [fwd_program; bwd_program] jobs in
  out_result out
  = Raise (AssertionError
      "When enabling pipeline parallelism stategy, the skip_gc_vars for backward subprogram must be empty, but it is {'a'}.")
  ∧ out_jobs out = jobs.
Proof. split; vm_compute; reflexivity. Qed.

Example is_needed_grad_buffer :
  let op := new_op "matmul_grad" [("X", ["a"]); ("Out@GRAD", ["g"])]
                   [("X@GRAD", ["d"])] [] in
  let info := build_info grad_buffer_info OpInOutInfo_init op in
  is_needed info "a" = false ∧ is_needed info "g" = true
  ∧ is_needed info "d" = true
  ∧ is_needed (build_info no_buffer_info OpInOutInfo_init op) "a" = true.
Proof. split_and!; vm_compute; reflexivity. Qed.

(** * Further properties of the module *)

(** ** Ordered dictionaries, inputs and outputs *)

Lemma odict_set_NoDup (d : list string) (x : string) :
  NoDup d → NoDup (odict_set d x).
Proof.
  intros Hd. unfold odict_set. destruct (decide (x ∈ d)) as [Hin|Hnin]; [done|].
  apply NoDup_app. split; [done|]. split.
  - intros y Hy Hy'. apply list_elem_of_singleton in Hy' as ->. done.
  - apply NoDup_singleton.
Qed.

Lemma list_to_ordered_dict_NoDup (l d : list string) :
  NoDup d → NoDup (list_to_ordered_dict l d).
Proof.
  unfold list_to_ordered_dict. revert d.
  induction l as [|x l IH]; intros d Hd; cbn [foldl]; [done|].
  by apply IH, odict_set_NoDup.
Qed.

Lemma list_to_ordered_dict_prefix (l d : list string) :
  d `prefix_of` list_to_ordered_dict l d.
Proof.
  unfold list_to_ordered_dict. revert d.
  induction l as [|x l IH]; intros d; cbn [foldl]; [done|].
  etrans; [|apply IH]. unfold odict_set.
  destruct (decide (x ∈ d)); [done|]. by apply prefix_app_r.
Qed.

Lemma list_to_ordered_dict_absorb (l d : list string) :
  (∀ x, x ∈ l → x ∈ d) → list_to_ordered_dict l d = d.
Proof.
  unfold list_to_ordered_dict. revert d.
  induction l as [|x l IH]; intros d Hsub; cbn [foldl]; [done|].
  unfold odict_set at 2. rewrite decide_True by (apply Hsub; left).
  apply IH. intros y Hy. apply Hsub. by right.
Qed.

(** X1: [list_to_ordered_dict] keeps the keys of the given dictionary in
    front, in their order, adds exactly the elements of the list, never
    introduces a duplicate key, and adding the same list a second time
    changes nothing. *)
Theorem list_to_ordered_dict_keys (list_obj ordered_dict : list string) :
  NoDup ordered_dict →
  let d := list_to_ordered_dict list_obj ordered_dict in
  NoDup d
  ∧ ordered_dict `prefix_of` d
  ∧ (∀ x, x ∈ d ↔ x ∈ ordered_dict ∨ x ∈ list_obj)
  ∧ list_to_ordered_dict list_obj d = d.
Proof.
  intros Hd d. split; [by apply list_to_ordered_dict_NoDup|].
  split; [apply list_to_ordered_dict_prefix|].
  split; [intros x; apply elem_of_list_to_ordered_dict|].
  apply list_to_ordered_dict_absorb. intros x Hx.
  apply elem_of_list_to_ordered_dict. by right.
Qed.

(** The keys ["b"; "a"] extended with ["a"; "c"; "c"]. *)
Lemma list_to_ordered_dict_keys_witness :
  NoDup ["b"; "a"]
  ∧ list_to_ordered_dict ["a"; "c"; "c"] ["b"; "a"] = ["b"; "a"; "c"]
  ∧ NoDup (list_to_ordered_dict ["a"; "c"; "c"] ["b"; "a"]).
Proof.
  assert (H : NoDup ["b"; "a"]).
  { apply NoDup_cons. split.
    - intros Hin. apply list_elem_of_singleton in Hin. discriminate.
    - apply NoDup_singleton. }
  split; [exact H|]. split; [reflexivity|].
  exact (proj1 (list_to_ordered_dict_keys ["a"; "c"; "c"] ["b"; "a"] H)).
Defined.

Lemma outputs_acc_NoDup (l : list Operator) (d : list string) :
  NoDup d →
  NoDup (foldl (λ output_vars op,
                  list_to_ordered_dict (output_arg_names op) output_vars) d l).
Proof.
  revert d. induction l as [|op l IH]; intros d Hd; cbn [foldl]; [done|].
  by apply IH, list_to_ordered_dict_NoDup.
Qed.

Lemma inputs_scan_NoDup (l : list string) (st : gset string * list string) :
  NoDup st.2 → (∀ x, x ∈ st.2 → x ∈ st.1) →
  let st1 :=
    foldl (λ (st : gset string * list string) (in_var_name : string),
             if decide (in_var_name ∈ st.1) then st
             else ({[in_var_name]} ∪ st.1, st.2 ++ [in_var_name])) st l in
  NoDup st1.2 ∧ (∀ x, x ∈ st1.2 → x ∈ st1.1).
Proof.
  revert st. induction l as [|y l IH]; intros st Hnd Hsub; cbn [foldl]; [done|].
  destruct (decide (y ∈ st.1)) as [Hin|Hnin]; [by apply IH|].
  apply IH; cbn [fst snd].
  - apply NoDup_app. split; [done|]. split; [|apply NoDup_singleton].
    intros x Hx Hx'. apply list_elem_of_singleton in Hx' as ->.
    by apply Hnin, Hsub.
  - intros x [Hx|Hx]%elem_of_app.
    + apply elem_of_union. right. by apply Hsub.
    + apply list_elem_of_singleton in Hx as ->.
      apply elem_of_union. left. by apply elem_of_singleton.
Qed.

Lemma inputs_acc_NoDup (l : list Operator) (st : gset string * list string) :
  NoDup st.2 → (∀ x, x ∈ st.2 → x ∈ st.1) →
  NoDup (foldl inputs_step st l).2.
Proof.
  revert st. induction l as [|op l IH]; intros st Hnd Hsub; cbn [foldl]; [done|].
  destruct (inputs_scan_NoDup (input_arg_names op) st Hnd Hsub) as [Hnd1 Hsub1].
  apply IH.
  - exact Hnd1.
  - intros x Hx. unfold inputs_step. cbn [fst snd].
    apply elem_of_foldl_add. right. by apply Hsub1.
Qed.

(** X2: [get_inputs_of_program] returns, without duplicates, exactly the
    names whose first use in the global block is a read: some operator
    reads the name and no operator before it writes it. *)
Theorem get_inputs_of_program_first_reads (program : Program) :
  NoDup (get_inputs_of_program program)
  ∧ ∀ x, x ∈ get_inputs_of_program program
         ↔ read_before_written (ops (global_block program)) x.
Proof.
  split; [|intros x; apply elem_of_get_inputs_of_program].
  unfold get_inputs_of_program. apply inputs_acc_NoDup; cbn [fst snd].
  - apply NoDup_nil_2.
  - intros x Hx. by apply elem_of_nil in Hx.
Qed.

Lemma list_to_ordered_dict_NoDup_id (l : list string) :
  NoDup l → list_to_ordered_dict l [] = l.
Proof.
  intros Hnd. unfold list_to_ordered_dict.
  assert (Hgen : ∀ l d : list string,
            NoDup (d ++ l) → foldl odict_set d l = d ++ l).
  { clear. induction l as [|x l IH]; intros d Hdl; cbn [foldl].
    - by rewrite app_nil_r.
    - unfold odict_set at 2. rewrite decide_False.
      + rewrite IH; rewrite <- (assoc_L app); done.
      + apply NoDup_app in Hdl as (_ & Hdisj & _). intros Hx.
        apply (Hdisj x Hx). left. }
  by apply (Hgen _ []).
Qed.

Lemma get_outputs_of_program_NoDup (program : Program) :
  NoDup (get_outputs_of_program program).
Proof. unfold get_outputs_of_program. apply outputs_acc_NoDup, NoDup_nil_2. Qed.

(** X3: [get_outputs_of_program] returns, without duplicates, exactly the
    names that some operator of the global block writes, and turning that
    list into an ordered dictionary gives the same list of keys. *)
Theorem get_outputs_of_program_writes (program : Program) :
  NoDup (get_outputs_of_program program)
  ∧ (∀ x, x ∈ get_outputs_of_program program
          ↔ written_by (ops (global_block program)) x)
  ∧ list_to_ordered_dict (get_outputs_of_program program) []
    = get_outputs_of_program program.
Proof.
  assert (Hnd : NoDup (get_outputs_of_program program)).
  { unfold get_outputs_of_program. apply outputs_acc_NoDup, NoDup_nil_2. }
  split; [done|].
  split; [intros x; apply elem_of_get_outputs_of_program|].
  by apply list_to_ordered_dict_NoDup_id.
Qed.

(** ** [prune_program]: failures and composition *)

Lemma py_assert_false (c : bool) (msg : string) :
  c = false → py_assert c msg = Raise (AssertionError msg).
Proof. by intros ->. Qed.

Lemma prune_program_valid (program : Program) (start_op_idx end_op_idx : Z) :
  let op_num := Z.of_nat (length (ops (global_block program))) in
  let s := resolve_index start_op_idx op_num in
  let e := resolve_index end_op_idx op_num in
  0 ≤ s < op_num ∧ 0 ≤ e ≤ op_num ∧ s < e →
  ∃ pruned,
    prune_program program start_op_idx end_op_idx = Ok pruned
    ∧ ops (global_block pruned)
      = retained_ops (global_block program) (Z.to_nat s) (Z.to_nat e)
    ∧ sub_blocks pruned = sub_blocks program
    ∧ ∀ k, vars (global_block pruned) !! k
           = if decide (k ∈ op_names (ops (global_block pruned)))
             then vars (global_block program) !! k else None.
Proof.
  intros op_num s e (Hs & He & Hse).
  rewrite prune_program_resolve by (fold op_num s e; lia).
  fold op_num s e.
  destruct (prune_program_resolved program (Z.to_nat s) (Z.to_nat e))
    as (pruned & Hpr & Hops & Hsub & _ & _ & Hvars); [lia|lia|].
  rewrite !Z2Nat.id in Hpr by lia. exists pruned.
  split; [done|]. split; [done|]. split; [done|].
  intros k. by rewrite Hops.
Qed.

Lemma prune_program_invalid (program : Program) (start_op_idx end_op_idx : Z) :
  let op_num := Z.of_nat (length (ops (global_block program))) in
  let s := resolve_index start_op_idx op_num in
  let e := resolve_index end_op_idx op_num in
  ¬ (0 ≤ s < op_num ∧ 0 ≤ e ≤ op_num ∧ s < e) →
  ∃ msg, prune_program program start_op_idx end_op_idx
         = Raise (AssertionError msg).
Proof.
  intros op_num s e Hnot. unfold prune_program. cbv zeta. fold op_num s e.
  destruct (decide (s >= 0 ∧ s < op_num)) as [Hs|Hs].
  2:{ eexists.
      rewrite (py_assert_false (bool_decide (s >= 0 ∧ s < op_num)))
        by (by apply bool_decide_eq_false_2).
      reflexivity. }
  rewrite (py_assert_true (bool_decide (s >= 0 ∧ s < op_num)))
    by (by apply bool_decide_eq_true_2).
  cbn [mbind result_bind].
  destruct (decide (e >= 0 ∧ e ≤ op_num)) as [He|He].
  2:{ eexists.
      rewrite (py_assert_false (bool_decide (e >= 0 ∧ e ≤ op_num)))
        by (by apply bool_decide_eq_false_2).
      reflexivity. }
  rewrite (py_assert_true (bool_decide (e >= 0 ∧ e ≤ op_num)))
    by (by apply bool_decide_eq_true_2).
  cbn [mbind result_bind].
  eexists. rewrite (py_assert_false (bool_decide (s < e))); [reflexivity|].
  apply bool_decide_eq_false_2. lia.
Qed.

Lemma prune_program_Ok_inv (program pruned : Program)
    (start_op_idx end_op_idx : Z) :
  let op_num := Z.of_nat (length (ops (global_block program))) in
  let s := resolve_index start_op_idx op_num in
  let e := resolve_index end_op_idx op_num in
  prune_program program start_op_idx end_op_idx = Ok pruned →
  (0 ≤ s < op_num ∧ 0 ≤ e ≤ op_num ∧ s < e)
  ∧ ops (global_block pruned)
    = retained_ops (global_block program) (Z.to_nat s) (Z.to_nat e)
  ∧ sub_blocks pruned = sub_blocks program
  ∧ ∀ k, vars (global_block pruned) !! k
         = if decide (k ∈ op_names (ops (global_block pruned)))
           then vars (global_block program) !! k else None.
Proof.
  intros op_num s e Hpr.
  destruct (decide (0 ≤ s < op_num ∧ 0 ≤ e ≤ op_num ∧ s < e)) as [H|H].
  - destruct (prune_program_valid program start_op_idx end_op_idx H)
      as (pruned' & Hpr' & Hrest).
    rewrite Hpr in Hpr'. injection Hpr' as <-. by split.
  - destruct (prune_program_invalid program start_op_idx end_op_idx H)
      as [msg Hmsg].
    by rewrite Hmsg in Hpr.
Qed.

(** X4: [prune_program] returns exactly when, after resolving negative
    indices against the operator count, [0 <= start < op_count],
    [0 <= end <= op_count] and [start < end]; in every other case it raises
    an assertion error.  In particular it fails on a program without
    operators, and an index below [-op_count] stays negative and fails. *)
Theorem prune_program_returns_iff (program : Program)
    (start_op_idx end_op_idx : Z) :
  let op_num := Z.of_nat (length (ops (global_block program))) in
  let s := resolve_index start_op_idx op_num in
  let e := resolve_index end_op_idx op_num in
  ((∃ pruned, prune_program program start_op_idx end_op_idx = Ok pruned)
   ↔ 0 ≤ s < op_num ∧ 0 ≤ e ≤ op_num ∧ s < e)
  ∧ ((∃ msg, prune_program program start_op_idx end_op_idx
             = Raise (AssertionError msg))
     ↔ ¬ (0 ≤ s < op_num ∧ 0 ≤ e ≤ op_num ∧ s < e))
  ∧ (op_num = 0 → ∃ msg, prune_program program start_op_idx end_op_idx
                         = Raise (AssertionError msg))
  ∧ (start_op_idx < - op_num →
     ∃ msg, prune_program program start_op_idx end_op_idx
            = Raise (AssertionError msg)).
Proof.
  intros op_num s e.
  pose proof (prune_program_valid program start_op_idx end_op_idx) as Hok.
  pose proof (prune_program_invalid program start_op_idx end_op_idx) as Hbad.
  cbv zeta in Hok, Hbad. fold op_num s e in Hok, Hbad.
  split; [|split; [|split]].
  - split.
    + intros [pruned Hpr].
      by destruct (prune_program_Ok_inv _ _ _ _ Hpr) as [H _].
    + intros H. destruct (Hok H) as (pruned & Hpr & _). by exists pruned.
  - split; [|exact Hbad]. intros [msg Hmsg] H.
    destruct (Hok H) as (pruned & Hpr & _). by rewrite Hpr in Hmsg.
  - intros Hz. apply Hbad. lia.
  - intros Hlt. apply Hbad. unfold s, resolve_index.
    destruct (decide (start_op_idx < 0)); lia.
Qed.

Lemma retained_ops_length (b : Block) (s e : nat) :
  (s ≤ e)%nat → (e ≤ length (ops b))%nat →
  length (retained_ops b s e) = (e - s)%nat.
Proof.
  intros Hse He. unfold retained_ops. rewrite length_drop, length_take. lia.
Qed.

Lemma Block_eq (b1 b2 : Block) :
  parent_idx b1 = parent_idx b2 →
  forward_block_idx b1 = forward_block_idx b2 →
  ops b1 = ops b2 → vars b1 = vars b2 → b1 = b2.
Proof. destruct b1, b2. cbn. by intros -> -> -> ->. Qed.

(** X5: pruning composes: pruning a pruned program to the range [c, d)
    is pruning the original program to that range shifted by the first
    start index, operators and declarations alike. *)
Theorem prune_program_compose (program pruned : Program) (a b c d : nat) :
  (a < b)%nat → (b ≤ length (ops (global_block program)))%nat →
  (c < d)%nat → (d ≤ b - a)%nat →
  prune_program program (Z.of_nat a) (Z.of_nat b) = Ok pruned →
  prune_program pruned (Z.of_nat c) (Z.of_nat d)
  = prune_program program (Z.of_nat (a + c)) (Z.of_nat (a + d)).
Proof.
  intros Hab Hb Hcd Hd Hpruned.
  destruct (prune_program_resolved program a b Hab Hb)
    as (p1 & Hp1 & Hops1 & Hsub1 & Hpar1 & Hfwd1 & Hvars1).
  rewrite Hpruned in Hp1. injection Hp1 as <-.
  assert (Hlen1 : length (ops (global_block pruned)) = (b - a)%nat).
  { rewrite Hops1. apply retained_ops_length; lia. }
  destruct (prune_program_resolved pruned c d Hcd)
    as (p2 & Hp2 & Hops2 & Hsub2 & Hpar2 & Hfwd2 & Hvars2); [lia|].
  destruct (prune_program_resolved program (a + c) (a + d))
    as (p3 & Hp3 & Hops3 & Hsub3 & Hpar3 & Hfwd3 & Hvars3); [lia|lia|].
  rewrite Hp2, Hp3. f_equal.
  assert (Hops : retained_ops (global_block pruned) c d
                 = retained_ops (global_block program) (a + c) (a + d)).
  { unfold retained_ops. rewrite Hops1. unfold retained_ops.
    rewrite take_drop_commute, drop_drop, take_take.
    do 2 f_equal. lia. }
  destruct p2 as [g2 s2], p3 as [g3 s3]. cbn in *.
  f_equal; [|congruence].
  apply Block_eq; [congruence|congruence|congruence|].
  apply map_eq. intros k. rewrite Hvars2, Hvars3, Hops, Hvars1.
  destruct (decide (k ∈ op_names
                      (retained_ops (global_block program) (a + c) (a + d))))
    as [Hk|Hk]; [|done].
  rewrite decide_True; [done|].
  apply elem_of_op_names in Hk as (op & Hop & Hu).
  apply elem_of_op_names. exists op. split; [|done].
  unfold retained_ops in *.
  apply list_elem_of_lookup in Hop as [i Hi].
  rewrite lookup_drop in Hi. apply lookup_take_Some in Hi as [Hi Hlt].
  apply list_elem_of_lookup. exists (c + i)%nat.
  rewrite lookup_drop, lookup_take_lt by lia.
  rewrite <- Hi. f_equal. lia.
Qed.

(** Pruning [program_10] to [2, 9) and then to [1, 4) is pruning it to
    [3, 6). *)
Lemma prune_program_compose_witness :
  (2 < 9)%nat ∧ (9 ≤ length (ops (global_block program_10)))%nat
  ∧ (1 < 4)%nat ∧ (4 ≤ 9 - 2)%nat
  ∧ ∃ pruned,
      prune_program program_10 2 9 = Ok pruned
      ∧ prune_program pruned 1 4 = prune_program program_10 3 6.
Proof.
  assert (H1 : (2 < 9)%nat) by lia.
  assert (H2 : (9 ≤ length (ops (global_block program_10)))%nat)
    by (cbn; lia).
  assert (H3 : (1 < 4)%nat) by lia.
  assert (H4 : (4 ≤ 9 - 2)%nat) by (cbn; lia).
  split; [exact H1|]. split; [exact H2|]. split; [exact H3|].
  split; [exact H4|].
  destruct (prune_program_resolved program_10 2 9 H1 H2) as (pruned & Hp & _).
  exists pruned. split; [exact Hp|].
  exact (prune_program_compose program_10 pruned 2 9 1 4 H1 H2 H3 H4 Hp).
Defined.

(** ** [split_program]: failures and the shape of the result *)

Lemma sorted_check_Ok_inv (l : list Z) :
  sorted_check l = Ok () → StronglySorted Z.lt l.
Proof.
  intros H. destruct (decide (StronglySorted Z.lt l)) as [Hs|Hs]; [done|].
  by rewrite sorted_check_Raise in H.
Qed.

(** X6: [split_program] fails with "op_indices cannot be empty" on an empty
    boundary list, whatever the program, and with "program cannot be empty"
    on a non-empty list and a program without operators; it returns exactly
    when both are non-empty and the normalized boundaries are strictly
    increasing, and it raises nothing but assertion errors. *)
Theorem split_program_returns_iff (program : Program) (op_indices : list Z) :
  let op_num := Z.of_nat (length (ops (global_block program))) in
  split_program program []
  = Raise (AssertionError "op_indices cannot be empty")
  ∧ (op_indices ≠ [] → ops (global_block program) = [] →
     split_program program op_indices
     = Raise (AssertionError "program cannot be empty"))
  ∧ ((∃ r, split_program program op_indices = Ok r)
     ↔ op_indices ≠ [] ∧ ops (global_block program) ≠ []
       ∧ StronglySorted Z.lt (normal_form op_num op_indices))
  ∧ (∀ e, split_program program op_indices = Raise e →
          ∃ msg, e = AssertionError msg).
Proof.
  intros op_num.
  assert (Hempty : op_indices ≠ [] → ops (global_block program) = [] →
            split_program program op_indices
            = Raise (AssertionError "program cannot be empty")).
  { intros Hne Hops. unfold split_program.
    rewrite (py_assert_true (bool_decide (op_indices ≠ [])))
      by (by apply bool_decide_eq_true_2).
    cbn [mbind result_bind]. cbv zeta. rewrite Hops. done. }
  assert (Hsorted : op_indices ≠ [] → ops (global_block program) ≠ [] →
            StronglySorted Z.lt (normal_form op_num op_indices) →
            ∃ r, split_program program op_indices = Ok r).
  { intros Hne Hops Hs.
    destruct (split_program_sorted program op_indices Hne Hops)
      as (progs & _ & Hsplit & _).
    - fold op_num. by rewrite normalize_indices_normal_form.
    - by eexists. }
  assert (Hunsorted : op_indices ≠ [] → ops (global_block program) ≠ [] →
            ¬ StronglySorted Z.lt (normal_form op_num op_indices) →
            split_program program op_indices
            = Raise (AssertionError "op_indices must be strictly sorted")).
  { intros Hne Hops Hs. rewrite split_program_unfold by done. fold op_num.
    rewrite normalize_indices_normal_form by done.
    by rewrite sorted_check_Raise. }
  split; [done|]. split; [exact Hempty|]. split.
  - split.
    + intros [r Hr]. destruct (split_program_Ok_inv _ _ _ Hr) as [Hne Hops].
      split; [done|]. split; [done|].
      destruct (decide (StronglySorted Z.lt (normal_form op_num op_indices)))
        as [Hs|Hs]; [done|].
      by rewrite Hunsorted in Hr.
    + intros (Hne & Hops & Hs). by apply Hsorted.
  - intros e He. destruct op_indices as [|i l].
    + injection He as <-. by eexists.
    + destruct (ops (global_block program)) as [|op l'] eqn:Hops.
      * rewrite Hempty in He by done. injection He as <-. by eexists.
      * assert (Hops' : ops (global_block program) ≠ []) by by rewrite Hops.
        destruct (decide (StronglySorted Z.lt (normal_form op_num (i :: l))))
          as [Hs|Hs].
        -- destruct Hsorted as [r Hr]; [done|done|done|].
           by rewrite Hr in He.
        -- rewrite Hunsorted in He by done. injection He as <-. by eexists.
Qed.

Lemma for_list_lookup_inv {A B : Type} (f : A → result B) (l : list A)
    (r : list B) (i : nat) (y : B) :
  for_list f l = Ok r → r !! i = Some y → ∃ x, l !! i = Some x ∧ f x = Ok y.
Proof.
  intros Hr Hy. pose proof (for_list_length _ _ _ Hr) as Hlen.
  destruct (l !! i) as [x|] eqn:Hx.
  - destruct (for_list_lookup _ _ _ _ _ Hr Hx) as (y' & Hy' & Hf).
    exists x. split; [done|]. congruence.
  - apply lookup_ge_None in Hx. apply lookup_lt_Some in Hy. lia.
Qed.

Lemma elem_of_op_names_declared (l : list Operator) (m m' : gmap string Var) :
  (∀ k, m' !! k = if decide (k ∈ op_names l) then m !! k else None) →
  m' ⊆ m.
Proof.
  intros H. apply map_subseteq_spec. intros k v Hk. rewrite H in Hk.
  by destruct (decide _).
Qed.

Lemma split_program_Ok_concat (program : Program) (op_indices : list Z)
    (progs : list Program) (ins outs : list (list string)) :
  split_program program op_indices = Ok (progs, ins, outs) →
  concat (map (λ p, ops (global_block p)) progs) = ops (global_block program)
  ∧ progs ≠ [].
Proof.
  intros Hsplit.
  destruct (split_program_Ok_inv _ _ _ Hsplit) as [Hne Hops].
  destruct (split_program_Ok_shape _ _ _ _ _ Hsplit) as (Hprogs & _ & _).
  assert (Hs : StronglySorted Z.lt
                 (normalize_indices
                    (Z.of_nat (length (ops (global_block program))))
                    op_indices)).
  { rewrite split_program_unfold in Hsplit by done.
    apply bind_Ok in Hsplit as ([] & Hcheck & _).
    by apply sorted_check_Ok_inv. }
  destruct (split_program_sorted program op_indices Hne Hops Hs)
    as (progs' & Hprogs' & _ & Hcat).
  rewrite Hprogs in Hprogs'. injection Hprogs' as <-.
  split; [done|].
  intros ->. cbn in Hcat. by rewrite <- Hcat in Hops.
Qed.

(** X7: whenever [split_program] returns, for any boundary list (negative
    or not, with or without the end points), the operator lists of the
    sub-programs, concatenated in order, are the operator list of the
    program; no sub-program is empty; and each one keeps every sub-block of
    the program and only declarations of its global block. *)
Theorem split_program_partition (program : Program) (op_indices : list Z)
    (progs : list Program) (ins outs : list (list string)) :
  split_program program op_indices = Ok (progs, ins, outs) →
  concat (map (λ p, ops (global_block p)) progs) = ops (global_block program)
  ∧ progs ≠ []
  ∧ Forall (λ p, ops (global_block p) ≠ []
                 ∧ sub_blocks p = sub_blocks program
                 ∧ vars (global_block p) ⊆ vars (global_block program)) progs.
Proof.
  intros Hsplit.
  destruct (split_program_Ok_concat _ _ _ _ _ Hsplit) as [Hcat Hne].
  destruct (split_program_Ok_shape _ _ _ _ _ Hsplit) as (Hprogs & _ & _).
  split; [done|]. split; [done|].
  apply Forall_forall. intros p Hp.
  apply list_elem_of_lookup in Hp as [i Hi].
  destruct (for_list_lookup_inv _ _ _ _ _ Hprogs Hi) as ([a b] & _ & Hpr).
  destruct (prune_program_Ok_inv _ _ _ _ Hpr)
    as (Hrange & Hpops & Hsub & Hvars).
  split; [|split; [done|by eapply elem_of_op_names_declared]].
  intros Hnil. rewrite Hpops in Hnil.
  apply (f_equal length) in Hnil.
  rewrite retained_ops_length in Hnil by lia. cbn in Hnil. lia.
Qed.

(** [program_10] split at [[4; 7]]. *)
Lemma split_program_partition_witness :
  ∃ progs ins outs,
    split_program program_10 [4; 7] = Ok (progs, ins, outs)
    ∧ concat (map (λ p, ops (global_block p)) progs)
      = ops (global_block program_10)
    ∧ progs ≠ [].
Proof.
  destruct split_program_10 as (progs & Hsplit & _).
  exists progs, [[]; ["y"]; ["y"]], [["y"]; ["y"]; ["h"; "x"]].
  split; [exact Hsplit|].
  destruct (split_program_partition program_10 [4; 7] progs _ _ Hsplit)
    as (Hcat & Hne & _).
  split; [exact Hcat|exact Hne].
Defined.

Lemma mark_valid_NoDup (outs : list (list string)) (i : nat)
    (valid : list (list string)) (x : string) :
  Forall NoDup valid → Forall NoDup (mark_valid outs i valid x).
Proof.
  intros Hall. unfold mark_valid.
  destruct (nearest_writer outs i x) as [j|]; [|done].
  apply Forall_alter; [done|]. intros d _. by apply odict_set_NoDup.
Qed.

Lemma mark_all_NoDup (ins outs valid : list (list string)) (l : list nat) :
  Forall NoDup valid → Forall NoDup (mark_all ins outs valid l).
Proof.
  unfold mark_all. revert valid.
  induction l as [|i l IH]; intros valid Hall; cbn [foldl]; [done|].
  apply IH. generalize (default [] (ins !! i)). intros xs.
  revert valid Hall. induction xs as [|x xs IHx]; intros valid Hall;
    cbn [foldl]; [done|].
  by apply IHx, mark_valid_NoDup.
Qed.

Lemma raw_outputs_lookup (progs : list Program) (i : nat) :
  raw_outputs progs !! i = get_outputs_of_program <$> progs !! i.
Proof.
  unfold raw_outputs. rewrite list_lookup_fmap.
  destruct (progs !! i) as [p|]; [|done]. cbn. f_equal.
  apply list_to_ordered_dict_NoDup_id, get_outputs_of_program_NoDup.
Qed.

(** X8: whenever [split_program] returns, the three lists have one entry
    per sub-program; the inputs of a sub-program are those of
    [get_inputs_of_program]; the last sub-program exports everything it
    writes; and every list of valid outputs is duplicate-free and holds
    only names that its own sub-program writes. *)
Theorem split_program_exports (program : Program) (op_indices : list Z)
    (progs : list Program) (ins outs : list (list string)) :
  split_program program op_indices = Ok (progs, ins, outs) →
  length ins = length progs ∧ length outs = length progs
  ∧ (∀ i p, progs !! i = Some p → ins !! i = Some (get_inputs_of_program p))
  ∧ last outs = get_outputs_of_program <$> last progs
  ∧ (∀ i l, outs !! i = Some l →
       NoDup l ∧ ∀ x, x ∈ l → sub_writes progs i x).
Proof.
  intros Hsplit.
  destruct (split_program_Ok_shape _ _ _ _ _ Hsplit) as (_ & Hins & Houts).
  assert (Hlen_raw : length (raw_outputs progs) = length progs).
  { unfold raw_outputs. by rewrite length_map. }
  assert (Hlen : length outs = length progs).
  { by rewrite Houts, valid_outputs_length. }
  destruct (split_program_Ok_concat _ _ _ _ _ Hsplit) as [_ Hne].
  assert (Hraw_ne : raw_outputs progs ≠ []).
  { intros Hnil. apply (f_equal length) in Hnil. rewrite Hlen_raw in Hnil.
    by destruct progs. }
  assert (Hlast : outs !! (length progs - 1)%nat
                  = get_outputs_of_program <$> progs !! (length progs - 1)%nat).
  { rewrite Houts, <- Hlen_raw at 1.
    rewrite valid_outputs_last by done.
    rewrite last_lookup, Hlen_raw, raw_outputs_lookup.
    by replace (pred (length progs)) with (length progs - 1)%nat by lia. }
  split; [by rewrite Hins, length_map|]. split; [done|]. split.
  { intros i p Hp. by rewrite Hins, list_lookup_fmap, Hp. }
  split.
  { rewrite !last_lookup, Hlen.
    replace (pred (length progs)) with (length progs - 1)%nat by lia.
    done. }
  intros i l Hl.
  assert (Hi : (i < length progs)%nat).
  { rewrite <- Hlen. by eapply lookup_lt_Some. }
  split.
  - assert (Hall : Forall NoDup outs).
    { rewrite Houts, valid_outputs_unfold. apply mark_all_NoDup.
      apply Forall_insert; [apply Forall_replicate, NoDup_nil_2|].
      rewrite last_lookup, Hlen_raw, raw_outputs_lookup.
      destruct (progs !! pred (length progs)) as [p|]; cbn;
        [apply get_outputs_of_program_NoDup|apply NoDup_nil_2]. }
    rewrite Forall_forall in Hall. apply Hall.
    by eapply list_elem_of_lookup_2.
  - intros x Hx.
    destruct (decide (S i < length progs)%nat) as [Hlt|Hge].
    + assert (Hx' : x ∈ default [] (outs !! i)) by by rewrite Hl.
      rewrite Houts in Hx'.
      apply valid_outputs_elem_of in Hx' as (j & _ & _ & Hn);
        [|by rewrite Hlen_raw].
      apply nearest_writer_Some in Hn as (_ & Hw & _).
      by apply elem_of_raw_outputs.
    + replace i with (length progs - 1)%nat in * by lia.
      rewrite Hlast in Hl.
      destruct (progs !! (length progs - 1)%nat) as [p|] eqn:Hp; [|done].
      injection Hl as <-. exists p. split; [done|].
      by apply elem_of_get_outputs_of_program.
Qed.

(** [program_10] split at [[4; 7]]. *)
Lemma split_program_exports_witness :
  ∃ progs ins outs,
    split_program program_10 [4; 7] = Ok (progs, ins, outs)
    ∧ length ins = length progs ∧ length outs = length progs.
Proof.
  destruct split_program_10 as (progs & Hsplit & _).
  exists progs, [[]; ["y"]; ["y"]], [["y"]; ["y"]; ["h"; "x"]].
  split; [exact Hsplit|].
  destruct (split_program_exports program_10 [4; 7] progs _ _ Hsplit)
    as (Hins & Houts & _).
  split; [exact Hins|exact Houts].
Defined.

(** ** [OpInOutInfo] objects that are built again, and the required
    variables of a sub-program *)

Lemma elem_of_foldl_add_if (P : string → bool) (l : list string)
    (acc : gset string) (x : string) :
  x ∈ foldl (λ (acc : gset string) (a : string),
               if P a then {[a]} ∪ acc else acc) acc l
  ↔ x ∈ acc ∨ (x ∈ l ∧ P x = true).
Proof.
  revert acc. induction l as [|a l IH]; intros acc; cbn [foldl].
  - split; [by left|]. intros [?|[Hx _]]; [done|]. by apply elem_of_nil in Hx.
  - rewrite IH, elem_of_cons. destruct (P a) eqn:Ha.
    + rewrite elem_of_union, elem_of_singleton. split.
      * intros [[->|?]|[? ?]]; [right; by split; [left|]|by left|].
        right. split; [by right|done].
      * intros [?|[[->|?] ?]]; [by left; right|by left; left|by right].
    + split.
      * intros [?|[? ?]]; [by left|]. right. split; [by right|done].
      * intros [?|[[->|?] ?]]; [by left|congruence|by right].
Qed.

Section OpInOutInfoReuse.

Context (infer_no_need_buffer_slots :
           string → list (string * list string) → list (string * list string)
           → gmap string AttrValue → gset string).

(** X9: [build_info] on an object that has been built before replaces the
    recorded slots by those of the new operator but keeps the names
    recorded earlier, so [is_needed] also accepts them; the build flag is
    set when the registry reports a slot and is never cleared. *)
Theorem build_info_again (self : OpInOutInfo) (op : Operator) (name : string) :
  let no_need := no_need_slots infer_no_need_buffer_slots op in
  let info := build_info infer_no_need_buffer_slots self op in
  _no_need_buffer_slots info = no_need
  ∧ _other_arg_names_set self ⊆ _other_arg_names_set info
  ∧ _is_build info = _is_build self || negb (bool_decide (no_need = ∅))
  ∧ (is_needed info name = true
     ↔ no_need = ∅ ∨ name ∈ _other_arg_names_set self
       ∨ in_needed_slot no_need op name).
Proof.
  intros no_need info. unfold info, build_info, no_need_slots in *.
  cbn [_get_op_attrs] in *. fold no_need.
  destruct (decide (size no_need = 0%nat)) as [Hz|Hnz].
  - assert (Hempty : no_need = ∅) by by apply size_empty_iff, leibniz_equiv in Hz.
    rewrite bool_decide_eq_true_2 by done.
    cbn [_no_need_buffer_slots _other_arg_names_set _is_build].
    split; [done|]. split; [done|]. split.
    + rewrite (bool_decide_eq_true_2 (no_need = ∅)) by done.
      cbn [negb]. by rewrite orb_false_r.
    + unfold is_needed. cbn [_no_need_buffer_slots].
      rewrite bool_decide_eq_true_2 by done. cbn [orb]. split; [by left|done].
  - assert (Hne : no_need ≠ ∅).
    { intros Hempty. apply Hnz. rewrite Hempty. apply size_empty. }
    rewrite bool_decide_eq_false_2 by done.
    cbn [_no_need_buffer_slots _other_arg_names_set _is_build].
    split; [done|]. split; [|split].
    + intros x Hx. rewrite !elem_of_other_names. by left; left.
    + rewrite (bool_decide_eq_false_2 (no_need = ∅)) by done.
      cbn [negb]. by rewrite orb_true_r.
    + unfold is_needed. cbn [_no_need_buffer_slots _other_arg_names_set].
      rewrite bool_decide_eq_false_2 by done. cbn [orb].
      rewrite bool_decide_eq_true, !elem_of_other_names.
      unfold in_needed_slot. split.
      * intros [[H|(slot & Hs & Hn & Hx)]|(slot & Hs & Hn & Hx)].
        -- by right; left.
        -- right; right. exists slot. split; [done|]. by left.
        -- right; right. exists slot. split; [done|]. by right.
      * intros [Hempty|[Hself|(slot & Hn & [[Hs Hx]|[Hs Hx]])]].
        -- done.
        -- by left; left.
        -- left. right. by exists slot.
        -- right. by exists slot.
Qed.

Lemma elem_of_required_ops (program : Program) (blk : Block)
    (l : list Operator) (acc : gset string) (x : string) :
  x ∈ foldl (λ (acc : gset string) op,
      if decide (op_type op ∈ skipped_op_types) then acc
      else
        let op_info := build_info infer_no_need_buffer_slots
                         OpInOutInfo_init op in
        foldl (λ (acc : gset string) (arg_name : string),
                 if var_can_be_deleted program arg_name blk
                    && is_needed op_info arg_name
                 then {[arg_name]} ∪ acc else acc)
              acc (input_arg_names op ++ output_arg_names op))
      acc l
  ↔ x ∈ acc
    ∨ ∃ op, op ∈ l ∧ (op_type op ∉ skipped_op_types) ∧ uses op x
            ∧ var_can_be_deleted program x blk = true
            ∧ is_needed (build_info infer_no_need_buffer_slots
                           OpInOutInfo_init op) x = true.
Proof.
  revert acc. induction l as [|op l IH]; intros acc; cbn [foldl].
  - split; [by left|]. intros [?|(op & Hop & _)]; [done|].
    by apply elem_of_nil in Hop.
  - rewrite IH. clear IH.
    destruct (decide (op_type op ∈ skipped_op_types)) as [Hskip|Hskip].
    + split.
      * intros [?|(op' & ? & ?)]; [by left|].
        right. exists op'. split; [by right|done].
      * intros [?|(op' & Hop' & Hrest)]; [by left|].
        apply elem_of_cons in Hop' as [->|Hop'].
        -- by destruct Hrest as [? _].
        -- right. by exists op'.
    + cbv zeta.
      rewrite (elem_of_foldl_add_if
                 (λ a, var_can_be_deleted program a blk
                       && is_needed (build_info infer_no_need_buffer_slots
                                       OpInOutInfo_init op) a)).
      rewrite elem_of_app, andb_true_iff. unfold uses. split.
      * intros [[?|(Hx & Hv & Hn)]|(op' & ? & ?)]; [by left| |].
        -- right. exists op. split; [left|done].
        -- right. exists op'. split; [by right|done].
      * intros [?|(op' & Hop' & Hrest)]; [by left; left|].
        apply elem_of_cons in Hop' as [->|Hop'].
        -- left; right. tauto.
        -- right. by exists op'.
Qed.

(** X10: a name is a required variable of a sub-program exactly when some
    operator of one of its blocks, not of a skipped type
    ([c_sync_comm_stream], [conditional_block], [nop], [while]), has it as
    an input or output argument, the name resolves from that block to a
    non-persistable declaration, and the operator needs its buffer. *)
Theorem elem_of_required_vars (program : Program) (x : string) :
  x ∈ required_vars infer_no_need_buffer_slots program
  ↔ ∃ blk op,
      blk ∈ blocks program ∧ op ∈ ops blk
      ∧ (op_type op ∉ skipped_op_types) ∧ uses op x
      ∧ (∃ v, _find_var_recursive program blk x = Some v
              ∧ persistable v = false)
      ∧ is_needed (build_info infer_no_need_buffer_slots
                     OpInOutInfo_init op) x = true.
Proof.
  unfold required_vars.
  assert (Hdel : ∀ blk, var_can_be_deleted program x blk = true
            ↔ ∃ v, _find_var_recursive program blk x = Some v
                   ∧ persistable v = false).
  { intros blk. unfold var_can_be_deleted.
    destruct (_find_var_recursive program blk x) as [v|].
    - rewrite negb_true_iff. split; [by exists v|]. by intros (v' & [= <-] & ?).
    - split; [done|]. by intros (v' & ? & _). }
  assert (Hgen : ∀ l (acc : gset string),
    x ∈ foldl (λ (acc : gset string) blk,
      foldl (λ (acc : gset string) op,
        if decide (op_type op ∈ skipped_op_types) then acc
        else
          let op_info := build_info infer_no_need_buffer_slots
                           OpInOutInfo_init op in
          foldl (λ (acc : gset string) (arg_name : string),
                   if var_can_be_deleted program arg_name blk
                      && is_needed op_info arg_name
                   then {[arg_name]} ∪ acc else acc)
                acc (input_arg_names op ++ output_arg_names op))
        acc (ops blk)) acc l
    ↔ x ∈ acc
      ∨ ∃ blk op, blk ∈ l ∧ op ∈ ops blk
          ∧ (op_type op ∉ skipped_op_types) ∧ uses op x
          ∧ var_can_be_deleted program x blk = true
          ∧ is_needed (build_info infer_no_need_buffer_slots
                         OpInOutInfo_init op) x = true).
  { induction l as [|blk l IH]; intros acc; cbn [foldl].
    - split; [by left|]. intros [?|(blk & op & Hb & _)]; [done|].
      by apply elem_of_nil in Hb.
    - rewrite IH, elem_of_required_ops. split.
      + intros [[?|(op & ? & ?)]|(blk' & op & ? & ?)]; [by left| |].
        * right. exists blk, op. split; [left|done].
        * right. exists blk', op. split; [by right|done].
      + intros [?|(blk' & op & Hb & Hrest)]; [by left; left|].
        apply elem_of_cons in Hb as [->|Hb].
        * left; right. by exists op.
        * right. by exists blk', op. }
  rewrite Hgen. split.
  - intros [H|(blk & op & ? & ? & ? & ? & Hv & ?)]; [by apply elem_of_empty in H|].
    exists blk, op. by rewrite <- Hdel.
  - intros (blk & op & ? & ? & ? & ? & Hv & ?). right.
    exists blk, op. by rewrite Hdel.
Qed.

End OpInOutInfoReuse.

(** ** [set_skip_gc_vars]: the returned mapping, liveness, failures *)

Lemma py_dict_snoc {V : Type} (l : list (string * V)) (k : string) (v : V) :
  py_dict (l ++ [(k, v)]) = <[k := v]> (py_dict l).
Proof. unfold py_dict. by rewrite foldl_app. Qed.

Lemma py_dict_lookup {V : Type} (l : list (string * V)) (k : string) (v : V) :
  py_dict l !! k = Some v
  ↔ ∃ i, l !! i = Some (k, v)
         ∧ ∀ j v', (i < j)%nat → l !! j ≠ Some (k, v').
Proof.
  induction l as [|[k' v'] l IH] using rev_ind.
  - unfold py_dict. cbn [foldl]. rewrite lookup_empty. split; [done|].
    by intros (i & Hi & _).
  - rewrite py_dict_snoc. destruct (decide (k' = k)) as [->|Hne].
    + rewrite lookup_insert_eq. split.
      * intros [= ->]. exists (length l). split.
        -- by rewrite lookup_app_r, Nat.sub_diag by lia.
        -- intros j v0 Hj Hl. apply lookup_lt_Some in Hl.
           rewrite length_app in Hl. cbn in Hl. lia.
      * intros (i & Hi & Hlast).
        destruct (decide (i = length l)) as [->|Hi'].
        -- rewrite lookup_app_r, Nat.sub_diag in Hi by lia. cbn in Hi.
           by simplify_eq.
        -- exfalso. apply (Hlast (length l) v').
           ++ apply lookup_lt_Some in Hi. rewrite length_app in Hi.
              cbn in Hi. lia.
           ++ by rewrite lookup_app_r, Nat.sub_diag by lia.
    + rewrite lookup_insert_ne by done. rewrite IH. split.
      * intros (i & Hi & Hlast). exists i.
        pose proof (lookup_lt_Some _ _ _ Hi) as Hlt.
        split; [by rewrite lookup_app_l|].
        intros j v0 Hj Hl.
        destruct (decide (j < length l)%nat) as [Hjl|Hjl].
        -- rewrite lookup_app_l in Hl by done. by apply (Hlast j v0).
        -- apply lookup_lt_Some in Hl as Hl'. rewrite length_app in Hl'.
           cbn in Hl'. replace j with (length l) in Hl by lia.
           rewrite lookup_app_r, Nat.sub_diag in Hl by lia. cbn in Hl.
           by simplify_eq.
      * intros (i & Hi & Hlast).
        assert (Hlt : (i < length l)%nat).
        { destruct (decide (i < length l)%nat) as [?|Hge]; [done|].
          apply lookup_lt_Some in Hi as Hi'. rewrite length_app in Hi'.
          cbn in Hi'. replace i with (length l) in Hi by lia.
          rewrite lookup_app_r, Nat.sub_diag in Hi by lia. cbn in Hi.
          by simplify_eq. }
        rewrite lookup_app_l in Hi by done. exists i. split; [done|].
        intros j v0 Hj Hl. apply (Hlast j v0 Hj).
        apply lookup_lt_Some in Hl as Hl'. by rewrite lookup_app_l.
Qed.

Lemma zip_seq_lookup (types : list string) (n i : nat) (t : string) (v : nat) :
  zip types (seq 0 n) !! i = Some (t, v)
  ↔ types !! i = Some t ∧ v = i ∧ (i < n)%nat.
Proof.
  split.
  - intros (x & y & [= <- <-] & Hx & Hy)%lookup_zip_with_Some.
    apply lookup_seq in Hy as [-> Hy]. done.
  - intros (Ht & -> & Hi). apply lookup_zip_with_Some.
    exists t, i. split; [done|]. split; [done|].
    by apply lookup_seq.
Qed.

Lemma type_to_program_of_lookup (job_types : list string)
    (sub_programs : list Program) (t : string) (i : nat) :
  type_to_program_of job_types sub_programs !! t = Some i
  ↔ (i < length sub_programs)%nat ∧ job_types !! i = Some t
    ∧ ∀ j, (i < j < length sub_programs)%nat → job_types !! j ≠ Some t.
Proof.
  unfold type_to_program_of. rewrite py_dict_lookup. split.
  - intros (k & Hk & Hlast). apply zip_seq_lookup in Hk as (Ht & -> & Hk).
    split; [done|]. split; [done|]. intros j Hj Hjt.
    apply (Hlast j j); [lia|]. apply zip_seq_lookup. split; [done|]. lia.
  - intros (Hi & Ht & Hlast). exists i. split.
    + by apply zip_seq_lookup.
    + intros j v' Hj Hl. apply zip_seq_lookup in Hl as (Hjt & -> & Hjn).
      by apply (Hlast j).
Qed.

Lemma py_dict_lookup_None {V : Type} (l : list (string * V)) (k : string) :
  py_dict l !! k = None ↔ k ∉ l.*1.
Proof.
  induction l as [|[k' v'] l IH] using rev_ind.
  - unfold py_dict. cbn. rewrite lookup_empty, elem_of_nil. tauto.
  - rewrite py_dict_snoc, fmap_app, elem_of_app. cbn.
    rewrite list_elem_of_singleton.
    destruct (decide (k' = k)) as [->|Hne].
    + rewrite lookup_insert_eq. split; [done|]. intros H. destruct H. by right.
    + rewrite lookup_insert_ne by done. rewrite IH. split.
      * intros H [?|?]; [done|congruence].
      * intros H ?. apply H. by left.
Qed.

Lemma py_slot_None (n : nat) (i : Z) :
  py_slot n i = None ↔ ¬ (- Z.of_nat n ≤ i < Z.of_nat n).
Proof.
  unfold py_slot. destruct (decide (i < 0)); case_decide; split; try done; lia.
Qed.

Lemma elem_of_suffix_required (req : gmap string (gset string)) (n : nat)
    (js : list Job) (m : nat) (x : string) :
  x ∈ suffix_required req n js m
  ↔ ∃ job, job ∈ js ∧ py_slot n (micro_batch_id job) = Some m
           ∧ x ∈ default ∅ (req !! job_type job).
Proof.
  unfold suffix_required. induction js as [|job js IH]; cbn [foldr].
  - rewrite elem_of_empty. split; [done|]. intros (job & Hjob & _).
    by apply elem_of_nil in Hjob.
  - destruct (decide (py_slot n (micro_batch_id job) = Some m)) as [Hm|Hm].
    + rewrite elem_of_union, IH. split.
      * intros [Hx|(job' & Hj & ? & ?)].
        -- exists job. split; [left|done].
        -- exists job'. split; [by right|done].
      * intros (job' & Hj & Hm' & Hx).
        apply elem_of_cons in Hj as [->|Hj]; [by left|].
        right. by exists job'.
    + rewrite IH. split.
      * intros (job' & Hj & ? & ?). exists job'. split; [by right|done].
      * intros (job' & Hj & Hm' & Hx).
        apply elem_of_cons in Hj as [->|Hj]; [done|]. by exists job'.
Qed.

Section SetSkipGcVarsOutcome.

Context (infer_no_need_buffer_slots :
           string → list (string * list string) → list (string * list string)
           → gmap string AttrValue → gset string).
Context (FLAGS_enable_pir_in_executor : bool).
Context (repr_set : gset string → string).

Lemma set_skip_gc_vars_Ok_mapping (num_micro_batches : Z)
    (job_types : list string) (sub_programs : list Program) (jobs : list Job)
    (tp : gmap string nat) :
  out_result (set_skip_gc_vars infer_no_need_buffer_slots
                FLAGS_enable_pir_in_executor repr_set num_micro_batches
                job_types sub_programs jobs) = Ok tp →
  tp = type_to_program_of job_types sub_programs.
Proof.
  unfold set_skip_gc_vars.
  destruct (bool_decide (num_micro_batches >= 1)); cbn [negb]; [|done].
  destruct (skip_gc_loop _ _ _ _) as [[jobs' suffixed] [e|]]; [done|].
  destruct FLAGS_enable_pir_in_executor.
  - destruct (for_each_st _ _ _) as [progs [e|]]; cbn; [done|].
    by intros [= <-].
  - cbn. by intros [= <-].
Qed.

(** X11: the mapping [set_skip_gc_vars] returns is [dict(zip(job_types,
    sub_programs))]: surplus types or programs are ignored, a job type
    listed more than once stands for the last sub-program given for it,
    and the required variables of a type are those of that sub-program. *)
Theorem set_skip_gc_vars_mapping (num_micro_batches : Z)
    (job_types : list string) (sub_programs : list Program) (jobs : list Job)
    (tp : gmap string nat) :
  let out := set_skip_gc_vars infer_no_need_buffer_slots
               FLAGS_enable_pir_in_executor repr_set num_micro_batches
               job_types sub_programs jobs in
  let req := type_to_required_vars_of infer_no_need_buffer_slots job_types
               sub_programs in
  out_result out = Ok tp →
  (∀ t i, tp !! t = Some i
          ↔ (i < length sub_programs)%nat ∧ job_types !! i = Some t
            ∧ ∀ j, (i < j < length sub_programs)%nat →
                   job_types !! j ≠ Some t)
  ∧ (∀ t R, req !! t = Some R
            ↔ ∃ i p, tp !! t = Some i ∧ sub_programs !! i = Some p
                     ∧ R = required_vars infer_no_need_buffer_slots p).
Proof.
  intros out req Hok. apply set_skip_gc_vars_Ok_mapping in Hok as ->.
  split; [intros t i; apply type_to_program_of_lookup|].
  intros t R. unfold req, type_to_required_vars_of. rewrite lookup_fmap.
  destruct (type_to_program_of job_types sub_programs !! t) as [i|] eqn:Hi;
    cbn [fmap option_fmap option_map].
  - apply type_to_program_of_lookup in Hi as (Hlt & _ & _).
    destruct (lookup_lt_is_Some_2 _ _ Hlt) as [p Hp]. rewrite Hp.
    cbn [fmap option_fmap option_map default from_option id].
    split.
    + intros [= <-]. by exists i, p.
    + intros (i' & p' & [= <-] & Hp' & ->). congruence.
  - split; [done|]. by intros (i & p & ? & _).
Qed.


(** X12: whenever [set_skip_gc_vars] returns, a name is in the skip-GC set
    of a job exactly when the job's type requires it and some later job of
    the same micro-batch slot has a type that requires it too; the last
    job of the sequence always gets the empty set. *)
Theorem set_skip_gc_vars_liveness (num_micro_batches : Z)
    (job_types : list string) (sub_programs : list Program) (jobs : list Job)
    (tp : gmap string nat) (i : nat) (job : Job) (x : string) :
  let out := set_skip_gc_vars infer_no_need_buffer_slots
               FLAGS_enable_pir_in_executor repr_set num_micro_batches
               job_types sub_programs jobs in
  let req := type_to_required_vars_of infer_no_need_buffer_slots job_types
               sub_programs in
  let n := Z.to_nat num_micro_batches in
  out_result out = Ok tp → out_jobs out !! i = Some job →
  (x ∈ skip_gc_vars job
   ↔ x ∈ default ∅ (req !! job_type job)
     ∧ ∃ j later, (i < j)%nat ∧ jobs !! j = Some later
         ∧ py_slot n (micro_batch_id later) = py_slot n (micro_batch_id job)
         ∧ x ∈ default ∅ (req !! job_type later))
  ∧ (S i = length jobs → skip_gc_vars job = ∅).
Proof.
  intros out req n Hok Hjob.
  destruct (set_skip_gc_vars_Ok_inv _ _ _ _ _ _ _ _ Hok) as [Hall Hjobs].
  fold out req n in Hall, Hjobs. rewrite Hjobs in Hjob.
  destruct (jobs !! i) as [job0|] eqn:Hjob0.
  2:{ apply lookup_lt_Some in Hjob. rewrite annotate_length in Hjob.
      apply lookup_ge_None in Hjob0. lia. }
  rewrite (annotate_lookup _ _ _ _ _ _ Hjob0) in Hjob.
  rewrite decide_True in Hjob by lia. injection Hjob as <-.
  cbn [skip_gc_vars job_set_skip_gc_vars job_type micro_batch_id].
  destruct (Hall i job0 Hjob0) as (_ & [m Hm] & _).
  unfold expected_skip_gc. rewrite Hm. cbn [default from_option id].
  split.
  - rewrite elem_of_intersection, elem_of_suffix_required. split.
    + intros (Hx & later & Hin & Hslot & Hlater). split; [done|].
      apply list_elem_of_lookup in Hin as [k Hk]. rewrite lookup_drop in Hk.
      exists (S i + k)%nat, later. split; [lia|]. by split.
    + intros (Hx & j & later & Hj & Hlater & Hslot & Hxl). split; [done|].
      exists later. split; [|split; [congruence|done]].
      apply list_elem_of_lookup. exists (j - S i)%nat.
      rewrite lookup_drop. by replace (S i + (j - S i))%nat with j by lia.
  - intros Hlast. rewrite drop_ge by lia. cbn.
    apply intersection_empty_r_L.
Qed.

(** X13: with fewer than one micro-batch [set_skip_gc_vars] fails on its
    first assertion and touches nothing.  Otherwise the reverse scan stops
    at the last job that cannot be processed: with a [KeyError] when its
    type has no sub-program (the type is not among the first
    [len(sub_programs)] job types), with an [IndexError] when its
    micro-batch is outside [[-n, n)]; the jobs up to and including that
    one are left as they were, and no sub-program is touched. *)
Theorem set_skip_gc_vars_failures (num_micro_batches : Z)
    (job_types : list string) (sub_programs : list Program)
    (jobs : list Job) :
  let out := set_skip_gc_vars infer_no_need_buffer_slots
               FLAGS_enable_pir_in_executor repr_set num_micro_batches
               job_types sub_programs jobs in
  let req := type_to_required_vars_of infer_no_need_buffer_slots job_types
               sub_programs in
  let n := Z.to_nat num_micro_batches in
  (num_micro_batches < 1 →
   out_result out
   = Raise (AssertionError "num_micro_batches needs to be >= 1")
   ∧ out_jobs out = jobs ∧ out_programs out = sub_programs)
  ∧ (∀ t, req !! t = None
          ↔ t ∉ take (length sub_programs) job_types)
  ∧ (∀ i job,
       num_micro_batches >= 1 → jobs !! i = Some job →
       (∀ i' job', (i < i')%nat → jobs !! i' = Some job' →
          job_ok req n jobs i' job') →
       (req !! job_type job = None →
        out_result out = Raise (KeyError (job_type job)))
       ∧ (is_Some (req !! job_type job) →
          ¬ (- Z.of_nat n ≤ micro_batch_id job < Z.of_nat n) →
          out_result out = Raise IndexError)
       ∧ (¬ job_ok req n jobs i job →
          out_programs out = sub_programs
          ∧ ∀ i' job', (i' ≤ i)%nat → jobs !! i' = Some job' →
              out_jobs out !! i' = Some job')).
Proof.
  intros out req n. split; [|split].
  - intros Hlt. unfold out, set_skip_gc_vars.
    rewrite bool_decide_eq_false_2 by lia. done.
  - intros t. unfold req, type_to_required_vars_of, type_to_program_of.
    rewrite lookup_fmap, fmap_None, py_dict_lookup_None.
    rewrite <- (zip_with_take_l pair job_types (seq 0 (length sub_programs))).
    rewrite fst_zip by (rewrite length_take, !length_seq; lia).
    by rewrite length_seq.
  - intros i job Hge Hjob Hafter.
    assert (Hfail : ¬ job_ok req n jobs i job →
              out_result out = Raise (job_failure repr_set req n jobs i job)
              ∧ out_jobs out = annotate req n jobs (S i)
              ∧ out_programs out = sub_programs).
    { intros Hnok.
      destruct (set_skip_gc_vars_fail infer_no_need_buffer_slots
                  FLAGS_enable_pir_in_executor repr_set num_micro_batches
                  job_types sub_programs jobs i job Hge Hjob Hafter Hnok)
        as [Hres Hjobs].
      split; [done|]. split; [done|].
      unfold out, set_skip_gc_vars.
      rewrite bool_decide_eq_true_2 by done. cbn [negb]. fold req n.
      by rewrite (skip_gc_sweep_fail repr_set req n jobs i job Hjob Hafter
                    Hnok). }
    split; [|split].
    + intros Hnone.
      destruct Hfail as (Hres & _); [by intros ([? ?] & _); congruence|].
      rewrite Hres. unfold job_failure. by rewrite Hnone.
    + intros [R HR] Hout.
      apply py_slot_None in Hout.
      destruct Hfail as (Hres & _); [by intros (_ & [? ?] & _); congruence|].
      rewrite Hres. unfold job_failure. by rewrite HR, Hout.
    + intros Hnok. destruct (Hfail Hnok) as (_ & Hjobs & Hprogs).
      split; [done|]. intros i' job' Hi' Hjob'.
      rewrite Hjobs, (annotate_lookup _ _ _ _ _ _ Hjob').
      by rewrite decide_False by lia.
Qed.

End SetSkipGcVarsOutcome.

(** The two-micro-batch schedule with its two sub-programs. *)
Lemma set_skip_gc_vars_mapping_witness :
  ∃ tp,
    out_result (set_skip_gc_vars no_buffer_info false (λ _, "{'a'}") 2
                  ["forward"; "backward"] [fwd_program; bwd_program]
                  schedule_2) = Ok tp
    ∧ ∀ t i, tp !! t = Some i
          ↔ (i < 2)%nat ∧ ["forward"; "backward"] !! i = Some t
            ∧ ∀ j, (i < j < 2)%nat → ["forward"; "backward"] !! j ≠ Some t.
Proof.
  exists (py_dict [("forward", 0%nat); ("backward", 1%nat)]).
  pose proof (proj2 set_skip_gc_vars_schedule_2) as Hok.
  split; [exact Hok|].
  exact (proj1 (set_skip_gc_vars_mapping no_buffer_info false (λ _, "{'a'}")
                  2 ["forward"; "backward"] [fwd_program; bwd_program]
                  schedule_2 _ Hok)).
Defined.

(** The first job of the two-micro-batch schedule keeps [a] for the
    backward job of its micro-batch. *)
Lemma set_skip_gc_vars_liveness_witness :
  let out := set_skip_gc_vars no_buffer_info false (λ _, "{'a'}") 2
               ["forward"; "backward"] [fwd_program; bwd_program] schedule_2 in
  let req := type_to_required_vars_of no_buffer_info ["forward"; "backward"]
               [fwd_program; bwd_program] in
  ∃ tp job,
    out_result out = Ok tp
    ∧ out_jobs out !! 0%nat = Some job
    ∧ ("a" ∈ skip_gc_vars job
       ↔ "a" ∈ default ∅ (req !! job_type job)
         ∧ ∃ j later, (0 < j)%nat ∧ schedule_2 !! j = Some later
             ∧ py_slot (Z.to_nat 2) (micro_batch_id later)
               = py_slot (Z.to_nat 2) (micro_batch_id job)
             ∧ "a" ∈ default ∅ (req !! job_type later)).
Proof.
  intros out req.
  pose proof (proj2 set_skip_gc_vars_schedule_2) as Hok.
  assert (Hjob : out_jobs out !! 0%nat
                 = Some (job_set_skip_gc_vars (new_job "forward" 0) {["a"]}))
    by (vm_compute; reflexivity).
  eexists _, _. split; [exact Hok|]. split; [exact Hjob|].
  exact (proj1 (set_skip_gc_vars_liveness no_buffer_info false (λ _, "{'a'}")
                  2 ["forward"; "backward"] [fwd_program; bwd_program]
                  schedule_2 _ 0 _ "a" Hok Hjob)).
Defined.

(** ** [prepare_ir_program] *)

Lemma extend_global_nil (p : Program) : extend_global p [] [] = p.
Proof.
  unfold extend_global, set_global, set_ops, global_block.
  destruct p as [[pi fi o v] subs]. cbn. by rewrite app_nil_r.
Qed.

Lemma extend_global_extend (p : Program) (pre post pre' post' : list Operator) :
  extend_global (extend_global p pre post) pre' post'
  = extend_global p (pre' ++ pre) (post ++ post').
Proof.
  unfold extend_global, set_global, set_ops, global_block. cbn.
  do 2 f_equal. by rewrite <- !(assoc_L app).
Qed.

Lemma prepare_loop_lookup (names : list string) (progs : list Program)
    (cur next i : nat) :
  foldl (λ progs var_name,
           let progs :=
             alter (λ p, set_global p
                           (append_op (global_block p) (shadow_op var_name)))
                   cur progs in
           alter (λ p, set_global p
                         (set_ops (global_block p)
                            (data_op var_name :: ops (global_block p))))
                 next progs)
        progs names !! i
  = (λ p, extend_global p
            (if decide (i = next) then rev (data_op <$> names) else [])
            (if decide (i = cur) then shadow_op <$> names else []))
    <$> progs !! i.
Proof.
  revert progs. induction names as [|x names IH]; intros progs; cbn [foldl].
  - cbn. destruct (progs !! i) as [p|]; cbn; [|done].
    do 2 case_decide; by rewrite extend_global_nil.
  - rewrite IH. clear IH. cbv zeta.
    assert (Hshadow : ∀ p, set_global p (append_op (global_block p) (shadow_op x))
                           = extend_global p [] [shadow_op x]).
    { intros p. unfold extend_global, append_op. done. }
    assert (Hdata : ∀ p, set_global p
                           (set_ops (global_block p)
                              (data_op x :: ops (global_block p)))
                         = extend_global p [data_op x] []).
    { intros p. unfold extend_global. cbn. by rewrite app_nil_r. }
    destruct (decide (i = next)) as [->|Hn].
    + rewrite list_lookup_alter_eq.
      destruct (decide (next = cur)) as [->|Hc].
      * rewrite list_lookup_alter_eq.
        destruct (progs !! cur) as [p|]; cbn; [|done].
        rewrite Hshadow, Hdata, !extend_global_extend. cbn.
        by rewrite ?app_nil_r.
      * rewrite list_lookup_alter_ne by done.
        destruct (progs !! next) as [p|]; cbn; [|done].
        rewrite Hdata, !extend_global_extend. cbn.
        by rewrite ?app_nil_r.
    + rewrite list_lookup_alter_ne by done.
      destruct (decide (i = cur)) as [->|Hc].
      * rewrite list_lookup_alter_eq.
        destruct (progs !! cur) as [p|]; cbn; [|done].
        rewrite Hshadow, !extend_global_extend. done.
      * rewrite list_lookup_alter_ne by done.
        destruct (progs !! i) as [p|]; cbn; done.
Qed.

Lemma prepare_ir_program_lookup (progs : list Program) (cur next : nat)
    (cur_prog next_prog : Program) (i : nat) :
  progs !! cur = Some cur_prog → progs !! next = Some next_prog →
  prepare_ir_program progs cur next !! i
  = (λ p, extend_global p
            (if decide (i = next)
             then rev (data_op <$> shadow_var_names cur_prog next_prog)
             else [])
            (if decide (i = cur)
             then shadow_op <$> shadow_var_names cur_prog next_prog
             else []))
    <$> progs !! i.
Proof.
  intros Hcur Hnext. unfold prepare_ir_program. rewrite Hcur, Hnext.
  cbv zeta. apply prepare_loop_lookup.
Qed.

(** X14: [prepare_ir_program] appends one [shadow_output] operator per
    handed-over name to the global block of the current program, in sorted
    order of the names, and leaves one [data] operator per name in front of
    the global block of the next program, in reverse sorted order (each is
    inserted at position 0); a program passed as both arguments receives
    both; nothing else changes: no other program, no declaration, no
    sub-block. *)
Theorem prepare_ir_program_ops (progs : list Program) (cur next : nat)
    (cur_prog next_prog : Program) :
  progs !! cur = Some cur_prog → progs !! next = Some next_prog →
  let names := shadow_var_names cur_prog next_prog in
  let progs' := prepare_ir_program progs cur next in
  length progs' = length progs
  ∧ (∀ i, i ≠ cur → i ≠ next → progs' !! i = progs !! i)
  ∧ (cur ≠ next →
     progs' !! cur = Some (extend_global cur_prog [] (shadow_op <$> names))
     ∧ progs' !! next
       = Some (extend_global next_prog (rev (data_op <$> names)) []))
  ∧ (cur = next →
     progs' !! cur
     = Some (extend_global cur_prog (rev (data_op <$> names))
               (shadow_op <$> names)))
  ∧ (∀ i p', progs' !! i = Some p' →
       ∃ p, progs !! i = Some p
            ∧ vars (global_block p') = vars (global_block p)
            ∧ parent_idx (global_block p') = parent_idx (global_block p)
            ∧ sub_blocks p' = sub_blocks p).
Proof.
  intros Hcur Hnext names progs'.
  pose proof (λ i, prepare_ir_program_lookup progs cur next cur_prog next_prog
                     i Hcur Hnext) as Hlookup.
  fold names progs' in Hlookup.
  split; [|split; [|split; [|split]]].
  - apply Nat.le_antisymm.
    + destruct (decide (length progs' ≤ length progs)%nat) as [?|Hgt]; [done|].
      destruct (lookup_lt_is_Some_2 progs' (length progs)) as [p Hp]; [lia|].
      rewrite Hlookup, lookup_ge_None_2 in Hp by lia. done.
    + destruct (decide (length progs ≤ length progs')%nat) as [?|Hgt]; [done|].
      destruct (lookup_lt_is_Some_2 progs (length progs')) as [p Hp]; [lia|].
      pose proof (Hlookup (length progs')) as Hl.
      rewrite Hp, lookup_ge_None_2 in Hl by lia. done.
  - intros i Hc Hn. rewrite Hlookup, !decide_False by done.
    destruct (progs !! i) as [p|]; cbn; [|done]. by rewrite extend_global_nil.
  - intros Hne. split.
    + rewrite Hlookup, Hcur, decide_False, decide_True by done. done.
    + rewrite Hlookup, Hnext, decide_True, decide_False by done. done.
  - intros ->. by rewrite Hlookup, Hcur, !decide_True by done.
  - intros i p' Hp'. rewrite Hlookup in Hp'.
    destruct (progs !! i) as [p|]; cbn in Hp'; [|done].
    injection Hp' as <-. by exists p.
Qed.

(** The forward and the backward sub-program of the example schedule. *)
Lemma prepare_ir_program_ops_witness :
  [fwd_program; bwd_program] !! 0%nat = Some fwd_program
  ∧ [fwd_program; bwd_program] !! 1%nat = Some bwd_program
  ∧ length (prepare_ir_program [fwd_program; bwd_program] 0 1) = 2%nat
  ∧ prepare_ir_program [fwd_program; bwd_program] 0 1 !! 1%nat
    = Some (extend_global bwd_program
              (rev (data_op <$> shadow_var_names fwd_program bwd_program))
              []).
Proof.
  assert (H0 : [fwd_program; bwd_program] !! 0%nat = Some fwd_program)
    by reflexivity.
  assert (H1 : [fwd_program; bwd_program] !! 1%nat = Some bwd_program)
    by reflexivity.
  split; [exact H0|]. split; [exact H1|].
  destruct (prepare_ir_program_ops [fwd_program; bwd_program] 0 1
              fwd_program bwd_program H0 H1) as (Hlen & _ & Hne & _).
  split; [exact Hlen|]. apply Hne. discriminate.
Defined.

Lemma elem_of_foldl_ops_add_if (P : string → bool)
    (f : Operator → list string) (l : list Operator) (s0 : gset string)
    (x : string) :
  x ∈ foldl (λ (s : gset string) op,
               foldl (λ (s : gset string) (a : string),
                        if P a then {[a]} ∪ s else s) s (f op)) s0 l
  ↔ x ∈ s0 ∨ ((∃ op, op ∈ l ∧ x ∈ f op) ∧ P x = true).
Proof.
  revert s0. induction l as [|op l IH]; intros s0; cbn [foldl].
  - split; [by left|]. intros [?|[(op & Hop & _) _]]; [done|].
    by apply elem_of_nil in Hop.
  - rewrite IH, elem_of_foldl_add_if. split.
    + intros [[?|[? ?]]|[(op' & ? & ?) ?]]; [by left| |].
      * right. split; [|done]. exists op. split; [left|done].
      * right. split; [|done]. exists op'. split; [by right|done].
    + intros [?|[(op' & Hop' & ?) ?]]; [by left; left|].
      apply elem_of_cons in Hop' as [->|Hop']; [by left; right|].
      right. split; [|done]. by exists op'.
Qed.

(** X15: the names [prepare_ir_program] hands over are sorted and free of
    duplicates, and a name is handed over exactly when an operator of the
    current program's global block writes it, an operator of the next
    program's global block reads it, and it resolves to a non-persistable
    declaration in both programs. *)
Theorem elem_of_shadow_var_names (cur_prog next_prog : Program) :
  let names := shadow_var_names cur_prog next_prog in
  NoDup names ∧ Sorted str_le names
  ∧ ∀ x, x ∈ names
         ↔ written_by (ops (global_block cur_prog)) x
           ∧ var_can_be_deleted cur_prog x (global_block cur_prog) = true
           ∧ (∃ op, op ∈ ops (global_block next_prog)
                    ∧ x ∈ input_arg_names op)
           ∧ var_can_be_deleted next_prog x (global_block next_prog) = true.
Proof.
  intros names. unfold names, shadow_var_names, sorted_names.
  split; [|split].
  - rewrite merge_sort_Permutation. apply NoDup_elements.
  - apply Sorted_merge_sort. intros a b. apply String.leb_total.
  - intros x. rewrite merge_sort_Permutation, elem_of_elements.
    rewrite elem_of_intersection. unfold deletable_outputs, deletable_inputs.
    rewrite (elem_of_foldl_ops_add_if
               (λ a, var_can_be_deleted cur_prog a (global_block cur_prog))
               output_arg_names).
    rewrite (elem_of_foldl_ops_add_if
               (λ a, var_can_be_deleted next_prog a (global_block next_prog))
               input_arg_names).
    rewrite !elem_of_empty. unfold written_by. tauto.
Qed.

(** ** The re-materializer: what [_create_program] leaves alone *)

Lemma elem_of_decls_for (src_prog : Program) (src_block : Block)
    (force_create : bool) (names : list string) (k : string) (d : Var) :
  (k, d) ∈ decls_for src_prog src_block force_create names
  ↔ ∃ r v, r ∈ names
           ∧ source_var src_prog src_block force_create r = Some v
           ∧ k = var_name v ∧ d = copied_decl v.
Proof.
  unfold decls_for. rewrite list_elem_of_omap. split.
  - intros (r & Hr & Hv).
    destruct (source_var src_prog src_block force_create r) as [v|] eqn:Hs;
      [|done].
    cbn in Hv. injection Hv as <- <-. by exists r, v.
  - intros (r & v & Hr & Hs & -> & ->). exists r. split; [done|].
    by rewrite Hs.
Qed.

Lemma elem_of_decl_names (src_prog : Program) (src_block : Block)
    (force_create : bool) (names : list string) (k : string) :
  k ∈ (decls_for src_prog src_block force_create names).*1
  ↔ ∃ r v, r ∈ names
           ∧ source_var src_prog src_block force_create r = Some v
           ∧ k = var_name v.
Proof.
  rewrite list_elem_of_fmap. split.
  - intros ([k' d] & -> & Hin).
    apply elem_of_decls_for in Hin as (r & v & Hr & Hv & -> & _).
    by exists r, v.
  - intros (r & v & Hr & Hv & ->). exists (var_name v, copied_decl v).
    split; [done|]. apply elem_of_decls_for. by exists r, v.
Qed.

(** X16: whenever [_create_program] returns, it has appended the operator,
    unchanged, at the end of the destination block; the operators already
    there and the block indices are as before.  A name is declared in the
    destination afterwards exactly when it was declared before or an
    argument of the operator resolves in the source to a declaration of
    that name, and a name that was not declared before gets the copy
    [_create_var] makes of such a source declaration.  Without
    [force_create] a name that the source block itself does not declare
    (one that only a parent block declares, say) is left as it was in the
    destination. *)
Theorem create_program_frame (src_prog : Program) (src_block dst dst' : Block)
    (op : Operator) (force_create : bool) :
  let refs := input_arg_names op ++ output_arg_names op in
  _create_program src_prog src_block dst op force_create = Ok dst' →
  ops dst' = ops dst ++ [op]
  ∧ parent_idx dst' = parent_idx dst
  ∧ forward_block_idx dst' = forward_block_idx dst
  ∧ (∀ name,
       is_Some (vars dst' !! name)
       ↔ is_Some (vars dst !! name)
         ∨ ∃ r v, r ∈ refs
                  ∧ source_var src_prog src_block force_create r = Some v
                  ∧ name = var_name v)
  ∧ (∀ name d,
       vars dst !! name = None → vars dst' !! name = Some d →
       ∃ r v, r ∈ refs
              ∧ source_var src_prog src_block force_create r = Some v
              ∧ name = var_name v ∧ d = copied_decl v)
  ∧ (force_create = false → named_vars src_block →
     ∀ name, vars src_block !! name = None →
             vars dst' !! name = vars dst !! name).
Proof.
  intros refs Hrun. rewrite _create_program_spec in Hrun.
  injection Hrun as <-. fold refs.
  cbn [declare_all append_op set_vars set_ops ops vars parent_idx
       forward_block_idx].
  split; [done|]. split; [done|]. split; [done|]. split; [|split].
  - intros name.
    by rewrite lookup_union_is_Some, list_to_map_is_Some, elem_of_decl_names.
  - intros name d Hnew [Hold|[_ Hd]]%lookup_union_Some_raw; [congruence|].
    apply elem_of_list_to_map_2 in Hd. by apply elem_of_decls_for.
  - intros -> Hwf name Hnone. apply lookup_union_l.
    apply not_elem_of_list_to_map_1. intros Hin.
    apply elem_of_decl_names in Hin as (r & v & _ & Hv & ->).
    cbn [source_var] in Hv. apply Hwf in Hv as Hk. congruence.
Qed.

(** Copying the operator [relu(y) -> g] of [program_10] into an empty
    block. *)
Lemma create_program_frame_witness :
  let src := global_block program_10 in
  let op := ex_op "relu" ["y"] ["g"] 0 in
  ∃ dst',
    _create_program program_10 src (empty_block (-1)) op false = Ok dst'
    ∧ ops dst' = [op]
    ∧ is_Some (vars dst' !! "g").
Proof.
  intros src op.
  destruct (_create_program program_10 src (empty_block (-1)) op false)
    as [dst'|e] eqn:Hrun.
  - exists dst'. split; [reflexivity|].
    destruct (create_program_frame program_10 src (empty_block (-1)) dst' op
                false Hrun) as (Hops & _ & _ & Hdecl & _).
    split; [exact Hops|]. apply Hdecl. right.
    exists "g", (ex_var "g"). split; [right; left|].
    split; [vm_compute; reflexivity|reflexivity].
  - exfalso. vm_compute in Hrun. discriminate Hrun.
Defined.

(** ** The overlap strategy: failure and idempotence *)

Lemma for_list_Raise {A B : Type} (f : A → result B) (l : list A) (e : exn) :
  for_list f l = Raise e → ∃ x, x ∈ l ∧ f x = Raise e.
Proof.
  induction l as [|x l IH]; cbn [for_list]; [done|].
  destruct (f x) as [y|e'] eqn:Hx; cbn [mbind result_bind].
  - destruct (for_list f l) as [ys|e'']; cbn [mbind result_bind]; [done|].
    intros [= ->]. destruct IH as (x' & Hin & Hx'); [done|].
    exists x'. split; [by right|done].
  - intros [= ->]. exists x. split; [left|done].
Qed.

Lemma for_list_fixed {A : Type} (f : A → result A) (l l' : list A) :
  (∀ x y, f x = Ok y → f y = Ok y) →
  for_list f l = Ok l' → for_list f l' = Ok l'.
Proof.
  intros Hf. revert l'. induction l as [|x l IH]; intros l' H.
  - by injection H as <-.
  - cbn [for_list] in H. apply bind_Ok in H as (y & Hy & H).
    apply bind_Ok in H as (ys & Hys & H). injection H as <-.
    cbn [for_list]. rewrite (Hf _ _ Hy). cbn [mbind result_bind].
    by rewrite (IH _ Hys).
Qed.

Lemma overlap_op_Raise (op : Operator) (e : exn) :
  overlap_op op = Raise e →
  e = AttributeNotFound "ring_id" ∧ op_type op = "send_v2"
  ∧ attrs op !! "ring_id" = None.
Proof.
  unfold overlap_op.
  destruct (decide (op_type op = "send_v2")) as [Hs|Hs].
  - unfold attr. cbn [_set_attr attrs]. rewrite !lookup_insert_ne by done.
    destruct (attrs op !! "ring_id"); cbn [mbind result_bind]; [done|].
    by intros [= <-].
  - by destruct (decide (op_type op = "recv_v2")).
Qed.

Lemma overlap_attrs_twice (m : gmap string AttrValue) :
  <["use_calc_stream" := ABool true]>
    (<["dynamic_shape" := ABool false]>
       (<["use_calc_stream" := ABool true]>
          (<["dynamic_shape" := ABool false]> m)))
  = <["use_calc_stream" := ABool true]> (<["dynamic_shape" := ABool false]> m).
Proof.
  apply map_eq. intros k.
  destruct (decide (k = "use_calc_stream")) as [->|Hu];
    [by rewrite !lookup_insert_eq|].
  rewrite !(lookup_insert_ne _ "use_calc_stream") by done.
  destruct (decide (k = "dynamic_shape")) as [->|Hd];
    [by rewrite !lookup_insert_eq|].
  by rewrite !lookup_insert_ne by done.
Qed.

Lemma overlap_op_fixed (op op' : Operator) :
  overlap_op op = Ok op' → overlap_op op' = Ok op'.
Proof.
  unfold overlap_op.
  destruct (decide (op_type op = "send_v2")) as [Hs|Hs].
  - unfold attr. cbn [_set_attr attrs]. rewrite !lookup_insert_ne by done.
    destruct (attrs op !! "ring_id") as [ring_id|] eqn:Hr;
      cbn [mbind result_bind]; [|done].
    intros [= <-]. cbn [set_stream set_dist_attr _set_attr op_type attrs].
    rewrite decide_True by done. rewrite !lookup_insert_ne by done.
    rewrite Hr. cbn [mbind result_bind]. f_equal.
    unfold set_stream, set_dist_attr, _set_attr. cbn.
    by rewrite overlap_attrs_twice.
  - destruct (decide (op_type op = "recv_v2")) as [Hr|Hr].
    + intros [= <-]. cbn [set_stream set_dist_attr _set_attr op_type].
      rewrite decide_False, decide_True by done. f_equal.
      unfold set_stream, set_dist_attr, _set_attr. cbn.
      by rewrite overlap_attrs_twice.
    + intros [= <-]. by rewrite decide_False, decide_False.
Qed.

Lemma overlap_block_fixed (b b' : Block) :
  (l ← for_list overlap_op (ops b); Ok (set_ops b l)) = Ok b' →
  (l ← for_list overlap_op (ops b'); Ok (set_ops b' l)) = Ok b'.
Proof.
  intros H. apply bind_Ok in H as (l & Hl & H). injection H as <-.
  cbn [set_ops ops].
  rewrite (for_list_fixed _ _ _ overlap_op_fixed Hl). done.
Qed.

(** X17: running the overlap strategy on its own result changes nothing:
    the stream tags and attributes it sets are already there. *)
Theorem overlap_send_recv_idempotent (program program' : Program) :
  _overlap_send_recv program = Ok program' →
  _overlap_send_recv program' = Ok program'.
Proof.
  unfold _overlap_send_recv, for_blocks. intros H.
  apply bind_Ok in H as (g & Hg & H).
  apply bind_Ok in H as (subs & Hsubs & H). injection H as <-.
  cbn [global sub_blocks].
  rewrite (overlap_block_fixed _ _ Hg). cbn [mbind result_bind].
  rewrite (for_list_fixed _ _ _ overlap_block_fixed Hsubs). done.
Qed.

(** The pipeline stage with its send on ring 3. *)
Lemma overlap_send_recv_idempotent_witness :
  ∃ program',
    _overlap_send_recv stage_program = Ok program'
    ∧ _overlap_send_recv program' = Ok program'.
Proof.
  destruct (_overlap_send_recv stage_program) as [program'|e] eqn:H.
  - exists program'. split; [reflexivity|].
    exact (overlap_send_recv_idempotent stage_program program' H).
  - exfalso. vm_compute in H. discriminate H.
Defined.

(** X18: the overlap strategy returns exactly when every [send_v2]
    operator of every block carries a [ring_id]; the only exception it
    raises is the missing-attribute error of [op.attr("ring_id")]. *)
Theorem overlap_send_recv_returns_iff (program : Program) :
  ((∃ program', _overlap_send_recv program = Ok program')
   ↔ Forall (λ b, sends_have_ring (ops b)) (blocks program))
  ∧ (∀ e, _overlap_send_recv program = Raise e →
          e = AttributeNotFound "ring_id"
          ∧ ∃ b op, b ∈ blocks program ∧ op ∈ ops b
                    ∧ op_type op = "send_v2"
                    ∧ attrs op !! "ring_id" = None).
Proof.
  assert (Hblock : ∀ b e,
    (l ← for_list overlap_op (ops b); Ok (set_ops b l)) = Raise e →
    e = AttributeNotFound "ring_id"
    ∧ ∃ op, op ∈ ops b ∧ op_type op = "send_v2"
            ∧ attrs op !! "ring_id" = None).
  { intros b e H.
    destruct (for_list overlap_op (ops b)) as [l|e'] eqn:Hl; [done|].
    injection H as ->. apply for_list_Raise in Hl as (op & Hop & He).
    apply overlap_op_Raise in He as (-> & Hs & Hr). split; [done|].
    by exists op. }
  split.
  - split.
    + intros [program' H]. unfold _overlap_send_recv, for_blocks in H.
      apply bind_Ok in H as (g & Hg & H).
      apply bind_Ok in H as (subs & Hsubs & _).
      unfold blocks. constructor.
      * apply bind_Ok in Hg as (l & Hl & _). by eapply overlap_ops_Ok_inv.
      * apply Forall_forall. intros b Hb.
        apply list_elem_of_lookup in Hb as [i Hi].
        destruct (for_list_lookup _ _ _ _ _ Hsubs Hi) as (b' & _ & Hb').
        apply bind_Ok in Hb' as (l & Hl & _). by eapply overlap_ops_Ok_inv.
    + intros Hall. unfold blocks in Hall.
      apply Forall_cons in Hall as [Hg Hsubs].
      destruct (overlap_ops_tagged _ Hg) as (g' & Hg' & _).
      destruct (overlap_blocks _ Hsubs) as (subs' & Hsubs' & _).
      eexists. unfold _overlap_send_recv, for_blocks. rewrite Hg'.
      cbn [mbind result_bind]. rewrite Hsubs'. done.
  - intros e H. unfold _overlap_send_recv, for_blocks in H.
    destruct (l ← for_list overlap_op (ops (global program));
              Ok (set_ops (global program) l)) as [g|e'] eqn:Hg.
    + cbn [mbind result_bind] in H.
      destruct (for_list _ (sub_blocks program)) as [subs|e'] eqn:Hsubs;
        [done|].
      injection H as ->. apply for_list_Raise in Hsubs as (b & Hb & He).
      apply Hblock in He as (-> & op & Hop & Hs & Hr). split; [done|].
      exists b, op. split; [by right|done].
    + injection H as ->. apply Hblock in Hg as (-> & op & Hop & Hs & Hr).
      split; [done|]. exists (global program), op. split; [left|done].
Qed.

(** ** [_split_ops]: the three role lists *)

Section RoleListsProperties.

Context (is_forward_op is_backward_op is_optimize_op : Operator → bool).

(** X19: when [_split_ops] returns, its three lists are the operators of
    the block that are not fetch operators, each in the first of the lists
    forward, backward, optimize whose classifier accepts it, in the order
    of the block; with the fetch operators they account for every operator
    of the block exactly once. *)
Theorem split_ops_partition (src_block : Block)
    (fwd_ops bwd_ops opt_ops : list Operator) :
  _split_ops is_forward_op is_backward_op is_optimize_op src_block
  = Ok (fwd_ops, bwd_ops, opt_ops) →
  fwd_ops = forward_ops is_forward_op (ops src_block)
  ∧ bwd_ops = backward_ops is_forward_op is_backward_op (ops src_block)
  ∧ opt_ops = optimize_ops is_forward_op is_backward_op is_optimize_op
                (ops src_block)
  ∧ (length fwd_ops + length bwd_ops + length opt_ops
     + length (filter (λ op, Is_true (_is_fetch_op op)) (ops src_block))
     = length (ops src_block))%nat.
Proof.
  intros H. unfold _split_ops in H.
  pose proof (split_steps_Ok_inv _ _ _ _ _ _ H) as Hall.
  apply split_steps_lists in H as (-> & -> & ->). cbn [app].
  split; [done|]. split; [done|]. split; [done|].
  unfold forward_ops, backward_ops, optimize_ops.
  induction Hall as [|op l Hop _ IH]; [done|].
  rewrite !filter_cons. cbn [length]. rewrite <- IH. clear IH.
  unfold splittable, classified in Hop.
  destruct (_is_fetch_op op); cbn [negb andb].
  { simpl. lia. }
  destruct (is_forward_op op); cbn [negb andb].
  { simpl. lia. }
  destruct (is_backward_op op); cbn [negb andb].
  { simpl. lia. }
  destruct (is_optimize_op op); cbn [negb andb].
  { simpl. lia. }
  destruct Hop as [?|[?|[?|?]]]; done.
Qed.

End RoleListsProperties.

(** A block with one operator of each role and a fetch operator. *)
Lemma split_ops_partition_witness :
  let b := ex_block [ex_op "relu" ["h"] ["y"] 0; ex_op "fetch" ["y"] ["o"] 0;
                     ex_op "sgd" ["w"] ["w"] 2; ex_op "relu_grad" ["y"] ["g"] 1]
                    [] in
  ∃ fwd_ops bwd_ops opt_ops,
    _split_ops ex_is_forward_op ex_is_backward_op ex_is_optimize_op b
    = Ok (fwd_ops, bwd_ops, opt_ops)
    ∧ fwd_ops = forward_ops ex_is_forward_op (ops b)
    ∧ (length fwd_ops + length bwd_ops + length opt_ops
       + length (filter (λ op, Is_true (_is_fetch_op op)) (ops b))
       = length (ops b))%nat.
Proof.
  intros b.
  destruct (_split_ops ex_is_forward_op ex_is_backward_op ex_is_optimize_op b)
    as [[[fwd_ops bwd_ops] opt_ops]|e] eqn:H.
  - exists fwd_ops, bwd_ops, opt_ops. split; [reflexivity|].
    destruct (split_ops_partition ex_is_forward_op ex_is_backward_op
                ex_is_optimize_op b fwd_ops bwd_ops opt_ops H)
      as (Hf & _ & _ & Hlen).
    split; [exact Hf|exact Hlen].
  - exfalso. vm_compute in H. discriminate H.
Defined.

(** ** [_add_event_dependency] *)

Lemma add_event_dependency_unfold (store : list Operator) (r w : nat)
    (recorder : Operator) :
  store !! r = Some recorder →
  let store1 := <[r := set_force_record_event recorder true]> store in
  _add_event_dependency store r w
  = match store1 !! w with
    | Some waiter =>
        if decide (event_to_record (dist_attr recorder)
                   ∈ events_to_wait (dist_attr waiter))
        then store1
        else <[w := set_events_to_wait waiter
                      (events_to_wait (dist_attr waiter)
                       ++ [event_to_record (dist_attr recorder)])]> store1
    | None => store1
    end.
Proof.
  intros Hr store1. unfold _add_event_dependency. rewrite Hr.
  assert (Hstore : (if negb (force_record_event (dist_attr recorder))
                    then <[r := set_force_record_event recorder true]> store
                    else store) = store1).
  { unfold store1.
    destruct (force_record_event (dist_attr recorder)) eqn:Hf; cbn [negb];
      [|done].
    symmetry. apply list_insert_id. rewrite Hr. f_equal.
    unfold set_force_record_event, set_dist_attr.
    destruct recorder as [t i o a [s p f e ws]]. cbn in *. by subst. }
  cbv zeta. rewrite Hstore.
  destruct (store1 !! w) as [waiter|]; [|done].
  destruct (decide (event_to_record (dist_attr recorder)
                    ∈ events_to_wait (dist_attr waiter))) as [Hin|Hnin].
  - rewrite bool_decide_eq_false_2; [done|]. by intros ?.
  - by rewrite bool_decide_eq_true_2.
Qed.

Lemma add_event_dependency_outcome (store : list Operator) (r w : nat)
    (recorder waiter : Operator) :
  store !! r = Some recorder → store !! w = Some waiter →
  let store' := _add_event_dependency store r w in
  let event := event_to_record (dist_attr recorder) in
  let waiting := events_to_wait (dist_attr waiter) in
  length store' = length store
  ∧ (∀ i, i ≠ r → i ≠ w → store' !! i = store !! i)
  ∧ ∃ recorder' waiter',
      store' !! r = Some recorder' ∧ store' !! w = Some waiter'
      ∧ same_code recorder recorder' ∧ same_code waiter waiter'
      ∧ force_record_event (dist_attr recorder') = true
      ∧ event_to_record (dist_attr recorder') = event
      ∧ events_to_wait (dist_attr waiter')
        = (if decide (event ∈ waiting) then waiting else waiting ++ [event])
      ∧ (NoDup waiting → NoDup (events_to_wait (dist_attr waiter'))).
Proof.
  intros Hr Hw store' event waiting. unfold store'.
  rewrite (add_event_dependency_unfold store r w recorder Hr). cbv zeta.
  set (recorder1 := set_force_record_event recorder true).
  set (store1 := <[r := recorder1]> store).
  assert (Hlen1 : length store1 = length store) by apply length_insert.
  assert (Hr1 : store1 !! r = Some recorder1).
  { apply list_lookup_insert_eq. by eapply lookup_lt_Some. }
  assert (Hnodup : NoDup waiting →
            NoDup (if decide (event ∈ waiting) then waiting
                   else waiting ++ [event])).
  { intros Hnd. destruct (decide (event ∈ waiting)) as [?|Hnin]; [done|].
    apply NoDup_app. split; [done|]. split; [|apply NoDup_singleton].
    intros x Hx ->%list_elem_of_singleton. done. }
  destruct (decide (w = r)) as [->|Hwr].
  - rewrite Hr1. assert (waiter = recorder) as -> by congruence.
    change (events_to_wait (dist_attr recorder1)) with waiting. fold event.
    destruct (decide (event ∈ waiting)) as [Hin|Hnin].
    + split; [done|]. split.
      { intros i Hi _. unfold store1. by rewrite list_lookup_insert_ne. }
      exists recorder1, recorder1. by split_and!.
    + rewrite length_insert. split; [done|]. split.
      { intros i Hi _. unfold store1. by rewrite !list_lookup_insert_ne. }
      assert (Hr2 : <[r := set_events_to_wait recorder1 (waiting ++ [event])]>
                      store1 !! r
                    = Some (set_events_to_wait recorder1 (waiting ++ [event]))).
      { apply list_lookup_insert_eq. by rewrite Hlen1; eapply lookup_lt_Some. }
      eexists _, _. split; [exact Hr2|]. split; [exact Hr2|]. by split_and!.
  - assert (Hw1 : store1 !! w = Some waiter).
    { unfold store1. by rewrite list_lookup_insert_ne. }
    rewrite Hw1. fold event waiting.
    destruct (decide (event ∈ waiting)) as [Hin|Hnin].
    + split; [done|]. split.
      { intros i Hi _. unfold store1. by rewrite list_lookup_insert_ne. }
      exists recorder1, waiter. by split_and!.
    + rewrite length_insert. split; [done|]. split.
      { intros i Hi Hi'. unfold store1. by rewrite !list_lookup_insert_ne. }
      eexists _, _. split.
      { rewrite list_lookup_insert_ne by done. exact Hr1. }
      split.
      { apply list_lookup_insert_eq. by rewrite Hlen1; eapply lookup_lt_Some. }
      by split_and!.
Qed.

(** X20: after [_add_event_dependency] the recorder is forced to record
    its event and the waiter waits for it: the event is in the waiter's
    list, after the events that were there, which keep their order, and it
    is not added when it is already there, so a duplicate-free list stays
    duplicate-free.  The code of both operators, the event the recorder
    records, and every other operator are unchanged. *)
Theorem add_event_dependency_records (store : list Operator) (r w : nat)
    (recorder waiter : Operator) :
  store !! r = Some recorder → store !! w = Some waiter →
  let store' := _add_event_dependency store r w in
  let event := event_to_record (dist_attr recorder) in
  let waiting := events_to_wait (dist_attr waiter) in
  length store' = length store
  ∧ (∀ i, i ≠ r → i ≠ w → store' !! i = store !! i)
  ∧ ∃ recorder' waiter',
      store' !! r = Some recorder' ∧ store' !! w = Some waiter'
      ∧ same_code recorder recorder' ∧ same_code waiter waiter'
      ∧ force_record_event (dist_attr recorder') = true
      ∧ event_to_record (dist_attr recorder') = event
      ∧ event ∈ events_to_wait (dist_attr waiter')
      ∧ waiting `prefix_of` events_to_wait (dist_attr waiter')
      ∧ (event ∈ waiting → events_to_wait (dist_attr waiter') = waiting)
      ∧ (event ∉ waiting →
         events_to_wait (dist_attr waiter') = waiting ++ [event])
      ∧ (NoDup waiting → NoDup (events_to_wait (dist_attr waiter'))).
Proof.
  intros Hr Hw store' event waiting.
  destruct (add_event_dependency_outcome store r w recorder waiter Hr Hw)
    as (Hlen & Hother & recorder' & waiter' & Hr' & Hw' & Hcr & Hcw & Hforce
        & Hevent & Hwait & Hnd).
  fold store' event waiting in Hlen, Hother, Hr', Hw', Hevent, Hwait, Hnd.
  split; [done|]. split; [done|]. exists recorder', waiter'.
  split; [done|]. split; [done|]. split; [done|]. split; [done|].
  split; [done|]. split; [done|]. rewrite Hwait.
  destruct (decide (event ∈ waiting)) as [Hin|Hnin].
  - split; [done|]. split; [done|]. split; [done|]. split; [done|].
    by rewrite Hwait in Hnd.
  - split; [apply elem_of_app; right; left|].
    split; [by apply prefix_app_r|]. split; [done|]. split; [done|].
    by rewrite Hwait in Hnd.
Qed.

(** A receive operator that waits for the event of a send operator. *)
Lemma add_event_dependency_records_witness :
  let send := set_dist_attr (ex_op "send_v2" ["y"] [] 0)
                {| execution_stream := "s"; stream_priority := 0;
                   force_record_event := false; event_to_record := "e0";
                   events_to_wait := [] |} in
  let recv := ex_op "recv_v2" [] ["h"] 1 in
  [send; recv] !! 0%nat = Some send ∧ [send; recv] !! 1%nat = Some recv
  ∧ length (_add_event_dependency [send; recv] 0 1) = 2%nat.
Proof.
  intros send recv.
  assert (H0 : [send; recv] !! 0%nat = Some send) by reflexivity.
  assert (H1 : [send; recv] !! 1%nat = Some recv) by reflexivity.
  split; [exact H0|]. split; [exact H1|].
  exact (proj1 (add_event_dependency_records [send; recv] 0 1 send recv H0 H1)).
Defined.

(** X21: adding the same event dependency a second time changes nothing,
    also when recorder and waiter are the same operator. *)
Theorem add_event_dependency_idempotent (store : list Operator) (r w : nat) :
  _add_event_dependency (_add_event_dependency store r w) r w
  = _add_event_dependency store r w.
Proof.
  destruct (store !! r) as [recorder|] eqn:Hr.
  2:{ unfold _add_event_dependency. by rewrite Hr, Hr. }
  destruct (store !! w) as [waiter|] eqn:Hw.
  2:{ rewrite (add_event_dependency_unfold store r w recorder Hr). cbv zeta.
      set (recorder1 := set_force_record_event recorder true).
      set (store1 := <[r := recorder1]> store).
      assert (Hw1 : store1 !! w = None).
      { apply lookup_ge_None. unfold store1. rewrite length_insert.
        by apply lookup_ge_None. }
      assert (Hr1 : store1 !! r = Some recorder1).
      { apply list_lookup_insert_eq. by eapply lookup_lt_Some. }
      rewrite Hw1.
      rewrite (add_event_dependency_unfold store1 r w recorder1 Hr1).
      cbv zeta.
      change (set_force_record_event recorder1 true) with recorder1.
      rewrite (list_insert_id store1 r recorder1 Hr1). by rewrite Hw1. }
  destruct (add_event_dependency_outcome store r w recorder waiter Hr Hw)
    as (Hlen & Hother & recorder' & waiter' & Hr' & Hw' & Hcr & Hcw & Hforce
        & Hevent & Hwait & _).
  set (store' := _add_event_dependency store r w) in *.
  rewrite (add_event_dependency_unfold store' r w recorder' Hr'). cbv zeta.
  assert (Hsame : set_force_record_event recorder' true = recorder').
  { unfold set_force_record_event, set_dist_attr.
    destruct recorder' as [t i o a [s p f e ws]]. cbn in *. by subst. }
  rewrite Hsame, list_insert_id by done. rewrite Hw', Hevent.
  rewrite decide_True; [done|]. rewrite Hwait.
  destruct (decide _) as [Hin|Hnin]; [done|].
  apply elem_of_app. right. left.
Qed.

(** ** [_insert_sync_for_fthenb_1f1b] *)

Lemma update_tagged_id (index : nat) (op : Operator)
    (cur : list (option nat * Operator)) :
  (∀ e, e ∈ cur → e.1 = Some index → e.2 = op) →
  update_tagged index op cur = cur.
Proof.
  unfold update_tagged. induction cur as [|[t o] cur IH]; intros H; [done|].
  cbn [map]. rewrite IH by (intros e He; apply H; by right). f_equal.
  cbn [fst snd]. destruct (decide (t = Some index)) as [Ht|Ht]; [|done].
  f_equal. symmetry. by apply (H (t, o)); [left|].
Qed.

Lemma elem_of_enumerate_inv {A : Type} (l : list A) (i : nat) (x : A) :
  (i, x) ∈ enumerate l ↔ l !! i = Some x.
Proof.
  unfold enumerate. rewrite elem_of_lookup_imap. split.
  - by intros (j & y & [= -> ->] & Hy).
  - intros H. by exists i, x.
Qed.

Lemma for_list_id {A : Type} (f : A → result A) (l : list A) :
  Forall (λ x, f x = Ok x) l → for_list f l = Ok l.
Proof.
  induction 1 as [|x l Hx _ IH]; [done|].
  cbn [for_list]. rewrite Hx. cbn [mbind result_bind]. by rewrite IH.
Qed.

Lemma set_ops_ops (b : Block) : set_ops b (ops b) = b.
Proof. by destruct b. Qed.

Lemma tagged_snd (k : nat) (l : list Operator) :
  (imap (λ i op, (Some (k + i)%nat, op)) l).*2 = l.
Proof.
  revert k. induction l as [|op l IH]; intros k; [done|].
  rewrite imap_cons. cbn [fmap list_fmap snd]. f_equal.
  rewrite <- (IH (S k)) at 2. f_equal. apply imap_ext.
  intros i x _. cbn. do 2 f_equal. lia.
Qed.

Section SyncInsertion.

Context (is_backward_op is_optimize_op : Operator → bool).
Context (OpRole_Forward OpRole_Backward OpRole_Optimize : Z).
Context (use_new_executor : bool).

Lemma insert_sync_step_other (b : Block) (first_optimize_index : option nat)
    (cur : list (option nat * Operator)) (offset index : nat)
    (op : Operator) :
  op_type op ≠ "send_v2" → op_type op ≠ "recv_v2" →
  (∀ e, e ∈ cur → e.1 = Some index → e.2 = op) →
  insert_sync_step OpRole_Forward OpRole_Backward OpRole_Optimize b
    first_optimize_index (cur, offset) (index, op)
  = Ok (cur, offset).
Proof.
  intros Hs Hr Hcur. unfold insert_sync_step.
  rewrite bool_decide_eq_false_2.
  - rewrite decide_False by done. by rewrite update_tagged_id.
  - intros [?|[?|H]%elem_of_cons]%elem_of_cons; [done|done|].
    by apply elem_of_nil in H.
Qed.

Lemma insert_sync_steps_other (b : Block) (first_optimize_index : option nat)
    (l : list (nat * Operator)) (cur : list (option nat * Operator))
    (offset : nat) :
  (∀ i op, (i, op) ∈ l →
     op_type op ≠ "send_v2" ∧ op_type op ≠ "recv_v2"
     ∧ ∀ e, e ∈ cur → e.1 = Some i → e.2 = op) →
  for_each (insert_sync_step OpRole_Forward OpRole_Backward OpRole_Optimize b
              first_optimize_index) l (cur, offset)
  = Ok (cur, offset).
Proof.
  induction l as [|[i op] l IH]; intros H; [done|].
  cbn [for_each].
  destruct (H i op) as (Hs & Hr & Hcur); [left|].
  rewrite insert_sync_step_other by done. cbn [mbind result_bind].
  apply IH. intros i' op' Hin. apply H. by right.
Qed.

Lemma tagged_entry (l : list Operator) (e : option nat * Operator)
    (i : nat) (op : Operator) :
  e ∈ imap (λ i op, (Some i, op)) l → l !! i = Some op → e.1 = Some i →
  e.2 = op.
Proof.
  intros (j & y & -> & Hy)%elem_of_lookup_imap Hi [= ->]. cbn. congruence.
Qed.

Lemma insert_sync_block_unchanged (b : Block) :
  no_send_recv (ops b) →
  insert_sync_block is_backward_op is_optimize_op OpRole_Forward
    OpRole_Backward OpRole_Optimize use_new_executor b = Ok b.
Proof.
  intros Hno. unfold insert_sync_block. cbv zeta.
  rewrite insert_sync_steps_other.
  - cbn [mbind result_bind].
    rewrite (tagged_snd 0 (ops b)
             : (imap (λ i op, (Some i, op)) (ops b)).*2 = ops b).
    rewrite set_ops_ops.
    assert (Hfind : first_index
                      (λ op, bool_decide (op_type op = "recv_v2")
                             && is_backward_op op) (ops b) = None).
    { unfold first_index. rewrite (proj2 (list_find_None _ _)); [done|].
      eapply Forall_impl; [exact Hno|]. intros op [_ Hr] Hop.
      apply andb_prop_elim in Hop as [Hop _].
      by apply bool_decide_unpack in Hop. }
    by rewrite Hfind.
  - intros i op Hin. apply elem_of_enumerate_inv in Hin.
    unfold no_send_recv in Hno. rewrite Forall_forall in Hno.
    destruct (Hno op) as [Hs Hr]; [by eapply list_elem_of_lookup_2|].
    split; [done|]. split; [done|].
    intros e He. by apply (tagged_entry (ops b)).
Qed.

(** X22: on a program without [send_v2] and [recv_v2] operators the sync
    insertion returns the program as it is: it inserts, removes and
    retags nothing. *)
Theorem insert_sync_unchanged (program : Program) :
  Forall (λ b, no_send_recv (ops b)) (blocks program) →
  _insert_sync_for_fthenb_1f1b is_backward_op is_optimize_op OpRole_Forward
    OpRole_Backward OpRole_Optimize use_new_executor program = Ok program.
Proof.
  intros Hall. unfold blocks in Hall. apply Forall_cons in Hall as [Hg Hsubs].
  unfold _insert_sync_for_fthenb_1f1b, for_blocks.
  rewrite insert_sync_block_unchanged by done. cbn [mbind result_bind].
  rewrite for_list_id.
  - cbn [mbind result_bind]. by destruct program.
  - eapply Forall_impl; [exact Hsubs|]. intros b Hb.
    by apply insert_sync_block_unchanged.
Qed.

End SyncInsertion.

(** [program_10] has no communication operator. *)
Lemma insert_sync_unchanged_witness :
  Forall (λ b, no_send_recv (ops b)) (blocks program_10)
  ∧ _insert_sync_for_fthenb_1f1b ex_is_backward_op ex_is_optimize_op 0 1 2
      true program_10 = Ok program_10.
Proof.
  assert (H : Forall (λ b, no_send_recv (ops b)) (blocks program_10)).
  { constructor; [|constructor].
    repeat (constructor; [split; discriminate|]). constructor. }
  split; [exact H|].
  exact (insert_sync_unchanged ex_is_backward_op ex_is_optimize_op 0 1 2 true
           program_10 H).
Defined.

Lemma elem_of_list_insert_at {A : Type} (i : nat) (x y : A) (l : list A) :
  y ∈ list_insert_at i x l → y = x ∨ y ∈ l.
Proof.
  unfold list_insert_at. rewrite elem_of_app, elem_of_cons.
  intros [H|[H|H]]; [right|by left|right].
  - eapply elem_of_sublist; [exact H|apply sublist_take].
  - eapply elem_of_sublist; [exact H|apply sublist_drop].
Qed.

Lemma list_insert_at_app {A : Type} (x : A) (l1 l2 : list A) :
  list_insert_at (length l1) x (l1 ++ l2) = l1 ++ x :: l2.
Proof.
  unfold list_insert_at. by rewrite take_app_length, drop_app_length.
Qed.

Lemma list_insert_at_middle {A : Type} (x : A) (l1 l2 l3 : list A) :
  list_insert_at (length l1 + length l2) x (l1 ++ l2 ++ l3)
  = l1 ++ l2 ++ x :: l3.
Proof.
  rewrite (assoc_L app), <- length_app, list_insert_at_app.
  by rewrite <- (assoc_L app).
Qed.

Lemma list_insert_at_fmap {A B : Type} (f : A → B) (i : nat) (x : A)
    (l : list A) :
  f <$> list_insert_at i x l = list_insert_at i (f x) (f <$> l).
Proof.
  unfold list_insert_at. by rewrite fmap_app, fmap_cons, fmap_take, fmap_drop.
Qed.

Section SingleSend.

Context (is_backward_op is_optimize_op : Operator → bool).
Context (OpRole_Forward OpRole_Backward OpRole_Optimize : Z).
Context (use_new_executor : bool).
Context (b : Block) (pre post : list Operator) (send : Operator).
Context (role : Z) (ring_id : AttrValue) (x : string) (rest : list string).

Hypothesis Hroles : OpRole_Forward ≠ OpRole_Backward.
Hypothesis Hops : ops b = pre ++ send :: post.
Hypothesis Hpre : no_send_recv pre.
Hypothesis Hpost : no_send_recv post.
Hypothesis Hsend : op_type send = "send_v2".
Hypothesis Hrole : attrs send !! "op_role" = Some (AInt role).
Hypothesis Hring : attrs send !! "ring_id" = Some ring_id.
Hypothesis Hin : input_arg_names send = x :: rest.
Hypothesis Hvar : is_Some (vars b !! x).

Lemma insert_sync_step_send (first_optimize_index : option nat)
    (cur : list (option nat * Operator)) (offset : nat) :
  insert_sync_step OpRole_Forward OpRole_Backward OpRole_Optimize b
    first_optimize_index (cur, offset) (length pre, send)
  = (let cur1 :=
       list_insert_at (length pre + offset)
         (None, calc_sync x (AInt role))
         (update_tagged (length pre) (comm_send send) cur) in
     if decide (role = OpRole_Backward) then
       match first_optimize_index with
       | Some i =>
           Ok (list_insert_at (i + S offset)
                 (None, comm_sync OpRole_Optimize x ring_id) cur1, S offset)
       | None => Raise TypeError
       end
     else if decide (role = OpRole_Forward) then
       Ok (list_insert_at (length pre + S offset + 1)
             (None, pipeline_comm_sync OpRole_Backward x ring_id) cur1,
           S (S offset))
     else
       Ok (list_insert_at (length pre + S offset + 1)
             (None, comm_sync OpRole_Backward x ring_id) cur1, S offset)).
Proof.
  unfold insert_sync_step.
  rewrite bool_decide_eq_true_2 by (rewrite Hsend; left).
  change (op_type (_set_attr send "dynamic_shape" (ABool false)))
    with (op_type send).
  rewrite decide_True by done.
  fold (comm_send send).
  assert (Hr : attr (comm_send send) "op_role" = Ok (AInt role)).
  { unfold attr, comm_send. cbn [_set_attr attrs].
    by rewrite !lookup_insert_ne, Hrole by done. }
  assert (Hg : attr (comm_send send) "ring_id" = Ok ring_id).
  { unfold attr, comm_send. cbn [_set_attr attrs].
    by rewrite !lookup_insert_ne, Hring by done. }
  rewrite Hr. cbn [mbind result_bind]. rewrite Hg. cbn [mbind result_bind].
  change (input_arg_names (comm_send send)) with (input_arg_names send).
  rewrite Hin. cbn [first_arg mbind result_bind].
  destruct Hvar as [v Hv]. unfold var. rewrite Hv.
  cbn [mbind result_bind py_int]. cbv zeta.
  destruct (decide (role = OpRole_Backward)) as [Hb|Hb].
  - destruct first_optimize_index as [i|]; cbn [mbind result_bind]; [|done].
    destruct (decide (role = OpRole_Forward)) as [Hf|Hf]; [congruence|done].
  - cbn [mbind result_bind].
    destruct (decide (role = OpRole_Forward)) as [Hf|Hf]; done.
Qed.

Lemma update_tagged_at (op' : Operator) :
  update_tagged (length pre) op'
    (imap (λ i op, (Some i, op)) (pre ++ send :: post))
  = imap (λ i op, (Some i, op)) (pre ++ op' :: post).
Proof.
  apply list_eq. intros i. unfold update_tagged.
  change (map ?f ?l) with (f <$> l).
  rewrite list_lookup_fmap, !list_lookup_imap.
  destruct (decide (i = length pre)) as [->|Hne].
  - rewrite !list_lookup_middle by done. cbn. by rewrite decide_True.
  - assert (Hl : (pre ++ send :: post) !! i = (pre ++ op' :: post) !! i).
    { destruct (decide (i < length pre)%nat).
      - by rewrite !lookup_app_l by done.
      - rewrite !lookup_app_r by lia.
        destruct (i - length pre)%nat as [|d] eqn:Hd; [lia|done]. }
    rewrite Hl. destruct ((pre ++ op' :: post) !! i) as [o|]; cbn; [|done].
    rewrite decide_False; [done|]. intros [= ?]. done.
Qed.

Lemma insert_sync_finish (first_optimize_index : option nat) (j offset : nat)
    (comm : Operator) :
  op_type comm ≠ "recv_v2" →
  let ops1 := pre ++ comm_send send :: post in
  let cur2 := list_insert_at (length pre + 0)
                (None, calc_sync x (AInt role))
                (imap (λ i op, (Some i, op)) ops1) in
  for_each (insert_sync_step OpRole_Forward OpRole_Backward OpRole_Optimize b
              first_optimize_index)
           (imap (λ i op, (length pre + S i, op)%nat) post)
           (list_insert_at j (None, comm) cur2, offset)
  ≫= (λ '(cur, _),
        let b := set_ops b cur.*2 in
        match first_index (λ op, bool_decide (op_type op = "recv_v2")
                                 && is_backward_op op) (ops b) with
        | None => Ok b
        | Some backward_recv_index =>
            '(b, _) ← for_each (replace_sync_step OpRole_Backward
                                  use_new_executor backward_recv_index)
                               (take backward_recv_index (enumerate (ops b)))
                               (b, 0);
            Ok b
        end)
  = Ok (set_ops b
          (list_insert_at j comm
             (pre ++ calc_sync x (AInt role) :: comm_send send :: post))).
Proof.
  intros Hcomm ops1 cur2.
  rewrite insert_sync_steps_other.
  - cbn [mbind result_bind]. cbv zeta. cbn [set_ops ops].
    assert (Hsnd : (list_insert_at j (None, comm) cur2).*2
                   = list_insert_at j comm
                       (pre ++ calc_sync x (AInt role) :: comm_send send
                        :: post)).
    { rewrite list_insert_at_fmap. cbn [snd]. f_equal. unfold cur2.
      rewrite list_insert_at_fmap. cbn [snd].
      rewrite (tagged_snd 0 ops1
               : (imap (λ i op, (Some i, op)) ops1).*2 = ops1).
      unfold ops1. rewrite Nat.add_0_r. apply list_insert_at_app. }
    rewrite Hsnd.
    assert (Hfind : first_index
                      (λ op, bool_decide (op_type op = "recv_v2")
                             && is_backward_op op)
                      (list_insert_at j comm
                         (pre ++ calc_sync x (AInt role) :: comm_send send
                          :: post)) = None).
    { unfold first_index. rewrite (proj2 (list_find_None _ _)); [done|].
      apply Forall_forall. intros op Hop Hrecv.
      apply andb_prop_elim in Hrecv as [Hrecv _].
      apply bool_decide_unpack in Hrecv.
      apply elem_of_list_insert_at in Hop as [->|Hop]; [done|].
      apply elem_of_app in Hop as [Hop|Hop].
      - unfold no_send_recv in Hpre. rewrite Forall_forall in Hpre.
        by destruct (Hpre op Hop).
      - apply elem_of_cons in Hop as [->|Hop]; [done|].
        apply elem_of_cons in Hop as [->|Hop].
        + unfold comm_send in Hrecv. cbn in Hrecv. congruence.
        + unfold no_send_recv in Hpost. rewrite Forall_forall in Hpost.
          by destruct (Hpost op Hop). }
    by rewrite Hfind.
  - intros i op Hiop.
    apply elem_of_lookup_imap in Hiop as (n & y & [= -> ->] & Hy).
    unfold no_send_recv in Hpost. rewrite Forall_forall in Hpost.
    destruct (Hpost y) as [Hs Hr]; [by eapply list_elem_of_lookup_2|].
    split; [done|]. split; [done|].
    intros e He Htag.
    apply elem_of_list_insert_at in He as [->|He]; [done|].
    unfold cur2 in He.
    apply elem_of_list_insert_at in He as [->|He]; [done|].
    apply (tagged_entry ops1 e (length pre + S n)); [done| |done].
    unfold ops1. rewrite lookup_app_r by lia.
    replace (length pre + S n - length pre)%nat with (S n) by lia. done.
Qed.

Lemma insert_sync_single_send :
  insert_sync_block is_backward_op is_optimize_op OpRole_Forward
    OpRole_Backward OpRole_Optimize use_new_executor b
  = (let l := pre ++ calc_sync x (AInt role) :: comm_send send :: post in
     if decide (role = OpRole_Backward) then
       match first_index is_optimize_op (ops b) with
       | Some i =>
           Ok (set_ops b
                 (list_insert_at (i + 1)
                    (comm_sync OpRole_Optimize x ring_id) l))
       | None => Raise TypeError
       end
     else
       Ok (set_ops b
             (list_insert_at (length pre + 2)
                (if decide (role = OpRole_Forward)
                 then pipeline_comm_sync OpRole_Backward x ring_id
                 else comm_sync OpRole_Backward x ring_id) l))).
Proof.
  unfold insert_sync_block. cbv zeta.
  set (foi := first_index is_optimize_op (ops b)).
  rewrite Hops.
  rewrite enumerate_app, for_each_app.
  rewrite insert_sync_steps_other.
  2:{ intros i op Hiop. apply elem_of_enumerate_inv in Hiop.
      unfold no_send_recv in Hpre. rewrite Forall_forall in Hpre.
      destruct (Hpre op) as [Hs Hr]; [by eapply list_elem_of_lookup_2|].
      split; [done|]. split; [done|]. intros e He.
      apply (tagged_entry (pre ++ send :: post)); [done|].
      by rewrite lookup_app_l by (by eapply lookup_lt_Some). }
  cbn [mbind result_bind]. rewrite imap_cons. cbn [for_each].
  rewrite Nat.add_0_r. rewrite insert_sync_step_send. cbv zeta.
  rewrite update_tagged_at.
  destruct (decide (role = OpRole_Backward)) as [Hb|Hb].
  - destruct foi as [i|]; [|done]. cbn [mbind result_bind].
    replace (i + 1)%nat with (i + 1)%nat by done.
    rewrite <- (insert_sync_finish (Some i) (i + 1) 1
                  (comm_sync OpRole_Optimize x ring_id)) by done.
    done.
  - destruct (decide (role = OpRole_Forward)) as [Hf|Hf];
      cbn [mbind result_bind].
    + rewrite <- (insert_sync_finish foi (length pre + 2) 2
                    (pipeline_comm_sync OpRole_Backward x ring_id)) by done.
      replace (length pre + 1 + 1)%nat with (length pre + 2)%nat by lia.
      done.
    + rewrite <- (insert_sync_finish foi (length pre + 2) 1
                    (comm_sync OpRole_Backward x ring_id)) by done.
      replace (length pre + 1 + 1)%nat with (length pre + 2)%nat by lia.
      done.
Qed.

End SingleSend.

Section SyncInsertionSend.

Context (is_backward_op is_optimize_op : Operator → bool).
Context (OpRole_Forward OpRole_Backward OpRole_Optimize : Z).
Context (use_new_executor : bool).

Lemma insert_sync_global (program : Program) (g : Block) :
  insert_sync_block is_backward_op is_optimize_op OpRole_Forward
    OpRole_Backward OpRole_Optimize use_new_executor (global_block program)
  = Ok g →
  Forall (λ b, no_send_recv (ops b)) (sub_blocks program) →
  _insert_sync_for_fthenb_1f1b is_backward_op is_optimize_op OpRole_Forward
    OpRole_Backward OpRole_Optimize use_new_executor program
  = Ok (set_global program g).
Proof.
  intros Hg Hsubs. unfold _insert_sync_for_fthenb_1f1b, for_blocks.
  unfold global_block in Hg. rewrite Hg. cbn [mbind result_bind].
  rewrite for_list_id; [done|].
  eapply Forall_impl; [exact Hsubs|]. intros b Hb.
  by apply insert_sync_block_unchanged.
Qed.

(** X23: a [send_v2] of the global block that is not a backward send is
    moved to the communication stream ([use_calc_stream] and
    [dynamic_shape] false) and bracketed by two operators on its first
    input: a [c_sync_calc_stream] with the send's [op_role] right before
    it, and right after it a [c_sync_comm_stream] with the Backward role
    and the send's [ring_id], which carries the [pipeline_flag] when the
    send is a forward send.  The operators around it stay as they are
    (here: no other communication operator in the program). *)
Theorem insert_sync_forward_send (program : Program)
    (pre post : list Operator) (send : Operator) (role : Z)
    (ring_id : AttrValue) (x : string) (rest : list string) :
  OpRole_Forward ≠ OpRole_Backward →
  ops (global_block program) = pre ++ send :: post →
  no_send_recv pre → no_send_recv post →
  Forall (λ b, no_send_recv (ops b)) (sub_blocks program) →
  op_type send = "send_v2" →
  attrs send !! "op_role" = Some (AInt role) → role ≠ OpRole_Backward →
  attrs send !! "ring_id" = Some ring_id →
  input_arg_names send = x :: rest →
  is_Some (vars (global_block program) !! x) →
  _insert_sync_for_fthenb_1f1b is_backward_op is_optimize_op OpRole_Forward
    OpRole_Backward OpRole_Optimize use_new_executor program
  = Ok (set_global program
          (set_ops (global_block program)
             (pre
              ++ [calc_sync x (AInt role); comm_send send;
                  if decide (role = OpRole_Forward)
                  then pipeline_comm_sync OpRole_Backward x ring_id
                  else comm_sync OpRole_Backward x ring_id]
              ++ post))).
Proof.
  intros Hroles Hops Hpre Hpost Hsubs Hsend Hrole Hnb Hring Hin Hvar.
  apply insert_sync_global; [|done].
  rewrite (insert_sync_single_send is_backward_op is_optimize_op
             OpRole_Forward OpRole_Backward OpRole_Optimize use_new_executor
             (global_block program) pre post send role ring_id x rest)
    by done.
  cbv zeta. rewrite decide_False by done. do 2 f_equal.
  exact (list_insert_at_middle _ pre [calc_sync x (AInt role); comm_send send]
           post).
Qed.

(** X24: for a backward [send_v2] of the global block, the
    [c_sync_comm_stream] gets the Optimize role and is not put after the
    send but right before the first optimizer operator of the block (here
    one that follows the send); it carries no [pipeline_flag]. *)
Theorem insert_sync_backward_send (program : Program)
    (pre mid post : list Operator) (send opt : Operator)
    (ring_id : AttrValue) (x : string) (rest : list string) :
  OpRole_Forward ≠ OpRole_Backward →
  ops (global_block program) = pre ++ send :: mid ++ opt :: post →
  no_send_recv pre → no_send_recv (mid ++ opt :: post) →
  Forall (λ b, no_send_recv (ops b)) (sub_blocks program) →
  Forall (λ op, is_optimize_op op = false) (pre ++ send :: mid) →
  is_optimize_op opt = true →
  op_type send = "send_v2" →
  attrs send !! "op_role" = Some (AInt OpRole_Backward) →
  attrs send !! "ring_id" = Some ring_id →
  input_arg_names send = x :: rest →
  is_Some (vars (global_block program) !! x) →
  _insert_sync_for_fthenb_1f1b is_backward_op is_optimize_op OpRole_Forward
    OpRole_Backward OpRole_Optimize use_new_executor program
  = Ok (set_global program
          (set_ops (global_block program)
             (pre
              ++ [calc_sync x (AInt OpRole_Backward); comm_send send]
              ++ mid ++ [comm_sync OpRole_Optimize x ring_id]
              ++ opt :: post))).
Proof.
  intros Hroles Hops Hpre Hpost Hsubs Hnopt Hopt Hsend Hrole Hring Hin Hvar.
  apply insert_sync_global; [|done].
  rewrite (insert_sync_single_send is_backward_op is_optimize_op
             OpRole_Forward OpRole_Backward OpRole_Optimize use_new_executor
             (global_block program) pre (mid ++ opt :: post) send
             OpRole_Backward ring_id x rest) by done.
  cbv zeta. rewrite decide_True by done.
  assert (Hfirst : first_index is_optimize_op (ops (global_block program))
                   = Some (length (pre ++ send :: mid))).
  { unfold first_index. rewrite Hops.
    replace (pre ++ send :: mid ++ opt :: post)
      with ((pre ++ send :: mid) ++ opt :: post)
      by (by rewrite <- (assoc_L app)).
    rewrite list_find_app_r.
    - cbn [list_find]. rewrite Hopt. cbn. done.
    - apply list_find_None. eapply Forall_impl; [exact Hnopt|].
      intros op Hop. simpl in Hop. rewrite Hop. by intros []. }
  rewrite Hfirst. do 2 f_equal.
  replace (length (pre ++ send :: mid) + 1)%nat
    with (length pre
          + length ([calc_sync x (AInt OpRole_Backward); comm_send send]
                    ++ mid))%nat
    by (rewrite !length_app; cbn; lia).
  etrans.
  { exact (list_insert_at_middle _ pre
             ([calc_sync x (AInt OpRole_Backward); comm_send send] ++ mid)
             (opt :: post)). }
  by rewrite <- !(assoc_L app).
Qed.

(** X25: a backward [send_v2] in a block without optimizer operator makes
    the pass fail: the position of the first optimizer operator is [None]
    and adding the offset to it raises a [TypeError]. *)
Theorem insert_sync_backward_send_without_optimizer (program : Program)
    (pre post : list Operator) (send : Operator)
    (ring_id : AttrValue) (x : string) (rest : list string) :
  OpRole_Forward ≠ OpRole_Backward →
  ops (global_block program) = pre ++ send :: post →
  no_send_recv pre → no_send_recv post →
  Forall (λ op, is_optimize_op op = false) (ops (global_block program)) →
  op_type send = "send_v2" →
  attrs send !! "op_role" = Some (AInt OpRole_Backward) →
  attrs send !! "ring_id" = Some ring_id →
  input_arg_names send = x :: rest →
  is_Some (vars (global_block program) !! x) →
  _insert_sync_for_fthenb_1f1b is_backward_op is_optimize_op OpRole_Forward
    OpRole_Backward OpRole_Optimize use_new_executor program
  = Raise TypeError.
Proof.
  intros Hroles Hops Hpre Hpost Hnopt Hsend Hrole Hring Hin Hvar.
  unfold _insert_sync_for_fthenb_1f1b, for_blocks.
  change (global program) with (global_block program).
  rewrite (insert_sync_single_send is_backward_op is_optimize_op
             OpRole_Forward OpRole_Backward OpRole_Optimize use_new_executor
             (global_block program) pre post send OpRole_Backward ring_id x
             rest) by done.
  cbv zeta. rewrite decide_True by done.
  assert (Hfirst : first_index is_optimize_op (ops (global_block program))
                   = None).
  { unfold first_index. rewrite (proj2 (list_find_None _ _)); [done|].
    eapply Forall_impl; [exact Hnopt|]. intros op Hop. simpl in Hop. rewrite Hop. by intros []. }
  by rewrite Hfirst.
Qed.

End SyncInsertionSend.

(** A forward send followed by an optimizer operator. *)
Lemma insert_sync_forward_send_witness :
  let relu := ex_op "relu" ["h"] ["y"] 0 in
  let send := new_op "send_v2" [("X", ["y"])] []
                     [("op_role", AInt 0); ("ring_id", AInt 3)] in
  let sgd := ex_op "sgd" ["w"] ["w"] 2 in
  let program := send_program 0 [sgd] in
  ops (global_block program) = [relu] ++ send :: [sgd]
  ∧ no_send_recv [relu] ∧ no_send_recv [sgd]
  ∧ attrs send !! "op_role" = Some (AInt 0)
  ∧ attrs send !! "ring_id" = Some (AInt 3)
  ∧ is_Some (vars (global_block program) !! "y")
  ∧ _insert_sync_for_fthenb_1f1b ex_is_backward_op ex_is_optimize_op 0 1 2
      true program
    = Ok (set_global program
            (set_ops (global_block program)
               ([relu]
                ++ [calc_sync "y" (AInt 0); comm_send send;
                    pipeline_comm_sync 1 "y" (AInt 3)]
                ++ [sgd]))).
Proof.
  intros relu send sgd program.
  assert (Hroles : (0 : Z) ≠ 1) by discriminate.
  assert (Hops : ops (global_block program) = [relu] ++ send :: [sgd])
    by reflexivity.
  assert (Hpre : no_send_recv [relu]).
  { constructor; [split; discriminate|constructor]. }
  assert (Hpost : no_send_recv [sgd]).
  { constructor; [split; discriminate|constructor]. }
  assert (Hsubs : Forall (λ b, no_send_recv (ops b)) (sub_blocks program))
    by constructor.
  assert (Hsend : op_type send = "send_v2") by reflexivity.
  assert (Hrole : attrs send !! "op_role" = Some (AInt 0))
    by (vm_compute; reflexivity).
  assert (Hring : attrs send !! "ring_id" = Some (AInt 3))
    by (vm_compute; reflexivity).
  assert (Hin : input_arg_names send = "y" :: []) by reflexivity.
  assert (Hvar : is_Some (vars (global_block program) !! "y"))
    by (eexists; vm_compute; reflexivity).
  split; [exact Hops|]. split; [exact Hpre|]. split; [exact Hpost|].
  split; [exact Hrole|]. split; [exact Hring|]. split; [exact Hvar|].
  exact (insert_sync_forward_send ex_is_backward_op ex_is_optimize_op 0 1 2
           true program [relu] [sgd] send 0 (AInt 3) "y" [] Hroles Hops Hpre
           Hpost Hsubs Hsend Hrole Hroles Hring Hin Hvar).
Defined.

(** A backward send followed by an optimizer operator. *)
Lemma insert_sync_backward_send_witness :
  let relu := ex_op "relu" ["h"] ["y"] 1 in
  let send := new_op "send_v2" [("X", ["y"])] []
                     [("op_role", AInt 1); ("ring_id", AInt 3)] in
  let sgd := ex_op "sgd" ["w"] ["w"] 2 in
  let program := send_program 1 [sgd] in
  ops (global_block program) = [relu] ++ send :: [] ++ sgd :: []
  ∧ Forall (λ op, ex_is_optimize_op op = false) ([relu] ++ send :: [])
  ∧ ex_is_optimize_op sgd = true
  ∧ attrs send !! "op_role" = Some (AInt 1)
  ∧ is_Some (vars (global_block program) !! "y")
  ∧ _insert_sync_for_fthenb_1f1b ex_is_backward_op ex_is_optimize_op 0 1 2
      true program
    = Ok (set_global program
            (set_ops (global_block program)
               ([relu]
                ++ [calc_sync "y" (AInt 1); comm_send send]
                ++ [] ++ [comm_sync 2 "y" (AInt 3)] ++ sgd :: []))).
Proof.
  intros relu send sgd program.
  assert (Hroles : (0 : Z) ≠ 1) by discriminate.
  assert (Hops : ops (global_block program)
                 = [relu] ++ send :: [] ++ sgd :: []) by reflexivity.
  assert (Hpre : no_send_recv [relu]).
  { constructor; [split; discriminate|constructor]. }
  assert (Hpost : no_send_recv ([] ++ sgd :: [])).
  { constructor; [split; discriminate|constructor]. }
  assert (Hsubs : Forall (λ b, no_send_recv (ops b)) (sub_blocks program))
    by constructor.
  assert (Hnopt : Forall (λ op, ex_is_optimize_op op = false)
                    ([relu] ++ send :: [])).
  { constructor; [vm_compute; reflexivity|].
    constructor; [vm_compute; reflexivity|constructor]. }
  assert (Hopt : ex_is_optimize_op sgd = true) by (vm_compute; reflexivity).
  assert (Hsend : op_type send = "send_v2") by reflexivity.
  assert (Hrole : attrs send !! "op_role" = Some (AInt 1))
    by (vm_compute; reflexivity).
  assert (Hring : attrs send !! "ring_id" = Some (AInt 3))
    by (vm_compute; reflexivity).
  assert (Hin : input_arg_names send = "y" :: []) by reflexivity.
  assert (Hvar : is_Some (vars (global_block program) !! "y"))
    by (eexists; vm_compute; reflexivity).
  split; [exact Hops|]. split; [exact Hnopt|]. split; [exact Hopt|].
  split; [exact Hrole|]. split; [exact Hvar|].
  exact (insert_sync_backward_send ex_is_backward_op ex_is_optimize_op 0 1 2
           true program [relu] [] [] send sgd (AInt 3) "y" [] Hroles Hops
           Hpre Hpost Hsubs Hnopt Hopt Hsend Hrole Hring Hin Hvar).
Defined.

(** A backward send in a block without optimizer operator. *)
Lemma insert_sync_backward_send_without_optimizer_witness :
  let relu := ex_op "relu" ["h"] ["y"] 1 in
  let send := new_op "send_v2" [("X", ["y"])] []
                     [("op_role", AInt 1); ("ring_id", AInt 3)] in
  let program := send_program 1 [] in
  ops (global_block program) = [relu] ++ send :: []
  ∧ Forall (λ op, ex_is_optimize_op op = false) (ops (global_block program))
  ∧ attrs send !! "op_role" = Some (AInt 1)
  ∧ is_Some (vars (global_block program) !! "y")
  ∧ _insert_sync_for_fthenb_1f1b ex_is_backward_op ex_is_optimize_op 0 1 2
      true program
    = Raise TypeError.
Proof.
  intros relu send program.
  assert (Hroles : (0 : Z) ≠ 1) by discriminate.
  assert (Hops : ops (global_block program) = [relu] ++ send :: [])
    by reflexivity.
  assert (Hpre : no_send_recv [relu]).
  { constructor; [split; discriminate|constructor]. }
  assert (Hpost : no_send_recv []) by constructor.
  assert (Hnopt : Forall (λ op, ex_is_optimize_op op = false)
                    (ops (global_block program))).
  { constructor; [vm_compute; reflexivity|].
    constructor; [vm_compute; reflexivity|constructor]. }
  assert (Hsend : op_type send = "send_v2") by reflexivity.
  assert (Hrole : attrs send !! "op_role" = Some (AInt 1))
    by (vm_compute; reflexivity).
  assert (Hring : attrs send !! "ring_id" = Some (AInt 3))
    by (vm_compute; reflexivity).
  assert (Hin : input_arg_names send = "y" :: []) by reflexivity.
  assert (Hvar : is_Some (vars (global_block program) !! "y"))
    by (eexists; vm_compute; reflexivity).
  split; [exact Hops|]. split; [exact Hnopt|]. split; [exact Hrole|].
  split; [exact Hvar|].
  exact (insert_sync_backward_send_without_optimizer ex_is_backward_op
           ex_is_optimize_op 0 1 2 true program [relu] [] send (AInt 3) "y"
           [] Hroles Hops Hpre Hpost Hnopt Hsend Hrole Hring Hin Hvar).
Defined.

(** ** [_program_for_fthenb_and_1f1b]: the three sub-programs *)

Lemma create_programs_shape (src_prog : Program) (src_block : Block)
    (l : list Operator) (dst : Block) :
  ∃ dst', for_each (λ dst op, _create_program src_prog src_block dst op false)
                   l dst = Ok dst'
          ∧ block_shape dst'
            = (parent_idx dst, forward_block_idx dst, ops dst ++ l).
Proof.
  revert dst. induction l as [|op l IH]; intros dst.
  - exists dst. split; [done|]. unfold block_shape. by rewrite app_nil_r.
  - cbn [for_each]. rewrite _create_program_spec. cbn [mbind result_bind].
    destruct (IH (declare_all (append_op dst op)
                    (decls_for src_prog src_block false
                       (input_arg_names op ++ output_arg_names op))))
      as (dst' & Hdst' & Hshape).
    exists dst'. split; [done|]. rewrite Hshape. cbn.
    by rewrite <- (assoc_L app).
Qed.

Lemma blocks_set_block (p : Program) (idx : nat) (b : Block) :
  blocks (set_block p idx b) = <[idx := b]> (blocks p).
Proof. by destruct idx. Qed.

Lemma add_ops_into_block_shape (src_prog : Program) (src_block : Block)
    (dst_prog : Program) (dst_idx : nat) (l : list Operator) (bd : Block) :
  block dst_prog dst_idx = Some bd →
  ∃ p, _add_ops_into_block src_prog src_block dst_prog dst_idx l = Ok p
       ∧ block_shape <$> blocks p
         = <[dst_idx := (parent_idx bd, forward_block_idx bd, ops bd ++ l)]>
             (block_shape <$> blocks dst_prog).
Proof.
  intros Hbd. unfold _add_ops_into_block. rewrite Hbd.
  destruct (create_programs_shape src_prog src_block l bd)
    as (bd' & Hbd' & Hshape).
  rewrite Hbd'. cbn [mbind result_bind]. eexists. split; [done|].
  by rewrite blocks_set_block, list_fmap_insert, Hshape.
Qed.

Lemma add_role_ops_shape (src_prog : Program) (idx : nat) (src_block : Block)
    (d : Dest) (l : list Operator) :
  valid_dest d →
  (idx ≠ 0%nat → l ≠ [] →
   0 ≤ parent_idx src_block < Z.of_nat (length (blocks d.1))) →
  ∃ d', add_role_ops src_prog idx src_block d l = Ok d' ∧ valid_dest d'
        ∧ block_shape <$> blocks d'.1 = add_role_shape idx src_block l d.1.
Proof.
  intros Hd Hparent. unfold add_role_ops, add_role_shape.
  destruct (decide (idx = 0%nat)) as [Hidx|Hidx].
  - destruct (add_ops_into_block_shape src_prog src_block d.1 0 l (global d.1))
      as (p & Hp & Hshape); [done|].
    rewrite Hp. cbn [mbind result_bind]. eexists. split; [done|].
    split; [by eexists|]. cbn [fst snd]. by rewrite Hshape.
  - destruct (decide (l = [])) as [->|Hl].
    { exists d. split; [done|]. split; [done|]. by rewrite app_nil_r. }
    rewrite _create_block_Ok by auto. cbn [mbind result_bind].
    set (nb := {| parent_idx := parent_idx src_block;
                  forward_block_idx := forward_block_idx src_block;
                  ops := []; vars := ∅ |}).
    set (p0 := {| global := global d.1; sub_blocks := sub_blocks d.1 ++ [nb] |}).
    assert (Hblocks0 : blocks p0 = blocks d.1 ++ [nb]) by done.
    assert (Hk : block p0 (length (blocks d.1)) = Some nb).
    { unfold block. rewrite Hblocks0.
      by rewrite lookup_app_r, Nat.sub_diag by lia. }
    destruct (add_ops_into_block_shape src_prog src_block p0
                (length (blocks d.1)) l nb Hk) as (p & Hp & Hshape).
    rewrite Hp. cbn [mbind result_bind]. eexists. split; [done|].
    cbn [fst snd]. split.
    + unfold valid_dest, block. cbn [fst snd]. apply lookup_lt_is_Some.
      rewrite <- (length_fmap block_shape (blocks p)), Hshape.
      rewrite length_insert, length_fmap.
      rewrite Hblocks0, length_app. cbn. lia.
    + rewrite Hshape, Hblocks0, fmap_app.
      rewrite <- (length_fmap block_shape (blocks d.1)).
      rewrite insert_app_r_alt, Nat.sub_diag by lia. done.
Qed.

Lemma role_parents_head (sel : list Operator → list Operator) (n : nat)
    (b : Block) (rest : list Block) :
  role_parents sel n (b :: rest) → sel (ops b) ≠ [] →
  0 ≤ parent_idx b < Z.of_nat n.
Proof.
  cbn [role_parents]. intros Hpar Hne.
  rewrite decide_False in Hpar by done. by destruct Hpar.
Qed.

Lemma role_parents_step (sel : list Operator → list Operator) (idx : nat)
    (b : Block) (rest : list Block) (p p' : Program) :
  idx ≠ 0%nat →
  block_shape <$> blocks p' = add_role_shape idx b (sel (ops b)) p →
  role_parents sel (length (blocks p)) (b :: rest) →
  role_parents sel (length (blocks p')) rest.
Proof.
  intros Hidx Hshape Hpar.
  assert (Hlen : length (blocks p')
                 = if decide (sel (ops b) = []) then length (blocks p)
                   else S (length (blocks p))).
  { rewrite <- (length_fmap block_shape (blocks p')), Hshape.
    unfold add_role_shape. rewrite decide_False by done.
    rewrite length_app, length_fmap.
    destruct (decide (sel (ops b) = [])); cbn; lia. }
  cbn [role_parents] in Hpar. rewrite Hlen.
  destruct (decide (sel (ops b) = [])); [done|by destruct Hpar].
Qed.

Lemma add_fetch_ops_none (src_prog : Program) (src_block : Block)
    (l : list Operator) (st : Dest * Dest * Dest) :
  Forall (λ op, _is_fetch_op op = false) l →
  for_each (add_fetch_op src_prog src_block) l st = Ok st.
Proof.
  induction 1 as [|op l Hop _ IH]; [done|].
  cbn [for_each].
  assert (Hstep : add_fetch_op src_prog src_block st op = Ok st).
  { unfold add_fetch_op. destruct st as [[f b] o]. by rewrite Hop. }
  rewrite Hstep. cbn [mbind result_bind]. apply IH.
Qed.

Lemma role_shape_later (idx : nat) (b : Block)
    (sel : list Operator → list Operator) (p : Program) (rest : list Block) :
  idx ≠ 0%nat →
  add_role_shape idx b (sel (ops b)) p ++ omap (role_block sel) rest
  = (block_shape <$> blocks p) ++ omap (role_block sel) (b :: rest).
Proof.
  intros Hidx. unfold add_role_shape. rewrite decide_False by done.
  cbn [omap list_omap]. unfold role_block at 2.
  destruct (decide (sel (ops b) = [])); by rewrite <- (assoc_L app).
Qed.

Section RolePrograms.

Context (is_forward_op is_backward_op is_optimize_op : Operator → bool).
Context (OpRole_Forward OpRole_Backward OpRole_Optimize : Z).
Context (use_new_executor : bool).

Lemma split_block_shape (src_prog : Program) (st : Dest * Dest * Dest)
    (idx : nat) (b : Block) (rest : list Block) :
  Forall (λ op, _is_fetch_op op = false
                ∧ classified is_forward_op is_backward_op is_optimize_op op)
         (ops b) →
  valid_dest st.1.1 → valid_dest st.1.2 → valid_dest st.2 →
  (idx ≠ 0%nat →
   role_parents (forward_ops is_forward_op)
                (length (blocks st.1.1.1)) (b :: rest)
   ∧ role_parents (backward_ops is_forward_op is_backward_op)
                  (length (blocks st.1.2.1)) (b :: rest)
   ∧ role_parents (optimize_ops is_forward_op is_backward_op is_optimize_op)
                  (length (blocks st.2.1)) (b :: rest)) →
  ∃ st', split_block is_forward_op is_backward_op is_optimize_op src_prog st
           (idx, b) = Ok st'
    ∧ valid_dest st'.1.1 ∧ valid_dest st'.1.2 ∧ valid_dest st'.2
    ∧ block_shape <$> blocks st'.1.1.1
      = add_role_shape idx b (forward_ops is_forward_op (ops b)) st.1.1.1
    ∧ block_shape <$> blocks st'.1.2.1
      = add_role_shape idx b
          (backward_ops is_forward_op is_backward_op (ops b)) st.1.2.1
    ∧ block_shape <$> blocks st'.2.1
      = add_role_shape idx b
          (optimize_ops is_forward_op is_backward_op is_optimize_op (ops b))
          st.2.1.
Proof.
  destruct st as [[fwd bwd] opt]. cbn [fst snd]. intros Hall Hf Hb Ho Hpar.
  unfold split_block.
  destruct (split_steps_Ok is_forward_op is_backward_op is_optimize_op
              (ops b) ([], [], [])) as [[[fo bo] oo] Hsplit].
  { eapply Forall_impl; [exact Hall|]. intros op [_ Hc]. by right. }
  rewrite _split_ops_unfold. unfold split_step in *. rewrite Hsplit.
  cbn [mbind result_bind].
  apply split_steps_lists in Hsplit as (-> & -> & ->). cbn [app].
  destruct (add_role_ops_shape src_prog idx b fwd
              (forward_ops is_forward_op (ops b)) Hf)
    as (fwd' & -> & Hf' & Hfs).
  { intros Hidx. destruct (Hpar Hidx) as (Hpf & _).
    by apply (role_parents_head _ _ _ rest). }
  cbn [mbind result_bind].
  destruct (add_role_ops_shape src_prog idx b bwd
              (backward_ops is_forward_op is_backward_op (ops b)) Hb)
    as (bwd' & -> & Hb' & Hbs).
  { intros Hidx. destruct (Hpar Hidx) as (_ & Hpb & _).
    by apply (role_parents_head _ _ _ rest). }
  cbn [mbind result_bind].
  destruct (add_role_ops_shape src_prog idx b opt
              (optimize_ops is_forward_op is_backward_op is_optimize_op
                 (ops b)) Ho)
    as (opt' & -> & Ho' & Hos).
  { intros Hidx. destruct (Hpar Hidx) as (_ & _ & Hpo).
    by apply (role_parents_head _ _ _ rest). }
  cbn [mbind result_bind].
  rewrite add_fetch_ops_none.
  - eexists. split; [done|]. cbn [fst snd]. by split_and!.
  - eapply Forall_impl; [exact Hall|]. by intros op [? _].
Qed.

Lemma split_blocks_shape (src_prog : Program) (l : list (nat * Block))
    (st : Dest * Dest * Dest) :
  Forall (λ e, e.1 ≠ 0%nat
               ∧ Forall (λ op, _is_fetch_op op = false
                               ∧ classified is_forward_op is_backward_op
                                   is_optimize_op op) (ops e.2)) l →
  valid_dest st.1.1 → valid_dest st.1.2 → valid_dest st.2 →
  role_parents (forward_ops is_forward_op) (length (blocks st.1.1.1)) l.*2 →
  role_parents (backward_ops is_forward_op is_backward_op)
               (length (blocks st.1.2.1)) l.*2 →
  role_parents (optimize_ops is_forward_op is_backward_op is_optimize_op)
               (length (blocks st.2.1)) l.*2 →
  ∃ st', for_each (split_block is_forward_op is_backward_op is_optimize_op
                     src_prog) l st = Ok st'
    ∧ block_shape <$> blocks st'.1.1.1
      = (block_shape <$> blocks st.1.1.1)
        ++ omap (role_block (forward_ops is_forward_op)) l.*2
    ∧ block_shape <$> blocks st'.1.2.1
      = (block_shape <$> blocks st.1.2.1)
        ++ omap (role_block (backward_ops is_forward_op is_backward_op)) l.*2
    ∧ block_shape <$> blocks st'.2.1
      = (block_shape <$> blocks st.2.1)
        ++ omap (role_block (optimize_ops is_forward_op is_backward_op
                               is_optimize_op)) l.*2.
Proof.
  intros Hall. revert st.
  induction Hall as [|[idx b] l [Hidx Hb] _ IH];
    intros st Hf Hbw Ho Hpf Hpb Hpo.
  - exists st. split; [done|]. cbn. by rewrite !app_nil_r.
  - cbn [fst snd] in Hidx, Hb.
    change (((idx, b) :: l).*2) with (b :: l.*2) in *.
    destruct (split_block_shape src_prog st idx b l.*2 Hb Hf Hbw Ho)
      as (st1 & H1 & Hf1 & Hb1 & Ho1 & Hfs & Hbs & Hos); [done|].
    destruct (IH st1 Hf1 Hb1 Ho1) as (st' & Hst' & Hfs' & Hbs' & Hos').
    { by eapply role_parents_step. }
    { by eapply role_parents_step. }
    { by eapply role_parents_step. }
    exists st'. cbn [for_each]. rewrite H1. cbn [mbind result_bind].
    split; [done|].
    rewrite Hfs', Hbs', Hos', Hfs, Hbs, Hos.
    split_and!; by apply role_shape_later.
Qed.

(** X26: when the stream pass returns a program all of whose operators
    have one of the three roles and none is a fetch operator, and every
    block to create finds its parent (when the pass reaches a block with
    operators of a role, the sub-program of that role holds a block at the
    parent index of the block), the pass returns three programs, forward,
    backward and optimizer, in this order.  The global block of each holds
    the operators of its role of the global block, in order; every further
    block of the program gives a block in each sub-program for which it
    has an operator, with its parent and forward-block indices and its
    operators of that role; no block is created for a role the source
    block lacks. *)
Theorem program_for_fthenb_and_1f1b_roles (program program' : Program)
    (enable_send_recv_overlap : bool) :
  stream_pass is_backward_op is_optimize_op OpRole_Forward OpRole_Backward
    OpRole_Optimize use_new_executor program enable_send_recv_overlap
  = Ok program' →
  Forall (λ b, Forall (λ op, _is_fetch_op op = false
                             ∧ classified is_forward_op is_backward_op
                                 is_optimize_op op) (ops b))
         (blocks program') →
  parents_available is_forward_op is_backward_op is_optimize_op
    (sub_blocks program') →
  ∃ fwd bwd opt,
    _program_for_fthenb_and_1f1b is_forward_op is_backward_op is_optimize_op
      OpRole_Forward OpRole_Backward OpRole_Optimize use_new_executor
      program enable_send_recv_overlap = Ok [fwd; bwd; opt]
    ∧ block_shape <$> blocks fwd
      = role_blocks (forward_ops is_forward_op) program'
    ∧ block_shape <$> blocks bwd
      = role_blocks (backward_ops is_forward_op is_backward_op) program'
    ∧ block_shape <$> blocks opt
      = role_blocks (optimize_ops is_forward_op is_backward_op
                       is_optimize_op) program'.
Proof.
  intros Hstream Hall (Hpf & Hpb & Hpo). unfold _program_for_fthenb_and_1f1b.
  rewrite Hstream. cbn [mbind result_bind].
  unfold blocks in Hall. apply Forall_cons in Hall as [Hg Hsubs].
  unfold enumerate.
  change (blocks program') with (global program' :: sub_blocks program').
  rewrite imap_cons. cbn [for_each].
  set (st0 := ((new_program, 0%nat), (new_program, 0%nat),
               (new_program, 0%nat))).
  destruct (split_block_shape program' st0 0 (global program') [] Hg)
    as (st1 & H1 & Hf1 & Hb1 & Ho1 & Hfs & Hbs & Hos);
    [by eexists..|done|].
  rewrite H1. cbn [mbind result_bind].
  assert (Hsnd : (imap ((λ i x, (i, x)) ∘ S) (sub_blocks program')).*2
                 = sub_blocks program').
  { exact (enumerate_from_snd 1 (sub_blocks program')). }
  assert (Hone : ∀ (p : Program) (l : list Operator),
            block_shape <$> blocks p = add_role_shape 0 (global program') l
                                         new_program →
            length (blocks p) = 1%nat).
  { intros p l Hp. by rewrite <- (length_fmap block_shape (blocks p)), Hp. }
  destruct (split_blocks_shape program'
              (imap ((λ i x, (i, x)) ∘ S) (sub_blocks program')) st1)
    as (st' & Hst' & Hfs' & Hbs' & Hos'); [|done..| | | |].
  { apply Forall_forall. intros [i b] Hin.
    apply elem_of_lookup_imap in Hin as (k & y & [= -> ->] & Hy).
    split; [done|]. cbn [snd]. rewrite Forall_forall in Hsubs.
    apply Hsubs. by eapply list_elem_of_lookup_2. }
  { by rewrite Hsnd, (Hone _ _ Hfs). }
  { by rewrite Hsnd, (Hone _ _ Hbs). }
  { by rewrite Hsnd, (Hone _ _ Hos). }
  rewrite Hst'. cbn [mbind result_bind].
  destruct st' as [[fwd bwd] opt]. cbn [fst snd] in *.
  exists fwd.1, bwd.1, opt.1. split; [done|].
  rewrite Hsnd in Hfs', Hbs', Hos'.
  rewrite Hfs', Hbs', Hos', Hfs, Hbs, Hos. unfold add_role_shape, role_blocks.
  rewrite !decide_True by done. done.
Qed.

End RolePrograms.

(** [nested_role_program]: the forward sub-program gets a block for each
    of the two nested blocks, the second below the first. *)
Lemma program_for_fthenb_and_1f1b_roles_witness :
  stream_pass ex_is_backward_op ex_is_optimize_op 0 1 2 true
    nested_role_program false = Ok nested_role_program
  ∧ parents_available ex_is_forward_op ex_is_backward_op ex_is_optimize_op
      (sub_blocks nested_role_program)
  ∧ ∃ fwd bwd opt,
      _program_for_fthenb_and_1f1b ex_is_forward_op ex_is_backward_op
        ex_is_optimize_op 0 1 2 true nested_role_program false
      = Ok [fwd; bwd; opt]
      ∧ block_shape <$> blocks fwd
        = role_blocks (forward_ops ex_is_forward_op) nested_role_program
      ∧ length (blocks fwd) = 3%nat ∧ length (blocks bwd) = 2%nat
      ∧ length (blocks opt) = 1%nat.
Proof.
  assert (Hstream : stream_pass ex_is_backward_op ex_is_optimize_op 0 1 2 true
                      nested_role_program false = Ok nested_role_program)
    by (vm_compute; reflexivity).
  assert (Hall : Forall (λ b, Forall (λ op, _is_fetch_op op = false
                                ∧ classified ex_is_forward_op
                                    ex_is_backward_op ex_is_optimize_op op)
                           (ops b))
                        (blocks nested_role_program)).
  { unfold blocks.
    cbn [nested_role_program global sub_blocks ops role_program ex_program
         ex_block].
    repeat (apply Forall_cons; split); try (by apply Forall_nil);
      (split; [reflexivity|]); unfold classified; vm_compute; auto. }
  assert (Hpar : parents_available ex_is_forward_op ex_is_backward_op
                   ex_is_optimize_op (sub_blocks nested_role_program)).
  { unfold parents_available. split_and!; vm_compute; intuition congruence. }
  split; [exact Hstream|]. split; [exact Hpar|].
  destruct (program_for_fthenb_and_1f1b_roles ex_is_forward_op
              ex_is_backward_op ex_is_optimize_op 0 1 2 true
              nested_role_program nested_role_program false Hstream Hall Hpar)
    as (fwd & bwd & opt & Hpass & Hf & Hb & Ho).
  exists fwd, bwd, opt. split; [exact Hpass|]. split; [exact Hf|].
  rewrite <- (length_fmap block_shape (blocks fwd)), Hf.
  rewrite <- (length_fmap block_shape (blocks bwd)), Hb.
  rewrite <- (length_fmap block_shape (blocks opt)), Ho.
  split_and!; vm_compute; reflexivity.
Defined.

(** ** A forward send followed by a backward receive *)

Lemma update_tagged_insert_at (index : nat) (op : Operator) (j : nat)
    (c : Operator) (cur : list (option nat * Operator)) :
  update_tagged index op (list_insert_at j (None, c) cur)
  = list_insert_at j (None, c) (update_tagged index op cur).
Proof.
  unfold update_tagged, list_insert_at.
  change (map ?f ?l) with (f <$> l).
  by rewrite fmap_app, fmap_cons, fmap_take, fmap_drop.
Qed.

Lemma insert_sync_step_recv (OpRole_Forward OpRole_Backward OpRole_Optimize : Z)
    (b : Block) (first_optimize_index : option nat)
    (cur : list (option nat * Operator)) (offset index : nat)
    (op : Operator) :
  op_type op = "recv_v2" →
  insert_sync_step OpRole_Forward OpRole_Backward OpRole_Optimize b
    first_optimize_index (cur, offset) (index, op)
  = Ok (update_tagged index (_set_attr op "dynamic_shape" (ABool false)) cur,
        offset).
Proof.
  intros Hr. unfold insert_sync_step.
  rewrite bool_decide_eq_true_2 by (rewrite Hr; right; left).
  change (op_type (_set_attr op "dynamic_shape" (ABool false)))
    with (op_type op).
  rewrite decide_False by (by rewrite Hr). done.
Qed.

Lemma replace_sync_step_other (OpRole_Backward : Z) (use_new_executor : bool)
    (backward_recv_index : nat) (b : Block) (offset : Z) (index : nat)
    (op : Operator) :
  op_type op ≠ "c_sync_comm_stream" →
  replace_sync_step OpRole_Backward use_new_executor backward_recv_index
    (b, offset) (index, op) = Ok (b, offset).
Proof.
  intros Ht. unfold replace_sync_step.
  by rewrite bool_decide_eq_false_2 by done.
Qed.

Lemma replace_sync_steps_other (OpRole_Backward : Z) (use_new_executor : bool)
    (backward_recv_index : nat) (l : list (nat * Operator)) (b : Block)
    (offset : Z) :
  Forall (λ e, op_type e.2 ≠ "c_sync_comm_stream") l →
  for_each (replace_sync_step OpRole_Backward use_new_executor
              backward_recv_index) l (b, offset) = Ok (b, offset).
Proof.
  induction 1 as [|[i op] l Hop _ IH]; [done|].
  cbn [for_each]. rewrite replace_sync_step_other by done.
  cbn [mbind result_bind]. apply IH.
Qed.

Lemma Forall_imap_snd {A : Type} (P : A → Prop) (f : nat → nat) (l : list A) :
  Forall P l → Forall (λ e, P e.2) (imap (λ i x, (f i, x)) l).
Proof.
  intros Hall. apply Forall_forall. intros e He.
  apply elem_of_lookup_imap in He as (i & y & -> & Hy). cbn.
  rewrite Forall_forall in Hall. apply Hall. by eapply list_elem_of_lookup_2.
Qed.

Section ForwardSendBackwardRecv.

Context (is_backward_op is_optimize_op : Operator → bool).
Context (OpRole_Forward OpRole_Backward OpRole_Optimize : Z).
Context (use_new_executor : bool).
Context (b : Block) (pre mid post : list Operator) (send recv : Operator).
Context (ring_id : AttrValue) (x : string) (rest : list string).

Hypothesis Hroles : OpRole_Forward ≠ OpRole_Backward.
Hypothesis Hops : ops b = pre ++ send :: mid ++ recv :: post.
Hypothesis Hpre : no_send_recv pre.
Hypothesis Hmid : no_send_recv mid.
Hypothesis Hpost : no_send_recv post.
Hypothesis Hsend : op_type send = "send_v2".
Hypothesis Hrole : attrs send !! "op_role" = Some (AInt OpRole_Forward).
Hypothesis Hring : attrs send !! "ring_id" = Some ring_id.
Hypothesis Hin : input_arg_names send = x :: rest.
Hypothesis Hvar : is_Some (vars b !! x).
Hypothesis Hrecv : op_type recv = "recv_v2".

Lemma forward_send_phase1 (first_optimize_index : option nat) :
  ∃ cur offset,
    for_each (insert_sync_step OpRole_Forward OpRole_Backward OpRole_Optimize
                b first_optimize_index)
             (enumerate (ops b))
             (imap (λ i op, (Some i, op)) (ops b), 0%nat)
    = Ok (cur, offset)
    ∧ cur.*2
      = pre
        ++ [calc_sync x (AInt OpRole_Forward); comm_send send;
            pipeline_comm_sync OpRole_Backward x ring_id]
        ++ mid ++ static_shape recv :: post.
Proof.
  set (k := length pre).
  set (calc := calc_sync x (AInt OpRole_Forward)).
  set (pcomm := pipeline_comm_sync OpRole_Backward x ring_id).
  set (ops1 := pre ++ comm_send send :: mid ++ recv :: post).
  set (ops2 := pre ++ comm_send send :: mid ++ static_shape recv :: post).
  set (cur3 := list_insert_at (k + 1 + 1) (None, pcomm)
                 (list_insert_at (k + 0) (None, calc)
                    (imap (λ i op, (Some i, op)) ops1))).
  set (cur4 := list_insert_at (k + 1 + 1) (None, pcomm)
                 (list_insert_at (k + 0) (None, calc)
                    (imap (λ i op, (Some i, op)) ops2))).
  exists cur4, 2%nat. split.
  - rewrite Hops.
    rewrite enumerate_app, for_each_app.
    rewrite insert_sync_steps_other.
    2:{ intros i op Hiop. apply elem_of_enumerate_inv in Hiop.
        unfold no_send_recv in Hpre. rewrite Forall_forall in Hpre.
        destruct (Hpre op) as [Hs Hr]; [by eapply list_elem_of_lookup_2|].
        split; [done|]. split; [done|]. intros e He.
        apply (tagged_entry (pre ++ send :: mid ++ recv :: post)); [done|].
        by rewrite lookup_app_l by (by eapply lookup_lt_Some). }
    cbn [mbind result_bind]. rewrite imap_cons. cbn [for_each].
    rewrite Nat.add_0_r.
    rewrite (insert_sync_step_send OpRole_Forward OpRole_Backward
               OpRole_Optimize b pre send OpRole_Forward ring_id x rest)
      by done.
    cbv zeta. rewrite decide_False by done. rewrite decide_True by done.
    cbn [mbind result_bind].
    rewrite update_tagged_at. fold k calc pcomm ops1 cur3.
    rewrite imap_app, for_each_app.
    rewrite insert_sync_steps_other.
    2:{ intros i op Hiop.
        apply elem_of_lookup_imap in Hiop as (n & y & [= -> ->] & Hy).
        unfold no_send_recv in Hmid. rewrite Forall_forall in Hmid.
        destruct (Hmid y) as [Hs Hr]; [by eapply list_elem_of_lookup_2|].
        split; [done|]. split; [done|]. intros e He Htag.
        apply elem_of_list_insert_at in He as [->|He]; [done|].
        apply elem_of_list_insert_at in He as [->|He]; [done|].
        apply (tagged_entry ops1 e (length pre + S n)); [done| |done].
        unfold ops1. rewrite lookup_app_r by lia.
        replace (length pre + S n - length pre)%nat with (S n) by lia.
        cbn. by apply lookup_app_l_Some. }
    cbn [mbind result_bind]. rewrite imap_cons. cbn [for_each].
    unfold compose.
    rewrite insert_sync_step_recv by done. cbn [mbind result_bind].
    fold (static_shape recv).
    assert (Hcur4 : update_tagged (k + S (length mid + 0))
                      (static_shape recv) cur3 = cur4).
    { unfold cur3, cur4. rewrite !update_tagged_insert_at. do 2 f_equal.
      unfold ops1, ops2, k.
      replace (length pre + S (length mid + 0))%nat
        with (length (pre ++ comm_send send :: mid))
        by (rewrite length_app; cbn; lia).
      replace (pre ++ comm_send send :: mid ++ recv :: post)
        with ((pre ++ comm_send send :: mid) ++ recv :: post)
        by (by rewrite <- (assoc_L app)).
      rewrite update_tagged_at. by rewrite <- (assoc_L app). }
    rewrite Hcur4.
    apply insert_sync_steps_other.
    intros i op Hiop.
    apply elem_of_lookup_imap in Hiop as (n & y & [= -> ->] & Hy).
    unfold no_send_recv in Hpost. rewrite Forall_forall in Hpost.
    destruct (Hpost y) as [Hs Hr]; [by eapply list_elem_of_lookup_2|].
    split; [done|]. split; [done|]. intros e He Htag.
    apply elem_of_list_insert_at in He as [->|He]; [done|].
    apply elem_of_list_insert_at in He as [->|He]; [done|].
    apply (tagged_entry ops2 e (length pre + S (length mid + S n)));
      [done| |done].
    unfold ops2. rewrite lookup_app_r by lia.
    replace (length pre + S (length mid + S n) - length pre)%nat
      with (S (length mid + S n)) by lia.
    cbn. apply lookup_app_Some. right. split; [lia|].
    replace (length mid + S n - length mid)%nat with (S n) by lia. done.
  - unfold cur4. rewrite !list_insert_at_fmap. cbn [snd].
    rewrite (tagged_snd 0 ops2
             : (imap (λ i op, (Some i, op)) ops2).*2 = ops2).
    unfold ops2, k. rewrite Nat.add_0_r, list_insert_at_app.
    replace (length pre + 1 + 1)%nat
      with (length pre + length [calc; comm_send send])%nat by (cbn; lia).
    exact (list_insert_at_middle pcomm pre [calc; comm_send send]
             (mid ++ static_shape recv :: post)).
Qed.

Hypothesis Hnc : Forall (λ op, op_type op ≠ "c_sync_comm_stream") (pre ++ mid).
Hypothesis Hback : is_backward_op (static_shape recv) = true.

Lemma forward_send_first_backward_recv :
  first_index (λ op, bool_decide (op_type op = "recv_v2") && is_backward_op op)
    (pre
     ++ [calc_sync x (AInt OpRole_Forward); comm_send send;
         pipeline_comm_sync OpRole_Backward x ring_id]
     ++ mid ++ static_shape recv :: post)
  = Some (length pre + 3 + length mid)%nat.
Proof.
  set (calc := calc_sync x (AInt OpRole_Forward)).
  set (pcomm := pipeline_comm_sync OpRole_Backward x ring_id).
  replace (pre ++ [calc; comm_send send; pcomm] ++ mid
           ++ static_shape recv :: post)
    with ((pre ++ [calc; comm_send send; pcomm] ++ mid)
          ++ static_shape recv :: post)
    by (by rewrite <- !(assoc_L app)).
  unfold first_index. rewrite list_find_app_r.
  - cbn [list_find].
    assert (HP : Is_true (bool_decide (op_type (static_shape recv) = "recv_v2")
                          && is_backward_op (static_shape recv))).
    { rewrite Hback, bool_decide_eq_true_2 by done. done. }
    rewrite decide_True by exact HP. cbn.
    rewrite !length_app. cbn. f_equal. lia.
  - apply list_find_None.
    assert (Hnr : ∀ op, op_type op ≠ "recv_v2" →
              ¬ Is_true (bool_decide (op_type op = "recv_v2")
                         && is_backward_op op)).
    { intros op Hop H. apply andb_prop_elim in H as [H _].
      by apply bool_decide_unpack in H. }
    apply Forall_app. split.
    + eapply Forall_impl; [exact Hpre|]. intros op [_ Hop]. by apply Hnr.
    + apply Forall_cons. split; [by apply Hnr|].
      apply Forall_cons. split.
      { apply Hnr. unfold comm_send. cbn. by rewrite Hsend. }
      apply Forall_cons. split; [by apply Hnr|].
      eapply Forall_impl; [exact Hmid|]. intros op [_ Hop]. by apply Hnr.
Qed.

Lemma forward_send_phase2 :
  let calc := calc_sync x (AInt OpRole_Forward) in
  let pcomm := pipeline_comm_sync OpRole_Backward x ring_id in
  let ops1 := pre ++ [calc; comm_send send; pcomm] ++ mid
              ++ static_shape recv :: post in
  let bri := (length pre + 3 + length mid)%nat in
  for_each (replace_sync_step OpRole_Backward use_new_executor bri)
           (take bri (enumerate ops1)) (set_ops b ops1, 0)
  = Ok (set_ops b
          (pre ++ [calc; comm_send send] ++ mid
           ++ static_shape recv
              :: (if use_new_executor then []
                  else [nop_sync OpRole_Backward x])
              ++ post),
        -1).
Proof.
  intros calc pcomm ops1 bri.
  set (head := pre ++ [calc; comm_send send]).
  assert (Hops1 : ops1 = (head ++ pcomm :: mid) ++ static_shape recv :: post).
  { unfold ops1, head. by rewrite <- !(assoc_L app). }
  assert (Hbri : bri = length (enumerate (head ++ pcomm :: mid))).
  { unfold enumerate, bri, head. rewrite length_imap, !length_app. cbn. lia. }
  rewrite Hops1, enumerate_app, Hbri, take_app_length.
  rewrite <- Hbri. rewrite enumerate_app, for_each_app.
  rewrite replace_sync_steps_other.
  2:{ apply (Forall_imap_snd (λ op, op_type op ≠ "c_sync_comm_stream")
               (λ i, i)).
      unfold head. apply Forall_app. split.
      - apply Forall_app in Hnc as [Hnc1 _]. exact Hnc1.
      - apply Forall_cons. split; [done|].
        apply Forall_cons. split; [|constructor].
        unfold comm_send. cbn. by rewrite Hsend. }
  cbn [mbind result_bind]. rewrite imap_cons. cbn [for_each].
  assert (Hflag : has_attr pcomm "pipeline_flag" = true).
  { unfold has_attr, pcomm, pipeline_comm_sync, _set_attr. cbn [attrs].
    rewrite lookup_insert_eq. apply bool_decide_eq_true_2. by eexists. }
  assert (Hstep :
    replace_sync_step OpRole_Backward use_new_executor bri
      (set_ops b ((head ++ pcomm :: mid) ++ static_shape recv :: post), 0)
      ((length head + 0)%nat, pcomm)
    = Ok (set_ops b
            (head ++ mid
             ++ static_shape recv
                :: (if use_new_executor then []
                    else [nop_sync OpRole_Backward x])
                ++ post),
          -1)).
  { unfold replace_sync_step.
    rewrite (bool_decide_eq_true_2 (op_type pcomm = "c_sync_comm_stream"))
      by done.
    rewrite Hflag. cbn [andb].
    change (output_arg_names pcomm) with [x].
    cbn [first_arg mbind result_bind].
    destruct Hvar as [v Hv]. unfold var. cbn [set_ops vars]. rewrite Hv.
    cbn [mbind result_bind]. unfold _remove_op. cbn [set_ops ops].
    rewrite decide_True
      by (rewrite !length_app; cbn [length]; lia).
    cbn [mbind result_bind set_ops ops parent_idx forward_block_idx vars].
    replace (Z.to_nat (Z.of_nat (length head + 0) + 0)) with (length head)
      by lia.
    rewrite <- (assoc_L app head (pcomm :: mid)).
    change (head ++ (pcomm :: mid) ++ static_shape recv :: post)
      with (head ++ pcomm :: (mid ++ static_shape recv :: post)).
    rewrite delete_middle.
    destruct use_new_executor; cbn [negb app]; [done|].
    do 2 f_equal. unfold set_ops. cbn [ops]. f_equal.
    replace bri with (length (head ++ mid ++ [static_shape recv]))
      by (unfold bri, head; rewrite !length_app; cbn; lia).
    replace (head ++ mid ++ static_shape recv :: post)
      with ((head ++ mid ++ [static_shape recv]) ++ post)
      by (by rewrite <- !(assoc_L app)).
    rewrite list_insert_at_app. by rewrite <- !(assoc_L app). }
  rewrite Hstep. cbn [mbind result_bind].
  rewrite replace_sync_steps_other.
  - unfold head. by rewrite <- !(assoc_L app).
  - apply Forall_forall. intros e He.
    apply elem_of_lookup_imap in He as (i & y & -> & Hy). cbn.
    apply Forall_app in Hnc as [_ Hnc2]. rewrite Forall_forall in Hnc2.
    apply Hnc2. by eapply list_elem_of_lookup_2.
Qed.

End ForwardSendBackwardRecv.

Section ForwardSendBackwardRecvPass.

Context (is_backward_op is_optimize_op : Operator → bool).
Context (OpRole_Forward OpRole_Backward OpRole_Optimize : Z).
Context (use_new_executor : bool).

(** X27: when a backward [recv_v2] follows a forward [send_v2] in the
    global block, the [c_sync_comm_stream] that the first step puts after
    the send is taken out again by the second step: the send keeps only
    the [c_sync_calc_stream] in front of it.  With the old executor a
    [nop] operator on the sent variable, with the Backward role, is put
    in its place, and it lands right after that first backward receive
    (the insertion index was fixed before the removal); with the new
    executor nothing is put in.  The receive gets [dynamic_shape] false. *)
Theorem insert_sync_forward_send_backward_recv (program : Program)
    (pre mid post : list Operator) (send recv : Operator)
    (ring_id : AttrValue) (x : string) (rest : list string) :
  OpRole_Forward ≠ OpRole_Backward →
  ops (global_block program) = pre ++ send :: mid ++ recv :: post →
  no_send_recv pre → no_send_recv mid → no_send_recv post →
  Forall (λ op, op_type op ≠ "c_sync_comm_stream") (pre ++ mid) →
  Forall (λ b, no_send_recv (ops b)) (sub_blocks program) →
  op_type send = "send_v2" →
  attrs send !! "op_role" = Some (AInt OpRole_Forward) →
  attrs send !! "ring_id" = Some ring_id →
  input_arg_names send = x :: rest →
  is_Some (vars (global_block program) !! x) →
  op_type recv = "recv_v2" →
  is_backward_op (static_shape recv) = true →
  _insert_sync_for_fthenb_1f1b is_backward_op is_optimize_op OpRole_Forward
    OpRole_Backward OpRole_Optimize use_new_executor program
  = Ok (set_global program
          (set_ops (global_block program)
             (pre
              ++ [calc_sync x (AInt OpRole_Forward); comm_send send]
              ++ mid
              ++ static_shape recv
                 :: (if use_new_executor then []
                     else [nop_sync OpRole_Backward x])
                 ++ post))).
Proof.
  intros Hroles Hops Hpre Hmid Hpost Hnc Hsubs Hsend Hrole Hring Hin Hvar
         Hrecv Hback.
  apply insert_sync_global; [|done].
  unfold insert_sync_block. cbv zeta.
  destruct (forward_send_phase1 OpRole_Forward OpRole_Backward OpRole_Optimize
              (global_block program) pre mid post send recv ring_id x rest
              Hroles Hops Hpre Hmid Hpost Hsend Hrole Hring Hin Hvar Hrecv
              (first_index is_optimize_op (ops (global_block program))))
    as (cur & offset & Hloop & Hcur).
  rewrite Hloop. cbn [mbind result_bind]. rewrite Hcur. cbn [set_ops ops].
  rewrite (forward_send_first_backward_recv is_backward_op OpRole_Forward
             OpRole_Backward pre mid post send recv ring_id x) by done.
  pose proof (forward_send_phase2 OpRole_Forward OpRole_Backward
                use_new_executor (global_block program) pre mid post send
                recv ring_id x Hsend Hvar Hnc) as Hphase2.
  cbv zeta in Hphase2. rewrite Hphase2. done.
Qed.

End ForwardSendBackwardRecvPass.

(** The stage that sends [y] forward and receives [g]: old executor. *)
Lemma insert_sync_forward_send_backward_recv_witness :
  let relu := ex_op "relu" ["h"] ["y"] 0 in
  let send := new_op "send_v2" [("X", ["y"])] []
                     [("op_role", AInt 0); ("ring_id", AInt 3)] in
  let recv := new_op "recv_v2" [] [("Out", ["g"])]
                     [("op_role", AInt 1); ("ring_id", AInt 3)] in
  let grad := ex_op "relu_grad" ["g"] ["d"] 1 in
  ops (global_block send_recv_program) = [relu] ++ send :: [] ++ recv :: [grad]
  ∧ ex_is_backward_op (static_shape recv) = true
  ∧ is_Some (vars (global_block send_recv_program) !! "y")
  ∧ _insert_sync_for_fthenb_1f1b ex_is_backward_op ex_is_optimize_op 0 1 2
      false send_recv_program
    = Ok (set_global send_recv_program
            (set_ops (global_block send_recv_program)
               ([relu]
                ++ [calc_sync "y" (AInt 0); comm_send send]
                ++ []
                ++ static_shape recv :: [nop_sync 1 "y"] ++ [grad]))).
Proof.
  intros relu send recv grad.
  assert (Hroles : (0 : Z) ≠ 1) by discriminate.
  assert (Hops : ops (global_block send_recv_program)
                 = [relu] ++ send :: [] ++ recv :: [grad]) by reflexivity.
  assert (Hpre : no_send_recv [relu]).
  { constructor; [split; discriminate|constructor]. }
  assert (Hmid : no_send_recv []) by constructor.
  assert (Hpost : no_send_recv [grad]).
  { constructor; [split; discriminate|constructor]. }
  assert (Hnc : Forall (λ op, op_type op ≠ "c_sync_comm_stream")
                  ([relu] ++ [])).
  { constructor; [discriminate|constructor]. }
  assert (Hsubs : Forall (λ b, no_send_recv (ops b))
                    (sub_blocks send_recv_program)) by constructor.
  assert (Hsend : op_type send = "send_v2") by reflexivity.
  assert (Hrole : attrs send !! "op_role" = Some (AInt 0))
    by (vm_compute; reflexivity).
  assert (Hring : attrs send !! "ring_id" = Some (AInt 3))
    by (vm_compute; reflexivity).
  assert (Hin : input_arg_names send = "y" :: []) by reflexivity.
  assert (Hvar : is_Some (vars (global_block send_recv_program) !! "y"))
    by (eexists; vm_compute; reflexivity).
  assert (Hrecv : op_type recv = "recv_v2") by reflexivity.
  assert (Hback : ex_is_backward_op (static_shape recv) = true)
    by (vm_compute; reflexivity).
  split; [exact Hops|]. split; [exact Hback|]. split; [exact Hvar|].
  exact (insert_sync_forward_send_backward_recv ex_is_backward_op
           ex_is_optimize_op 0 1 2 false send_recv_program [relu] [] [grad]
           send recv (AInt 3) "y" [] Hroles Hops Hpre Hmid Hpost Hnc Hsubs
           Hsend Hrole Hring Hin Hvar Hrecv Hback).
Defined.

(** ** [set_skip_gc_vars] with the PIR flag on *)

Lemma prepare_steps (tp : gmap string nat) (ps : list (string * string))
    (a : nat) (progs : list Program) :
  (∀ k t t', ps !! k = Some (t, t') →
     tp !! t = Some (a + k)%nat ∧ tp !! t' = Some (S (a + k))) →
  for_each_st (prepare_step tp) ps progs
  = (foldl (λ progs i, prepare_ir_program progs i (S i)) progs
       (seq a (length ps)), None).
Proof.
  revert a progs. induction ps as [|[t t'] ps IH]; intros a progs H; [done|].
  cbn [for_each_st length seq foldl]. unfold prepare_step at 1.
  destruct (H 0%nat t t' eq_refl) as [Ht Ht']. rewrite Nat.add_0_r in Ht, Ht'.
  rewrite Ht, Ht'. apply IH. intros k u u' Hk.
  destruct (H (S k) u u' Hk) as [Hu Hu'].
  by rewrite <- Nat.add_succ_comm in Hu, Hu'.
Qed.

Lemma lookup_zip_tail (l : list string) (k : nat) (t t' : string) :
  zip l (tail l) !! k = Some (t, t') ↔ l !! k = Some t ∧ l !! S k = Some t'.
Proof.
  split.
  - intros (x & y & [= <- <-] & Hx & Hy)%lookup_zip_with_Some.
    by rewrite lookup_tail in Hy.
  - intros [Hx Hy]. apply lookup_zip_with_Some. exists t, t'.
    by rewrite lookup_tail.
Qed.

Section SetSkipGcVarsPrepare.

Context (infer_no_need_buffer_slots :
           string → list (string * list string) → list (string * list string)
           → gmap string AttrValue → gset string).
Context (repr_set : gset string → string).

(** X28: with [FLAGS_enable_pir_in_executor] on, distinct job types and
    one sub-program for each, a call that returns has run
    [prepare_ir_program] on every pair of consecutive sub-programs, in
    order, each call seeing the operators the earlier calls added; the
    skip-GC sets are those of the original sub-programs. *)
Theorem set_skip_gc_vars_prepares (num_micro_batches : Z)
    (job_types : list string) (sub_programs : list Program) (jobs : list Job)
    (tp : gmap string nat) :
  let out := set_skip_gc_vars infer_no_need_buffer_slots true repr_set
               num_micro_batches job_types sub_programs jobs in
  out_result out = Ok tp →
  NoDup job_types → length job_types = length sub_programs →
  out_programs out
  = foldl (λ progs i, prepare_ir_program progs i (S i)) sub_programs
          (seq 0 (length job_types - 1))
  ∧ out_jobs out
    = out_jobs (set_skip_gc_vars infer_no_need_buffer_slots false repr_set
                  num_micro_batches job_types sub_programs jobs).
Proof.
  intros out Hok Hnd Hlen. unfold out in *. unfold set_skip_gc_vars in *.
  destruct (bool_decide (num_micro_batches >= 1)); cbn [negb] in *; [|done].
  destruct (skip_gc_loop _ _ _ _) as [[jobs' suffixed] [e|]]; [done|].
  assert (Hprep : for_each_st
                    (prepare_step (type_to_program_of job_types sub_programs))
                    (zip job_types (tail job_types)) sub_programs
                  = (foldl (λ progs i, prepare_ir_program progs i (S i))
                       sub_programs
                       (seq 0 (length (zip job_types (tail job_types)))),
                     None)).
  { apply (prepare_steps _ _ 0).
    intros k t t' [Ht Ht']%lookup_zip_tail. cbn [Nat.add].
    assert (Hidx : ∀ i u, job_types !! i = Some u →
              type_to_program_of job_types sub_programs !! u = Some i).
    { intros i u Hu. apply type_to_program_of_lookup.
      split; [rewrite <- Hlen; by eapply lookup_lt_Some|]. split; [done|].
      intros j Hj Hju. pose proof (NoDup_lookup _ _ _ _ Hnd Hu Hju). lia. }
    split; by apply Hidx. }
  rewrite Hprep in *.
  cbn [out_programs out_jobs]. split; [|done]. f_equal. f_equal.
  etrans; [apply length_zip_with|].
  destruct job_types as [|t0 l0]; [done|]. cbn [tail length]. lia.
Qed.

End SetSkipGcVarsPrepare.

(** The two sub-programs of the example schedule, flag on. *)
Lemma set_skip_gc_vars_prepares_witness :
  let out := set_skip_gc_vars no_buffer_info true (λ _, "{'a'}") 2
               ["forward"; "backward"] [fwd_program; bwd_program] schedule_2 in
  ∃ tp,
    out_result out = Ok tp
    ∧ NoDup ["forward"; "backward"]
    ∧ out_programs out = prepare_ir_program [fwd_program; bwd_program] 0 1.
Proof.
  intros out.
  assert (Hok : out_result out
                = Ok (py_dict [("forward", 0%nat); ("backward", 1%nat)]))
    by (vm_compute; reflexivity).
  assert (Hnd : NoDup ["forward"; "backward"]).
  { apply NoDup_cons. split; [|apply NoDup_singleton].
    intros Hin. apply list_elem_of_singleton in Hin. discriminate. }
  eexists. split; [exact Hok|]. split; [exact Hnd|].
  exact (proj1 (set_skip_gc_vars_prepares no_buffer_info (λ _, "{'a'}") 2
                  ["forward"; "backward"] [fwd_program; bwd_program]
                  schedule_2 _ Hok Hnd eq_refl)).
Defined.

(** ** [_program_for_fthenb_and_1f1b]: where a fetch operator goes *)

Lemma create_programs_vars (src_prog : Program) (src_block : Block)
    (l : list Operator) (dst : Block) :
  named_vars src_block →
  ∃ dst', for_each (λ dst op, _create_program src_prog src_block dst op false)
                   l dst = Ok dst'
          ∧ block_shape dst'
            = (parent_idx dst, forward_block_idx dst, ops dst ++ l)
          ∧ ∀ name, is_Some (vars dst' !! name)
                    ↔ is_Some (vars dst !! name) ∨ role_uses src_block l name.
Proof.
  intros Hwf. revert dst. induction l as [|op l IH]; intros dst.
  - exists dst. split; [done|]. split.
    + unfold block_shape. by rewrite app_nil_r.
    + intros name. split; [by left|]. intros [?|(_ & op & Hop & _)]; [done|].
      by apply elem_of_nil in Hop.
  - cbn [for_each]. rewrite _create_program_spec. cbn [mbind result_bind].
    set (dst1 := declare_all (append_op dst op)
                   (decls_for src_prog src_block false
                      (input_arg_names op ++ output_arg_names op))).
    destruct (IH dst1) as (dst' & Hdst' & Hshape & Hvars).
    exists dst'. split; [done|]. split.
    + rewrite Hshape. unfold dst1. cbn. by rewrite <- (assoc_L app).
    + intros name. rewrite Hvars. unfold dst1.
      cbn [declare_all append_op set_vars set_ops vars].
      rewrite lookup_union_is_Some, list_to_map_is_Some.
      assert (Hdecl : name ∈ (decls_for src_prog src_block false
                                (input_arg_names op ++ output_arg_names op)).*1
                      ↔ is_Some (vars src_block !! name) ∧ uses op name).
      { rewrite list_elem_of_fmap. unfold uses. rewrite <- elem_of_app. split.
        - intros ([k d] & -> & Hin).
          apply elem_of_decls_for in Hin as (r & v & Hr & Hv & -> & _).
          cbn [fst source_var] in *. rewrite (Hwf _ _ Hv). split; [|done].
          by eexists.
        - intros [[v Hv] Hr]. exists (name, copied_decl v). split; [done|].
          apply elem_of_decls_for. exists name, v. split; [done|].
          split; [done|]. split; [|done]. symmetry. by apply Hwf. }
      rewrite Hdecl. unfold role_uses. split.
      * intros [[?|[? ?]]|[? (op' & ? & ?)]]; [by left| |].
        -- right. split; [done|]. exists op. split; [left|done].
        -- right. split; [done|]. exists op'. split; [by right|done].
      * intros [?|[? (op' & Hop' & ?)]]; [by left; left|].
        apply elem_of_cons in Hop' as [->|Hop']; [by left; right|].
        right. split; [done|]. by exists op'.
Qed.

Lemma add_ops_into_global (src_prog : Program) (src_block : Block)
    (g : Block) (l : list Operator) :
  named_vars src_block →
  ∃ g', _add_ops_into_block src_prog src_block
          {| global := g; sub_blocks := [] |} 0 l
        = Ok {| global := g'; sub_blocks := [] |}
        ∧ ops g' = ops g ++ l ∧ parent_idx g' = parent_idx g
        ∧ ∀ name, is_Some (vars g' !! name)
                  ↔ is_Some (vars g !! name) ∨ role_uses src_block l name.
Proof.
  intros Hwf. unfold _add_ops_into_block.
  destruct (create_programs_vars src_prog src_block l g Hwf)
    as (g' & Hg' & Hshape & Hvars).
  change (block {| global := g; sub_blocks := [] |} 0) with (Some g).
  cbv beta iota. rewrite Hg'. cbn [mbind result_bind]. exists g'. split; [done|].
  injection Hshape as Hp _ Ho. by split_and!.
Qed.

Lemma dest_has_var_global (g : Block) (name : string) :
  parent_idx g < 0 →
  dest_has_var ({| global := g; sub_blocks := [] |}, 0%nat) name
  = bool_decide (is_Some (vars g !! name)).
Proof.
  intros Hp. unfold dest_has_var. cbn [fst snd].
  change (block {| global := g; sub_blocks := [] |} 0) with (Some g).
  cbn beta iota.
  unfold _find_var_recursive, blocks. cbn [global sub_blocks length].
  cbn [find_var_from]. destruct (vars g !! name) as [v|]; [done|].
  by rewrite decide_True by done.
Qed.

Lemma role_ops_app_fetch (sel : Operator → bool) (body : list Operator)
    (fetch_op : Operator) :
  _is_fetch_op fetch_op = true →
  filter (λ op, negb (_is_fetch_op op) && sel op) (body ++ [fetch_op])
  = filter (λ op, negb (_is_fetch_op op) && sel op) body.
Proof.
  intros Hf. rewrite filter_app, filter_cons, filter_nil, Hf. cbn.
  by rewrite app_nil_r.
Qed.

Lemma filter_snoc_false {A : Type} (P : A → bool) (l : list A) (x : A) :
  P x = false → filter (λ y, P y) (l ++ [x]) = filter (λ y, P y) l.
Proof.
  intros Hx. rewrite filter_app, filter_cons, filter_nil.
  rewrite decide_False; [by rewrite app_nil_r|]. rewrite Hx. by intros [].
Qed.

Lemma add_role_ops_global (src_prog : Program) (src_block : Block)
    (l : list Operator) :
  named_vars src_block →
  ∃ g, add_role_ops src_prog 0 src_block (new_program, 0%nat) l
       = Ok ({| global := g; sub_blocks := [] |}, 0%nat)
       ∧ ops g = l ∧ parent_idx g = -1
       ∧ ∀ name, is_Some (vars g !! name) ↔ role_uses src_block l name.
Proof.
  intros Hwf. unfold add_role_ops. rewrite decide_True by done.
  cbn [fst snd]. unfold new_program.
  destruct (add_ops_into_global src_prog src_block (empty_block (-1)) l Hwf)
    as (g & Hg & Hops & Hp & Hvars).
  rewrite Hg. cbn [mbind result_bind]. exists g. split; [done|].
  split; [done|]. split; [done|].
  intros name. rewrite Hvars. cbn [empty_block vars].
  rewrite lookup_empty. split; [|by right].
  intros [[? [=]]|?]; done.
Qed.

Section FetchPlacement.

Context (is_forward_op is_backward_op is_optimize_op : Operator → bool).
Context (OpRole_Forward OpRole_Backward OpRole_Optimize : Z).
Context (use_new_executor : bool).

(** X29: a fetch operator is given to one sub-program only: the first of
    forward, backward, optimizer whose block declares the fetched
    variable, that is, whose operators use it (the source block declaring
    it); there it comes after the operators of the role.  When none of the
    three uses the variable the fetch operator is in none of them.
    (Stated for a program of one block with the fetch operator at its
    end.) *)
Theorem program_for_fthenb_and_1f1b_fetch (program program' : Program)
    (enable_send_recv_overlap : bool) (body : list Operator)
    (fetch_op : Operator) (in_name : string) (rest : list string) :
  stream_pass is_backward_op is_optimize_op OpRole_Forward OpRole_Backward
    OpRole_Optimize use_new_executor program enable_send_recv_overlap
  = Ok program' →
  sub_blocks program' = [] →
  ops (global_block program') = body ++ [fetch_op] →
  Forall (λ op, _is_fetch_op op = false
                ∧ classified is_forward_op is_backward_op is_optimize_op op)
         body →
  _is_fetch_op fetch_op = true →
  input_arg_names fetch_op = in_name :: rest →
  named_vars (global_block program') →
  let used l := role_uses (global_block program') l in_name in
  let fwd_ops := forward_ops is_forward_op body in
  let bwd_ops := backward_ops is_forward_op is_backward_op body in
  let opt_ops := optimize_ops is_forward_op is_backward_op is_optimize_op
                   body in
  ∃ fwd bwd opt,
    _program_for_fthenb_and_1f1b is_forward_op is_backward_op is_optimize_op
      OpRole_Forward OpRole_Backward OpRole_Optimize use_new_executor
      program enable_send_recv_overlap = Ok [fwd; bwd; opt]
    ∧ (used fwd_ops →
       ops (global_block fwd) = fwd_ops ++ [fetch_op]
       ∧ ops (global_block bwd) = bwd_ops ∧ ops (global_block opt) = opt_ops)
    ∧ (¬ used fwd_ops → used bwd_ops →
       ops (global_block fwd) = fwd_ops
       ∧ ops (global_block bwd) = bwd_ops ++ [fetch_op]
       ∧ ops (global_block opt) = opt_ops)
    ∧ (¬ used fwd_ops → ¬ used bwd_ops → used opt_ops →
       ops (global_block fwd) = fwd_ops ∧ ops (global_block bwd) = bwd_ops
       ∧ ops (global_block opt) = opt_ops ++ [fetch_op])
    ∧ (¬ used fwd_ops → ¬ used bwd_ops → ¬ used opt_ops →
       ops (global_block fwd) = fwd_ops ∧ ops (global_block bwd) = bwd_ops
       ∧ ops (global_block opt) = opt_ops).
Proof.
  intros Hstream Hsubs Hops Hbody Hfetch Hin Hwf used fwd_ops bwd_ops opt_ops.
  unfold _program_for_fthenb_and_1f1b. rewrite Hstream.
  cbn [mbind result_bind].
  assert (Henum : enumerate (blocks program') = [(0%nat, global program')]).
  { unfold blocks. by rewrite Hsubs. }
  rewrite Henum. cbn [for_each]. unfold split_block.
  change (global program') with (global_block program').
  destruct (split_steps_Ok is_forward_op is_backward_op is_optimize_op
              (ops (global_block program')) ([], [], []))
    as [[[fo bo] oo] Hsplit].
  { rewrite Hops. apply Forall_app. split.
    - eapply Forall_impl; [exact Hbody|]. intros op [_ Hc]. by right.
    - constructor; [by left|constructor]. }
  rewrite _split_ops_unfold. unfold split_step in *. rewrite Hsplit.
  cbn [mbind result_bind].
  apply split_steps_lists in Hsplit as (-> & -> & ->). cbn [app].
  unfold forward_ops, backward_ops, optimize_ops. rewrite Hops.
  rewrite !filter_snoc_false by (by rewrite Hfetch).
  fold (forward_ops is_forward_op body).
  fold (backward_ops is_forward_op is_backward_op body).
  fold (optimize_ops is_forward_op is_backward_op is_optimize_op body).
  fold fwd_ops bwd_ops opt_ops.
  destruct (add_role_ops_global program' (global_block program') fwd_ops Hwf)
    as (gf & -> & Hgf & Hpf & Hvf).
  cbn [mbind result_bind].
  destruct (add_role_ops_global program' (global_block program') bwd_ops Hwf)
    as (gb & -> & Hgb & Hpb & Hvb).
  cbn [mbind result_bind].
  destruct (add_role_ops_global program' (global_block program') opt_ops Hwf)
    as (go & -> & Hgo & Hpo & Hvo).
  cbn [mbind result_bind].
  rewrite for_each_app, add_fetch_ops_none
    by (eapply Forall_impl; [exact Hbody|]; by intros op [? _]).
  cbn [mbind result_bind for_each]. unfold add_fetch_op.
  rewrite Hfetch, Hin. cbn [first_arg mbind result_bind fst snd].
  rewrite !dest_has_var_global by lia.
  destruct (decide (is_Some (vars gf !! in_name))) as [Hf|Hf].
  { rewrite bool_decide_eq_true_2 by done.
    destruct (add_ops_into_global program' (global_block program') gf
                [fetch_op] Hwf) as (gf' & -> & Hgf' & _).
    cbn [mbind result_bind fst snd]. eexists _, _, _. split; [done|].
    cbn [global_block global]. rewrite Hgf', Hgf.
    apply Hvf in Hf. split_and!; [done|done..]. }
  rewrite bool_decide_eq_false_2 by done.
  destruct (decide (is_Some (vars gb !! in_name))) as [Hb|Hb].
  { rewrite bool_decide_eq_true_2 by done.
    destruct (add_ops_into_global program' (global_block program') gb
                [fetch_op] Hwf) as (gb' & -> & Hgb' & _).
    cbn [mbind result_bind fst snd]. eexists _, _, _. split; [done|].
    cbn [global_block global]. rewrite Hgb', Hgb.
    apply Hvb in Hb. rewrite Hvf in Hf. split_and!; [done|done..]. }
  rewrite bool_decide_eq_false_2 by done.
  destruct (decide (is_Some (vars go !! in_name))) as [Ho|Ho].
  { rewrite bool_decide_eq_true_2 by done.
    destruct (add_ops_into_global program' (global_block program') go
                [fetch_op] Hwf) as (go' & -> & Hgo' & _).
    cbn [mbind result_bind fst snd]. eexists _, _, _. split; [done|].
    cbn [global_block global]. rewrite Hgo', Hgo.
    apply Hvo in Ho. rewrite Hvf in Hf. rewrite Hvb in Hb.
    split_and!; [done|done..]. }
  rewrite bool_decide_eq_false_2 by done.
  cbn [mbind result_bind fst snd]. eexists _, _, _. split; [done|].
  cbn [global_block global].
  rewrite Hvf in Hf. rewrite Hvb in Hb. rewrite Hvo in Ho.
  split_and!; [done|done..].
Qed.

End FetchPlacement.

Lemma ex_block_named (l : list Operator) (names : list string) :
  named_vars (ex_block l names).
Proof.
  unfold named_vars, ex_block. cbn [vars].
  induction names as [|name names IH] using rev_ind; intros k v.
  - unfold py_dict. cbn. by rewrite lookup_empty.
  - rewrite map_app. cbn [map]. rewrite py_dict_snoc.
    intros [[<- <-]|[_ H]]%lookup_insert_Some; [done|]. by apply IH.
Qed.

(** The fetch of [y] goes to the forward program, whose [relu] writes
    [y]. *)
Lemma program_for_fthenb_and_1f1b_fetch_witness :
  let body := [ex_op "relu" ["h"] ["y"] 0; ex_op "relu_grad" ["y"] ["g"] 1;
               ex_op "sgd" ["w"] ["w"] 2] in
  let fetch_op := ex_op "fetch" ["y"] ["o"] 0 in
  stream_pass ex_is_backward_op ex_is_optimize_op 0 1 2 true fetch_program
    false = Ok fetch_program
  ∧ role_uses (global_block fetch_program)
      (forward_ops ex_is_forward_op body) "y"
  ∧ ∃ fwd bwd opt,
      _program_for_fthenb_and_1f1b ex_is_forward_op ex_is_backward_op
        ex_is_optimize_op 0 1 2 true fetch_program false = Ok [fwd; bwd; opt]
      ∧ ops (global_block fwd)
        = forward_ops ex_is_forward_op body ++ [fetch_op].
Proof.
  intros body fetch_op.
  assert (Hstream : stream_pass ex_is_backward_op ex_is_optimize_op 0 1 2 true
                      fetch_program false = Ok fetch_program)
    by (vm_compute; reflexivity).
  assert (Hsubs : sub_blocks fetch_program = []) by reflexivity.
  assert (Hops : ops (global_block fetch_program) = body ++ [fetch_op])
    by reflexivity.
  assert (Hbody : Forall (λ op, _is_fetch_op op = false
                            ∧ classified ex_is_forward_op ex_is_backward_op
                                ex_is_optimize_op op) body).
  { constructor; [split; [reflexivity|left; vm_compute; reflexivity]|].
    constructor; [split; [reflexivity|right; left; vm_compute; reflexivity]|].
    constructor; [split; [reflexivity|right; right; vm_compute; reflexivity]|].
    constructor. }
  assert (Hfetch : _is_fetch_op fetch_op = true) by reflexivity.
  assert (Hin : input_arg_names fetch_op = "y" :: []) by reflexivity.
  assert (Hwf : named_vars (global_block fetch_program))
    by apply ex_block_named.
  assert (Hused : role_uses (global_block fetch_program)
                    (forward_ops ex_is_forward_op body) "y").
  { split; [eexists; vm_compute; reflexivity|].
    exists (ex_op "relu" ["h"] ["y"] 0). split.
    - apply list_elem_of_filter. split; [vm_compute; exact I|left].
    - right. left. }
  split; [exact Hstream|]. split; [exact Hused|].
  destruct (program_for_fthenb_and_1f1b_fetch ex_is_forward_op
              ex_is_backward_op ex_is_optimize_op 0 1 2 true fetch_program
              fetch_program false body fetch_op "y" [] Hstream Hsubs Hops
              Hbody Hfetch Hin Hwf)
    as (fwd & bwd & opt & Hpass & Hfwd & _).
  exists fwd, bwd, opt. split; [exact Hpass|].
  exact (proj1 (Hfwd Hused)).
Defined.

(** ** [_create_var]: what is copied *)

(** X30: [_create_var] fails with a [ValueError] when the name has no
    declaration to copy: in the source block itself without
    [force_create], along the chain of parent blocks with it.  When the
    name resolves to a declaration whose name the destination does not
    declare yet and [_create_var] returns, it has declared in the
    destination, under the same name, a copy that keeps type, name, error
    clip and the stop-gradient, data and optimizer flags.  A variable of a
    no-shape type (reader, step scopes, tensor array, feed or fetch list)
    is copied without shape, dtype and LoD level and never as a parameter;
    any other variable keeps shape, dtype and LoD level, stays a parameter
    with its training attributes when it is one, and keeps its
    persistability when it is not.  The operators and the other
    declarations of the destination are not touched. *)
Theorem create_var_copy (src_prog : Program) (src_block dst : Block)
    (name : string) (force_create : bool) :
  (source_var src_prog src_block force_create name = None →
   ∃ msg, _create_var src_prog src_block dst name force_create
          = Raise (ValueError msg))
  ∧ (∀ v dst',
       source_var src_prog src_block force_create name = Some v →
       vars dst !! var_name v = None →
       _create_var src_prog src_block dst name force_create = Ok dst' →
       ∃ d, dst' = set_vars dst (<[var_name v := d]> (vars dst))
            ∧ var_type d = var_type v ∧ var_name d = var_name v
            ∧ error_clip d = error_clip v
            ∧ stop_gradient d = stop_gradient v ∧ is_data d = is_data v
            ∧ belong_to_optimizer d = belong_to_optimizer v
            ∧ (var_type v ∈ __not_shape_var_type__ →
               shape d = None ∧ dtype d = None ∧ lod_level d = None
               ∧ param_attrs d = None ∧ persistable d = persistable v)
            ∧ ((var_type v ∉ __not_shape_var_type__) →
               shape d = shape v ∧ dtype d = dtype v
               ∧ lod_level d = lod_level v ∧ param_attrs d = param_attrs v
               ∧ (param_attrs v = None → persistable d = persistable v))).
Proof.
  split.
  - unfold source_var, _create_var, var, _var_recursive.
    destruct force_create; cbn [negb]; intros ->; by eexists.
  - intros v dst' Hv Hnew Hrun. exists (copied_decl v).
    rewrite (_create_var_declared _ _ _ _ _ _ Hv) in Hrun.
    injection Hrun as <-. unfold declare, has_var.
    rewrite copied_decl_name.
    rewrite bool_decide_eq_false_2 by (rewrite Hnew; by intros [? ?]).
    split; [done|].
    unfold copied_decl.
    destruct (decide (var_type v ∈ __not_shape_var_type__)) as [Hns|Hns].
    + cbn. by split_and!.
    + destruct (param_attrs v) as [pa|] eqn:Hpa; cbn.
      * split_and!; try done.
        all: intros _; split_and!; try done.
        all: by destruct pa.
      * split_and!; try done.
        all: intros _; by split_and!.
Qed.
